(* ===== verification/_CoqProject ===== *)
-Q . S2P
Prelude.v
GoSort.v
GoFmt.v
GoStrings.v
NetIP.v
NetIP6.v
Arp.v
Dns.v
Icmp.v
Crc32.v
Ring.v
RingSpec.v
Router.v
PacketProg.v
Consensus.v
Registry.v
Config.v
HttpApi.v
NodeManager.v
LbServer.v
Client.v
Dispatcher.v
Targets.v
NodeApp.v
LbApp.v
System.v
