(* ===== verification/Prelude.v ===== *)
(** * GaleLB: a verification library for the load balancer and its node agent

    ** The program

    GaleLB is two Go programs.  The load balancer ([cmd/lb]) keeps a registry of
    the nodes that report to it over gRPC ([pkg/lbnetwork/nodemanager],
    [pkg/registry]) and has a consistent-hashing ring, a loader for packet
    programs and the packet programs themselves for the traffic
    ([pkg/routing]).  The node agent ([cmd/node]) resolves the addresses
    of its load balancers ([pkg/util]), asks each for its configuration, and
    reports its health to each in a goroutine of a dispatcher
    ([pkg/nodenetwork]), which an HTTP API can start and stop
    ([pkg/nodenetwork/api/v1]).  Both read flags and a file ([config]).

    ** The files

    Standard library (what the source uses of it, modelled):
    - [Prelude]: integers at their width, bytes, results and errors, the hint
      database and tactics, generic lemmas.
    - [GoSort], [GoFmt], [GoStrings]: [sort.Slice], [sort.Search], the verb [%d],
      and the functions of [strings].
    - [NetIP]: [netip.ParseAddr], [net.ParseIP], [IP.To4], [IP.String]; [NetIP6]:
      the round trip of printing and parsing for all addresses.
    - [Crc32]: [crc32.ChecksumIEEE], table driven, with a bitwise reference.

    The components, each with its state, one definition per operation, its
    invariant and its theorems:
    - [Arp] ([util.go], [arp.go]), [Dns] ([dns.go]), [Icmp] ([icmp.go]).  The two
      functions that start goroutines ([sendAndReceiveMDNS], [Ping]) are step
      functions over schedules.
    - [Ring] ([ring.go], [hashing.go]): [ring_t] is the struct, [addNode],
      [removeNode] and [getNode] the methods; [owns] is the specification.
    - [RingSpec]: a reference implementation of the ring ([circle]), and the size
      of the ring.
    - [Router] ([router.go], [xdp.go]): [loadProgram] as a trace of kernel events
      with its deferred closes.
    - [PacketProg] ([router.c]): [dnat_prog] and [snat_prog] on the bytes of a
      packet, the connection map and the checksum helpers of the kernel behind
      the class [Bpf] with [BpfLaws].
    - [Consensus]: the statuses and messages of the protocol.
    - [Registry]: the registry; its specification is a log of operations; the
      class [HealthRegistry] with [HealthRegistryLaws] is what it promises to
      [NodeManager].
    - [Config]: modules [LB] and [Node], one per configuration package.
    - [HttpApi]: modules [NodeAPI] and [LbAPI], the two HTTP servers with their
      start and shutdown.
    - [NodeManager] ([node_manager.go]): [connect] is the set-up of a stream;
      [conn] and [step] are its listener and handler goroutines with their
      channels, the timer and the clock.
    - [LbServer] ([node_manager.go]): the service object and all connections of
      a process over one registry and one clock, with [sstep].
    - [Client] ([client.go]): the gRPC client of a node.
    - [Dispatcher] ([dispatcher.go]): the struct, the contexts, the
      calls of [Start] in progress and the report loops, with [dstep].
    - [Targets] ([cmd/node/main.go]): [retrieveIPAndPorts], [resolveHostname].
    - [NodeApp] ([cmd/node], node API): the process around the dispatcher.
    - [LbApp] ([cmd/lb], [node_manager_server.go], load-balancer API).
    - [System]: the two programs together: a report loop, the messages on their
      way and the connection at the load balancer, in time ([lstep]).

    ** How concurrency is modelled

    A goroutine is a program counter; an action is what happens between two
    points at which another goroutine can interfere: a channel operation, a
    section under the mutex, a call of the outside world that returns.  A
    schedule is a list of actions, executed by [run_steps], and a step function
    returns [None] when the action cannot happen.  The theorems quantify over all schedules.  What the
    outside world answers comes with the action or in a record of functions.
    Channels are lists with a capacity, time is an integer of nanoseconds that
    never decreases, timers follow the rules of Go 1.23 and later.

    ** What the theorems show

    - Routing: the ring stays sorted and in agreement with its map; binary search
      finds the owner, and there is a panic exactly on an empty slice; which keys
      adding or removing a node can move, collisions of hashes included; adding
      and then removing a node is the removal alone, and when that restores the
      ring; additions commute; the points of one node do not collide; after every
      history the ring answers as a reference without slice, sorting, binary
      search or table; its size is bounded.  Two defects: the zero points of a new ring, and the panic on an
      empty one.  The XDP loader releases everything on every path, the path
      without error included.
    - Packets: the packet programs stay inside every packet and touch nothing but
      the two addresses and four more bytes; what the translation of a request
      does; why replies are not translated back, and what happens to a packet
      that is.
    - Health: the registry refines a log; the streak of a node counts the checks
      its connection accepted; a node is timed out exactly when it was silent for
      the timeout, whatever other nodes do, because each of many connections
      refines a connection on its own; a node that reports at the period it
      derives from the announced timeout is never timed out as long as lateness
      and delivery together stay below half of it.  Defects: sends on closed
      channels, which end the process for all nodes, and a stream that only
      fails but counts as healthy under every schedule.  Two connections share a
      registry key only if their peers have the same address, zone and port.
    - Dispatcher: every report goes to a configured target; after a [Stop] that
      no other [Start] follows, a goroutine sends at most the one report it was
      already past its select for, and everything terminates; the status is
      accurate without [Stop]; the races of restarts and failed starts.
    - Addresses: the ARP parser inverts the kernel's format; the interface lookup
      returns a parsable IPv4 address; the mDNS query decodes; results of the
      exchange come from the network; it always returns; the targets are exactly
      those configured.
    - Configuration: flags before file before defaults, for every setting of the
      load balancer, given that viper decodes a file field by field; the addresses
      given to a node as flags are refused.
    - Processes: a stop request that no other request follows ends the node; the
      HTTP API of the load balancer does not start.

    ** Bounds

    Integers are of type [Z] with [uwrap] and [swrap] where the width matters
    (the streak counter, the conversions of [GetConfig], the hash).  [search]
    runs with as much fuel as the slice is long, and [search_spec] shows that it
    suffices; [parseIPv6_loop] has fuel for the eight groups of an address, as
    the loop of the library has; the decoder of DNS names, a specification, has
    fuel for the whole packet.  All other recursion is structural.

    ** What is not modelled, and the plan

    gRPC, gin, cobra, viper, the eBPF library and the kernel, the ARP and ICMP
    packages and the operating system are parameters, with laws where a theorem
    relies on them.  Of [net/http] only the end of a server is modelled.  Logging
    has no effect and is left out, the choice between two log messages for a
    failed report included.  The loading of the packet programs by the verifier
    of the kernel is not modelled: [PacketProg] is about what they do once they
    run.  The package [mesh] is empty; tests, deployment and generated code are
    not part of the model.  The ring and the registry are not connected in the
    source: the load balancer does not create a router yet, so there is no
    composition of the two to verify. *)

From Stdlib Require Export Ascii.
From stdpp Require Export base tactics option list strings gmap sorting pretty.
From stdpp Require Export numbers list_numbers.
From Stdlib.Strings Require Export Byte.
From Stdlib Require Export ZArith Lia.

#[global] Open Scope Z_scope.

(** ** Fixed-width integers

    A Go integer of width [w] is an integer of [Z] kept in range by an explicit
    reduction: [uwrap] for the unsigned types, [swrap] (two's complement) for
    the signed ones.  [uint] and [int] are 64 bits wide: the program requires a
    64-bit architecture. *)
Definition uwrap (w x : Z) : Z := x mod 2 ^ w.

Definition swrap (w x : Z) : Z := (x + 2 ^ (w - 1)) mod 2 ^ w - 2 ^ (w - 1).

Definition u8 : Z → Z := uwrap 8.

Definition u16 : Z → Z := uwrap 16.

Definition u32 : Z → Z := uwrap 32.

Definition u64 : Z → Z := uwrap 64.

Definition i64 : Z → Z := swrap 64.

(** [in_uint w x]: [x] is a value of the unsigned type of width [w]. *)
Definition in_uint (w x : Z) : Prop := 0 ≤ x < 2 ^ w.

(** [in_sint w x]: [x] is a value of the signed type of width [w]. *)
Definition in_sint (w x : Z) : Prop := - 2 ^ (w - 1) ≤ x < 2 ^ (w - 1).

(** Go's integer division truncates towards zero. *)
Definition go_div (x y : Z) : Z := Z.quot x y.

(** [for i := range n] visits [0 .. n-1], and nothing when [n <= 0]. *)
Definition go_range (n : Z) : list Z := seqZ 0 n.

(** ** Bytes *)
#[global] Instance byte_eq_decision : EqDecision byte := Byte.byte_eq_dec.

Definition byte_to_Z (b : byte) : Z := Z.of_N (Byte.to_N b).

Definition byte_of_Z (x : Z) : byte :=
  match Byte.of_N (Z.to_N (u8 x)) with Some b => b | None => x00 end.

(** [[]byte(s)] *)
Definition bytes_of (s : string) : list byte := String.list_byte_of_string s.

(** ** Results of fallible code

    Go's [(T, error)] pairs become [result T E]; code that can stop the process
    by a run-time panic returns an [option] whose [None] is the panic. *)
Inductive result (A E : Type) : Type :=
| Ok (a : A)
| Err (e : E).
Arguments Ok {A E} _.
Arguments Err {A E} _.

Declare Scope go_scope.
Delimit Scope go_scope with go.

Notation "'let?' x ':=' c1 'in' c2" :=
  (match c1 with Ok x => c2 | Err e => Err e end)
  (at level 10, x pattern, c1 at level 100, c2 at level 200) : go_scope.

(** An error value: made by the program with [fmt.Errorf] from a message,
    wrapped with a message around another error (the [%w] verb), or produced by
    code outside the repository ([X] is its type). *)
Inductive error (X : Type) : Type :=
| Errorf (msg : string)
| Wrapf (msg : string) (cause : error X)
| Foreign (e : X).
Arguments Errorf {X} _.
Arguments Wrapf {X} _ _.
Arguments Foreign {X} _.

(** ** Schedules

    A component that runs concurrently has a step function, [None] when the
    action cannot happen; a schedule is a list of actions. *)
Fixpoint run_steps {A S} (step : A → S → option S) (as_ : list A) (s : S) : option S :=
  match as_ with
  | [] => Some s
  | a :: as_ => match step a s with Some s => run_steps step as_ s | None => None end
  end.

(** ** Hint databases and tactics *)
Create HintDb gale.

(** Case analysis on the outcome of a step function: [H] says that the step gave a
    state, the cases in which it gives none disappear. *)
Ltac step_cases H := simpl in H; repeat (case_match; try discriminate); simplify_eq/=.

(** Proves a decidable proposition about closed terms by evaluating it. *)
Ltac by_decide :=
  match goal with |- ?P => refine (bool_decide_unpack P _); vm_compute; exact I end.

(** The same for a bounded quantification over the elements of a closed list. *)
Ltac by_forall :=
  match goal with
  | |- ∀ x, x ∈ ?l → @?P x => refine (proj1 (Forall_forall P l) _); by_decide
  end.

(** ** Generic lemmas: schedules *)
Section Schedules.

Context {A S : Type} (step : A → S → option S).

(** A property of the actions executed and the state, kept by every step. *)
Lemma run_steps_trace_inv (I : list A → S → Prop) :
  (∀ tr a s s', step a s = Some s' → I tr s → I (tr ++ [a]) s') →
  ∀ as_ tr s s', run_steps step as_ s = Some s' → I tr s → I (tr ++ as_) s'.
Proof.
  intros Hstep. induction as_ as [|a as_ IH]; intros tr s s' Hr Hi; simpl in Hr.
  - simplify_eq. by rewrite app_nil_r.
  - destruct (step a s) as [s1|] eqn:Es; [|done].
    change (a :: as_) with ([a] ++ as_). rewrite app_assoc. by eapply IH, Hstep.
Qed.

(** A property of the state, kept by every step with an action that satisfies
    [p]. *)
Lemma run_steps_inv (p : A → bool) (I : S → Prop) :
  (∀ a s s', p a = true → step a s = Some s' → I s → I s') →
  ∀ as_ s s', forallb p as_ = true → run_steps step as_ s = Some s' → I s → I s'.
Proof.
  intros Hstep. induction as_ as [|a as_ IH]; intros s s' Hp Hr Hi; simpl in *; [by simplify_eq|].
  apply andb_true_iff in Hp as [Ha Hp]. destruct (step a s) as [s1|] eqn:Es; [|done].
  by eapply IH; [done|done|]; eapply Hstep.
Qed.

(** A weight that every step lowers while [I] holds bounds the schedules. *)
Lemma run_steps_weight (p : A → bool) (I : S → Prop) (weight : S → nat) :
  (∀ a s s', p a = true → step a s = Some s' → I s → I s' ∧ (weight s' < weight s)%nat) →
  ∀ as_ s s', forallb p as_ = true → run_steps step as_ s = Some s' → I s →
    I s' ∧ (weight s' + length as_ ≤ weight s)%nat.
Proof.
  intros Hstep. induction as_ as [|a as_ IH]; intros s s' Hp Hr Hi; simpl in *.
  - simplify_eq. split; [done|lia].
  - apply andb_true_iff in Hp as [Ha Hp]. destruct (step a s) as [s1|] eqn:Es; [|done].
    destruct (Hstep a s s1 Ha Es Hi) as [Hi1 Hlt]. destruct (IH s1 s' Hp Hr Hi1) as [Hi2 Hle].
    split; [done|lia].
Qed.

Lemma run_steps_app as1 as2 s :
  run_steps step (as1 ++ as2) s = run_steps step as1 s ≫= run_steps step as2.
Proof. revert s. induction as1 as [|a as1 IH]; intros s; simpl; [done|]. by destruct (step a s). Qed.

End Schedules.

Lemma forallb_true {A} (l : list A) : forallb (λ _, true) l = true.
Proof. by induction l. Qed.

(** ** Generic lemmas: integers *)
Lemma uwrap_range w x : 0 ≤ w → in_uint w (uwrap w x).
Proof. intros. apply Z.mod_pos_bound. lia. Qed.

Lemma uwrap_small w x : in_uint w x → uwrap w x = x.
Proof. apply Z.mod_small. Qed.

Lemma uwrap_add_l w x y : uwrap w (uwrap w x + y) = uwrap w (x + y).
Proof. unfold uwrap. apply Zplus_mod_idemp_l. Qed.

Lemma swrap_range w x : 0 < w → in_sint w (swrap w x).
Proof.
  intros. unfold swrap, in_sint.
  assert (2 ^ w = 2 * 2 ^ (w - 1)) as Hp.
  { replace w with (Z.succ (w - 1)) at 1 by lia. apply Z.pow_succ_r. lia. }
  pose proof (Z.mod_pos_bound (x + 2 ^ (w - 1)) (2 ^ w) ltac:(lia)). lia.
Qed.

Lemma swrap_small w x : 0 < w → in_sint w x → swrap w x = x.
Proof.
  intros ? Hx. unfold swrap, in_sint in *.
  assert (2 ^ w = 2 * 2 ^ (w - 1)) as Hp.
  { replace w with (Z.succ (w - 1)) at 1 by lia. apply Z.pow_succ_r. lia. }
  rewrite Z.mod_small by lia. lia.
Qed.

#[export] Hint Resolve uwrap_range swrap_range : gale.

Lemma go_range_elem n i : i ∈ go_range n ↔ 0 ≤ i < n.
Proof. unfold go_range. rewrite elem_of_seqZ. lia. Qed.

Lemma go_range_NoDup n : NoDup (go_range n).
Proof. apply NoDup_seqZ. Qed.

Lemma byte_to_Z_range b : in_uint 8 (byte_to_Z b).
Proof. unfold in_uint, byte_to_Z. pose proof (Byte.to_N_bounded b). change (2 ^ 8) with 256. lia. Qed.

Lemma byte_to_of_Z x : byte_to_Z (byte_of_Z x) = u8 x.
Proof.
  unfold byte_of_Z, byte_to_Z.
  pose proof (uwrap_range 8 x ltac:(lia)) as Hr. fold (u8 x) in Hr.
  change (in_uint 8 (u8 x)) with (0 ≤ u8 x < 256) in Hr.
  destruct (Byte.of_N (Z.to_N (u8 x))) eqn:E.
  - apply Byte.to_of_N in E. rewrite E. lia.
  - apply Byte.of_N_None_iff in E. lia.
Qed.

Lemma byte_of_to_Z b : byte_of_Z (byte_to_Z b) = b.
Proof.
  unfold byte_of_Z, u8. rewrite uwrap_small by apply byte_to_Z_range.
  unfold byte_to_Z. rewrite N2Z.id, Byte.of_to_N. done.
Qed.

Lemma byte_to_Z_inj b1 b2 : byte_to_Z b1 = byte_to_Z b2 → b1 = b2.
Proof. intros E. by rewrite <- (byte_of_to_Z b1), E, byte_of_to_Z. Qed.

#[export] Hint Resolve byte_to_Z_range : gale.

(** ** Generic lemmas: strings and bytes *)
Lemma string_app_cons c (s1 s2 : string) : String c s1 +:+ s2 = String c (s1 +:+ s2).
Proof. done. Qed.

Lemma string_app_nil_l (s : string) : EmptyString +:+ s = s.
Proof. done. Qed.

Lemma string_app_assoc (s1 s2 s3 : string) : (s1 +:+ s2) +:+ s3 = s1 +:+ (s2 +:+ s3).
Proof. induction s1 as [|c s1 IH]; [done|]. by rewrite !string_app_cons, IH. Qed.

Lemma string_app_nil_r (s : string) : s +:+ EmptyString = s.
Proof. induction s as [|c s IH]; [done|]. by rewrite string_app_cons, IH. Qed.

Lemma string_app_length (s1 s2 : string) :
  String.length (s1 +:+ s2) = (String.length s1 + String.length s2)%nat.
Proof. induction s1 as [|c s1 IH]; [done|]. rewrite string_app_cons. simpl. by rewrite IH. Qed.

Lemma bytes_of_cons c s : bytes_of (String c s) = Ascii.byte_of_ascii c :: bytes_of s.
Proof. done. Qed.

Lemma bytes_of_app s1 s2 : bytes_of (s1 +:+ s2) = bytes_of s1 ++ bytes_of s2.
Proof. induction s1 as [|c s1 IH]; [done|]. by rewrite string_app_cons, !bytes_of_cons, IH. Qed.

Lemma bytes_of_length s : length (bytes_of s) = String.length s.
Proof. induction s as [|c s IH]; [done|]. rewrite bytes_of_cons. simpl. by rewrite IH. Qed.

Lemma bytes_of_inj s1 s2 : bytes_of s1 = bytes_of s2 → s1 = s2.
Proof.
  intros E. rewrite <- (String.string_of_list_byte_of_string s1).
  rewrite <- (String.string_of_list_byte_of_string s2). by f_equal.
Qed.
