(* ===== verification/GoSort.v ===== *)
(** * [sort.Slice] and [sort.Search] of Go's standard library

    What the routing ring uses of package [sort].  [sort.Slice] does not fix its
    algorithm, and on a total order it does not matter: the sorted permutation
    of a list is unique ([sort_slice_unique]).  [sort.Search] is the binary
    search of the library, loop and midpoint included; its predicate may panic,
    which the [option] carries. *)

From S2P Require Import Prelude.

#[global] Instance Z_le_total : Total Z.le.
Proof. intros x y. destruct (Z.le_ge_cases x y); auto. Qed.

(** [sort.Slice(s, func(i, j int) bool { return s[i] < s[j] })] on a [[]uint32] *)
Definition sort_slice (l : list Z) : list Z := merge_sort Z.le l.

(** The loop of [sort.Search]: [f(i-1) == false], [f(j) == true].  Each round
    halves [j - i], so [fuel] larger than [j - i] is never used up. *)
Fixpoint search_loop (fuel : nat) (f : nat → option bool) (i j : nat) : option nat :=
  match fuel with
  | O => Some i
  | S fuel =>
      if decide (i < j)%nat then
        let h := ((i + j) / 2)%nat in
        match f h with
        | None => None
        | Some false => search_loop fuel f (h + 1)%nat j
        | Some true => search_loop fuel f i h
        end
      else Some i
  end.

Definition search (n : nat) (f : nat → option bool) : option nat :=
  search_loop (S n) f 0 n.

Lemma sort_slice_sorted l : Sorted Z.le (sort_slice l).
Proof. apply Sorted_merge_sort, _. Qed.

Lemma sort_slice_perm l : sort_slice l ≡ₚ l.
Proof. apply merge_sort_Permutation. Qed.

Lemma sort_slice_unique l l' : Sorted Z.le l' → l' ≡ₚ l → sort_slice l = l'.
Proof.
  intros Hs Hp. apply (Sorted_unique Z.le); [apply sort_slice_sorted|done|].
  by rewrite sort_slice_perm.
Qed.

Lemma sort_slice_perm_eq l1 l2 : l1 ≡ₚ l2 → sort_slice l1 = sort_slice l2.
Proof.
  intros Hp. apply sort_slice_unique; [apply sort_slice_sorted|].
  by rewrite sort_slice_perm.
Qed.

Lemma sort_slice_id l : Sorted Z.le l → sort_slice l = l.
Proof. intros. by apply sort_slice_unique. Qed.

Lemma elem_of_sort_slice x l : x ∈ sort_slice l ↔ x ∈ l.
Proof. by rewrite sort_slice_perm. Qed.

#[export] Hint Resolve sort_slice_sorted sort_slice_perm : gale.

(** A sorted list, read by position. *)
Lemma sorted_lookup_le (l : list Z) i j x y :
  Sorted Z.le l → l !! i = Some x → l !! j = Some y → (i ≤ j)%nat → x ≤ y.
Proof.
  intros Hs%Sorted_StronglySorted; [|apply _].
  revert i j. induction Hs as [|z l Hs IH Hall]; intros i j Hi Hj Hij; [done|].
  destruct i as [|i], j as [|j]; simplify_eq/=; [lia| |lia|].
  - rewrite Forall_lookup in Hall. eauto.
  - apply (IH i j); auto with lia.
Qed.

(** [sort.Search] on a predicate that does not panic below [n] and is monotone
    there returns the least index at which it holds, or [n]. *)
Lemma search_loop_spec fuel (f : nat → option bool) (p : nat → bool) n i j :
  (∀ k, k < n → f k = Some (p k))%nat →
  (∀ k k', k ≤ k' → k' < n → p k = true → p k' = true)%nat →
  (j - i < fuel)%nat → (i ≤ j ≤ n)%nat →
  (∀ k, k < i → p k = false)%nat →
  (∀ k, j ≤ k → k < n → p k = true)%nat →
  ∃ r, search_loop fuel f i j = Some r ∧ (r ≤ n)%nat ∧
    (∀ k, k < r → p k = false)%nat ∧ (∀ k, r ≤ k → k < n → p k = true)%nat.
Proof.
  intros Hf Hmono. revert i j.
  induction fuel as [|fuel IH]; intros i j Hfuel Hij Hlo Hhi; [lia|]. cbn [search_loop].
  case_decide as Hlt; [|exists i; repeat split; eauto with lia].
  cbv zeta. set (h := ((i + j) / 2)%nat).
  assert (i ≤ h < j)%nat as [? ?].
  { split; [apply Nat.div_le_lower_bound; lia|apply Nat.Div0.div_lt_upper_bound; lia]. }
  clearbody h. rewrite (Hf h) by lia. destruct (p h) eqn:Hh.
  - apply IH; [lia|lia|done|]. intros k ??. destruct (decide (j ≤ k)%nat); eauto with lia.
  - apply IH; [lia|lia| |done]. intros k ?.
    destruct (p k) eqn:Hk; [|done]. rewrite (Hmono k h) in Hh; [done|lia|lia|done].
Qed.

Lemma search_spec n (f : nat → option bool) (p : nat → bool) :
  (∀ k, k < n → f k = Some (p k))%nat →
  (∀ k k', k ≤ k' → k' < n → p k = true → p k' = true)%nat →
  ∃ r, search n f = Some r ∧ (r ≤ n)%nat ∧
    (∀ k, k < r → p k = false)%nat ∧ (∀ k, r ≤ k → k < n → p k = true)%nat.
Proof.
  intros Hf Hm. unfold search. apply (search_loop_spec _ _ _ _ 0 n Hf Hm); auto with lia.
Qed.
