(* ===== verification/GoFmt.v ===== *)
(** * The formatting verbs of package [fmt] that the program relies on

    [%d] of an integer is its decimal numeral, and the keys the program builds
    join numerals with separators that never occur inside a numeral.  The lemmas
    say when such a key determines its parts. *)

From S2P Require Import Prelude.

(** [fmt.Sprintf("%d", n)] *)
Definition fmt_d (n : Z) : string := pretty n.

(** Every character of a string satisfies [p]. *)
Fixpoint str_all (p : ascii → bool) (s : string) : bool :=
  match s with EmptyString => true | String c s => p c && str_all p s end.

Definition is_digit (c : ascii) : bool :=
  match Ascii.is_nat c with Some _ => true | None => false end.

(** [str_free c s]: the character [c] does not occur in [s]. *)
Definition str_free (c : ascii) (s : string) : bool :=
  str_all (λ x, negb (Ascii.eqb x c)) s.

Lemma str_all_app p s1 s2 : str_all p (s1 +:+ s2) = str_all p s1 && str_all p s2.
Proof.
  induction s1 as [|c s1 IH]; [done|].
  rewrite string_app_cons. simpl. by rewrite IH, andb_assoc.
Qed.

Lemma str_all_impl (p q : ascii → bool) s :
  (∀ c, p c = true → q c = true) → str_all p s = true → str_all q s = true.
Proof.
  intros Hpq. induction s as [|c s IH]; [done|]. simpl.
  intros [? ?]%andb_true_iff. apply andb_true_iff. naive_solver.
Qed.

Lemma pretty_N_char_digit x : is_digit (pretty_N_char x) = true.
Proof. unfold pretty_N_char. repeat case_match; done. Qed.

Lemma pretty_N_go_digits x s :
  str_all is_digit s = true → str_all is_digit (pretty_N_go x s) = true.
Proof.
  revert s. induction (N.lt_wf_0 x) as [x _ IH]; intros s Hs.
  destruct (decide (x = 0)%N) as [->|]; [by rewrite pretty_N_go_0|].
  rewrite pretty_N_go_step by lia. apply IH; [apply N.div_lt; lia|].
  simpl. by rewrite pretty_N_char_digit, Hs.
Qed.

Lemma fmt_d_digits n : 0 ≤ n → str_all is_digit (fmt_d n) = true.
Proof.
  intros Hn. unfold fmt_d, pretty, pretty_Z. destruct n as [|p|p]; [done| |lia].
  unfold pretty, pretty_positive, pretty, pretty_N.
  case_decide; [done|]. by apply pretty_N_go_digits.
Qed.

Lemma fmt_d_inj n m : fmt_d n = fmt_d m → n = m.
Proof. apply (inj pretty). Qed.

(** A character that is no digit does not occur in a numeral. *)
Lemma fmt_d_free c n : 0 ≤ n → is_digit c = false → str_free c (fmt_d n) = true.
Proof.
  intros Hn Hc. eapply str_all_impl; [|by apply fmt_d_digits].
  intros x Hx. simpl. destruct (Ascii.eqb_spec x c) as [->|]; [congruence|done].
Qed.

Lemma str_free_app c s1 s2 : str_free c (s1 +:+ s2) = str_free c s1 && str_free c s2.
Proof. apply str_all_app. Qed.

(** Cutting a string at the first occurrence of a separator. *)
Lemma sep_app_inj c a a' b b' :
  str_free c a = true → str_free c a' = true →
  a +:+ String c b = a' +:+ String c b' → a = a' ∧ b = b'.
Proof.
  unfold str_free. revert a'.
  induction a as [|x a IH]; intros [|y a'] Ha Ha' E;
    rewrite ?string_app_cons, ?string_app_nil_l in E; simpl in *; injection E; intros; subst.
  - done.
  - by destruct (Ascii.eqb_spec y y).
  - by destruct (Ascii.eqb_spec c c).
  - apply andb_true_iff in Ha as [_ Ha]. apply andb_true_iff in Ha' as [_ Ha'].
    by destruct (IH a') as [-> ->].
Qed.

#[export] Hint Resolve fmt_d_free fmt_d_digits : gale.
