(* ===== verification/GoStrings.v ===== *)
(** * The functions of package [strings] that the program relies on

    Go strings are byte strings, as [string] is here.  Separators and suffixes
    are the ones the program uses: one character for [SplitN], white space for
    [Fields] (of text without multi-byte characters, where the Unicode spaces
    beyond ASCII do not occur), a constant for [HasSuffix] and [TrimSuffix]. *)

From S2P Require Import Prelude GoFmt.

(** The text before and after the first [c]. *)
Fixpoint cut (c : ascii) (s : string) : option (string * string) :=
  match s with
  | EmptyString => None
  | String x s =>
      if Ascii.eqb x c then Some (EmptyString, s)
      else (λ '(a, b), (String x a, b)) <$> cut c s
  end.

(** [strings.SplitN(s, c, n)]: at most [n] parts, the last one unsplit. *)
Fixpoint SplitN (c : ascii) (n : nat) (s : string) : list string :=
  match n with
  | O => []
  | S O => [s]
  | S n => match cut c s with None => [s] | Some (a, b) => a :: SplitN c n b end
  end.

(** The loop of [strings.Fields]: [cur] is the field being read. *)
Fixpoint fields_loop (s : string) (cur : string) : list string :=
  match s with
  | EmptyString => if decide (cur = EmptyString) then [] else [cur]
  | String c s =>
      if Ascii.is_space c then
        if decide (cur = EmptyString) then fields_loop s EmptyString
        else cur :: fields_loop s EmptyString
      else fields_loop s (cur +:+ String c EmptyString)
  end.

Definition Fields (s : string) : list string := fields_loop s EmptyString.

(** The string without its first [n] characters. *)
Fixpoint str_drop (n : nat) (s : string) : string :=
  match n, s with
  | O, _ => s
  | S n, String _ s => str_drop n s
  | S _, EmptyString => EmptyString
  end.

Fixpoint str_take (n : nat) (s : string) : string :=
  match n, s with
  | S n, String c s => String c (str_take n s)
  | _, _ => EmptyString
  end.

Definition HasSuffix (s suffix : string) : bool :=
  bool_decide (String.length suffix ≤ String.length s)%nat &&
  bool_decide (str_drop (String.length s - String.length suffix) s = suffix).

Definition TrimSuffix (s suffix : string) : string :=
  if HasSuffix s suffix then str_take (String.length s - String.length suffix) s else s.

Lemma cut_app c a b : str_free c a = true → cut c (a +:+ String c b) = Some (a, b).
Proof.
  unfold str_free. induction a as [|x a IH]; simpl; intros Ha; [rewrite ?string_app_nil_l; simpl|].
  - by destruct (Ascii.eqb_spec c c).
  - apply andb_true_iff in Ha as [Hx Ha]. rewrite ?string_app_cons. simpl.
    apply negb_true_iff in Hx. rewrite Hx, IH; done.
Qed.

Lemma cut_None c s : str_free c s = true → cut c s = None.
Proof.
  unfold str_free. induction s as [|x s IH]; simpl; intros Hs; [done|].
  apply andb_true_iff in Hs as [Hx Hs]. apply negb_true_iff in Hx. by rewrite Hx, IH.
Qed.

Lemma str_take_app a b : str_take (String.length a) (a +:+ b) = a.
Proof. induction a as [|c a IH]; [by destruct b|]. rewrite string_app_cons. simpl. by rewrite IH. Qed.

Lemma str_drop_app a b : str_drop (String.length a) (a +:+ b) = b.
Proof. induction a as [|c a IH]; [done|]. rewrite string_app_cons. simpl. done. Qed.

Lemma str_take_drop n s : str_take n s +:+ str_drop n s = s.
Proof.
  revert s. induction n as [|n IH]; intros [|c s]; simpl; try done.
  rewrite string_app_cons. by rewrite IH.
Qed.

Lemma HasSuffix_app s suffix : HasSuffix s suffix = true ↔ ∃ p, s = p +:+ suffix.
Proof.
  unfold HasSuffix. rewrite andb_true_iff, !bool_decide_eq_true. split.
  - intros [Hl Hd]. exists (str_take (String.length s - String.length suffix) s).
    rewrite <- Hd at 2. by rewrite str_take_drop.
  - intros [p ->]. rewrite string_app_length. split; [lia|].
    replace (_ + _ - _)%nat with (String.length p) by lia. apply str_drop_app.
Qed.

Lemma TrimSuffix_app p suffix : TrimSuffix (p +:+ suffix) suffix = p.
Proof.
  unfold TrimSuffix. rewrite (proj2 (HasSuffix_app _ _)) by eauto.
  rewrite string_app_length. replace (_ + _ - _)%nat with (String.length p) by lia.
  apply str_take_app.
Qed.
