(* ===== verification/NetIP.v ===== *)
(** * IP and hardware addresses ([net], [net/netip])

    What the program uses of the standard library's addresses: parsing
    ([netip.ParseAddr], [net.ParseIP]), printing ([IP.String],
    [HardwareAddr.String]), the four-byte form ([IP.To4]) and the constructor
    [net.IPv4].  An error of the parser is its message, without the position. *)

From S2P Require Import Prelude GoFmt GoStrings.

#[local] Open Scope go_scope.

(** ** Characters *)
Definition char_code (c : ascii) : Z := Z.of_N (N_of_ascii c).

(** The value of [c] when it is one of the characters from [lo] to [hi]. *)
Definition in_chars (lo hi base : Z) (c : ascii) : option Z :=
  if (lo <=? char_code c) && (char_code c <=? hi) then Some (char_code c - lo + base) else None.

Definition digit_val : ascii → option Z := in_chars 48 57 0.

Definition hex_val (c : ascii) : option Z :=
  match in_chars 48 57 0 c with
  | Some v => Some v
  | None => match in_chars 97 102 10 c with Some v => Some v | None => in_chars 65 70 10 c end
  end.

(** ** [netip] *)

(** An address of 4 or of 16 bytes; the latter may have a zone. *)
Inductive Addr :=
| Addr4 (b : list byte)
| Addr16 (b : list byte) (zone : string).

(** The loop of [parseIPv4Fields]: [val] and [digLen] are those of the octet
    being read, [fields] the octets already complete.  A dot with nothing
    before it, at the start or after another dot, has [digLen = 0]. *)
Fixpoint parseIPv4_loop (s : string) (val digLen : Z) (fields : list byte) : result (list byte) string :=
  match s with
  | EmptyString =>
      if (length fields <? 3)%nat then Err "IPv4 address too short"
      else Ok (fields ++ [byte_of_Z val])
  | String c s' =>
      match digit_val c with
      | Some v =>
          if (digLen =? 1) && (val =? 0) then Err "IPv4 field has octet with leading zero"
          else if 255 <? val * 10 + v then Err "IPv4 field has value >255"
          else parseIPv4_loop s' (val * 10 + v) (digLen + 1) fields
      | None =>
          if Ascii.eqb c "." then
            if (digLen =? 0) || (String.eqb s' EmptyString) then Err "IPv4 field must have at least one digit"
            else if (length fields =? 3)%nat then Err "IPv4 address too long"
            else parseIPv4_loop s' 0 0 (fields ++ [byte_of_Z val])
          else Err "unexpected character"
      end
  end.

Definition parseIPv4Fields (s : string) : result (list byte) string := parseIPv4_loop s 0 0 [].

(** A run of at most four hexadecimal digits: the value, how many digits, the
    rest of the string. *)
Fixpoint hex_loop (s : string) (off : nat) (acc : Z) : result (Z * nat * string) string :=
  match s with
  | EmptyString => Ok (acc, off, s)
  | String c s' =>
      match hex_val c with
      | None => Ok (acc, off, s)
      | Some v =>
          if (3 <? off)%nat then Err "each group must have 4 or less digits"
          else if 65535 <? Z.shiftl acc 4 + v then Err "IPv6 field has value >=2^16"
          else hex_loop s' (S off) (Z.shiftl acc 4 + v)
      end
  end.

(** What the loop of [parseIPv6] leaves: the bytes read, the position of the
    ellipsis, the unread rest. *)
Definition v6_state : Type := list byte * option nat * string.

(** The loop, for as many groups as still fit ([fuel] of them: two bytes each). *)
Fixpoint parseIPv6_loop (fuel : nat) (ip : list byte) (ellipsis : option nat) (s : string)
  : result v6_state string :=
  match fuel with
  | O => Ok (ip, ellipsis, s)
  | S fuel =>
      let? (acc, off, rest) := hex_loop s 0 0 in
          if (off =? 0)%nat then Err "each colon-separated field must have at least one digit"
          else
            match rest with
            | String "." _ =>
                match ellipsis with
                | None =>
                    if negb (length ip =? 12)%nat
                    then Err "embedded IPv4 address must replace the final 2 fields of the address"
                    else let? v4 := parseIPv4Fields s in Ok (ip ++ v4, ellipsis, EmptyString)
                | Some _ =>
                    if (16 <? length ip + 4)%nat
                    then Err "too many hex fields to fit an embedded IPv4 at the end of the address"
                    else let? v4 := parseIPv4Fields s in Ok (ip ++ v4, ellipsis, EmptyString)
                end
            | _ =>
                let ip := ip ++ [byte_of_Z (Z.shiftr acc 8); byte_of_Z acc] in
                match rest with
                | EmptyString => Ok (ip, ellipsis, EmptyString)
                | String ":" EmptyString => Err "colon must be followed by more characters"
                | String ":" (String ":" rest') =>
                    match ellipsis with
                    | Some _ => Err "multiple :: in address"
                    | None =>
                        if String.eqb rest' EmptyString then Ok (ip, Some (length ip), EmptyString)
                        else parseIPv6_loop fuel ip (Some (length ip)) rest'
                    end
                | String ":" rest' => parseIPv6_loop fuel ip ellipsis rest'
                | _ => Err "unexpected character, want colon"
                end
            end
  end.

(** The end of [parseIPv6]: the ellipsis stands for the missing zero bytes. *)
Definition parseIPv6_finish (st : v6_state) : result (list byte) string :=
  let '(ip, ellipsis, s) := st in
  if negb (String.eqb s EmptyString) then Err "trailing garbage after address"
  else if (length ip <? 16)%nat then
    match ellipsis with
    | None => Err "address string too short"
    | Some e => Ok (take e ip ++ replicate (16 - length ip) x00 ++ drop e ip)
    end
  else match ellipsis with
       | Some _ => Err "the :: must expand to at least one field of zeros"
       | None => Ok ip
       end.

Definition parseIPv6_nozone (s : string) : result (list byte) string :=
  match s with
  | String ":" (String ":" EmptyString) => Ok (replicate 16 x00)
  | String ":" (String ":" s) =>
      let? st := parseIPv6_loop 8 [] (Some 0%nat) s in parseIPv6_finish st
  | _ => let? st := parseIPv6_loop 8 [] None s in parseIPv6_finish st
  end.

Definition parseIPv6 (s : string) : result Addr string :=
  match cut "%" s with
  | Some (_, EmptyString) => Err "zone must be a non-empty string"
  | Some (s, zone) => let? b := parseIPv6_nozone s in Ok (Addr16 b zone)
  | None => let? b := parseIPv6_nozone s in Ok (Addr16 b EmptyString)
  end.

(** [netip.ParseAddr]: the first dot, colon or percent sign decides. *)
Fixpoint ParseAddr_scan (whole s : string) : result Addr string :=
  match s with
  | EmptyString => Err "unable to parse IP"
  | String c s =>
      if Ascii.eqb c "." then let? b := parseIPv4Fields whole in Ok (Addr4 b)
      else if Ascii.eqb c ":" then parseIPv6 whole
      else if Ascii.eqb c "%" then Err "missing IPv6 address"
      else ParseAddr_scan whole s
  end.

Definition ParseAddr (s : string) : result Addr string := ParseAddr_scan s s.

(** ** [net.IP]: a byte slice, the empty one being nil *)
Definition IP : Type := list byte.

Definition v4InV6Prefix : list byte := replicate 10 x00 ++ [xff; xff].

Definition IPv4 (a b c d : byte) : IP := v4InV6Prefix ++ [a; b; c; d].

(** [Addr.As16] *)
Definition As16 (a : Addr) : list byte :=
  match a with Addr4 b => v4InV6Prefix ++ b | Addr16 b _ => b end.

Definition Zone (a : Addr) : string := match a with Addr4 _ => EmptyString | Addr16 _ z => z end.

(** [net.ParseIP]; the empty slice is the nil result. *)
Definition ParseIP (s : string) : IP :=
  match ParseAddr s with
  | Ok a => if decide (Zone a = EmptyString) then As16 a else []
  | Err _ => []
  end.

Definition To4 (ip : IP) : IP :=
  if (length ip =? 4)%nat then ip
  else if (length ip =? 16)%nat && bool_decide (take 12 ip = v4InV6Prefix) then drop 12 ip
  else [].

(** ** Printing *)
Definition hex_digit (x : Z) : ascii := ascii_of_N (Z.to_N (if x <? 10 then x + 48 else x + 87)).

(** A 16-bit group without leading zeros. *)
Definition appendHex (x : Z) : string :=
  (if 4096 <=? x then String (hex_digit (Z.shiftr x 12)) EmptyString else EmptyString) +:+
  (if 256 <=? x then String (hex_digit (Z.land (Z.shiftr x 8) 15)) EmptyString else EmptyString) +:+
  (if 16 <=? x then String (hex_digit (Z.land (Z.shiftr x 4) 15)) EmptyString else EmptyString) +:+
  String (hex_digit (Z.land x 15)) EmptyString.

(** Two digits of a byte. *)
Definition hex_byte (b : byte) : string :=
  String (hex_digit (Z.shiftr (byte_to_Z b) 4)) (String (hex_digit (Z.land (byte_to_Z b) 15)) EmptyString).

Definition hexString (b : list byte) : string := foldr (λ x s, hex_byte x +:+ s) EmptyString b.

(** Joins with a separator. *)
Fixpoint join (sep : string) (l : list string) : string :=
  match l with
  | [] => EmptyString
  | [x] => x
  | x :: l => x +:+ sep +:+ join sep l
  end.

Definition dotted (b : list byte) : string := join "." ((λ x, fmt_d (byte_to_Z x)) <$> b).

(** The 16-bit groups of 16 bytes. *)
Fixpoint groups (b : list byte) : list Z :=
  match b with
  | hi :: lo :: b => (byte_to_Z hi * 256 + byte_to_Z lo) :: groups b
  | _ => []
  end.

Fixpoint zero_run (l : list Z) : nat :=
  match l with 0 :: l => S (zero_run l) | _ => 0 end.

(** The longest run of at least two zero groups, the first of that length. *)
Fixpoint longest_zeros (i : nat) (l : list Z) (best : nat * nat) : nat * nat :=
  match l with
  | [] => best
  | _ :: l' =>
      let n := zero_run l in
      longest_zeros (S i) l' (if (2 <=? n)%nat && (snd best <? n)%nat then (i, n) else best)
  end.

Definition string6 (b : list byte) : string :=
  let g := groups b in
  let '(start, n) := longest_zeros 0 g (0%nat, 0%nat) in
  if (n =? 0)%nat then join ":" (appendHex <$> g)
  else join ":" (appendHex <$> take start g) +:+ "::" +:+ join ":" (appendHex <$> drop (start + n) g).

(** [IP.String] *)
Definition IP_String (ip : IP) : string :=
  if (length ip =? 0)%nat then "<nil>"
  else if negb ((length ip =? 4)%nat || (length ip =? 16)%nat) then "?" +:+ hexString ip
  else if (length (To4 ip) =? 4)%nat then dotted (To4 ip)
  else string6 ip.

(** [HardwareAddr.String] *)
Definition HardwareAddr_String (mac : list byte) : string := join ":" (hex_byte <$> mac).

(** ** Four-byte addresses *)
Lemma parseIPv4_loop_byte b s fields :
  parseIPv4_loop (fmt_d (byte_to_Z b) +:+ s) 0 0 fields =
  parseIPv4_loop s (byte_to_Z b) (Z.of_nat (String.length (fmt_d (byte_to_Z b)))) fields.
Proof. destruct b; reflexivity. Qed.

Lemma parseIPv4_loop_dot b s fields :
  (length fields < 3)%nat → s ≠ EmptyString →
  parseIPv4_loop (fmt_d (byte_to_Z b) +:+ "." +:+ s) 0 0 fields =
  parseIPv4_loop s 0 0 (fields ++ [b]).
Proof.
  intros Hf Hs. rewrite parseIPv4_loop_byte.
  change ("." +:+ s) with (String "." s). simpl.
  destruct (Z.of_nat (String.length (fmt_d (byte_to_Z b))) =? 0) eqn:E; [by destruct b|].
  destruct (String.eqb_spec s EmptyString); [done|]. simpl.
  destruct (length fields =? 3)%nat eqn:E3; [apply Nat.eqb_eq in E3; lia|].
  by rewrite byte_of_to_Z.
Qed.

Lemma fmt_d_byte_app b s : fmt_d (byte_to_Z b) +:+ s ≠ EmptyString.
Proof. by destruct b. Qed.

Lemma parseIPv4_dotted a b c d : parseIPv4Fields (dotted [a; b; c; d]) = Ok [a; b; c; d].
Proof.
  unfold parseIPv4Fields, dotted. simpl.
  rewrite !parseIPv4_loop_dot by (simpl; first [lia|apply fmt_d_byte_app|by destruct d]).
  rewrite <- (string_app_nil_r (fmt_d (byte_to_Z d))), parseIPv4_loop_byte.
  simpl. by rewrite byte_of_to_Z.
Qed.

Lemma ParseAddr_scan_byte b whole s :
  ParseAddr_scan whole (fmt_d (byte_to_Z b) +:+ String "." s) =
  match parseIPv4Fields whole with Ok b => Ok (Addr4 b) | Err e => Err e end.
Proof. destruct b; reflexivity. Qed.

Lemma ParseAddr_dotted a b c d : ParseAddr (dotted [a; b; c; d]) = Ok (Addr4 [a; b; c; d]).
Proof.
  unfold ParseAddr.
  change (dotted [a; b; c; d]) with
    (fmt_d (byte_to_Z a) +:+ String "." (fmt_d (byte_to_Z b) +:+ "." +:+ fmt_d (byte_to_Z c) +:+ "." +:+
      fmt_d (byte_to_Z d))) at 2.
  by rewrite ParseAddr_scan_byte, parseIPv4_dotted.
Qed.

(** The two forms of a four-byte address. *)
Lemma To4_length ip : To4 ip ≠ [] → length (To4 ip) = 4%nat.
Proof.
  unfold To4. destruct (length ip =? 4)%nat eqn:E4; [intros _; by apply Nat.eqb_eq|].
  destruct (length ip =? 16)%nat eqn:E16; simpl; [|done]. case_bool_decide; [|done]. intros _.
  apply Nat.eqb_eq in E16. rewrite length_drop. lia.
Qed.

Lemma To4_four ip : To4 ip ≠ [] → ∃ a b c d, To4 ip = [a; b; c; d].
Proof.
  intros H%To4_length. destruct (To4 ip) as [|a [|b [|c [|d [|e l]]]]]; simplify_eq/=. eauto.
Qed.

Lemma IP_String_To4 ip : To4 ip ≠ [] → IP_String ip = dotted (To4 ip).
Proof.
  intros H. unfold IP_String. rewrite (To4_length _ H). simpl.
  unfold To4 in H. destruct (length ip =? 0)%nat eqn:E0.
  - apply Nat.eqb_eq in E0. by rewrite E0 in H.
  - destruct (length ip =? 4)%nat; [done|]. by destruct (length ip =? 16)%nat.
Qed.

Lemma ParseIP_String4 ip : To4 ip ≠ [] → ParseIP (IP_String ip) = v4InV6Prefix ++ To4 ip.
Proof.
  intros H. rewrite IP_String_To4 by done. destruct (To4_four ip H) as (a & b & c & d & ->).
  unfold ParseIP. by rewrite ParseAddr_dotted.
Qed.

(** Addresses as the tests of the standard library have them. *)
Example ParseIP_examples :
  IP_String (ParseIP "192.168.1.2") = "192.168.1.2" ∧
  IP_String (ParseIP "2001:4860:0:2001::68") = "2001:4860:0:2001::68" ∧
  IP_String (ParseIP "::ffff:4a7d:1363") = "74.125.19.99" ∧
  IP_String (ParseIP "0:0:0:0:0000:ffff:127.1.2.3") = "127.1.2.3" ∧
  IP_String (ParseIP "2001:db8::1:0:0:1") = "2001:db8::1:0:0:1" ∧
  IP_String (ParseIP "2001:db8:0:0:1:0:0:0") = "2001:db8:0:0:1::" ∧
  IP_String (ParseIP "::1") = "::1" ∧ IP_String (ParseIP "::") = "::" ∧
  ParseIP "127.0.0.256" = [] ∧ ParseIP "abc" = [] ∧ ParseIP "123:" = [] ∧ ParseIP "fe80::1%lo0" = [] ∧
  ParseIP "1.2.3.04" = [] ∧ ParseIP "a1:a2:a3:a4::b1:b2:b3:b4" = [] ∧ ParseIP "::ffff:1.2.3.4.5" = [].
Proof. vm_compute. split_and!; reflexivity. Qed.
