(* ===== verification/NetIP6.v ===== *)
(** * Printing and parsing of IPv6 addresses

    [ParseIP] reads back what [IP.String] prints, for every address of 16
    bytes: the groups, the ellipsis for the longest run of zero groups, and the
    boundary cases of an ellipsis at the start, at the end or alone. *)

From S2P Require Import Prelude GoFmt GoStrings NetIP.

#[local] Open Scope go_scope.

(** ** Characters *)
Definition is_hex (c : ascii) : bool := match hex_val c with Some _ => true | None => false end.

Lemma hex_val_digit x : 0 ≤ x < 16 → hex_val (hex_digit x) = Some x.
Proof.
  intros Hx. assert (Forall (λ x, hex_val (hex_digit x) = Some x) (seqZ 0 16)) as Hall by by_decide.
  rewrite Forall_forall in Hall. apply Hall, elem_of_seqZ. lia.
Qed.

Lemma is_hex_digit x : 0 ≤ x < 16 → is_hex (hex_digit x) = true.
Proof. intros Hx. unfold is_hex. by rewrite hex_val_digit. Qed.

(** A hexadecimal digit is none of the characters that structure an address. *)
Lemma is_hex_other c d : is_hex c = true → is_hex d = false → Ascii.eqb c d = false.
Proof. intros Hc Hd. destruct (Ascii.eqb_spec c d); [congruence|done]. Qed.

(** ** One group *)

(** The two bytes of a group. *)
Definition group_bytes (g : Z) : list byte := [byte_of_Z (Z.shiftr g 8); byte_of_Z g].

(** A group ends where the string does, or at a colon. *)
Definition ends_group (s : string) : bool := match s with EmptyString => true | String c _ => Ascii.eqb c ":" end.

Lemma hex_loop_end s off acc : ends_group s = true → hex_loop s off acc = Ok (acc, off, s).
Proof. destruct s as [|c s]; [done|]. simpl. by intros ->%Ascii.eqb_eq. Qed.

Lemma hex_loop_digit x s off acc :
  0 ≤ x < 16 → (off ≤ 3)%nat → acc * 16 + x ≤ 65535 →
  hex_loop (String (hex_digit x) s) off acc = hex_loop s (S off) (acc * 16 + x).
Proof.
  intros Hx Ho Ha. cbn [hex_loop]. rewrite hex_val_digit by done.
  rewrite Z.shiftl_mul_pow2 by lia. change (2 ^ 4) with 16.
  destruct (3 <? off)%nat eqn:E1; [apply Nat.ltb_lt in E1; lia|].
  destruct (65535 <? acc * 16 + x) eqn:E2; [apply Z.ltb_lt in E2; lia|]. done.
Qed.

(** The four digits of a group. *)
Lemma nibbles g :
  Z.shiftr g 12 = g / 4096 ∧ Z.land (Z.shiftr g 8) 15 = (g / 256) mod 16 ∧
  Z.land (Z.shiftr g 4) 15 = (g / 16) mod 16 ∧ Z.land g 15 = g mod 16.
Proof.
  rewrite !Z.shiftr_div_pow2 by lia. change 15 with (Z.ones 4). rewrite !Z.land_ones by lia. done.
Qed.

(** Pushes a concatenation behind the characters that are known. *)
Ltac str_norm := repeat (rewrite string_app_cons || rewrite string_app_nil_l).

(** Arithmetic with quotients and remainders. *)
Ltac div_lia := Z.to_euclidean_division_equations; lia.

Lemma hex_loop_group g s :
  0 ≤ g < 65536 → ends_group s = true →
  ∃ off, (off =? 0)%nat = false ∧ hex_loop (appendHex g +:+ s) 0 0 = Ok (g, off, s).
Proof.
  intros Hg Hs. unfold appendHex. destruct (nibbles g) as (-> & -> & -> & ->).
  destruct (4096 <=? g) eqn:E3, (256 <=? g) eqn:E2, (16 <=? g) eqn:E1;
    rewrite ?Z.leb_le, ?Z.leb_gt in *; try lia;
    str_norm;
    repeat (rewrite hex_loop_digit by (first [lia|div_lia]));
    rewrite hex_loop_end by done; (eexists; split; [|do 3 f_equal; div_lia]); done.
Qed.

Lemma appendHex_hex g : 0 ≤ g < 65536 → str_all is_hex (appendHex g) = true.
Proof.
  intros Hg. unfold appendHex. destruct (nibbles g) as (-> & -> & -> & ->).
  destruct (4096 <=? g) eqn:E3, (256 <=? g) eqn:E2, (16 <=? g) eqn:E1;
    rewrite ?Z.leb_le, ?Z.leb_gt in *; try lia;
    str_norm; cbn [str_all];
    rewrite ?is_hex_digit by (first [lia|div_lia]); done.
Qed.

Lemma appendHex_cons g : 0 ≤ g < 65536 → ∃ c s, appendHex g = String c s ∧ is_hex c = true.
Proof.
  intros Hg. pose proof (appendHex_hex g Hg) as Hh. destruct (appendHex g) as [|c s] eqn:E.
  - exfalso. destruct (hex_loop_group g EmptyString Hg eq_refl) as (off & Ho & Hl).
    rewrite E in Hl. simpl in Hl. injection Hl as _ <- . done.
  - simpl in Hh. apply andb_true_iff in Hh as [Hc _]. by exists c, s.
Qed.

(** ** The loop over the groups *)
Section Loop.

Context (fuel : nat) (ip : list byte) (g : Z) (Hg : 0 ≤ g < 65536).

Lemma loop_last ellipsis :
  parseIPv6_loop (S fuel) ip ellipsis (appendHex g) = Ok (ip ++ group_bytes g, ellipsis, EmptyString).
Proof.
  destruct (hex_loop_group g EmptyString Hg eq_refl) as (off & Ho & Hl). rewrite string_app_nil_r in Hl.
  cbn [parseIPv6_loop]. rewrite Hl. cbn beta iota. by rewrite Ho.
Qed.

Lemma loop_colon ellipsis c s :
  is_hex c = true →
  parseIPv6_loop (S fuel) ip ellipsis (appendHex g +:+ ":" +:+ String c s) =
  parseIPv6_loop fuel (ip ++ group_bytes g) ellipsis (String c s).
Proof.
  intros Hc. destruct (hex_loop_group g (":" +:+ String c s) Hg eq_refl) as (off & Ho & Hl).
  cbn [parseIPv6_loop]. rewrite Hl. change (":" +:+ String c s) with (String ":" (String c s)).
  cbn beta iota. rewrite Ho. destruct c as [[] [] [] [] [] [] [] []]; try done.
Qed.

Lemma loop_ellipsis s :
  parseIPv6_loop (S fuel) ip None (appendHex g +:+ "::" +:+ s) =
  if String.eqb s EmptyString
  then Ok (ip ++ group_bytes g, Some (length (ip ++ group_bytes g)), EmptyString)
  else parseIPv6_loop fuel (ip ++ group_bytes g) (Some (length (ip ++ group_bytes g))) s.
Proof.
  destruct (hex_loop_group g ("::" +:+ s) Hg eq_refl) as (off & Ho & Hl).
  cbn [parseIPv6_loop]. rewrite Hl. change ("::" +:+ s) with (String ":" (String ":" s)).
  cbn beta iota. by rewrite Ho.
Qed.

End Loop.

Notation hex_groups gs := (join ":" (appendHex <$> gs)).

Definition groups_bytes (gs : list Z) : list byte := gs ≫= group_bytes.

Notation valid_groups := (Forall (λ g, 0 ≤ g < 65536)).

Lemma hex_groups_cons g gs : gs ≠ [] → hex_groups (g :: gs) = appendHex g +:+ ":" +:+ hex_groups gs.
Proof. by destruct gs. Qed.

Lemma hex_groups_head gs : gs ≠ [] → valid_groups gs → ∃ c s, hex_groups gs = String c s ∧ is_hex c = true.
Proof.
  intros Hne Hv. destruct Hv as [|g gs Hg _]; [done|].
  destruct (appendHex_cons g Hg) as (c & s & Ec & Hc). destruct gs as [|g' gs].
  - simpl. eauto.
  - rewrite hex_groups_cons, Ec by done. rewrite string_app_cons. eauto.
Qed.

Lemma loop_groups gs fuel ip ellipsis :
  gs ≠ [] → valid_groups gs → (length gs ≤ fuel)%nat →
  parseIPv6_loop fuel ip ellipsis (hex_groups gs) = Ok (ip ++ groups_bytes gs, ellipsis, EmptyString).
Proof.
  revert fuel ip. induction gs as [|g gs IH]; intros fuel ip Hne Hv Hf; [done|].
  inversion_clear Hv as [|? ? Hg Hgs]. destruct fuel as [|fuel]; simpl in Hf; [lia|].
  unfold groups_bytes. rewrite bind_cons. destruct (decide (gs = [])) as [->|Hgne].
  - rewrite app_nil_r. by apply loop_last.
  - rewrite hex_groups_cons by done. destruct (hex_groups_head gs Hgne Hgs) as (c & s & Ec & Hc).
    rewrite Ec, loop_colon by done. rewrite <- Ec, app_assoc. apply IH; [done|done|lia].
Qed.

Lemma loop_groups_ellipsis gs fuel ip s :
  gs ≠ [] → valid_groups gs → (length gs ≤ fuel)%nat →
  parseIPv6_loop fuel ip None (hex_groups gs +:+ "::" +:+ s) =
  if String.eqb s EmptyString
  then Ok (ip ++ groups_bytes gs, Some (length (ip ++ groups_bytes gs)), EmptyString)
  else parseIPv6_loop (fuel - length gs) (ip ++ groups_bytes gs) (Some (length (ip ++ groups_bytes gs))) s.
Proof.
  revert fuel ip. induction gs as [|g gs IH]; intros fuel ip Hne Hv Hf; [done|].
  inversion_clear Hv as [|? ? Hg Hgs]. destruct fuel as [|fuel]; simpl in Hf; [lia|].
  unfold groups_bytes. rewrite bind_cons. destruct (decide (gs = [])) as [->|Hgne].
  - simpl. rewrite Nat.sub_0_r. by apply loop_ellipsis.
  - rewrite hex_groups_cons by done. rewrite !string_app_assoc.
    destruct (hex_groups_head gs Hgne Hgs) as (c & s' & Ec & Hc).
    pose proof (IH fuel (ip ++ group_bytes g) Hgne Hgs ltac:(lia)) as H.
    rewrite Ec, (string_app_cons c s') in H |- *. rewrite loop_colon by done.
    etrans; [exact H|]. by rewrite <- app_assoc.
Qed.

(** ** The longest run of zeros *)
Lemma zero_run_spec l : take (zero_run l) l = replicate (zero_run l) 0.
Proof. induction l as [|x l IH]; [done|]. destruct x; simpl; [by rewrite IH|done..]. Qed.

(** What the search returns: nothing, or a run of at least two zero groups. *)
Definition zeros_at (l : list Z) (r : nat * nat) : Prop :=
  r.2 = 0%nat ∨ ((2 ≤ r.2)%nat ∧ take r.2 (drop r.1 l) = replicate r.2 0).

Lemma longest_zeros_spec l i best :
  zeros_at l best → zeros_at l (longest_zeros i (drop i l) best).
Proof.
  remember (drop i l) as l' eqn:E. revert i best E. induction l' as [|x l' IH]; intros i best E Hb; [done|].
  cbn [longest_zeros]. apply IH.
  - assert (l !! i = Some x) as Hi by (by rewrite <- (Nat.add_0_r i), <- lookup_drop, <- E).
    rewrite (drop_S _ _ _ Hi) in E. by injection E.
  - destruct ((2 <=? zero_run (x :: l'))%nat && _) eqn:E2; [|done]. apply andb_true_iff in E2 as [E2 _].
    right. cbn [fst snd]. apply Nat.leb_le in E2. split; [done|]. rewrite <- E. apply zero_run_spec.
Qed.

(** ** The whole address *)
Lemma groups_valid b : valid_groups (groups b).
Proof.
  revert b. fix IH 1. intros [|hi [|lo b]]; [constructor..|]. simpl. constructor; [|apply IH].
  pose proof (byte_to_Z_range hi). pose proof (byte_to_Z_range lo). unfold in_uint in *. lia.
Qed.

Lemma group_bytes_pair hi lo : group_bytes (byte_to_Z hi * 256 + byte_to_Z lo) = [hi; lo].
Proof.
  pose proof (byte_to_Z_range hi) as Hh. pose proof (byte_to_Z_range lo) as Hl. unfold in_uint in *.
  unfold group_bytes. f_equal; [|f_equal]; apply byte_to_Z_inj; rewrite byte_to_of_Z; unfold u8, uwrap.
  - rewrite Z.shiftr_div_pow2 by lia. div_lia.
  - div_lia.
Qed.

(** [2 * n] bytes are [n] groups, and the groups give the bytes back. *)
Lemma groups_spec n b : length b = (2 * n)%nat → length (groups b) = n ∧ groups_bytes (groups b) = b.
Proof.
  revert b. induction n as [|n IH]; intros b Hb.
  - by destruct b.
  - destruct b as [|hi [|lo b]]; simpl in Hb; [lia|lia|]. destruct (IH b) as [IHl IHb]; [lia|].
    cbn [groups]. unfold groups_bytes in *. rewrite bind_cons, group_bytes_pair, IHb. simpl. by rewrite IHl.
Qed.

Lemma groups_bytes_length gs : length (groups_bytes gs) = (2 * length gs)%nat.
Proof. induction gs as [|g gs IH]; [done|]. unfold groups_bytes in *. rewrite bind_cons, length_app, IH. simpl. lia. Qed.

Lemma groups_bytes_zeros n : groups_bytes (replicate n 0) = replicate (2 * n) x00.
Proof.
  induction n as [|n IH]; [done|]. simpl replicate at 1. unfold groups_bytes in *. rewrite bind_cons, IH.
  replace (2 * S n)%nat with (2 + 2 * n)%nat by lia. done.
Qed.

Lemma nozone_plain c s :
  is_hex c = true →
  parseIPv6_nozone (String c s) = (let? st := parseIPv6_loop 8 [] None (String c s) in parseIPv6_finish st).
Proof. intros Hc. destruct c as [[] [] [] [] [] [] [] []]; done. Qed.

Lemma nozone_ellipsis s :
  s ≠ EmptyString →
  parseIPv6_nozone ("::" +:+ s) = (let? st := parseIPv6_loop 8 [] (Some 0%nat) s in parseIPv6_finish st).
Proof. by destruct s. Qed.

Lemma finish_elided P Q n :
  (2 ≤ n)%nat → (length P + 2 * n + length Q = 16)%nat →
  parseIPv6_finish (P ++ Q, Some (length P), EmptyString) = Ok (P ++ replicate (2 * n) x00 ++ Q).
Proof.
  intros Hn Hl. unfold parseIPv6_finish. cbn [String.eqb negb]. rewrite length_app.
  destruct (length P + length Q <? 16)%nat eqn:E; [|apply Nat.ltb_ge in E; lia].
  rewrite take_app_length, drop_app_length. do 3 f_equal. f_equal. lia.
Qed.

(** The groups around an ellipsis of [n] zero groups. *)
Lemma parse_elided pre post n :
  valid_groups pre → valid_groups post → (2 ≤ n)%nat → (length pre + n + length post = 8)%nat →
  parseIPv6_nozone (hex_groups pre +:+ "::" +:+ hex_groups post) =
  Ok (groups_bytes pre ++ replicate (2 * n) x00 ++ groups_bytes post).
Proof.
  intros Hpre Hpost Hn Hlen.
  pose proof (groups_bytes_length pre) as Lpre. pose proof (groups_bytes_length post) as Lpost.
  destruct (decide (pre = [])) as [->|Hne1], (decide (post = [])) as [->|Hne2]; simpl in Hlen.
  - replace n with 8%nat by lia. done.
  - simpl fmap at 1. cbn [join]. rewrite string_app_nil_l.
    destruct (hex_groups_head post Hne2 Hpost) as (c & s & Ec & _).
    rewrite nozone_ellipsis by (by rewrite Ec). rewrite loop_groups by (done || lia). cbn beta iota.
    apply (finish_elided [] _ n); simpl in *; lia.
  - destruct (hex_groups_head pre Hne1 Hpre) as (c & s & Ec & Hc).
    rewrite Ec, string_app_cons, nozone_plain, <- string_app_cons, <- Ec by done.
    rewrite loop_groups_ellipsis by (done || lia).
    change (String.eqb (hex_groups []) EmptyString) with true. cbn beta iota. rewrite app_nil_l.
    pose proof (finish_elided (groups_bytes pre) [] n) as Hf. rewrite app_nil_r in Hf.
    apply Hf; simpl in *; lia.
  - destruct (hex_groups_head pre Hne1 Hpre) as (c & s & Ec & Hc).
    rewrite Ec, string_app_cons, nozone_plain, <- string_app_cons, <- Ec by done.
    rewrite loop_groups_ellipsis by (done || lia).
    destruct (hex_groups_head post Hne2 Hpost) as (c' & s' & Ec' & _).
    destruct (String.eqb_spec (hex_groups post) EmptyString) as [E0|_]; [by rewrite Ec' in E0|].
    rewrite loop_groups by (done || lia). cbn beta iota. rewrite app_nil_l.
    apply finish_elided; lia.
Qed.

Lemma parse_string6 b : length b = 16%nat → parseIPv6_nozone (string6 b) = Ok b.
Proof.
  intros Hb. destruct (groups_spec 8 b Hb) as [Lg Bg]. pose proof (groups_valid b) as Hv. unfold string6.
  pose proof (longest_zeros_spec (groups b) 0 (0%nat, 0%nat) (or_introl eq_refl)) as Hz.
  rewrite drop_0 in Hz. destruct (longest_zeros 0 (groups b) (0%nat, 0%nat)) as [start n].
  destruct (Nat.eqb_spec n 0) as [->|Hn].
  - destruct (groups b) as [|g gs] eqn:Eg; [done|].
    destruct (hex_groups_head (g :: gs)) as (c & s & Ec & Hc); [done|done|].
    rewrite Ec, nozone_plain, <- Ec by done. rewrite loop_groups by (done || lia). cbn beta iota.
    rewrite app_nil_l, Bg. unfold parseIPv6_finish. cbn [String.eqb negb]. by rewrite Hb.
  - destruct Hz as [Hz|[H2 Hz]]; simpl in *; [done|].
    assert (n ≤ 8 - start)%nat as Hlen.
    { apply (f_equal length) in Hz. rewrite length_take, length_drop, length_replicate in Hz. lia. }
    rewrite (parse_elided _ _ n).
    + f_equal. rewrite <- groups_bytes_zeros, <- Hz, <- (drop_drop (groups b)). unfold groups_bytes.
      rewrite <- !bind_app, !take_drop. exact Bg.
    + by apply Forall_take.
    + by apply Forall_drop.
    + done.
    + rewrite length_take, length_drop. lia.
Qed.

(** ** The characters of a printed address *)
Definition is_v6 (c : ascii) : bool := is_hex c || Ascii.eqb c ":".

Lemma appendHex_v6 g : 0 ≤ g < 65536 → str_all is_v6 (appendHex g) = true.
Proof.
  intros Hg. eapply str_all_impl; [|by apply appendHex_hex]. intros c Hc. unfold is_v6. by rewrite Hc.
Qed.

Lemma hex_groups_v6 gs : valid_groups gs → str_all is_v6 (hex_groups gs) = true.
Proof.
  induction 1 as [|g gs Hg _ IH]; [done|]. destruct gs as [|g' gs]; [by apply appendHex_v6|].
  rewrite hex_groups_cons, !str_all_app, IH, appendHex_v6 by done. done.
Qed.

Lemma string6_v6 b : str_all is_v6 (string6 b) = true.
Proof.
  unfold string6. destruct (longest_zeros _ _ _) as [start n]. pose proof (groups_valid b) as Hv.
  destruct (n =? 0)%nat; [by apply hex_groups_v6|].
  rewrite !str_all_app, !hex_groups_v6 by (by apply Forall_take || by apply Forall_drop). done.
Qed.

Lemma string6_free c b : is_v6 c = false → str_free c (string6 b) = true.
Proof.
  intros Hc. unfold str_free. eapply str_all_impl; [|apply string6_v6]. intros x Hx. simpl in *.
  destruct (Ascii.eqb_spec x c); [congruence|done].
Qed.

Lemma scan_hex whole s t :
  str_all is_hex s = true → ParseAddr_scan whole (s +:+ String ":" t) = parseIPv6 whole.
Proof.
  induction s as [|c s IH]; intros Hs; [done|]. simpl in Hs. apply andb_true_iff in Hs as [Hc Hs].
  rewrite string_app_cons. cbn [ParseAddr_scan]. rewrite !(is_hex_other c) by done. by apply IH.
Qed.

(** A colon is the first thing that is not a digit. *)
Lemma string6_colon b :
  length b = 16%nat → ∃ s t, str_all is_hex s = true ∧ string6 b = s +:+ String ":" t.
Proof.
  intros Hb. destruct (groups_spec 8 b Hb) as [Lg _]. pose proof (groups_valid b) as Hv. unfold string6.
  destruct (longest_zeros _ _ _) as [start n]. destruct (n =? 0)%nat.
  - destruct Hv as [|g gs Hg _]; [done|]. destruct gs as [|g' gs]; [done|].
    rewrite hex_groups_cons by done. eexists (appendHex g), _. by split; [apply appendHex_hex|].
  - pose proof (Forall_take (λ g, 0 ≤ g < 65536) start _ Hv) as Hp. destruct Hp as [|g gs Hg _].
    + by eexists EmptyString, _.
    + destruct gs as [|g' gs].
      * eexists (appendHex g), _. by split; [apply appendHex_hex|].
      * rewrite hex_groups_cons, string_app_assoc by done. eexists (appendHex g), _.
        by split; [apply appendHex_hex|].
Qed.

Lemma ParseAddr_string6 b : length b = 16%nat → ParseAddr (string6 b) = Ok (Addr16 b EmptyString).
Proof.
  intros Hb. unfold ParseAddr. destruct (string6_colon b Hb) as (s & t & Hs & E).
  rewrite E at 2. rewrite scan_hex by done. unfold parseIPv6.
  rewrite cut_None by (by apply string6_free). by rewrite parse_string6.
Qed.

(** ** Both forms of an address *)

(** [IP.To16] *)
Definition To16 (ip : IP) : IP :=
  if (length ip =? 4)%nat then v4InV6Prefix ++ ip
  else if (length ip =? 16)%nat then ip else [].

Definition valid_ip (ip : IP) : Prop := length ip = 4%nat ∨ length ip = 16%nat.

Lemma To16_To4 ip : To4 ip ≠ [] → v4InV6Prefix ++ To4 ip = To16 ip.
Proof.
  unfold To4, To16. destruct (length ip =? 4)%nat eqn:E4; [done|].
  destruct (length ip =? 16)%nat; cbn [andb]; [|done]. case_bool_decide as Hp; [|done].
  intros _. rewrite <- Hp. apply take_drop.
Qed.

Lemma IP_String_six ip : valid_ip ip → To4 ip = [] → length ip = 16%nat ∧ IP_String ip = string6 ip.
Proof.
  intros Hv H4. assert (length ip = 16%nat) as Hl.
  { destruct Hv as [Hl|Hl]; [|done]. unfold To4 in H4. rewrite Hl in H4. simpl in H4. by rewrite H4 in Hl. }
  split; [done|]. unfold IP_String. by rewrite Hl, H4.
Qed.

(** The round trip of [IP.String] and [net.ParseIP], up to the form: an address
    of four bytes is read back in its form of sixteen. *)
Lemma ParseIP_String ip : valid_ip ip → ParseIP (IP_String ip) = To16 ip.
Proof.
  intros Hv. destruct (decide (To4 ip = [])) as [H4|H4].
  - destruct (IP_String_six ip Hv H4) as [Hl ->]. unfold ParseIP. rewrite ParseAddr_string6 by done.
    unfold To16. by rewrite Hl.
  - rewrite ParseIP_String4 by done. by apply To16_To4.
Qed.

(** Different addresses are printed differently. *)
Lemma IP_String_inj a b : valid_ip a → valid_ip b → IP_String a = IP_String b → To16 a = To16 b.
Proof. intros Ha Hb E. by rewrite <- !ParseIP_String, E. Qed.

(** Nothing but digits, colons and dots is printed. *)
Lemma IP_String_free c ip :
  valid_ip ip → is_v6 c = false → is_digit c = false → c ≠ "."%char → str_free c (IP_String ip) = true.
Proof.
  intros Hv Hc Hd Hdot. destruct (decide (To4 ip = [])) as [H4|H4].
  - destruct (IP_String_six ip Hv H4) as [_ ->]. by apply string6_free.
  - rewrite IP_String_To4 by done. destruct (To4_four ip H4) as (x & y & z & w & ->).
    unfold dotted. cbn [fmap list_fmap join].
    assert (str_free c "." = true) as Ed.
    { unfold str_free. cbn [str_all]. destruct (Ascii.eqb_spec "." c); [congruence|done]. }
    pose proof byte_to_Z_range as Hb. unfold in_uint in Hb.
    rewrite !str_free_app, !fmt_d_free, Ed by (done || apply Hb). done.
Qed.
