(* ===== verification/Arp.v ===== *)
(** * Interfaces and the ARP cache ([pkg/util/util.go], [pkg/util/arp.go])

    What the operating system and the ARP package answer is a parameter of each
    function; [X] is the type of their errors.  The text of the ARP cache is
    parsed here, with the scanner of package [bufio]. *)

From S2P Require Import Prelude GoFmt GoStrings NetIP.

(** ** [bufio.Scanner] with [ScanLines] *)

(** The pieces between newlines; what follows the last newline is a line unless
    it is empty. *)
Fixpoint split_lines (s cur : string) : list string :=
  match s with
  | EmptyString => if decide (cur = EmptyString) then [] else [cur]
  | String c s =>
      if Ascii.eqb c "010" then cur :: split_lines s EmptyString
      else split_lines s (cur +:+ String c EmptyString)
  end.

Definition dropCR (line : string) : string := TrimSuffix line (String "013" EmptyString).

Definition MaxScanTokenSize : Z := 65536.

(** A line that does not fit the buffer ends the scan. *)
Fixpoint scan_tokens (lines : list string) : list string :=
  match lines with
  | [] => []
  | l :: ls => if Z.of_nat (String.length l) <? MaxScanTokenSize then dropCR l :: scan_tokens ls else []
  end.

Definition Scanner (text : string) : list string := scan_tokens (split_lines text EmptyString).

(** ** [arp.go] *)
Definition ARPCachePath : string := "/proc/net/arp".

Definition IPIdxARPCacheField : nat := 0.

Definition MACIdxARPCacheField : nat := 3.

Definition IfaceIdxARPCacheField : nat := 5.

Definition MaxARPCacheFields : nat := 6.

(** One line of the cache: skipped, or the MAC address it has for [ip]. *)
Definition arp_line (ip ifaceName line : string) : option string :=
  let fields := Fields line in
  if (length fields <? MaxARPCacheFields)%nat then None
  else if decide (fields !! IPIdxARPCacheField = Some ip ∧ fields !! IfaceIdxARPCacheField = Some ifaceName)
  then fields !! MACIdxARPCacheField
  else None.

Fixpoint arp_scan (ip ifaceName : string) (lines : list string) : option string :=
  match lines with
  | [] => None
  | line :: lines =>
      match arp_line ip ifaceName line with Some mac => Some mac | None => arp_scan ip ifaceName lines end
  end.

(** [file] is the outcome of opening [ARPCachePath] and the text read from it. *)
Definition GetMACFromARPCache {X} (file : result string X) (ip ifaceName : string) : result string (error X) :=
  match file with
  | Err e => Err (Foreign e)
  | Ok text =>
      match arp_scan ip ifaceName (Scanner text) with
      | Some mac => Ok mac
      | None => Err (Errorf ("MAC address not found for IP: " +:+ ip +:+ " on interface: " +:+ ifaceName))
      end
  end.

(** The operating system's interfaces and the ARP package. *)
Record ArpNet (X : Type) := mkArpNet {
  iface_t : Type;
  arpconn_t : Type;
  InterfaceByName : string → result iface_t X;
  arp_Dial : iface_t → result arpconn_t X;
  arp_Resolve : arpconn_t → Addr → result (list byte) X;
}.
Arguments mkArpNet {X}.
Arguments iface_t {X}.
Arguments arpconn_t {X}.
Arguments InterfaceByName {X}.
Arguments arp_Dial {X}.
Arguments arp_Resolve {X}.

Definition GetMACViaARPCall {X} (net : ArpNet X) (ip ifaceName : string) : result string (error X) :=
  match InterfaceByName net ifaceName with
  | Err e => Err (Wrapf "interface not found: " (Foreign e))
  | Ok iface =>
      match arp_Dial net iface with
      | Err e => Err (Wrapf "failed to open ARP connection: " (Foreign e))
      | Ok conn =>
          match ParseAddr ip with
          | Err msg => Err (Wrapf "invalid IP address format: " (Errorf msg))
          | Ok targetIP =>
              match arp_Resolve net conn targetIP with
              | Err e => Err (Wrapf ("failed to resolve MAC address for IP " +:+ ip +:+ ": ") (Foreign e))
              | Ok mac => Ok (HardwareAddr_String mac)
              end
          end
      end
  end.

(** ** [util.go] *)
Definition IsValidIP (input : string) : bool := negb (bool_decide (ParseIP input = [])).

(** An address of an interface: an [*net.IPNet], an [*net.IPAddr], or another
    kind, for which the switch leaves [ip] nil. *)
Inductive iface_addr :=
| IPNet (ip : IP)
| IPAddr (ip : IP)
| OtherAddr.

Definition iface_ip (a : iface_addr) : IP :=
  match a with IPNet ip => ip | IPAddr ip => ip | OtherAddr => [] end.

Fixpoint first_IPv4 (addrs : list iface_addr) : option string :=
  match addrs with
  | [] => None
  | addr :: addrs =>
      let ip := iface_ip addr in
      if decide (To4 ip ≠ []) then Some (IP_String ip) else first_IPv4 addrs
  end.

(** [iface] is the outcome of [net.InterfaceByName] with that of [iface.Addrs]. *)
Definition GetIPv4FromInterface {X} (iface : result (result (list iface_addr) X) X) : result string (error X) :=
  match iface with
  | Err e => Err (Foreign e)
  | Ok (Err e) => Err (Foreign e)
  | Ok (Ok addrs) =>
      match first_IPv4 addrs with
      | Some ip => Ok ip
      | None => Err (Errorf "no valid IPv4 address found")
      end
  end.

(** ** A cache as the kernel prints it *)

(** An entry: IP address, hardware type, flags, MAC address, mask, device. *)
Record arp_entry := mkArpEntry {
  ae_ip : string; ae_hw : string; ae_flags : string; ae_mac : string; ae_mask : string; ae_dev : string;
}.

Definition entry_fields (e : arp_entry) : list string :=
  [ae_ip e; ae_hw e; ae_flags e; ae_mac e; ae_mask e; ae_dev e].

(** A non-empty word without white space. *)
Definition word (s : string) : Prop := s ≠ EmptyString ∧ str_all (λ c, negb (Ascii.is_space c)) s = true.

(** Blanks other than the newline. *)
Definition blanks (s : string) : Prop :=
  str_all (λ c, Ascii.is_space c && negb (Ascii.eqb c "010")) s = true.

(** Columns, each a word followed by blanks, the last one by none. *)
Fixpoint columns (ws pads : list string) : string :=
  match ws, pads with
  | [w], _ => w
  | w :: ws, p :: pads => w +:+ p +:+ columns ws pads
  | _, _ => EmptyString
  end.

Definition newline : string := String "010" EmptyString.

(** A line: the entry and the blanks after its first five columns. *)
Definition arp_row : Type := arp_entry * list string.

Definition row_text (r : arp_row) : string := columns (entry_fields (fst r)) (snd r).

Definition row_wf (r : arp_row) : Prop :=
  Forall word (entry_fields (fst r)) ∧ length (snd r) = 5%nat ∧
  Forall (λ p, p ≠ EmptyString ∧ blanks p) (snd r) ∧
  Z.of_nat (String.length (row_text r)) < MaxScanTokenSize.

(** The heading of the file and one line per entry. *)
Definition arp_text (header : string) (rows : list arp_row) : string :=
  header +:+ newline +:+ foldr (λ r s, row_text r +:+ newline +:+ s) EmptyString rows.

(** The heading as the kernel writes it. *)
Definition arp_header : string :=
  "IP address       HW type     Flags       HW address            Mask     Device".

(** The first entry for an address on a device. *)
Definition arp_lookup (ip dev : string) (rows : list arp_row) : option string :=
  ae_mac <$> (snd <$> list_find (λ e, ae_ip e = ip ∧ ae_dev e = dev) (fst <$> rows)).

(** ** The fields of a line *)
Lemma fields_loop_word w s cur :
  str_all (λ c, negb (Ascii.is_space c)) w = true → fields_loop (w +:+ s) cur = fields_loop s (cur +:+ w).
Proof.
  revert cur. induction w as [|c w IH]; intros cur Hw; [by rewrite string_app_nil_r|].
  simpl in Hw. apply andb_true_iff in Hw as [Hc Hw]. apply negb_true_iff in Hc.
  rewrite string_app_cons. simpl. rewrite Hc, (IH _ Hw), string_app_assoc. done.
Qed.

Lemma fields_loop_blanks p s :
  blanks p → fields_loop (p +:+ s) EmptyString = fields_loop s EmptyString.
Proof.
  unfold blanks. induction p as [|c p IH]; intros Hp; [done|]. simpl in Hp.
  apply andb_true_iff in Hp as [Hc Hp]. apply andb_true_iff in Hc as [Hc _].
  rewrite string_app_cons. simpl. rewrite Hc. auto.
Qed.

Lemma fields_loop_pad p s cur :
  p ≠ EmptyString → blanks p → cur ≠ EmptyString →
  fields_loop (p +:+ s) cur = cur :: fields_loop s EmptyString.
Proof.
  intros Hne Hp Hcur. destruct p as [|c p]; [done|]. rewrite string_app_cons.
  assert (Ascii.is_space c = true ∧ blanks p) as [Hc Hp'].
  { unfold blanks in *. simpl in Hp. apply andb_true_iff in Hp as [Hc Hp].
    by apply andb_true_iff in Hc as [Hc _]. }
  simpl. rewrite Hc, decide_False by done. by rewrite fields_loop_blanks.
Qed.

Lemma Fields_columns ws pads :
  Forall word ws → Forall (λ p, p ≠ EmptyString ∧ blanks p) pads → length ws = S (length pads) →
  Fields (columns ws pads) = ws.
Proof.
  unfold Fields. intros Hws. revert pads.
  induction Hws as [|w ws [Hne Hw] Hws IH]; intros pads Hp Hl; [done|].
  destruct ws as [|w' ws].
  - destruct pads; [|done]. simpl. rewrite <- (string_app_nil_r w) at 1.
    rewrite fields_loop_word by done. simpl. by rewrite decide_False.
  - destruct Hp as [|p pads [Hp1 Hp2] Hp]; [done|].
    change (columns (w :: w' :: ws) (p :: pads)) with (w +:+ p +:+ columns (w' :: ws) pads).
    rewrite fields_loop_word by done. change (EmptyString +:+ w) with w.
    rewrite fields_loop_pad by done. f_equal. apply IH; [done|]. simpl in *. lia.
Qed.

Lemma fields_loop_CR s cur : fields_loop (s +:+ String "013" EmptyString) cur = fields_loop s cur.
Proof.
  revert cur. induction s as [|c s IH]; intros cur; [by simpl; case_decide|].
  rewrite string_app_cons. simpl. by rewrite !IH.
Qed.

Lemma Fields_dropCR s : Fields (dropCR s) = Fields s.
Proof.
  unfold dropCR. destruct (HasSuffix s (String "013" EmptyString)) eqn:E.
  - apply HasSuffix_app in E as [p ->]. rewrite TrimSuffix_app. unfold Fields. by rewrite fields_loop_CR.
  - unfold TrimSuffix. by rewrite E.
Qed.

Lemma arp_line_dropCR ip dev l : arp_line ip dev (dropCR l) = arp_line ip dev l.
Proof. unfold arp_line. by rewrite Fields_dropCR. Qed.

(** ** The lines of the file *)
Lemma split_lines_line l s cur :
  str_free "010" l = true → split_lines (l +:+ newline +:+ s) cur = (cur +:+ l) :: split_lines s EmptyString.
Proof.
  unfold str_free. revert cur. induction l as [|c l IH]; intros cur Hl.
  - by rewrite string_app_nil_r.
  - simpl in Hl. apply andb_true_iff in Hl as [Hc Hl]. apply negb_true_iff in Hc.
    rewrite string_app_cons. simpl. rewrite Hc, (IH _ Hl), string_app_assoc. done.
Qed.

Lemma word_no_newline w : word w → str_free "010" w = true.
Proof.
  intros [_ Hw]. eapply str_all_impl; [|exact Hw]. intros c Hc. simpl in *.
  destruct (Ascii.eqb_spec c "010") as [->|]; done.
Qed.

Lemma blanks_no_newline p : blanks p → str_free "010" p = true.
Proof. intros Hp. eapply str_all_impl; [|exact Hp]. by intros c [_ Hc]%andb_true_iff. Qed.

Lemma columns_no_newline ws pads :
  Forall word ws → Forall (λ p, p ≠ EmptyString ∧ blanks p) pads → str_free "010" (columns ws pads) = true.
Proof.
  intros Hws. revert pads. induction Hws as [|w ws Hw Hws IH]; intros pads Hp; [done|].
  destruct ws as [|w' ws]; [by apply word_no_newline|].
  destruct Hp as [|p pads [_ Hp1] Hp]; [done|].
  change (columns (w :: w' :: ws) (p :: pads)) with (w +:+ p +:+ columns (w' :: ws) pads).
  rewrite !str_free_app, (word_no_newline _ Hw), (blanks_no_newline _ Hp1), !andb_true_l. by apply IH.
Qed.

Lemma Scanner_rows rows :
  Forall row_wf rows →
  scan_tokens (split_lines (foldr (λ r s, row_text r +:+ newline +:+ s) EmptyString rows) EmptyString) =
  dropCR <$> (row_text <$> rows).
Proof.
  induction 1 as [|r rows (Hw & Hl & Hp & Hlen) _ IH]; [done|]. simpl.
  rewrite split_lines_line by (by apply columns_no_newline).
  change (EmptyString +:+ row_text r) with (row_text r). simpl.
  destruct (Z.ltb_spec (Z.of_nat (String.length (row_text r))) MaxScanTokenSize); [|lia].
  by rewrite IH.
Qed.

Lemma arp_line_row ip dev r :
  row_wf r →
  arp_line ip dev (row_text r) =
    if decide (ae_ip (fst r) = ip ∧ ae_dev (fst r) = dev) then Some (ae_mac (fst r)) else None.
Proof.
  intros (Hw & Hl & Hp & _). unfold arp_line, row_text. rewrite Fields_columns by (done || by rewrite Hl).
  simpl. destruct (decide (Some (ae_ip r.1) = Some ip ∧ Some (ae_dev r.1) = Some dev)) as [[E1 E2]|E];
    [rewrite decide_True by naive_solver; done|rewrite decide_False by naive_solver; done].
Qed.

Lemma arp_scan_rows ip dev rows :
  Forall row_wf rows → arp_scan ip dev (dropCR <$> (row_text <$> rows)) = arp_lookup ip dev rows.
Proof.
  unfold arp_lookup. induction 1 as [|r rows Hr _ IH]; [done|].
  rewrite !fmap_cons. cbn [arp_scan]. rewrite arp_line_dropCR, arp_line_row, IH by done. simpl.
  destruct (decide (ae_ip r.1 = ip ∧ ae_dev r.1 = dev)); [done|].
  by destruct (list_find _ (fst <$> rows)) as [[? ?]|].
Qed.

Lemma Scanner_arp_text rows :
  Forall row_wf rows → Scanner (arp_text arp_header rows) = arp_header :: (dropCR <$> (row_text <$> rows)).
Proof.
  intros Hr. unfold Scanner, arp_text. rewrite split_lines_line by reflexivity.
  rewrite <- Scanner_rows by done. reflexivity.
Qed.

Lemma arp_line_header ip dev : ip ≠ "IP" → arp_line ip dev arp_header = None.
Proof.
  intros Hip. unfold arp_line.
  assert (Fields arp_header = ["IP"; "address"; "HW"; "type"; "Flags"; "HW"; "address"; "Mask"; "Device"])
    as -> by reflexivity.
  simpl. rewrite decide_False; [done|]. naive_solver.
Qed.

(** C26: on the text the kernel prints, a heading and one line of six columns per
    entry with any blanks between the columns, the lookup returns the MAC
    address of the first entry with the given address and device, and the "not
    found" error exactly when there is none. *)
Theorem arp_cache_lookup {X} rows ip dev :
  Forall row_wf rows → ip ≠ "IP" →
  GetMACFromARPCache (X:=X) (Ok (arp_text arp_header rows)) ip dev =
  match arp_lookup ip dev rows with
  | Some mac => Ok mac
  | None => Err (Errorf ("MAC address not found for IP: " +:+ ip +:+ " on interface: " +:+ dev))
  end.
Proof.
  intros Hr Hip. unfold GetMACFromARPCache. rewrite Scanner_arp_text by done. simpl.
  by rewrite arp_line_header, arp_scan_rows.
Qed.

(** The row with other flags. *)
Definition set_flags (f : string) (r : arp_row) : arp_row :=
  (mkArpEntry (ae_ip (fst r)) (ae_hw (fst r)) f (ae_mac (fst r)) (ae_mask (fst r)) (ae_dev (fst r)), snd r).

Lemma list_find_map_mac (P : arp_entry → Prop) `{!∀ e, Decision (P e)} (l : list arp_entry) :
  ae_mac <$> (snd <$> list_find P l) = ae_mac <$> head (filter P l).
Proof.
  induction l as [|e l IH]; [done|]. simpl. rewrite filter_cons. case_decide; [done|].
  rewrite <- IH. by destruct (list_find P l) as [[? ?]|].
Qed.

Lemma arp_lookup_set_flags f ip dev rows :
  arp_lookup ip dev (set_flags f <$> rows) = arp_lookup ip dev rows.
Proof.
  unfold arp_lookup. rewrite !list_find_map_mac.
  induction rows as [|r rows IH]; [done|]. rewrite !fmap_cons, !filter_cons. simpl. by case_decide.
Qed.

(** The flags of an entry do not matter: an incomplete entry (flags [0x0]),
    whose MAC column holds no address the neighbour ever answered, is returned
    like a complete one, and the ARP call that would resolve it is not made. *)
Theorem arp_cache_ignores_flags {X} rows f ip dev :
  Forall row_wf rows → Forall row_wf (set_flags f <$> rows) → ip ≠ "IP" →
  GetMACFromARPCache (X:=X) (Ok (arp_text arp_header (set_flags f <$> rows))) ip dev =
  GetMACFromARPCache (Ok (arp_text arp_header rows)) ip dev.
Proof.
  intros Hr Hf Hip. unfold GetMACFromARPCache. rewrite !Scanner_arp_text by done. simpl.
  by rewrite arp_line_header, !arp_scan_rows, arp_lookup_set_flags.
Qed.

(** ** Interfaces *)
Lemma first_IPv4_spec addrs s :
  first_IPv4 addrs = Some s ↔
  ∃ pre a post, addrs = pre ++ a :: post ∧ Forall (λ b, To4 (iface_ip b) = []) pre ∧
    To4 (iface_ip a) ≠ [] ∧ s = IP_String (iface_ip a).
Proof.
  induction addrs as [|b addrs IH]; simpl.
  { split; [done|]. intros (pre & a & post & E & _). by destruct pre. }
  case_decide as Hb.
  - split.
    + intros [= <-]. exists [], b, addrs. naive_solver.
    + intros (pre & a & post & E & Hpre & Ha & ->). destruct pre as [|c pre]; simplify_eq/=; [done|].
      by apply Forall_cons_1 in Hpre as [Hc _].
  - rewrite IH. split.
    + intros (pre & a & post & -> & Hpre & Ha & ->). exists (b :: pre), a, post.
      split_and!; [done| |done..]. constructor; [|done]. simpl.
      destruct (decide (To4 (iface_ip b) = [])); [done|]. by destruct Hb.
    + intros (pre & a & post & E & Hpre & Ha & ->). destruct pre as [|c pre]; simplify_eq/=.
      apply Forall_cons_1 in Hpre as [_ Hpre]. exists pre, a, post. by split_and!.
Qed.

(** The address found for an interface is the first one of its list that has
    a four-byte form, printed so that it parses back to the same four bytes; an
    interface without such an address is an error. *)
Theorem GetIPv4_correct {X} (addrs : list iface_addr) :
  match GetIPv4FromInterface (X:=X) (Ok (Ok addrs)) with
  | Ok s =>
      IsValidIP s = true ∧
      ∃ pre a post, addrs = pre ++ a :: post ∧ Forall (λ b, To4 (iface_ip b) = []) pre ∧
        To4 (iface_ip a) ≠ [] ∧ To4 (ParseIP s) = To4 (iface_ip a)
  | Err _ => Forall (λ b, To4 (iface_ip b) = []) addrs
  end.
Proof.
  unfold GetIPv4FromInterface. destruct (first_IPv4 addrs) as [s|] eqn:E.
  - apply first_IPv4_spec in E as (pre & a & post & -> & Hpre & Ha & ->).
    unfold IsValidIP. rewrite ParseIP_String4 by done. split; [by destruct (To4 (iface_ip a))|].
    exists pre, a, post. split_and!; [done..|].
    by destruct (To4_four _ Ha) as (x & y & z & w & ->).
  - induction addrs as [|b addrs IH]; constructor; simpl in E; case_decide as Hb; [done| |done|auto].
    destruct (decide (To4 (iface_ip b) = [])); [done|]. by destruct Hb.
Qed.

(** ** A concrete cache *)
Definition demo_row : arp_row :=
  (mkArpEntry "192.168.1.2" "0x1" "0x2" "52:54:00:12:34:56" "*" "eth0",
   ["      "; "         "; "         "; "     "; "        "]).

Definition demo_incomplete : arp_row :=
  (mkArpEntry "192.168.1.3" "0x1" "0x0" "00:00:00:00:00:00" "*" "eth0",
   ["      "; "         "; "         "; "     "; "        "]).

Lemma demo_rows_wf : Forall row_wf [demo_row; demo_incomplete].
Proof.
  repeat constructor; repeat match goal with |- word _ => split; [discriminate|reflexivity] end;
    try discriminate; try reflexivity.
Qed.

Lemma arp_cache_lookup_witness :
  GetMACFromARPCache (X:=unit) (Ok (arp_text arp_header [demo_row; demo_incomplete])) "192.168.1.3" "eth0" =
  Ok "00:00:00:00:00:00".
Proof.
  exact (arp_cache_lookup [demo_row; demo_incomplete] "192.168.1.3" "eth0" demo_rows_wf ltac:(discriminate)).
Defined.

Lemma arp_cache_ignores_flags_witness :
  GetMACFromARPCache (X:=unit)
    (Ok (arp_text arp_header (set_flags "0x6" <$> [demo_row; demo_incomplete]))) "192.168.1.3" "eth0" =
  GetMACFromARPCache (Ok (arp_text arp_header [demo_row; demo_incomplete])) "192.168.1.3" "eth0".
Proof.
  apply arp_cache_ignores_flags; [apply demo_rows_wf| |discriminate].
  repeat constructor; repeat match goal with |- word _ => split; [discriminate|reflexivity] end;
    try discriminate; try reflexivity.
Defined.
