(* ===== verification/Dns.v ===== *)
(** * Name resolution ([pkg/util/dns.go])

    Multicast DNS: the query on the wire, the two goroutines that send it and
    wait for a datagram, and the select that takes the first outcome.  Unicast
    DNS: the loop over the resolvers.  What sockets and the system resolver
    answer is a parameter; [X] is the type of their errors. *)

From S2P Require Import Prelude GoFmt GoStrings NetIP.

(** ** Constants *)
Definition DefaultCloudFlareDNSResolver : string := "1.1.1.1:53".

Definition DefaultMDNSTopLevelDomain : string := "local".

Definition DefaultMDNSResponseBuffer : nat := 512.

Definition mdnsPacketTransactionID : Z := 0.

Definition mdnsPacketFlags : Z := 0.

Definition mdnsPacketQuestions : Z := 1.

Definition mdnsPacketAnswerRRs : Z := 0.

Definition mdnsPacketAuthorityRRs : Z := 0.

Definition mdnsPacketAdditionalRRs : Z := 0.

Definition mdnsPacketNullTerminator : Z := 0.

Definition mdnsPacketTypeA : Z := 1.

Definition mdnsPacketClassIN : Z := 1.

Definition Shift8 : Z := 8.

Definition LowByteMask : Z := 255.

(** ** Host names *)
Definition IsMultiCastDNS (hostname : string) : bool :=
  HasSuffix hostname ("." +:+ DefaultMDNSTopLevelDomain).

Definition normalizeMDNSHostname {X} (hostname : string) : result string (error X) :=
  let localTopLevel := "." +:+ DefaultMDNSTopLevelDomain in
  if negb (IsMultiCastDNS hostname)
  then Err (Errorf ("domains in mDNS must use ." +:+ localTopLevel +:+ " top level hostname"))
  else Ok (TrimSuffix hostname localTopLevel).

(** ** The query *)

(** [byte(v >> Shift8), byte(v & LowByteMask)] *)
Definition header_field (v : Z) : list byte := [byte_of_Z (Z.shiftr v Shift8); byte_of_Z (Z.land v LowByteMask)].

(** [byte(len(part))] and the bytes of the part. *)
Definition append_part (query : list byte) (part : string) : list byte :=
  (query ++ [byte_of_Z (Z.of_nat (String.length part))]) ++ bytes_of part.

Definition constructMDNSQuery (host : string) : list byte :=
  let query := header_field mdnsPacketTransactionID ++ header_field mdnsPacketFlags ++
    header_field mdnsPacketQuestions ++ header_field mdnsPacketAnswerRRs ++
    header_field mdnsPacketAuthorityRRs ++ header_field mdnsPacketAdditionalRRs in
  let query := foldl append_part query ([host] ++ [DefaultMDNSTopLevelDomain]) in
  let query := query ++ [byte_of_Z mdnsPacketNullTerminator] in
  let query := query ++ [byte_of_Z (Z.shiftr mdnsPacketTypeA Shift8); byte_of_Z mdnsPacketTypeA] in
  query ++ [byte_of_Z (Z.shiftr mdnsPacketClassIN Shift8); byte_of_Z mdnsPacketClassIN].

(** ** [sendAndReceiveMDNS] *)
Section Exchange.

Context {X : Type}.

(** [buffer[i]], used below only with [i] in range. *)
Definition at_index (buffer : list byte) (i : nat) : byte := default x00 (buffer !! i).

(** What the reader makes of a datagram: the buffer keeps its first 512 bytes,
    and the last four bytes received are the address. *)
Definition read_answer (datagram : list byte) : result IP (error X) :=
  let buffer := take DefaultMDNSResponseBuffer datagram in
  let n := length buffer in
  if (n <? 12 + 16)%nat then Err (Errorf ("invalid mDNS response length " +:+ fmt_d (Z.of_nat n)))
  else Ok (IPv4 (at_index buffer (n - 4)) (at_index buffer (n - 3)) (at_index buffer (n - 2)) (at_index buffer (n - 1))).

(** The goroutine that sends the query, the one that waits for the answer, and
    the function itself. *)
Inductive writer_pc := WWriting | WSendErr (e : error X) | WDone.

Inductive reader_pc := RIdle | RReading | RSendErr (e : error X) | RSendIP (ips : list IP) | RDone.

Inductive main_pc := MDeadline | MSelect | MReturned (r : result (list IP) (error X)).

Record exchange := mkExchange {
  ex_query : list byte;  (** what the writer puts on the wire *)
  ex_writer : writer_pc;
  ex_reader : reader_pc;
  ex_main : main_pc;
  ex_ctx : option X;  (** [ctx.Err()] once the context is done *)
  ex_errChan : list (error X);
  ex_respChan : list (list IP);
}.

Definition exchange_start (query : list byte) : exchange :=
  mkExchange query WWriting RIdle MDeadline None [] [].

(** One atomic action: [WriteTo] returns, the writer sends on the error channel,
    [SetReadDeadline] returns and the reader is started, [ReadFrom] returns, the
    reader sends on a channel, the context ends, the select takes a case. *)
Inductive ex_action :=
| AWrite (err : option X)
| AWriterSend
| ADeadline (err : option X)
| ARead (r : result (list byte) X)
| AReaderSend
| ACancel (e : X)
| ASelectCtx
| ASelectErr
| ASelectResp.

Definition ex_step (a : ex_action) (s : exchange) : option exchange :=
  let '(mkExchange q w r m c ec rc) := s in
  match a, w, r, m with
  | AWrite None, WWriting, _, _ => Some (mkExchange q WDone r m c ec rc)
  | AWrite (Some e), WWriting, _, _ => Some (mkExchange q (WSendErr (Foreign e)) r m c ec rc)
  | AWriterSend, WSendErr e, _, _ =>
      match ec with [] => Some (mkExchange q WDone r m c [e] rc) | _ => None end
  | ADeadline None, _, RIdle, MDeadline => Some (mkExchange q w RReading MSelect c ec rc)
  | ADeadline (Some e), _, _, MDeadline => Some (mkExchange q w r (MReturned (Err (Foreign e))) c ec rc)
  | ARead (Err e), _, RReading, _ => Some (mkExchange q w (RSendErr (Foreign e)) m c ec rc)
  | ARead (Ok d), _, RReading, _ =>
      match read_answer d with
      | Err e => Some (mkExchange q w (RSendErr e) m c ec rc)
      | Ok ip => Some (mkExchange q w (RSendIP [ip]) m c ec rc)
      end
  | AReaderSend, _, RSendErr e, _ =>
      match ec with [] => Some (mkExchange q w RDone m c [e] rc) | _ => None end
  | AReaderSend, _, RSendIP ips, _ =>
      match rc with [] => Some (mkExchange q w RDone m c ec [ips]) | _ => None end
  | ACancel e, _, _, _ =>
      match c with None => Some (mkExchange q w r m (Some e) ec rc) | Some _ => None end
  | ASelectCtx, _, _, MSelect =>
      match c with Some e => Some (mkExchange q w r (MReturned (Err (Foreign e))) c ec rc) | None => None end
  | ASelectErr, _, _, MSelect =>
      match ec with e :: ec => Some (mkExchange q w r (MReturned (Err e)) c ec rc) | [] => None end
  | ASelectResp, _, _, MSelect =>
      match rc with ips :: rc => Some (mkExchange q w r (MReturned (Ok ips)) c ec rc) | [] => None end
  | _, _, _, _ => None
  end.

Definition ex_run : list ex_action → exchange → option exchange := run_steps ex_step.

(** [ResolveMulticastDNS]: [listen] and [udp] are the outcomes of opening the
    socket and of resolving the multicast address, [as_] is the schedule of the
    exchange.  [None]: the schedule does not happen, or has not come to the
    return. *)
Definition ResolveMulticastDNS (hostname : string) (listen udp : option X) (as_ : list ex_action)
  : option (result (list IP) (error X)) :=
  match normalizeMDNSHostname hostname with
  | Err e => Some (Err e)
  | Ok host =>
      match listen with
      | Some e => Some (Err (Foreign e))
      | None =>
          match udp with
          | Some e => Some (Err (Foreign e))
          | None =>
              match ex_run as_ (exchange_start (constructMDNSQuery host)) with
              | Some (mkExchange _ _ _ (MReturned r) _ _ _) => Some r
              | _ => None
              end
          end
      end
  end.

(** ** Unicast DNS *)

(** [dial] is the outcome of dialling a server, [lookup] that of
    [net.LookupHost]; both may differ from one attempt to the next, so they get
    the number of the attempt. *)
Definition resolveDNS (dial : nat → string → option X) (lookup : nat → string → result (list string) X)
  (attempt : nat) (hostname dnsServer : string) : result (list IP) (error X) :=
  match dial attempt dnsServer with
  | Some e => Err (Wrapf "failed to dial DNS server: " (Foreign e))
  | None =>
      match lookup attempt hostname with
      | Err e => Err (Wrapf "failed to resolve IP from hostname: " (Foreign e))
      | Ok ipsString =>
          if (length ipsString =? 0)%nat
          then Err (Errorf ("no IP addresses found for hostname: " +:+ hostname))
          else Ok (filter (λ ip, ip ≠ []) (ParseIP <$> ipsString))
      end
  end.

Fixpoint resolvers_loop (dial : nat → string → option X) (lookup : nat → string → result (list string) X)
  (attempt : nat) (hostname : string) (resolvers : list string) : result (list IP) (error X) :=
  match resolvers with
  | [] => Err (Errorf ("failed to resolve hostname: " +:+ hostname))
  | resolver :: resolvers =>
      match resolveDNS dial lookup attempt hostname resolver with
      | Ok ips => Ok ips
      | Err _ => resolvers_loop dial lookup (S attempt) hostname resolvers
      end
  end.

Definition ResolveDNS (dial : nat → string → option X) (lookup : nat → string → result (list string) X)
  (hostname : string) (dnsServer : list string) : result (list IP) (error X) :=
  let defaultResolver :=
    if (length dnsServer =? 0)%nat then dnsServer ++ [DefaultCloudFlareDNSResolver] else dnsServer in
  resolvers_loop dial lookup 0 hostname defaultResolver.

End Exchange.

Arguments writer_pc : clear implicits.
Arguments reader_pc : clear implicits.
Arguments main_pc : clear implicits.
Arguments exchange : clear implicits.
Arguments ex_action : clear implicits.

(** ** Specification: the messages of RFC 1035 *)
Record dns_query := mkDnsQuery {
  dq_id : Z; dq_flags : Z; dq_questions : Z; dq_answers : Z; dq_authority : Z; dq_additional : Z;
  dq_labels : list (list byte); dq_type : Z; dq_class : Z;
}.

Definition be16 (hi lo : byte) : Z := byte_to_Z hi * 256 + byte_to_Z lo.

(** A name: labels of 1 to 63 bytes, each after its length, ended by a zero. *)
Fixpoint decode_name (fuel : nat) (b : list byte) : option (list (list byte) * list byte) :=
  match fuel, b with
  | S fuel, l :: b =>
      let n := Z.to_nat (byte_to_Z l) in
      if (n =? 0)%nat then Some ([], b)
      else if (63 <? n)%nat || (length b <? n)%nat then None
      else match decode_name fuel (drop n b) with
           | Some (labels, rest) => Some (take n b :: labels, rest)
           | None => None
           end
  | _, _ => None
  end.

(** A message with one question and nothing after it. *)
Definition decode_query (b : list byte) : option dns_query :=
  match b with
  | i1 :: i2 :: f1 :: f2 :: q1 :: q2 :: a1 :: a2 :: n1 :: n2 :: r1 :: r2 :: b =>
      match decode_name (length b) b with
      | Some (labels, [t1; t2; c1; c2]) =>
          Some (mkDnsQuery (be16 i1 i2) (be16 f1 f2) (be16 q1 q2) (be16 a1 a2) (be16 n1 n2) (be16 r1 r2)
            labels (be16 t1 t2) (be16 c1 c2))
      | _ => None
      end
  | _ => None
  end.

(** ** Names *)
Lemma normalize_spec {X} hostname :
  normalizeMDNSHostname (X:=X) hostname =
  if IsMultiCastDNS hostname then Ok (TrimSuffix hostname ".local")
  else Err (Errorf "domains in mDNS must use ..local top level hostname").
Proof. unfold normalizeMDNSHostname. by destruct (IsMultiCastDNS hostname). Qed.

Lemma constructMDNSQuery_eq host :
  constructMDNSQuery host =
  [x00; x00; x00; x00; x00; x01; x00; x00; x00; x00; x00; x00] ++
  (byte_of_Z (Z.of_nat (String.length host)) :: bytes_of host) ++
  [x05; x6c; x6f; x63; x61; x6c; x00; x00; x01; x00; x01].
Proof.
  unfold constructMDNSQuery, append_part. simpl. rewrite <- !app_assoc. reflexivity.
Qed.

Lemma decode_name_label fuel l b labels rest :
  (1 ≤ length l ≤ 63)%nat → decode_name fuel b = Some (labels, rest) →
  decode_name (S fuel) (byte_of_Z (Z.of_nat (length l)) :: l ++ b) = Some (l :: labels, rest).
Proof.
  intros Hl Hd. simpl. rewrite byte_to_of_Z. unfold u8. rewrite uwrap_small by (unfold in_uint; lia).
  rewrite Nat2Z.id. destruct (Nat.eqb_spec (length l) 0); [lia|].
  destruct (Nat.ltb_spec 63 (length l)); [lia|].
  rewrite length_app. destruct (Nat.ltb_spec (length l + length b) (length l)); [lia|]. simpl.
  by rewrite drop_app_length, take_app_length, Hd.
Qed.

(** C23: for a host of 1 to 63 bytes the query is a well-formed DNS message with
    one question, for the name made of the label [host] and the label [local],
    type A, class IN, and everything else in the header zero.  A host with dots
    is still one label. *)
Theorem mdns_query_roundtrip host :
  (1 ≤ String.length host ≤ 63)%nat →
  decode_query (constructMDNSQuery host) =
    Some (mkDnsQuery 0 0 1 0 0 0 [bytes_of host; bytes_of "local"] 1 1).
Proof.
  intros Hl. rewrite constructMDNSQuery_eq. unfold decode_query. cbn [app].
  rewrite <- bytes_of_length. cbn [length].
  rewrite (decode_name_label _ (bytes_of host) [x05; x6c; x6f; x63; x61; x6c; x00; x00; x01; x00; x01]
    [bytes_of "local"] [x00; x01; x00; x01]); [reflexivity|by rewrite bytes_of_length|].
  rewrite length_app, Nat.add_comm. reflexivity.
Qed.

(** A host whose length, reduced to one byte, is 64 or more yields a packet
    that is no DNS query. *)
Theorem mdns_query_long_host host :
  64 ≤ Z.of_nat (String.length host) mod 256 → decode_query (constructMDNSQuery host) = None.
Proof.
  intros Hl. rewrite constructMDNSQuery_eq. unfold decode_query. cbn [app length decode_name].
  rewrite byte_to_of_Z. unfold u8, uwrap. change (2 ^ 8) with 256.
  destruct (Nat.eqb_spec (Z.to_nat (Z.of_nat (String.length host) mod 256)) 0); [lia|].
  destruct (Nat.ltb_spec 63 (Z.to_nat (Z.of_nat (String.length host) mod 256))); [done|lia].
Qed.

(** ** Answers *)
Lemma read_answer_last {X} pre a b c d :
  (24 ≤ length pre)%nat → (length pre + 4 ≤ DefaultMDNSResponseBuffer)%nat →
  read_answer (X:=X) (pre ++ [a; b; c; d]) = Ok (IPv4 a b c d).
Proof.
  intros Hlo Hhi. unfold read_answer, at_index.
  rewrite take_ge by (rewrite length_app; simpl; lia). rewrite length_app. cbn [length].
  destruct (Nat.ltb_spec (length pre + 4) (12 + 16)); [lia|].
  rewrite !lookup_app_r by lia.
  replace (length pre + 4 - 4 - length pre)%nat with 0%nat by lia.
  replace (length pre + 4 - 3 - length pre)%nat with 1%nat by lia.
  replace (length pre + 4 - 2 - length pre)%nat with 2%nat by lia.
  replace (length pre + 4 - 1 - length pre)%nat with 3%nat by lia. done.
Qed.

(** What is made of a datagram, in full: the last four of at least 28 bytes that
    fit into the buffer, or the complaint about their number. *)
Lemma read_answer_spec {X} datagram :
  match read_answer (X:=X) datagram with
  | Ok ip => ∃ pre a b c d, take DefaultMDNSResponseBuffer datagram = pre ++ [a; b; c; d] ∧
      (24 ≤ length pre)%nat ∧ ip = IPv4 a b c d
  | Err e => (length datagram < 28)%nat ∧
      e = Errorf ("invalid mDNS response length " +:+ fmt_d (Z.of_nat (length datagram)))
  end.
Proof.
  set (buffer := take DefaultMDNSResponseBuffer datagram).
  destruct (decide (length datagram < 28)%nat) as [Hs|Hl].
  - unfold read_answer. rewrite take_ge by (unfold DefaultMDNSResponseBuffer; lia).
    destruct (Nat.ltb_spec (length datagram) (12 + 16)); [done|lia].
  - assert (28 ≤ length buffer ≤ 512)%nat as Hb
      by (unfold buffer, DefaultMDNSResponseBuffer; rewrite length_take; lia).
    destruct (drop (length buffer - 4) buffer) as [|a [|b [|c [|d [|x l]]]]] eqn:Ed;
      apply (f_equal length) in Ed as Hlen; rewrite length_drop in Hlen; simpl in Hlen; try lia.
    assert (buffer = take (length buffer - 4) buffer ++ [a; b; c; d]) as E by (by rewrite <- Ed, take_drop).
    assert (length (take (length buffer - 4) buffer) = length buffer - 4)%nat as Lt by (rewrite length_take; lia).
    assert (read_answer (X:=X) datagram = Ok (IPv4 a b c d)) as ->.
    { transitivity (read_answer (X:=X) buffer).
      - unfold read_answer, buffer. by rewrite take_take, Nat.min_id.
      - rewrite E. apply read_answer_last; unfold DefaultMDNSResponseBuffer; lia. }
    exists (take (length buffer - 4) buffer), a, b, c, d. split_and!; [done|lia|done].
Qed.

(** A response that ends with an address record, that is a header, other
    records, a name, ten bytes of type, class, lifetime and length, and the four
    bytes of the address, is read as that address. *)
Theorem mdns_reads_address {X} (header records name fixed : list byte) a b c d :
  length header = 12%nat → (2 ≤ length name)%nat → length fixed = 10%nat →
  (26 + length records + length name ≤ DefaultMDNSResponseBuffer)%nat →
  read_answer (X:=X) (header ++ records ++ name ++ fixed ++ [a; b; c; d]) = Ok (IPv4 a b c d).
Proof.
  intros Hh Hn Hf Hlen. rewrite !app_assoc.
  apply read_answer_last; rewrite !length_app; lia.
Qed.

(** Nothing of a datagram but its length and its last four bytes is looked
    at: a query like the program's own, received instead of a response, is
    taken for the address 0.1.0.1. *)
Theorem mdns_query_read_as_answer {X} host :
  (4 ≤ String.length host ≤ 488)%nat →
  read_answer (X:=X) (constructMDNSQuery host) = Ok (IPv4 x00 x01 x00 x01).
Proof.
  intros Hl. rewrite constructMDNSQuery_eq.
  set (pre := [x00; x00; x00; x00; x00; x01; x00; x00; x00; x00; x00; x00] ++
    (byte_of_Z (Z.of_nat (String.length host)) :: bytes_of host) ++ [x05; x6c; x6f; x63; x61; x6c; x00]).
  transitivity (read_answer (X:=X) (pre ++ [x00; x01; x00; x01])).
  { f_equal. unfold pre. rewrite <- !app_assoc. reflexivity. }
  apply read_answer_last; unfold pre; rewrite !length_app; cbn [length];
    rewrite ?length_app, bytes_of_length; cbn [length]; unfold DefaultMDNSResponseBuffer; lia.
Qed.

(** ** The exchange *)
Section ExchangeProperties.

Context {X : Type}.

(** Where an error or an answer of the function can come from, given the actions
    executed. *)
Definition err_origin (tr : list (ex_action X)) (e : error X) : Prop :=
  (∃ x, e = Foreign x ∧
    (AWrite (Some x) ∈ tr ∨ ADeadline (Some x) ∈ tr ∨ ARead (Err x) ∈ tr ∨ ACancel x ∈ tr)) ∨
  (∃ d, ARead (Ok d) ∈ tr ∧ (length d < 28)%nat ∧
    e = Errorf ("invalid mDNS response length " +:+ fmt_d (Z.of_nat (length d)))).

Definition answer_origin (tr : list (ex_action X)) (ips : list IP) : Prop :=
  ∃ datagram pre a b c d, ARead (Ok datagram) ∈ tr ∧
    take DefaultMDNSResponseBuffer datagram = pre ++ [a; b; c; d] ∧ (24 ≤ length pre)%nat ∧
    ips = [IPv4 a b c d].

Definition result_origin (tr : list (ex_action X)) (r : result (list IP) (error X)) : Prop :=
  match r with Ok ips => answer_origin tr ips | Err e => err_origin tr e end.

Record ex_inv (tr : list (ex_action X)) (s : exchange X) : Prop := {
  ei_writer e : ex_writer s = WSendErr e → err_origin tr e;
  ei_reader_err e : ex_reader s = RSendErr e → err_origin tr e;
  ei_reader_ip ips : ex_reader s = RSendIP ips → answer_origin tr ips;
  ei_errChan e : e ∈ ex_errChan s → err_origin tr e;
  ei_respChan ips : ips ∈ ex_respChan s → answer_origin tr ips;
  ei_ctx e : ex_ctx s = Some e → ACancel e ∈ tr;
  ei_main r : ex_main s = MReturned r → result_origin tr r;
  (** the shape of the channels and program counters *)
  ei_idle : ex_main s = MSelect → ex_reader s ≠ RIdle;
  ei_resp_done : ex_respChan s ≠ [] → ex_reader s = RDone;
  ei_sent : ex_main s = MSelect → ex_reader s = RDone → ex_errChan s ≠ [] ∨ ex_respChan s ≠ [];
}.

Lemma err_origin_mono tr a e : err_origin tr e → err_origin (tr ++ [a]) e.
Proof. unfold err_origin. intros [(x & -> & H)|(d & H & E)]; [left|right; exists d]; set_solver. Qed.

Lemma answer_origin_mono tr a ips : answer_origin tr ips → answer_origin (tr ++ [a]) ips.
Proof.
  intros (dg & pre & a0 & b & c & d & H & E & Hl & ->). exists dg, pre, a0, b, c, d.
  split_and!; [|done..]. apply elem_of_app. by left.
Qed.

Lemma result_origin_mono tr a r : result_origin tr r → result_origin (tr ++ [a]) r.
Proof. destruct r; [apply answer_origin_mono|apply err_origin_mono]. Qed.

Lemma err_origin_new tr a x :
  a = AWrite (Some x) ∨ a = ADeadline (Some x) ∨ a = ARead (Err x) ∨ a = ACancel x →
  err_origin (tr ++ [a]) (Foreign x).
Proof. intros H. left. exists x. split; [done|]. set_solver. Qed.

Lemma err_origin_read tr d e : read_answer d = Err e → err_origin (tr ++ [ARead (Ok d)]) e.
Proof.
  intros H. pose proof (read_answer_spec (X:=X) d) as Hs. rewrite H in Hs. destruct Hs as [Hl ->].
  right. exists d. split; [set_solver|done].
Qed.

Lemma answer_origin_read tr d ip : read_answer (X:=X) d = Ok ip → answer_origin (tr ++ [ARead (Ok d)]) [ip].
Proof.
  intros H. pose proof (read_answer_spec (X:=X) d) as Hs. rewrite H in Hs.
  destruct Hs as (pre & a & b & c & d' & E & Hl & ->). exists d, pre, a, b, c, d'. split; [set_solver|done].
Qed.

Hint Resolve err_origin_new err_origin_read answer_origin_read : core.

Lemma ctx_origin tr x : ACancel x ∈ tr → err_origin tr (Foreign x).
Proof. intros H. left. exists x. eauto. Qed.

Hint Resolve ctx_origin : core.

Lemma ex_inv_mono tr a s : ex_inv tr s → ex_inv (tr ++ [a]) s.
Proof.
  intros [Hw Hre Hri Hec Hrc Hctx Hm Hidle Hresp Hsent].
  split; intros; eauto using err_origin_mono, answer_origin_mono, result_origin_mono.
  apply elem_of_app. eauto.
Qed.

Lemma ex_step_inv tr a s s' : ex_step a s = Some s' → ex_inv tr s → ex_inv (tr ++ [a]) s'.
Proof.
  intros Hs Hi. apply (ex_inv_mono _ a) in Hi. destruct s as [q w r m c ec rc].
  destruct Hi as [Hw Hre Hri Hec Hrc Hctx Hm Hidle Hresp Hsent]. simpl in *.
  destruct a; step_cases Hs;
    split; simpl; intros; simplify_eq/=; try done; eauto 3.
  all: try (apply elem_of_app; right; by apply list_elem_of_singleton).
  all: try (match goal with H : _ ∈ [_] |- _ => apply list_elem_of_singleton in H as -> end; eauto 3).
  all: try (by apply err_origin_new; eauto).
  all: try (by apply Hec; constructor).
  all: try (by apply Hrc; constructor).
  all: try (by discriminate Hresp).
Qed.

Lemma ex_run_inv as_ tr s s' : ex_run as_ s = Some s' → ex_inv tr s → ex_inv (tr ++ as_) s'.
Proof. apply (run_steps_trace_inv ex_step ex_inv ex_step_inv). Qed.

Lemma exchange_start_inv q : ex_inv [] (exchange_start q).
Proof. split; simpl; intros; try done; set_solver. Qed.

(** C24: whatever the schedule, an address returned consists of the last four of
    at least 28 bytes that the buffer of 512 bytes held of a datagram received,
    and an error returned is the one the write, the deadline, the read or the
    context reported, or the complaint about a datagram of less than 28 bytes. *)
Theorem mdns_result_origin as_ q s r :
  ex_run as_ (exchange_start q) = Some s → ex_main s = MReturned r → result_origin as_ r.
Proof.
  intros Hr Hm. eapply (ei_main as_); [|exact Hm].
  exact (ex_run_inv as_ [] _ _ Hr (exchange_start_inv q)).
Qed.

(** Actions of the reader and of the select that need nobody outside. *)
Definition own_action (a : ex_action X) : bool :=
  match a with AReaderSend | ASelectErr | ASelectResp => true | _ => false end.

(** The function returns in two more actions once the reader has left the
    socket. *)
Lemma ex_returns tr s :
  ex_inv tr s → ex_main s = MSelect → ex_reader s ≠ RReading →
  ∃ more s' r, (length more ≤ 2)%nat ∧ forallb own_action more = true ∧
    ex_run more s = Some s' ∧ ex_main s' = MReturned r.
Proof.
  intros Hi Hm Hr. pose proof (ei_idle _ _ Hi Hm) as Hidle. pose proof (ei_sent _ _ Hi Hm) as Hsent.
  pose proof (ei_resp_done _ _ Hi) as Hresp.
  destruct s as [q w rd m c ec rc]. simpl in *. subst m.
  destruct ec as [|e ec]; [|by eexists [ASelectErr], _, _; split_and!; [simpl; lia|reflexivity..]].
  destruct rc as [|ips rc].
  2: { rewrite (Hresp ltac:(done)). by eexists [ASelectResp], _, _; split_and!; [simpl; lia|reflexivity..]. }
  destruct rd as [| |e|ips|]; [done|done|..].
  - by eexists [AReaderSend; ASelectErr], _, _; split_and!; [simpl; lia|reflexivity..].
  - by eexists [AReaderSend; ASelectResp], _, _; split_and!; [simpl; lia|reflexivity..].
  - destruct (Hsent eq_refl) as [?|?]; done.
Qed.

Lemma ex_read_enabled (s : exchange X) d :
  ex_reader s = RReading →
  ∃ s', ex_step (ARead d) s = Some s' ∧ ex_main s' = ex_main s ∧ ex_reader s' ≠ RReading.
Proof.
  destruct s as [q w rd m c ec rc]. simpl. intros ->.
  destruct d as [d|e]; [destruct (read_answer d)|]; by eexists.
Qed.

(** C25: the function cannot hang: in every state in which it waits at its select,
    at most two actions of its own bring it to its return, after the pending
    read, if there is one, has returned anything at all (which the deadline
    makes sure of). *)
Theorem mdns_returns as_ q s d :
  ex_run as_ (exchange_start q) = Some s → ex_main s = MSelect →
  ∃ more s' r, (length more ≤ 2)%nat ∧ forallb own_action more = true ∧ ex_main s' = MReturned r ∧
    ex_run (match ex_reader s with RReading => ARead d :: more | _ => more end) s = Some s'.
Proof.
  intros Hr Hm. pose proof (ex_run_inv as_ [] _ _ Hr (exchange_start_inv q)) as Hi. simpl in Hi.
  assert (ex_reader s = RReading ∨ ex_reader s ≠ RReading) as [Er|Er]
    by (destruct (ex_reader s); (by left) || (by right)).
  - destruct (ex_read_enabled s d Er) as (s1 & Es & Em & Er1).
    destruct (ex_returns (as_ ++ [ARead d]) s1) as (more & s' & r & Hl & Hown & Hrun & Hret).
    + by eapply ex_step_inv.
    + congruence.
    + done.
    + exists more, s', r. rewrite Er. split_and!; [done..|]. unfold ex_run in *. simpl. by rewrite Es.
  - destruct (ex_returns as_ s Hi Hm Er) as (more & s' & r & Hl & Hown & Hrun & Hret).
    exists more, s', r. split_and!; [done..|]. by destruct (ex_reader s).
Qed.

(** A reader that has to wait for room in the error channel after the function
    has returned waits for ever. *)
Definition ex_stuck (e : error X) (s : exchange X) : Prop :=
  (∃ r, ex_main s = MReturned r) ∧ ex_errChan s ≠ [] ∧ ex_reader s = RSendErr e.

Lemma ex_stuck_step e a s s' : ex_step a s = Some s' → ex_stuck e s → ex_stuck e s'.
Proof.
  destruct s as [q w rd m c ec rc]. intros Hs ([r Hm] & Hec & Hrd). simpl in *. subst.
  destruct a; step_cases Hs; by (split; [eauto|]).
Qed.

Lemma ex_stuck_run e as_ s s' : ex_run as_ s = Some s' → ex_stuck e s → ex_stuck e s'.
Proof.
  apply (run_steps_inv ex_step (λ _, true)); [|apply forallb_true]. intros a s1 s2 _. apply ex_stuck_step.
Qed.

(** When the context ends first and then both the write and the read fail, the two
    goroutines share an error channel with room for one value that nobody reads
    any more: the second one is blocked for ever. *)
Theorem mdns_goroutine_leak q (c x y : X) :
  ∃ s, ex_run [ADeadline None; ACancel c; ASelectCtx; AWrite (Some x); AWriterSend; ARead (Err y)]
      (exchange_start q) = Some s ∧
    ex_main s = MReturned (Err (Foreign c)) ∧
    ∀ as_ s', ex_run as_ s = Some s' → ex_reader s' = RSendErr (Foreign y).
Proof.
  eexists. split; [reflexivity|]. split; [reflexivity|]. intros as_ s' Hr.
  apply (ex_stuck_run (Foreign y)) in Hr as (_ & _ & ->); [done|]. split_and!; [by eexists|done|done].
Qed.

(** ** Unicast resolution *)
Definition can_dial (dial : nat → string → option X) (attempt : nat) (server : string) : bool :=
  match dial attempt server with None => true | Some _ => false end.

(** The names that an attempt with a server yields: those of the resolver of the
    system, if the server can be dialled and there are any. *)
Definition attempt_names (dial : nat → string → option X) (lookup : nat → string → result (list string) X)
  (hostname : string) (attempt : nat) (server : string) : option (list string) :=
  match lookup attempt hostname with
  | Ok (a :: names) => if can_dial dial attempt server then Some (a :: names) else None
  | _ => None
  end.

Lemma resolvers_loop_spec dial (lookup : nat → string → result (list string) X) hostname servers n :
  resolvers_loop dial lookup n hostname servers =
  match head (omap id (imap (λ i, attempt_names dial lookup hostname (n + i)) servers)) with
  | Some names => Ok (filter (λ ip, ip ≠ []) (ParseIP <$> names))
  | None => Err (Errorf ("failed to resolve hostname: " +:+ hostname))
  end.
Proof.
  revert n. induction servers as [|srv servers IH]; intros n; [done|].
  cbn [resolvers_loop imap]. rewrite IH, Nat.add_0_r.
  assert (imap (λ i, attempt_names dial lookup hostname (S n + i)) servers =
    imap ((λ i, attempt_names dial lookup hostname (n + i)) ∘ S) servers) as ->.
  { apply imap_ext. intros i x _. simpl. by rewrite Nat.add_succ_r. }
  unfold resolveDNS, attempt_names at 2, can_dial.
  destruct (dial n srv) as [e|]; [by destruct (lookup n hostname) as [[|a names]|]|].
  by destruct (lookup n hostname) as [[|a names]|].
Qed.

(** With a resolver that does not change its mind only the dialling matters. *)
Lemma fixed_names dial (lookup : nat → string → result (list string) X) hostname a names servers n :
  (∀ i, lookup i hostname = Ok (a :: names)) →
  head (omap id (imap (λ i, attempt_names dial lookup hostname (n + i)) servers)) =
  if existsb id (imap (λ i, can_dial dial (n + i)) servers) then Some (a :: names) else None.
Proof.
  intros Hl. revert n. induction servers as [|srv servers IH]; intros n; [done|]. cbn [imap].
  rewrite Nat.add_0_r. unfold attempt_names at 1. rewrite Hl. cbn [existsb omap list_omap].
  destruct (can_dial dial n srv); [done|]. cbn [id orb].
  specialize (IH (S n)). etrans; [|etrans; [exact IH|]].
  - do 2 f_equal. apply imap_ext. intros i x _. simpl. by rewrite Nat.add_succ_r.
  - assert (imap (λ i, can_dial dial (S n + i)) servers =
      imap ((λ i, can_dial dial (n + i)) ∘ S) servers) as ->; [|done].
    apply imap_ext. intros i x _. simpl. by rewrite Nat.add_succ_r.
Qed.

(** C39: [ResolveDNS] answers with the first attempt at which the server can be
    dialled and the resolver of the system has names; the server is not asked.
    So if the resolver of the system says the same at every attempt, the servers
    passed only decide whether there is an answer: one that can be dialled is
    enough, and the answer is the same for every list of servers.  Addresses that
    do not parse are left out. *)
Theorem ResolveDNS_spec dial (lookup : nat → string → result (list string) X) hostname servers :
  let used := if (length servers =? 0)%nat then [DefaultCloudFlareDNSResolver] else servers in
  ResolveDNS dial lookup hostname servers =
    match head (omap id (imap (attempt_names dial lookup hostname) used)) with
    | Some names => Ok (filter (λ ip, ip ≠ []) (ParseIP <$> names))
    | None => Err (Errorf ("failed to resolve hostname: " +:+ hostname))
    end ∧
  ∀ a names, (∀ i, lookup i hostname = Ok (a :: names)) →
    ResolveDNS dial lookup hostname servers =
    if existsb id (imap (can_dial dial) used)
    then Ok (filter (λ ip, ip ≠ []) (ParseIP <$> (a :: names)))
    else Err (Errorf ("failed to resolve hostname: " +:+ hostname)).
Proof.
  cbv zeta. unfold ResolveDNS.
  assert ((if (length servers =? 0)%nat then servers ++ [DefaultCloudFlareDNSResolver] else servers) =
    (if (length servers =? 0)%nat then [DefaultCloudFlareDNSResolver] else servers)) as -> by by destruct servers.
  generalize (if (length servers =? 0)%nat then [DefaultCloudFlareDNSResolver] else servers) as used.
  intros used. rewrite resolvers_loop_spec. split; [done|]. intros a names Hl.
  rewrite (fixed_names dial lookup hostname a names used 0 Hl). by destruct (existsb _ _).
Qed.

End ExchangeProperties.

(** ** Concrete exchanges *)
Lemma mdns_query_roundtrip_witness :
  decode_query (constructMDNSQuery "gale-lb") =
    Some (mkDnsQuery 0 0 1 0 0 0 [bytes_of "gale-lb"; bytes_of "local"] 1 1).
Proof. apply mdns_query_roundtrip. simpl. lia. Defined.

Definition long_host : string := String.string_of_list_byte (replicate 64 x61).

Lemma mdns_query_long_host_witness : decode_query (constructMDNSQuery long_host) = None.
Proof. apply mdns_query_long_host. vm_compute. discriminate. Defined.

Lemma mdns_reads_address_witness :
  read_answer (X:=string) (replicate 12 x00 ++ [] ++ [xc0; x0c] ++ replicate 10 x00 ++ [x0a; x00; x00; x07]) =
    Ok (IPv4 x0a x00 x00 x07).
Proof. apply mdns_reads_address; vm_compute; lia. Defined.

Lemma mdns_query_read_as_answer_witness :
  read_answer (X:=string) (constructMDNSQuery "gale-lb") = Ok (IPv4 x00 x01 x00 x01).
Proof. apply mdns_query_read_as_answer. simpl. lia. Defined.

(** A response arrives. *)
Definition demo_datagram : list byte := replicate 24 x00 ++ [x0a; x00; x00; x07].

Definition demo_exchange : list (ex_action string) :=
  [ADeadline None; AWrite None; ARead (Ok demo_datagram); AReaderSend; ASelectResp].

Lemma mdns_result_origin_witness :
  result_origin demo_exchange (Ok [IPv4 x0a x00 x00 x07]).
Proof.
  apply (mdns_result_origin demo_exchange [] (mkExchange [] WDone RDone (MReturned (Ok [IPv4 x0a x00 x00 x07]))
    None [] [])); vm_compute; reflexivity.
Defined.

Lemma mdns_returns_witness :
  ∃ more s' r, (length more ≤ 2)%nat ∧ forallb own_action more = true ∧ ex_main s' = MReturned r ∧
    ex_run (ARead (Ok demo_datagram) :: more)
      (mkExchange (X:=string) [] WWriting RReading MSelect None [] []) = Some s'.
Proof.
  apply (mdns_returns [ADeadline None] [] (mkExchange (X:=string) [] WWriting RReading MSelect None [] []));
    reflexivity.
Defined.
