(* ===== verification/Icmp.v ===== *)
(** * Ping ([pkg/util/icmp.go])

    [Ping] opens a raw socket, sends one echo request in a goroutine and waits
    for it or for the context, then waits in a second goroutine for one message.
    The state is the function with its one error channel of capacity one and the
    two goroutines.  The ICMP package (sockets, marshalling, parsing) is a
    parameter; [X] is the type of its errors. *)

From S2P Require Import Prelude.

Section Ping.

Context {X : Type}.

(** A message the ICMP package parsed: its type, and whether that is
    [ipv4.ICMPTypeEchoReply]; [shown] is its printed form. *)
Record Message := mkMessage { is_echo_reply : bool; shown : string }.

(** The outcomes of [icmp.ListenPacket] and [net.ResolveIPAddr]. *)
Record ping_setup := mkPingSetup { ps_listen : option X; ps_resolve : option X }.

(** The request: the code, and the identifier, sequence number and data of the
    echo body. *)
Record echo_message := mkEcho { em_Code : Z; em_ID : Z; em_Seq : Z; em_Data : list byte }.

Definition DefaultICMPDataPacket : string := "ping".

Definition DefaultICMPPacketCode : Z := 0.

Definition DefaultICMPPacketID : Z := 1.

Definition DefaultICMPPacketSequence : Z := 1.

Definition echo_request : echo_message :=
  mkEcho DefaultICMPPacketCode DefaultICMPPacketID DefaultICMPPacketSequence (bytes_of DefaultICMPDataPacket).

(** [sendICMPEchoRequest]: [marshal] is [msg.Marshal(nil)] and [write] the outcome
    of [conn.WriteTo]. *)
Definition sendICMPEchoRequest (marshal : echo_message → result (list byte) X) (write : list byte → option X)
  : option (error X) :=
  match marshal echo_request with
  | Err e => Some (Foreign e)
  | Ok msgBytes => match write msgBytes with Some e => Some (Foreign e) | None => None end
  end.

(** [receiveICMPEchoReply]: [read] is the outcome of [conn.ReadFrom], [parse]
    that of [icmp.ParseMessage] on what was read. *)
Definition receiveICMPEchoReply (read : option X) (parse : result Message X) : result Message (error X) :=
  match read with
  | Some e => Err (Foreign e)
  | None => match parse with Ok m => Ok m | Err e => Err (Foreign e) end
  end.

(** The body of the second goroutine. *)
Definition check_reply (m : result Message (error X)) : option (error X) :=
  match m with
  | Err errReply => Some errReply
  | Ok parsedMsg =>
      if is_echo_reply parsedMsg then None
      else Some (Errorf ("received unexpected ICMP message: " +:+ shown parsedMsg))
  end.

(** A goroutine: not started, in its system call, sending its result, finished. *)
Inductive gor := GIdle | GRunning | GSending (e : option (error X)) | GDone.

(** The function: at its first select, at its second one, returned. *)
Inductive ping_pc := PWaitSend | PWaitReply | PReturned (r : option (error X)).

Record ping := mkPing {
  pg_main : ping_pc;
  pg_sender : gor;
  pg_receiver : gor;
  pg_ctx : option X;
  pg_errChan : list (option (error X));
}.

(** [Ping] up to the first select. *)
Definition Ping_start (su : ping_setup) : ping :=
  match ps_listen su with
  | Some e => mkPing (PReturned (Some (Foreign e))) GIdle GIdle None []
  | None =>
      match ps_resolve su with
      | Some e => mkPing (PReturned (Some (Foreign e))) GIdle GIdle None []
      | None => mkPing PWaitSend GRunning GIdle None []
      end
  end.

Inductive ping_action :=
| PSend (marshal : echo_message → result (list byte) X) (write : list byte → option X)
| PSenderPut
| PReceive (read : option X) (parse : result Message X)
| PReceiverPut
| PCancel (e : X)
| PSelectCtx
| PSelectErr.

Definition ping_step (a : ping_action) (s : ping) : option ping :=
  let '(mkPing m sd rc c ch) := s in
  match a with
  | PSend marshal write =>
      match sd with
      | GRunning => Some (mkPing m (GSending (sendICMPEchoRequest marshal write)) rc c ch)
      | _ => None
      end
  | PSenderPut =>
      match sd, ch with GSending e, [] => Some (mkPing m GDone rc c [e]) | _, _ => None end
  | PReceive read parse =>
      match rc with
      | GRunning => Some (mkPing m sd (GSending (check_reply (receiveICMPEchoReply read parse))) c ch)
      | _ => None
      end
  | PReceiverPut =>
      match rc, ch with GSending e, [] => Some (mkPing m sd GDone c [e]) | _, _ => None end
  | PCancel e => match c with None => Some (mkPing m sd rc (Some e) ch) | Some _ => None end
  | PSelectCtx =>
      match m, c with
      | PWaitSend, Some e | PWaitReply, Some e => Some (mkPing (PReturned (Some (Foreign e))) sd rc c ch)
      | _, _ => None
      end
  | PSelectErr =>
      match m, ch with
      | PWaitSend, Some e :: ch => Some (mkPing (PReturned (Some e)) sd rc c ch)
      | PWaitSend, None :: ch => Some (mkPing PWaitReply sd GRunning c ch)
      | PWaitReply, e :: ch => Some (mkPing (PReturned e) sd rc c ch)
      | _, _ => None
      end
  end.

Definition ping_run : list ping_action → ping → option ping := run_steps ping_step.

(** ** Properties *)

(** The echo request was marshalled and written. *)
Definition sent (tr : list ping_action) : Prop :=
  ∃ marshal write b, PSend marshal write ∈ tr ∧ marshal echo_request = Ok b ∧ write b = None.

(** A request was sent and an echo reply was received. *)
Definition pinged (tr : list ping_action) : Prop :=
  ∃ m, sent tr ∧ PReceive None (Ok m) ∈ tr ∧ is_echo_reply m = true.

Record ping_inv (tr : list ping_action) (s : ping) : Prop := {
  pi_sender : pg_sender s = GSending None → sent tr;
  pi_receiver : pg_receiver s = GSending None → pinged tr;
  pi_chan_send : pg_main s = PWaitSend → None ∈ pg_errChan s → sent tr;
  pi_chan_reply : pg_main s = PWaitReply → None ∈ pg_errChan s → pinged tr;
  pi_reply_sent : pg_main s = PWaitReply → sent tr;
  pi_running : pg_receiver s ≠ GIdle → sent tr;
  pi_main : pg_main s = PReturned None → pinged tr;
  (** the channel is never contended *)
  pi_idle : pg_main s = PWaitSend → pg_receiver s = GIdle;
  pi_sender_done : pg_receiver s ≠ GIdle → pg_sender s = GDone;
  pi_sender_room : pg_sender s ≠ GDone → pg_errChan s = [];
  pi_waiting : pg_main s = PWaitReply → pg_receiver s ≠ GIdle;
  pi_room : (length (pg_errChan s) ≤ 1)%nat;
  pi_receiver_room : pg_receiver s = GRunning ∨ (∃ e, pg_receiver s = GSending e) → pg_errChan s = [];
}.

Lemma check_reply_ok read parse :
  check_reply (receiveICMPEchoReply read parse) = None →
  ∃ m, read = None ∧ parse = Ok m ∧ is_echo_reply m = true.
Proof.
  unfold check_reply, receiveICMPEchoReply. destruct read, parse as [m|]; simpl; try done.
  destruct (is_echo_reply m) eqn:E; [|done]. eauto.
Qed.

Lemma sent_mono tr a : sent tr → sent (tr ++ [a]).
Proof.
  intros (marshal & write & b & H & ? & ?). exists marshal, write, b. split_and!; [|done..].
  apply elem_of_app. by left.
Qed.

Lemma pinged_mono tr a : pinged tr → pinged (tr ++ [a]).
Proof.
  intros (m & Hs & Hr & Hm). exists m. split_and!; [by apply sent_mono| |done]. apply elem_of_app. by left.
Qed.

Lemma pinged_now tr read parse :
  check_reply (receiveICMPEchoReply read parse) = None → sent (tr ++ [PReceive read parse]) →
  pinged (tr ++ [PReceive read parse]).
Proof.
  intros (m & -> & -> & Hm)%check_reply_ok Hs. exists m. split_and!; [done| |done].
  apply elem_of_app. right. by apply list_elem_of_singleton.
Qed.

Lemma sent_now tr marshal write :
  sendICMPEchoRequest marshal write = None → sent (tr ++ [PSend marshal write]).
Proof.
  unfold sendICMPEchoRequest. intros H. destruct (marshal echo_request) as [b|] eqn:Em; [|done].
  destruct (write b) eqn:Ew; [done|]. exists marshal, write, b. split_and!; [|done..].
  apply elem_of_app. right. by apply list_elem_of_singleton.
Qed.

Lemma ping_inv_mono tr a s : ping_inv tr s → ping_inv (tr ++ [a]) s.
Proof.
  intros []. split; intros; eauto using pinged_mono, sent_mono.
Qed.

Lemma ping_step_inv tr a s s' : ping_step a s = Some s' → ping_inv tr s → ping_inv (tr ++ [a]) s'.
Proof.
  intros Hs Hi. apply (ping_inv_mono _ a) in Hi.
  destruct s as [m sd rc c ch], Hi as [H1 H2 H3 H4 H5 H6 H7 H8 H9 H10 Hwait Hroom H12]. simpl in *.
  destruct a; step_cases Hs;
    split; simpl; intros; simplify_eq/=; try done; eauto 3 using pinged_now, sent_now, list_elem_of_here.
  all: try (match goal with H : _ ∈ [_] |- _ => apply list_elem_of_singleton in H as <- end; eauto 3).
  all: try (match goal with H : (S (length ?l) ≤ 1)%nat |- _ => destruct l; [done|simpl in H; lia] end).
  all: try (simpl in *; lia).
  all: try (by discriminate (H8 eq_refl)).
  all: try (match goal with H : _ ∈ ?l |- _ => destruct l; [by apply elem_of_nil in H|simpl in Hroom; lia] end).
  all: try (by destruct sd; first [done|discriminate (H10 ltac:(done))]).
  - by apply H9 in H.
  - by discriminate (H9 (Hwait eq_refl)).
  - destruct H as [->|[? ->]]; by discriminate (H9 ltac:(done)).
  - destruct H. by apply H9.
  - by destruct H as [|[? ?]].
Qed.

Lemma ping_run_inv as_ tr s s' : ping_run as_ s = Some s' → ping_inv tr s → ping_inv (tr ++ as_) s'.
Proof. apply (run_steps_trace_inv ping_step ping_inv ping_step_inv). Qed.

Lemma Ping_start_inv su : ping_inv [] (Ping_start su).
Proof.
  destruct su as [[|] [|]]; split; simpl; intros; try done; try lia; set_solver.
Qed.

(** C40: [Ping] returns nil only if the request was marshalled and written and a
    message of type echo reply was then received, under every schedule of the
    two goroutines and the context. *)
Theorem ping_nil_means_reply su as_ s :
  ping_run as_ (Ping_start su) = Some s → pg_main s = PReturned None → pinged as_.
Proof.
  intros Hr. apply (pi_main as_). exact (ping_run_inv as_ [] _ _ Hr (Ping_start_inv su)).
Qed.

(** A goroutine of [Ping] that has its result never waits to deliver it, not
    even when [Ping] has returned because the context ended: no goroutine is
    leaked once its system call is over. *)
Theorem ping_goroutines_finish su as_ s e :
  ping_run as_ (Ping_start su) = Some s →
  (pg_sender s = GSending e → is_Some (ping_step PSenderPut s)) ∧
  (pg_receiver s = GSending e → is_Some (ping_step PReceiverPut s)).
Proof.
  intros Hr. pose proof (ping_run_inv as_ [] _ _ Hr (Ping_start_inv su)) as Hi. simpl in Hi.
  pose proof (pi_sender_room _ _ Hi) as Hs. pose proof (pi_receiver_room _ _ Hi) as Hv.
  destruct s as [m sd rc c ch]. simpl in *. split; intros ->.
  - rewrite Hs by done. by eexists.
  - rewrite Hv by eauto. by eexists.
Qed.

End Ping.

(** ** A concrete ping: the reply of any host is accepted *)
Definition demo_ping : list (ping_action (X:=string)) :=
  [PSend (λ m, Ok (em_Data m)) (λ _, None); PSenderPut; PSelectErr; PReceive None (Ok (mkMessage true "echo reply")); PReceiverPut;
   PSelectErr].

Lemma ping_nil_means_reply_witness : pinged demo_ping.
Proof.
  apply (ping_nil_means_reply (mkPingSetup None None) demo_ping (mkPing (PReturned None) GDone GDone None []));
    reflexivity.
Defined.

Lemma ping_goroutines_finish_witness :
  let s := mkPing (X:=string) (PReturned (Some (Foreign "deadline"))) (GSending None) GIdle (Some "deadline") [] in
  (pg_sender s = GSending None → is_Some (ping_step PSenderPut s)) ∧
  (pg_receiver s = GSending None → is_Some (ping_step PReceiverPut s)).
Proof.
  apply (ping_goroutines_finish (mkPingSetup None None) [PCancel "deadline"; PSelectCtx; PSend (λ m, Ok (em_Data m)) (λ _, None)]).
  reflexivity.
Defined.
