(* ===== verification/Crc32.v ===== *)
(** * CRC-32 (IEEE) of [hash/crc32], the hash function of the routing ring

    [ChecksumIEEE] is the table-driven computation of the standard library
    ([simplePopulateTable], [simpleUpdate]); [crc32_serial] is the textbook
    shift register, one bit at a time.  They agree on every input, and the
    register is injective in its state and in each byte it reads, which is what
    keeps the virtual nodes of one node apart. *)

From S2P Require Import Prelude.

Definition crc_poly : Z := 0xedb88320.

Definition crc_ones : Z := 0xffffffff.

(** One round of the inner loop of [simplePopulateTable]. *)
Definition crc_shift (c : Z) : Z :=
  if Z.odd c then Z.lxor (Z.shiftr c 1) crc_poly else Z.shiftr c 1.

Definition crc_shifts (n : nat) (c : Z) : Z := Nat.iter n crc_shift c.

(** The table of [simplePopulateTable]. *)
Definition crc_table : list Z := crc_shifts 8 <$> seqZ 0 256.

(** The loop body of [simpleUpdate]: [tab[byte(crc)^v] ^ (crc >> 8)]. *)
Definition crc_update (crc : Z) (v : byte) : Z :=
  Z.lxor (nth (Z.to_nat (Z.lxor (u8 crc) (byte_to_Z v))) crc_table 0) (Z.shiftr crc 8).

(** [crc32.ChecksumIEEE]; [^crc] of a [uint32] is the exclusive or with ones. *)
Definition ChecksumIEEE (p : list byte) : Z :=
  Z.lxor (foldl crc_update (Z.lxor 0 crc_ones) p) crc_ones.

(** The serial register: exclusive-or the byte in, then shift eight times. *)
Definition crc_feed (crc : Z) (v : byte) : Z := crc_shifts 8 (Z.lxor crc (byte_to_Z v)).

Definition crc32_serial (p : list byte) : Z :=
  Z.lxor (foldl crc_feed crc_ones p) crc_ones.

(** The published check value of CRC-32/IEEE. *)
Example crc32_check : ChecksumIEEE (bytes_of "123456789") = 0xcbf43926.
Proof. vm_compute. reflexivity. Qed.

(** ** Bit-level lemmas *)
Lemma in_uint_lxor w a b : 0 ≤ w → in_uint w a → in_uint w b → in_uint w (Z.lxor a b).
Proof.
  unfold in_uint. intros Hw Ha Hb. split; [by apply Z.lxor_nonneg; lia|].
  destruct (decide (Z.lxor a b = 0)) as [->|Hne]; [lia|].
  apply Z.log2_lt_pow2; [assert (0 ≤ Z.lxor a b) by (apply Z.lxor_nonneg; lia); lia|].
  pose proof (Z.log2_lxor a b ltac:(lia) ltac:(lia)) as Hlog.
  assert (∀ x, 0 ≤ x < 2 ^ w → x = 0 ∨ Z.log2 x < w) as Hbound.
  { intros x Hx. destruct (decide (x = 0)); [by left|right]. apply Z.log2_lt_pow2; lia. }
  destruct (Hbound a Ha) as [->|], (Hbound b Hb) as [->|]; simpl in *; try lia.
  - by rewrite Z.lxor_0_l in Hne.
  - rewrite Z.lxor_0_l in *. lia.
  - rewrite Z.lxor_0_r in *. lia.
Qed.

Lemma crc_shift_lxor a b : crc_shift (Z.lxor a b) = Z.lxor (crc_shift a) (crc_shift b).
Proof.
  unfold crc_shift. rewrite <- !Z.bit0_odd, Z.lxor_spec, Z.shiftr_lxor.
  destruct (Z.testbit a 0), (Z.testbit b 0); simpl;
    rewrite <- ?(Z.lxor_assoc _ _ crc_poly), ?Z.lxor_assoc; try done.
  - rewrite (Z.lxor_comm crc_poly), !Z.lxor_assoc, Z.lxor_nilpotent, Z.lxor_0_r. done.
  - f_equal. apply Z.lxor_comm.
Qed.

Lemma crc_shifts_lxor n a b :
  crc_shifts n (Z.lxor a b) = Z.lxor (crc_shifts n a) (crc_shifts n b).
Proof. induction n as [|n IH]; [done|]. simpl. by rewrite IH, crc_shift_lxor. Qed.

(** Zero bits shift out without touching the polynomial. *)
Lemma crc_shifts_shiftl n d : 0 ≤ d → crc_shifts n (Z.shiftl d (Z.of_nat n)) = d.
Proof.
  intros Hd. induction n as [|n IH]; [apply Z.shiftl_0_r|].
  unfold crc_shifts. rewrite Nat.iter_succ_r. fold (crc_shifts n). rewrite <- IH at 2. f_equal.
  unfold crc_shift. rewrite <- Z.bit0_odd, Z.shiftl_spec_low by lia.
  rewrite Z.shiftr_shiftl_l by lia. f_equal. lia.
Qed.

Lemma crc_low_high c : 0 ≤ c → c = Z.lxor (u8 c) (Z.shiftl (Z.shiftr c 8) 8).
Proof.
  intros Hc. apply Z.bits_inj'. intros k Hk. rewrite Z.lxor_spec.
  unfold u8, uwrap. destruct (decide (k < 8)).
  - rewrite Z.mod_pow2_bits_low, Z.shiftl_spec_low by lia. by rewrite xorb_false_r.
  - rewrite Z.mod_pow2_bits_high, Z.shiftl_spec, Z.shiftr_spec by lia.
    rewrite xorb_false_l. f_equal. lia.
Qed.

Lemma crc_table_nth i : in_uint 8 i → nth (Z.to_nat i) crc_table 0 = crc_shifts 8 i.
Proof.
  unfold in_uint. change (2 ^ 8) with 256. intros Hi. apply nth_lookup_Some.
  unfold crc_table. rewrite list_lookup_fmap, lookup_seqZ_lt by lia.
  by rewrite Z2Nat.id, Z.add_0_l by lia.
Qed.

(** The table step is eight serial steps. *)
Lemma crc_update_feed c v : 0 ≤ c → crc_update c v = crc_feed c v.
Proof.
  intros Hc. unfold crc_update, crc_feed.
  rewrite crc_table_nth by (apply in_uint_lxor; [lia|apply uwrap_range; lia|auto with gale]).
  assert (Z.lxor c (byte_to_Z v) =
    Z.lxor (Z.lxor (u8 c) (byte_to_Z v)) (Z.shiftl (Z.shiftr c 8) 8)) as ->.
  { rewrite (crc_low_high c) at 1 by done. rewrite !Z.lxor_assoc. f_equal. apply Z.lxor_comm. }
  rewrite (crc_shifts_lxor 8 (Z.lxor (u8 c) (byte_to_Z v)) (Z.shiftl _ _)). f_equal.
  symmetry. apply (crc_shifts_shiftl 8). by apply Z.shiftr_nonneg.
Qed.

Lemma crc_shift_range c : in_uint 32 c → in_uint 32 (crc_shift c).
Proof.
  intros Hc. assert (in_uint 32 (Z.shiftr c 1)) as Hs.
  { unfold in_uint in *. rewrite Z.shiftr_div_pow2 by lia. change (2 ^ 1) with 2.
    split; [apply Z.div_pos; lia|apply Z.div_lt_upper_bound; lia]. }
  unfold crc_shift. case_match; [|done]. by apply in_uint_lxor.
Qed.

Lemma crc_shifts_range n c : in_uint 32 c → in_uint 32 (crc_shifts n c).
Proof. intros Hc. induction n; [done|]. by apply crc_shift_range. Qed.

Lemma crc_feed_range c v : in_uint 32 c → in_uint 32 (crc_feed c v).
Proof.
  intros Hc. apply crc_shifts_range, in_uint_lxor; [lia|done|].
  pose proof (byte_to_Z_range v). unfold in_uint in *. lia.
Qed.

Lemma crc_fold_range p c : in_uint 32 c → in_uint 32 (foldl crc_feed c p).
Proof. revert c. induction p; intros; simpl; auto using crc_feed_range. Qed.

Lemma crc_fold_update_feed p c :
  in_uint 32 c → foldl crc_update c p = foldl crc_feed c p.
Proof.
  revert c. induction p as [|v p IH]; intros c Hc; [done|]. simpl.
  rewrite crc_update_feed by (destruct Hc; lia). auto using crc_feed_range.
Qed.

Lemma ChecksumIEEE_serial p : ChecksumIEEE p = crc32_serial p.
Proof. unfold ChecksumIEEE. by rewrite crc_fold_update_feed. Qed.

Lemma ChecksumIEEE_range p : in_uint 32 (ChecksumIEEE p).
Proof.
  rewrite ChecksumIEEE_serial. apply in_uint_lxor; [lia| |done]. by apply crc_fold_range.
Qed.

(** ** The register is injective

    The polynomial has its top bit set, so the top bit of a shifted register
    tells which branch the shift took. *)
Lemma crc_shift_top c : in_uint 32 c → Z.testbit (crc_shift c) 31 = Z.odd c.
Proof.
  unfold in_uint. intros Hc. unfold crc_shift.
  assert (Z.testbit (Z.shiftr c 1) 31 = false) as Hs.
  { rewrite Z.shiftr_spec by lia. destruct (decide (c = 0)) as [->|]; [done|].
    apply Z.bits_above_log2; [lia|]. apply Z.log2_lt_pow2; lia. }
  destruct (Z.odd c); [|done]. by rewrite Z.lxor_spec, Hs.
Qed.

Lemma crc_shift_inj a b :
  in_uint 32 a → in_uint 32 b → crc_shift a = crc_shift b → a = b.
Proof.
  intros Ha Hb E. pose proof (crc_shift_top a Ha) as Ta. pose proof (crc_shift_top b Hb) as Tb.
  rewrite E, Tb in Ta. unfold crc_shift in E. rewrite Ta in E.
  assert (Z.shiftr a 1 = Z.shiftr b 1) as Hs.
  { destruct (Z.odd a); [|done].
    apply (f_equal (λ x, Z.lxor x crc_poly)) in E.
    by rewrite !Z.lxor_assoc, Z.lxor_nilpotent, !Z.lxor_0_r in E. }
  rewrite <- !Z.div2_spec in Hs.
  rewrite (Z.div2_odd a), (Z.div2_odd b), Hs, Ta. done.
Qed.

Lemma crc_shifts_inj n a b :
  in_uint 32 a → in_uint 32 b → crc_shifts n a = crc_shifts n b → a = b.
Proof.
  intros Ha Hb. induction n as [|n IH]; [done|]. simpl. intros E.
  apply IH, crc_shift_inj; auto using crc_shifts_range.
Qed.

Lemma lxor_inj_l a b c : Z.lxor c a = Z.lxor c b → a = b.
Proof.
  intros E. apply (f_equal (Z.lxor c)) in E.
  by rewrite <- !Z.lxor_assoc, Z.lxor_nilpotent, !Z.lxor_0_l in E.
Qed.

Lemma crc_feed_in c v : in_uint 32 c → in_uint 32 (Z.lxor c (byte_to_Z v)).
Proof.
  intros Hc. apply in_uint_lxor; [lia|done|].
  pose proof (byte_to_Z_range v). unfold in_uint in *. lia.
Qed.

Lemma crc_feed_inj_byte c v1 v2 : in_uint 32 c → crc_feed c v1 = crc_feed c v2 → v1 = v2.
Proof.
  intros Hc E. apply crc_shifts_inj in E; [|by apply crc_feed_in..].
  by apply lxor_inj_l, byte_to_Z_inj in E.
Qed.

Lemma crc_feed_inj_state c1 c2 v :
  in_uint 32 c1 → in_uint 32 c2 → crc_feed c1 v = crc_feed c2 v → c1 = c2.
Proof.
  intros H1 H2 E. apply crc_shifts_inj in E; [|by apply crc_feed_in..].
  rewrite !(Z.lxor_comm _ (byte_to_Z v)) in E. by apply lxor_inj_l in E.
Qed.

Lemma crc_fold_inj_state p c1 c2 :
  in_uint 32 c1 → in_uint 32 c2 → foldl crc_feed c1 p = foldl crc_feed c2 p → c1 = c2.
Proof.
  revert c1 c2. induction p as [|v p IH]; intros c1 c2 H1 H2; [done|]. simpl. intros E.
  eapply crc_feed_inj_state, IH; eauto using crc_feed_range.
Qed.

(** Two messages that differ in exactly one byte have different checksums. *)
Lemma ChecksumIEEE_one_byte p v1 v2 q :
  ChecksumIEEE (p ++ v1 :: q) = ChecksumIEEE (p ++ v2 :: q) → v1 = v2.
Proof.
  rewrite !ChecksumIEEE_serial. unfold crc32_serial. rewrite !foldl_app. simpl. intros E.
  rewrite !(Z.lxor_comm _ crc_ones) in E. apply lxor_inj_l in E.
  assert (in_uint 32 (foldl crc_feed crc_ones p)) as Hp by by apply crc_fold_range.
  apply crc_fold_inj_state in E; [|by apply crc_feed_range..].
  by apply crc_feed_inj_byte in E.
Qed.
