(* ===== verification/Ring.v ===== *)
(** * The consistent-hashing ring ([pkg/routing/ring.go], [pkg/routing/hashing.go])

    [ring_t] is the Go struct [ring]: the slice of points, the map from points
    to nodes, the number of virtual nodes and the hash function.  The mutex is
    taken for the whole of every method, so each method is one atomic function
    from a ring to a ring.  [getNode] indexes a slice and can therefore panic:
    [None] is the panic.

    The specification is [owns]: on a circle of points, the owner of a hash is
    the least point that is not below it, or the least point of all when every
    point is below it.  The theorems show that binary search over the sorted
    slice computes the owner, that adding or removing a node moves only the keys
    it must, and what the 8192 zero points that [newRing] starts with do. *)

From S2P Require Import Prelude GoSort GoFmt Crc32.

(** ** Data *)

(** [common.AddrKey]: [uint32], [uint16] and [uint16] fields. *)
Record AddrKey := mkAddrKey { IP : Z; Port : Z; Pad : Z }.

#[global] Instance AddrKey_eq_dec : EqDecision AddrKey.
Proof. solve_decision. Defined.

(** The value of a missing map entry. *)
Definition zero_AddrKey : AddrKey := mkAddrKey 0 0 0.

(** The values of the struct's fields are in range. *)
Definition valid_AddrKey (a : AddrKey) : Prop :=
  in_uint 32 (IP a) ∧ in_uint 16 (Port a) ∧ in_uint 16 (Pad a).

(** [type Hasher func([]byte) uint32] *)
Definition Hasher : Type := list byte → Z.

Definition Crc32Hasher : Hasher := λ key, ChecksumIEEE key.

Definition MAX_NUMBER_VIRTUAL_NODE_ENTRIES : Z := 8192.

Record ring_t := mkRing {
  ring : list Z;
  nodes : gmap Z AddrKey;
  numVirtualNodes : Z;
  hasher : Hasher;
}.

Definition set_ring (l : list Z) (ch : ring_t) : ring_t :=
  mkRing l (nodes ch) (numVirtualNodes ch) (hasher ch).

Definition set_nodes (m : gmap Z AddrKey) (ch : ring_t) : ring_t :=
  mkRing (ring ch) m (numVirtualNodes ch) (hasher ch).

(** ** Operations *)

(** [make([]uint32, 8192)] is a slice of 8192 zeros. *)
Definition newRing (hasher : Hasher) (numVirtualNodes : Z) : ring_t :=
  mkRing (replicate (Z.to_nat MAX_NUMBER_VIRTUAL_NODE_ENTRIES) 0) ∅ numVirtualNodes hasher.

Definition addrToString (addr : AddrKey) : string :=
  fmt_d (IP addr) +:+ ":" +:+ fmt_d (Port addr).

(** [fmt.Sprintf("%s-%d", addrToString(node), i)] *)
Definition virtualNode (node : AddrKey) (i : Z) : string :=
  addrToString node +:+ "-" +:+ fmt_d i.

(** The hash of the [i]th virtual node. *)
Definition vhash (ch : ring_t) (node : AddrKey) (i : Z) : Z :=
  hasher ch (bytes_of (virtualNode node i)).

Definition addNode_loop (node : AddrKey) (ch : ring_t) (i : Z) : ring_t :=
  let hash := vhash ch node i in
  set_nodes (<[hash := node]> (nodes ch)) (set_ring (ring ch ++ [hash]) ch).

Definition addNode (ch : ring_t) (node : AddrKey) : ring_t :=
  let ch := foldl (addNode_loop node) ch (go_range (numVirtualNodes ch)) in
  set_ring (sort_slice (ring ch)) ch.

Definition removeNode_loop (node : AddrKey) (ch : ring_t) (i : Z) : ring_t :=
  set_nodes (delete (vhash ch node i) (nodes ch)) ch.

(** The slice rebuilt from the keys of the map, in the order [keys] in which the
    [range] statement happens to visit them. *)
Definition rebuild (keys : list Z) (ch : ring_t) : ring_t :=
  set_ring (sort_slice (foldl (λ l hash, l ++ [hash]) [] keys)) ch.

Definition removeNode (ch : ring_t) (node : AddrKey) : ring_t :=
  let ch := foldl (removeNode_loop node) ch (go_range (numVirtualNodes ch)) in
  rebuild (map_to_list (nodes ch)).*1 ch.

Definition getNode (ch : ring_t) (requestKey : list byte) : option string :=
  let hash := hasher ch requestKey in
  match search (length (ring ch)) (λ i, (λ p, bool_decide (hash ≤ p)) <$> ring ch !! i) with
  | None => None
  | Some i =>
      let i := if decide (i = length (ring ch)) then 0%nat else i in
      match ring ch !! i with
      | None => None
      | Some p => Some (addrToString (default zero_AddrKey (nodes ch !! p)))
      end
  end.

(** A history of the exported operations. *)
Inductive ring_op :=
| OpAdd (node : AddrKey)
| OpRemove (node : AddrKey).

Definition ring_step (ch : ring_t) (op : ring_op) : ring_t :=
  match op with OpAdd node => addNode ch node | OpRemove node => removeNode ch node end.

Definition ring_run (ch : ring_t) (ops : list ring_op) : ring_t := foldl ring_step ch ops.

(** ** Specification *)

(** The hashes of the virtual nodes of [node]. *)
Definition vhashes (ch : ring_t) (node : AddrKey) : list Z :=
  vhash ch node <$> go_range (numVirtualNodes ch).

(** [owns l h p]: on the circle of the points of [l], [p] is the owner of [h]. *)
Definition owns (l : list Z) (h p : Z) : Prop :=
  p ∈ l ∧
  ((h ≤ p ∧ ∀ q, q ∈ l → h ≤ q → p ≤ q) ∨
   ((∀ q, q ∈ l → q < h) ∧ ∀ q, q ∈ l → p ≤ q)).

(** The node a point stands for, as [getNode] prints it. *)
Definition node_at (ch : ring_t) (p : Z) : string :=
  addrToString (default zero_AddrKey (nodes ch !! p)).

(** The invariant: the slice is sorted, holds every key of the map, and holds
    nothing else but the zero points of [newRing]; every key of the map is the
    hash of a virtual node of the node stored there. *)
Record ring_wf (ch : ring_t) : Prop := {
  wf_sorted : Sorted Z.le (ring ch);
  wf_covers : ∀ p, is_Some (nodes ch !! p) → p ∈ ring ch;
  wf_points : ∀ p, p ∈ ring ch → is_Some (nodes ch !! p) ∨ p = 0;
  wf_home : ∀ p node, nodes ch !! p = Some node → p ∈ vhashes ch node;
}.

(** The slice is exactly the sorted keys of the map. *)
Definition ring_exact (ch : ring_t) : Prop :=
  ring ch = sort_slice (map_to_list (nodes ch)).*1.

(** Two rings no request can tell apart. *)
Definition ring_equiv (a b : ring_t) : Prop :=
  (∀ p, p ∈ ring a ↔ p ∈ ring b) ∧ nodes a = nodes b ∧
  numVirtualNodes a = numVirtualNodes b ∧ hasher a = hasher b.

(** ** The loops in closed form *)
Lemma addNode_loop_frame node ch i :
  numVirtualNodes (addNode_loop node ch i) = numVirtualNodes ch ∧
  hasher (addNode_loop node ch i) = hasher ch.
Proof. done. Qed.

Lemma addNode_loops node js ch :
  foldl (addNode_loop node) ch js =
  mkRing (ring ch ++ (vhash ch node <$> js))
    (foldl (λ m i, <[vhash ch node i := node]> m) (nodes ch) js)
    (numVirtualNodes ch) (hasher ch).
Proof.
  revert ch. induction js as [|i js IH]; intros ch; simpl.
  - destruct ch; simpl. by rewrite app_nil_r.
  - rewrite IH. simpl. by rewrite <- app_assoc.
Qed.

Lemma removeNode_loops node js ch :
  foldl (removeNode_loop node) ch js =
  set_nodes (foldl (λ m i, delete (vhash ch node i) m) (nodes ch) js) ch.
Proof. revert ch. induction js as [|i js IH]; intros ch; simpl; [by destruct ch|]. by rewrite IH. Qed.

Lemma foldl_insert_lookup (f : Z → Z) (node : AddrKey) js (m : gmap Z AddrKey) h :
  foldl (λ m i, <[f i := node]> m) m js !! h =
  if decide (h ∈ f <$> js) then Some node else m !! h.
Proof.
  revert m. induction js as [|i js IH]; intros m; cbn [foldl].
  - by rewrite decide_False by apply not_elem_of_nil.
  - rewrite IH, fmap_cons. destruct (decide (h ∈ f <$> js)) as [Hin|Hin].
    + by rewrite decide_True by by apply elem_of_cons; right.
    + destruct (decide (h = f i)) as [->|Hne].
      * rewrite decide_True by (apply elem_of_cons; by left). apply lookup_insert_eq.
      * rewrite decide_False by (rewrite elem_of_cons; tauto). by apply lookup_insert_ne.
Qed.

Lemma foldl_delete_lookup (f : Z → Z) js (m : gmap Z AddrKey) h :
  foldl (λ m i, delete (f i) m) m js !! h =
  if decide (h ∈ f <$> js) then None else m !! h.
Proof.
  revert m. induction js as [|i js IH]; intros m; cbn [foldl].
  - by rewrite decide_False by apply not_elem_of_nil.
  - rewrite IH, fmap_cons. destruct (decide (h ∈ f <$> js)) as [Hin|Hin].
    + by rewrite decide_True by by apply elem_of_cons; right.
    + destruct (decide (h = f i)) as [->|Hne].
      * rewrite decide_True by (apply elem_of_cons; by left). apply lookup_delete_eq.
      * rewrite decide_False by (rewrite elem_of_cons; tauto). by apply lookup_delete_ne.
Qed.

Lemma foldl_snoc (l acc : list Z) : foldl (λ l hash, l ++ [hash]) acc l = acc ++ l.
Proof.
  revert acc. induction l as [|x l IH]; intros acc; simpl; [by rewrite app_nil_r|].
  by rewrite IH, <- app_assoc.
Qed.

Lemma addNode_ring ch node : ring (addNode ch node) = sort_slice (ring ch ++ vhashes ch node).
Proof. unfold addNode. by rewrite addNode_loops. Qed.

Lemma addNode_nodes ch node h :
  nodes (addNode ch node) !! h =
  if decide (h ∈ vhashes ch node) then Some node else nodes ch !! h.
Proof. unfold addNode. rewrite addNode_loops. apply foldl_insert_lookup. Qed.

Lemma removeNode_nodes ch node h :
  nodes (removeNode ch node) !! h =
  if decide (h ∈ vhashes ch node) then None else nodes ch !! h.
Proof. unfold removeNode. rewrite removeNode_loops. apply foldl_delete_lookup. Qed.

Lemma removeNode_exact ch node : ring_exact (removeNode ch node).
Proof. unfold ring_exact, removeNode, rebuild. simpl. by rewrite foldl_snoc. Qed.

Lemma ring_step_frame ch op :
  numVirtualNodes (ring_step ch op) = numVirtualNodes ch ∧ hasher (ring_step ch op) = hasher ch.
Proof.
  destruct op; simpl; [unfold addNode; by rewrite addNode_loops|].
  unfold removeNode. by rewrite removeNode_loops.
Qed.

Lemma addNode_hasher ch node : hasher (addNode ch node) = hasher ch.
Proof. apply (ring_step_frame ch (OpAdd node)). Qed.

Lemma addNode_num ch node : numVirtualNodes (addNode ch node) = numVirtualNodes ch.
Proof. apply (ring_step_frame ch (OpAdd node)). Qed.

Lemma removeNode_num ch node : numVirtualNodes (removeNode ch node) = numVirtualNodes ch.
Proof. apply (ring_step_frame ch (OpRemove node)). Qed.

Lemma removeNode_hasher ch node : hasher (removeNode ch node) = hasher ch.
Proof. apply (ring_step_frame ch (OpRemove node)). Qed.

(** The hashes of a node depend on the ring's parameters and its name only. *)
Lemma vhashes_ext a b n m :
  hasher a = hasher b → numVirtualNodes a = numVirtualNodes b →
  addrToString n = addrToString m → vhashes a n = vhashes b m.
Proof.
  intros Hh Hn Hs. unfold vhashes. rewrite Hn. apply list_fmap_ext.
  intros i x _. unfold vhash, virtualNode. by rewrite Hh, Hs.
Qed.

Lemma vhashes_step ch op node : vhashes (ring_step ch op) node = vhashes ch node.
Proof. by apply vhashes_ext; [apply ring_step_frame..|]. Qed.

Lemma vhashes_addNode ch n node : vhashes (addNode ch n) node = vhashes ch node.
Proof. apply (vhashes_step ch (OpAdd n)). Qed.

Lemma vhashes_removeNode ch n node : vhashes (removeNode ch n) node = vhashes ch node.
Proof. apply (vhashes_step ch (OpRemove n)). Qed.

Lemma elem_of_addNode ch node p :
  p ∈ ring (addNode ch node) ↔ p ∈ ring ch ∨ p ∈ vhashes ch node.
Proof. by rewrite addNode_ring, elem_of_sort_slice, elem_of_app. Qed.

Lemma ring_exact_elem ch p : ring_exact ch → p ∈ ring ch ↔ is_Some (nodes ch !! p).
Proof.
  intros ->. rewrite elem_of_sort_slice, list_elem_of_fmap. split.
  - intros ([k v] & -> & Hin). simpl. apply elem_of_map_to_list in Hin. eauto.
  - intros [v Hv]. exists (p, v). by rewrite elem_of_map_to_list.
Qed.

Lemma elem_of_removeNode ch node p :
  p ∈ ring (removeNode ch node) ↔ p ∉ vhashes ch node ∧ is_Some (nodes ch !! p).
Proof.
  rewrite ring_exact_elem by apply removeNode_exact. rewrite removeNode_nodes.
  case_decide; [|tauto]. rewrite is_Some_alt. tauto.
Qed.

(** ** The owner of a hash *)
Lemma owns_unique l h p q : owns l h p → owns l h q → p = q.
Proof.
  intros [Hp Dp] [Hq Dq].
  destruct Dp as [[Hhp Lp]|[Bp Lp]], Dq as [[Hhq Lq]|[Bq Lq]].
  - specialize (Lp q Hq Hhq). specialize (Lq p Hp Hhp). lia.
  - specialize (Bq p Hp). lia.
  - specialize (Bp q Hq). lia.
  - specialize (Lp q Hq). specialize (Lq p Hp). lia.
Qed.

Lemma owns_ext l l' h p : (∀ q, q ∈ l ↔ q ∈ l') → owns l h p → owns l' h p.
Proof. unfold owns. intros E. setoid_rewrite E. done. Qed.

(** Binary search over the sorted slice finds the owner. *)
Lemma getNode_owner ch key :
  Sorted Z.le (ring ch) → ring ch ≠ [] →
  ∃ p, owns (ring ch) (hasher ch key) p ∧ getNode ch key = Some (node_at ch p).
Proof.
  intros Hs Hne. unfold getNode. set (h := hasher ch key). set (l := ring ch) in *.
  edestruct (search_spec (length l) (λ i, (λ p, bool_decide (h ≤ p)) <$> l !! i)
    (λ i, bool_decide (h ≤ default 0 (l !! i)))) as (r & -> & Hr & Hlo & Hhi).
  { intros k Hk. destruct (lookup_lt_is_Some_2 l k Hk) as [x ->]. done. }
  { intros k k' Hk Hk' Hp. apply bool_decide_eq_true in Hp. apply bool_decide_eq_true.
    destruct (lookup_lt_is_Some_2 l k') as [y Hy]; [lia|].
    destruct (lookup_lt_is_Some_2 l k) as [x Hx]; [lia|].
    rewrite Hx in Hp. rewrite Hy. simpl in *.
    pose proof (sorted_lookup_le l k k' x y Hs Hx Hy Hk). lia. }
  assert (∀ k x, l !! k = Some x → (k < r)%nat → x < h) as Hbelow.
  { intros k x Hx Hk. specialize (Hlo k Hk). rewrite Hx in Hlo.
    apply bool_decide_eq_false in Hlo. simpl in Hlo. lia. }
  case_decide as Hend.
  - destruct l as [|p l'] eqn:El; [done|]. exists p. split; [|done].
    split; [set_solver|right]. split; intros q (k & Hk)%list_elem_of_lookup.
    + apply (Hbelow k q Hk). rewrite Hend. by eapply lookup_lt_Some.
    + by apply (sorted_lookup_le (p :: l') 0 k); auto with lia.
  - destruct (lookup_lt_is_Some_2 l r) as [p Hp]; [lia|]. rewrite Hp. exists p. split; [|done].
    split; [by eapply list_elem_of_lookup_2|left]. split.
    + specialize (Hhi r ltac:(lia) ltac:(lia)). rewrite Hp in Hhi.
      by apply bool_decide_eq_true in Hhi.
    + intros q (k & Hk)%list_elem_of_lookup Hhq. apply (sorted_lookup_le l r k); auto.
      destruct (decide (r ≤ k)%nat); [done|]. specialize (Hbelow k q Hk). lia.
Qed.

Lemma getNode_owns ch key p :
  Sorted Z.le (ring ch) → owns (ring ch) (hasher ch key) p →
  getNode ch key = Some (node_at ch p).
Proof.
  intros Hs Ho. destruct (getNode_owner ch key Hs) as (q & Hq & ->).
  - destruct Ho as [Hin _]. intros E. rewrite E in Hin. set_solver.
  - by rewrite (owns_unique _ _ _ _ Ho Hq).
Qed.

Lemma getNode_empty ch key : ring ch = [] → getNode ch key = None.
Proof. unfold getNode. intros ->. done. Qed.

Lemma getNode_panics_iff ch key :
  Sorted Z.le (ring ch) → getNode ch key = None ↔ ring ch = [].
Proof.
  intros Hs. split; [|apply getNode_empty].
  intros Hg. destruct (decide (ring ch = [])) as [|Hne]; [done|].
  destruct (getNode_owner ch key Hs Hne) as (p & _ & Hp). congruence.
Qed.

(** ** The invariant *)
Lemma replicate_sorted k (x : Z) : Sorted Z.le (replicate k x).
Proof.
  induction k as [|k IH]; simpl; [constructor|]. constructor; [done|].
  destruct k; simpl; constructor. lia.
Qed.

Lemma newRing_wf hasher n : ring_wf (newRing hasher n).
Proof.
  split; cbn [newRing ring nodes].
  - apply replicate_sorted.
  - intros p [v Hv]. done.
  - intros p [-> _]%elem_of_replicate. by right.
  - intros p node Hp. done.
Qed.

Lemma addNode_wf ch node : ring_wf ch → ring_wf (addNode ch node).
Proof.
  intros [Hs Hc Hp Hh]. split.
  - rewrite addNode_ring. apply sort_slice_sorted.
  - intros p. rewrite addNode_nodes, elem_of_addNode. case_decide; eauto.
  - intros p. rewrite addNode_nodes, elem_of_addNode. case_decide; [eauto|]. naive_solver.
  - intros p m. rewrite addNode_nodes, vhashes_addNode.
    case_decide; [by intros [= <-]|apply Hh].
Qed.

Lemma removeNode_wf ch node : ring_wf ch → ring_wf (removeNode ch node).
Proof.
  intros [Hs Hc Hp Hh]. pose proof (removeNode_exact ch node) as He. split.
  - rewrite He. apply sort_slice_sorted.
  - intros p Hp'. by apply ring_exact_elem.
  - intros p Hin. left. by apply ring_exact_elem.
  - intros p m. rewrite removeNode_nodes, vhashes_removeNode.
    case_decide; [done|apply Hh].
Qed.

#[export] Hint Resolve newRing_wf addNode_wf removeNode_wf wf_sorted : gale.

Lemma ring_step_wf ch op : ring_wf ch → ring_wf (ring_step ch op).
Proof. destruct op; simpl; auto with gale. Qed.

(** C3: from a new ring, any sequence of [addNode] and [removeNode] calls keeps
    the invariant: the slice is sorted, holds every hash of the map, holds
    nothing else but zero points, and every map entry sits at a hash of one of
    its own virtual nodes. *)
Theorem ring_run_wf hasher n ops : ring_wf (ring_run (newRing hasher n) ops).
Proof.
  unfold ring_run. generalize (newRing_wf hasher n). generalize (newRing hasher n).
  induction ops as [|op ops IH]; intros ch Hwf; simpl; [done|]. by apply IH, ring_step_wf.
Qed.

(** C2: on a ring that satisfies the invariant, [getNode] panics exactly when the
    slice is empty, and otherwise returns the node of the unique owner of the
    key's hash: the least point that is not below it or, when every point is
    below it, the least point of the ring. *)
Theorem getNode_correct ch key :
  ring_wf ch →
  (getNode ch key = None ↔ ring ch = []) ∧
  (ring ch ≠ [] →
   ∃ p, owns (ring ch) (hasher ch key) p ∧
     (∀ q, owns (ring ch) (hasher ch key) q → q = p) ∧
     getNode ch key = Some (node_at ch p)).
Proof.
  intros Hwf. pose proof (wf_sorted _ Hwf) as Hs. split; [by apply getNode_panics_iff|].
  intros Hne. destruct (getNode_owner ch key Hs Hne) as (p & Ho & Hg).
  exists p. split_and!; [done| |done]. intros q Hq. by eapply owns_unique.
Qed.

(** C7: adding a node moves a key to the new node or leaves it where it was. *)
Theorem addNode_moves_to_new ch node key :
  Sorted Z.le (ring ch) →
  getNode (addNode ch node) key = Some (addrToString node) ∨
  getNode (addNode ch node) key = getNode ch key.
Proof.
  intros Hs. set (h := hasher ch key).
  destruct (decide (ring (addNode ch node) = [])) as [E|Hne].
  { right. assert (ring ch = []) as Ech.
    { destruct (ring ch) as [|p l] eqn:El; [done|].
      assert (p ∈ ring (addNode ch node)) as Hp by (rewrite elem_of_addNode, El; left; left).
      rewrite E in Hp. by apply elem_of_nil in Hp. }
    by rewrite !getNode_empty. }
  destruct (getNode_owner (addNode ch node) key) as (p & Ho & ->); auto with gale.
  { rewrite addNode_ring. apply sort_slice_sorted. }
  unfold node_at. rewrite addNode_hasher in Ho. rewrite addNode_nodes.
  destruct (decide (p ∈ vhashes ch node)) as [|Hnv]; [by left|right].
  symmetry. apply getNode_owns; [done|].
  destruct Ho as [Hin Hd]. setoid_rewrite elem_of_addNode in Hd.
  apply elem_of_addNode in Hin as [Hin|]; [|done]. split; [done|]. naive_solver.
Qed.

(** C6: which keys move when a node is removed: the owner of a key stays its owner
    exactly when it is a point of the map and none of the hashes of the removed
    node, and then the answer for the key is unchanged.  So the only keys that
    can get another answer are those of a hash of the removed node, one that
    another node has in common with it by a collision included, and those of a
    zero point left from the new ring. *)
Theorem removeNode_keeps_others ch node key p :
  ring_wf ch → owns (ring ch) (hasher ch key) p →
  (owns (ring (removeNode ch node)) (hasher ch key) p ↔
   is_Some (nodes ch !! p) ∧ p ∉ vhashes ch node) ∧
  (is_Some (nodes ch !! p) → p ∉ vhashes ch node →
   getNode (removeNode ch node) key = getNode ch key).
Proof.
  intros Hwf Ho.
  assert (is_Some (nodes ch !! p) ∧ p ∉ vhashes ch node →
    owns (ring (removeNode ch node)) (hasher ch key) p) as Hkeep.
  { intros [Hsome Hnv]. destruct Ho as [_ Hd].
    assert (∀ q, q ∈ ring (removeNode ch node) → q ∈ ring ch) as Hsub.
    { intros q [_ Hq]%elem_of_removeNode. by apply wf_covers. }
    split; [by apply elem_of_removeNode|]. naive_solver. }
  split.
  - split; [|done]. intros [Hin%elem_of_removeNode _]. tauto.
  - intros Hsome Hnv. rewrite (getNode_owns ch key p) by auto with gale.
    rewrite (getNode_owns (removeNode ch node) key p); auto with gale.
    + unfold node_at. by rewrite removeNode_nodes, decide_False.
    + rewrite removeNode_hasher. by apply Hkeep.
Qed.

(** C21: once removed, a node receives no request. *)
Theorem removeNode_no_traffic ch node key :
  ring_wf ch → getNode (removeNode ch node) key ≠ Some (addrToString node).
Proof.
  intros Hwf. destruct (decide (ring (removeNode ch node) = [])) as [E|Hne].
  { by rewrite getNode_empty. }
  destruct (getNode_owner (removeNode ch node) key) as (p & [Hin _] & ->); auto with gale.
  intros [= E]. apply elem_of_removeNode in Hin as [Hnv [m Hm]].
  unfold node_at in E. rewrite removeNode_nodes, decide_False, Hm in E by done. simpl in E.
  apply Hnv. apply wf_home in Hm; [|done]. by rewrite (vhashes_ext ch ch m node) in Hm.
Qed.

(** ** Histories with the same effect *)
#[global] Instance ring_equiv_equivalence : Equivalence ring_equiv.
Proof.
  split; [done|intros a b (?&?&?&?); repeat split; naive_solver|].
  intros a b c (Hab&?&?&?) (Hbc&?&?&?). split; [|by split_and!; etrans].
  intros p. by rewrite Hab, Hbc.
Qed.

(** Equivalent sorted rings answer every request alike. *)
Lemma getNode_equiv a b key :
  ring_equiv a b → Sorted Z.le (ring a) → Sorted Z.le (ring b) → getNode a key = getNode b key.
Proof.
  intros (Hp & Hn & _ & Hh) Ha Hb. destruct (decide (ring a = [])) as [E|Hne].
  - rewrite getNode_empty by done. rewrite getNode_empty; [done|].
    destruct (ring b) as [|q l]; [done|]. exfalso.
    apply (not_elem_of_nil q). rewrite <- E. apply Hp. by left.
  - destruct (getNode_owner a key Ha Hne) as (p & Ho & ->). rewrite Hh in Ho.
    rewrite (getNode_owns b key p); [|done|by eapply owns_ext]. unfold node_at. by rewrite Hn.
Qed.

#[global] Instance addNode_proper : Proper (ring_equiv ==> (=) ==> ring_equiv) addNode.
Proof.
  intros a b (Hp & Hn & Hv & Hh) node ? <-.
  assert (vhashes a node = vhashes b node) as E by by apply vhashes_ext.
  split; [|split; [|split]].
  - intros p. by rewrite !elem_of_addNode, Hp, E.
  - apply map_eq. intros h. by rewrite !addNode_nodes, Hn, E.
  - by rewrite !addNode_num.
  - by rewrite !addNode_hasher.
Qed.

#[global] Instance removeNode_proper : Proper (ring_equiv ==> (=) ==> ring_equiv) removeNode.
Proof.
  intros a b (Hp & Hn & Hv & Hh) node ? <-.
  assert (vhashes a node = vhashes b node) as E by by apply vhashes_ext.
  split; [|split; [|split]].
  - intros p. by rewrite !elem_of_removeNode, Hn, E.
  - apply map_eq. intros h. by rewrite !removeNode_nodes, Hn, E.
  - by rewrite !removeNode_num.
  - by rewrite !removeNode_hasher.
Qed.

Lemma addNode_twice ch node : ring_equiv (addNode (addNode ch node) node) (addNode ch node).
Proof.
  pose proof (vhashes_addNode ch node node) as E.
  split; [|split; [|by rewrite addNode_num, addNode_hasher]].
  - intros p. rewrite !elem_of_addNode, E. tauto.
  - apply map_eq. intros h. rewrite !addNode_nodes, E. by repeat case_decide.
Qed.

Lemma ring_run_equiv a b ops : ring_equiv a b → ring_equiv (ring_run a ops) (ring_run b ops).
Proof.
  revert a b. induction ops as [|[n|n] ops IH]; intros a b E; simpl; [done|..]; apply IH; by rewrite E.
Qed.

Lemma ring_run_wf_from ch ops : ring_wf ch → ring_wf (ring_run ch ops).
Proof. revert ch. induction ops; simpl; auto using ring_step_wf. Qed.

(** Adding a node that is already present (which [addNode] does not check)
    duplicates points in the slice but changes no routing decision, now or after
    any further operations. *)
Theorem addNode_again_harmless ch node ops key :
  ring_wf ch →
  getNode (ring_run (addNode (addNode ch node) node) ops) key =
  getNode (ring_run (addNode ch node) ops) key.
Proof.
  intros Hwf. apply getNode_equiv;
    [apply ring_run_equiv, addNode_twice|apply wf_sorted, ring_run_wf_from; auto with gale..].
Qed.

Lemma ring_eq a b :
  ring a = ring b → (∀ h, nodes a !! h = nodes b !! h) →
  numVirtualNodes a = numVirtualNodes b → hasher a = hasher b → a = b.
Proof. destruct a, b. simpl. intros -> H -> ->. f_equal. by apply map_eq. Qed.

(** Nodes whose virtual nodes do not collide may be added in either order,
    with the same ring as the result. *)
Theorem addNode_comm ch a b :
  (∀ p, p ∈ vhashes ch a → p ∉ vhashes ch b) →
  addNode (addNode ch a) b = addNode (addNode ch b) a.
Proof.
  intros Hd. pose proof (vhashes_addNode ch a b) as Ea. pose proof (vhashes_addNode ch b a) as Eb.
  apply ring_eq.
  - rewrite !addNode_ring, Ea, Eb. apply sort_slice_perm_eq.
    rewrite !sort_slice_perm, <- !app_assoc. by rewrite (Permutation_app_comm (vhashes ch a)).
  - intros h. rewrite !addNode_nodes, Ea, Eb. repeat case_decide; naive_solver.
  - by rewrite !addNode_num.
  - by rewrite !addNode_hasher.
Qed.

(** C22: adding a node and removing it again has the effect of the removal alone,
    whatever collides with what.  So it restores the ring exactly when the slice
    was the sorted keys of the map, with no zero points or repetitions left, and
    no entry of the map was at a hash of the node; in particular a new ring does
    not survive it. *)
Theorem add_remove_roundtrip ch node :
  removeNode (addNode ch node) node = removeNode ch node ∧
  (removeNode (addNode ch node) node = ch ↔
   ring_exact ch ∧ ∀ p, p ∈ vhashes ch node → nodes ch !! p = None).
Proof.
  assert (removeNode (addNode ch node) node = removeNode ch node) as E.
  { assert (∀ h, nodes (removeNode (addNode ch node) node) !! h = nodes (removeNode ch node) !! h) as Hn.
    { intros h. rewrite !removeNode_nodes, vhashes_addNode, addNode_nodes. by case_decide. }
    apply ring_eq; [|done|by rewrite !removeNode_num, addNode_num|by rewrite !removeNode_hasher, addNode_hasher].
    rewrite (removeNode_exact (addNode ch node) node), (removeNode_exact ch node). by rewrite (map_eq _ _ Hn). }
  split; [done|]. rewrite E. split.
  - intros Ec. rewrite <- Ec at 1. split; [apply removeNode_exact|].
    intros p Hp. rewrite <- Ec. by rewrite removeNode_nodes, decide_True.
  - intros [He Hfree].
    assert (∀ h, nodes (removeNode ch node) !! h = nodes ch !! h) as Hn.
    { intros h. rewrite removeNode_nodes. case_decide; [by rewrite Hfree|done]. }
    apply ring_eq; [|done|apply removeNode_num|apply removeNode_hasher].
    rewrite (removeNode_exact ch node), He. by rewrite (map_eq _ _ Hn).
Qed.

(** What a new ring loses: its zeros. *)
Example add_remove_new : ring (removeNode (addNode (newRing Crc32Hasher 5) (mkAddrKey 1 80 0)) (mkAddrKey 1 80 0)) = [].
Proof. vm_compute. reflexivity. Qed.

(** The order in which the [range] statement of [removeNode] visits the map,
    which Go leaves open, has no influence on the rebuilt ring. *)
Theorem rebuild_order_irrelevant ch keys :
  keys ≡ₚ (map_to_list (nodes ch)).*1 → rebuild keys ch = rebuild (map_to_list (nodes ch)).*1 ch.
Proof.
  intros Hp. unfold rebuild. rewrite !foldl_snoc. simpl. by rewrite (sort_slice_perm_eq _ _ Hp).
Qed.

(** ** Zero points and empty rings *)
(** Removing the last node makes every later [getNode] panic: in a ring all
    of whose entries belong to the removed node no point is left, and indexing
    the empty slice is a run-time error. *)
Theorem removeNode_last_panics ch node key :
  (∀ p, is_Some (nodes ch !! p) → p ∈ vhashes ch node) →
  getNode (removeNode ch node) key = None.
Proof.
  intros Hall. apply getNode_empty.
  destruct (ring (removeNode ch node)) as [|p l] eqn:E; [done|].
  assert (p ∈ ring (removeNode ch node)) as Hin by (rewrite E; left).
  apply elem_of_removeNode in Hin as [Hnv Hp]. by destruct Hnv; apply Hall.
Qed.

Lemma adds_ring ch ns : ∀ p, p ∈ ring (foldl addNode ch ns) ↔
  p ∈ ring ch ∨ ∃ n, n ∈ ns ∧ p ∈ vhashes ch n.
Proof.
  revert ch. induction ns as [|n ns IH]; intros ch p; simpl.
  - split; [by left|]. intros [?|(?&[]%elem_of_nil&_)]; done.
  - rewrite IH, elem_of_addNode. setoid_rewrite vhashes_addNode.
    setoid_rewrite elem_of_cons. naive_solver.
Qed.

Lemma adds_nodes ch ns p :
  (∀ n, n ∈ ns → p ∉ vhashes ch n) → nodes (foldl addNode ch ns) !! p = nodes ch !! p.
Proof.
  revert ch. induction ns as [|n ns IH]; intros ch Hp; simpl; [done|].
  rewrite IH, addNode_nodes, decide_False; [done|apply Hp; left|].
  intros m Hm. rewrite vhashes_addNode. apply Hp. by right.
Qed.

Lemma adds_hasher ch ns : hasher (foldl addNode ch ns) = hasher ch.
Proof. revert ch. induction ns; intros ch; simpl; [done|]. by rewrite IHns, addNode_hasher. Qed.

Lemma adds_wf ch ns : ring_wf ch → ring_wf (foldl addNode ch ns).
Proof. revert ch. induction ns; simpl; auto with gale. Qed.

(** C34: until the first [removeNode], a request whose hash lies above every
    virtual node is answered with the address 0:0, which is no node: the zero
    points that [newRing] puts in the slice come first on the circle. *)
Theorem newRing_zero_point hasher n ns key :
  (∀ node p, node ∈ ns → p ∈ vhashes (newRing hasher n) node → 0 < p < hasher key) →
  0 < hasher key →
  getNode (foldl addNode (newRing hasher n) ns) key = Some "0:0".
Proof.
  intros Hp Hk. set (ch := foldl addNode (newRing hasher n) ns).
  assert (0 ∈ ring (newRing hasher n)) as H0.
  { apply elem_of_replicate. split; [done|]. vm_compute. lia. }
  rewrite (getNode_owns ch key 0).
  - unfold node_at, ch. rewrite adds_nodes; [done|]. intros node Hn Hz.
    specialize (Hp node 0 Hn Hz). lia.
  - apply wf_sorted, adds_wf, newRing_wf.
  - unfold ch. rewrite adds_hasher. split; [apply adds_ring; by left|right].
    split; intros q [[-> _]%elem_of_replicate|(m & Hm & Hq)]%adds_ring; simpl; try lia.
    + by apply (Hp m q).
    + specialize (Hp m q Hm Hq). lia.
Qed.

(** ** Names and hashes of virtual nodes *)
Lemma addrToString_inj a b :
  valid_AddrKey a → valid_AddrKey b → addrToString a = addrToString b →
  IP a = IP b ∧ Port a = Port b.
Proof.
  intros ([? _] & [? _] & _) ([? _] & [? _] & _) E.
  apply sep_app_inj in E as [E1 E2]; auto with gale.
  split; by apply fmt_d_inj.
Qed.

Lemma addrToString_free a : valid_AddrKey a → str_free "-" (addrToString a) = true.
Proof.
  intros ([? _] & [? _] & _). unfold addrToString.
  rewrite !str_free_app, !fmt_d_free by done. done.
Qed.

(** The name hashed for a virtual node determines the IP address, the port
    and the index it was made from. *)
Theorem virtualNode_inj a b i j :
  valid_AddrKey a → valid_AddrKey b → 0 ≤ i → 0 ≤ j →
  virtualNode a i = virtualNode b j → IP a = IP b ∧ Port a = Port b ∧ i = j.
Proof.
  intros Ha Hb Hi Hj E. apply sep_app_inj in E as [E1 E2]; auto using addrToString_free.
  apply fmt_d_inj in E2. destruct (addrToString_inj a b Ha Hb E1). done.
Qed.

Lemma fmt_d_digit i : 0 ≤ i < 10 → ∃ c, fmt_d i = String c EmptyString.
Proof.
  intros Hi. assert (i ∈ seqZ 0 10) as Hin by (apply elem_of_seqZ; lia).
  assert (Forall (λ i, ∃ c, fmt_d i = String c EmptyString) (seqZ 0 10)) as Hall.
  { repeat constructor; eexists; vm_compute; reflexivity. }
  rewrite Forall_forall in Hall. by apply Hall.
Qed.

(** With the hash function the router uses, the virtual nodes of one node
    never collide with each other when there are at most ten of them: their
    names differ in the last byte only, and CRC-32 separates such names. *)
Theorem crc_vhashes_distinct ch node :
  hasher ch = Crc32Hasher → numVirtualNodes ch ≤ 10 → NoDup (vhashes ch node).
Proof.
  intros Hh Hn. apply NoDup_fmap_2_strong; [|apply go_range_NoDup].
  intros i j Hi%go_range_elem Hj%go_range_elem.
  destruct (fmt_d_digit i ltac:(lia)) as [c Ec], (fmt_d_digit j ltac:(lia)) as [d Ed].
  unfold vhash. rewrite Hh. unfold Crc32Hasher, virtualNode.
  rewrite Ec, Ed, !bytes_of_app, !app_assoc. intros E. apply ChecksumIEEE_one_byte in E.
  apply fmt_d_inj. rewrite Ec, Ed. apply bytes_of_inj. rewrite !bytes_of_cons. by rewrite E.
Qed.

(** The table-driven hash of the router is the serial CRC-32 register, and
    its value is a 32-bit unsigned integer, for every key. *)
Theorem Crc32Hasher_serial key :
  Crc32Hasher key = crc32_serial key ∧ in_uint 32 (Crc32Hasher key).
Proof. split; [apply ChecksumIEEE_serial|apply ChecksumIEEE_range]. Qed.

(** ** Concrete rings *)

(** 192.168.1.2:9091, 192.168.1.3:9091 and 192.168.1.4:9091. *)
Definition node_a : AddrKey := mkAddrKey 3232235778 9091 0.

Definition node_b : AddrKey := mkAddrKey 3232235779 9091 0.

Definition node_c : AddrKey := mkAddrKey 3232235780 9091 0.

(** A ring whose zero points have been dropped, with five virtual nodes each. *)
Definition ring_ab : ring_t :=
  ring_run (newRing Crc32Hasher 5) [OpRemove node_a; OpAdd node_a; OpAdd node_b].

Definition client : list byte := bytes_of "113.168.1.11".

Lemma ring_ab_wf : ring_wf ring_ab.
Proof. unfold ring_ab. apply ring_run_wf_from, newRing_wf. Qed.

Example ring_ab_routes : getNode ring_ab client = Some "3232235778:9091".
Proof. vm_compute. reflexivity. Qed.

Lemma getNode_correct_witness :
  (getNode ring_ab client = None ↔ ring ring_ab = []) ∧
  (ring ring_ab ≠ [] →
   ∃ p, owns (ring ring_ab) (hasher ring_ab client) p ∧
     (∀ q, owns (ring ring_ab) (hasher ring_ab client) q → q = p) ∧
     getNode ring_ab client = Some (node_at ring_ab p)).
Proof. apply (getNode_correct ring_ab client), ring_ab_wf. Defined.

Lemma addNode_moves_to_new_witness :
  getNode (addNode ring_ab node_c) client = Some (addrToString node_c) ∨
  getNode (addNode ring_ab node_c) client = getNode ring_ab client.
Proof. apply (addNode_moves_to_new ring_ab node_c client). by_decide. Defined.

Lemma removeNode_keeps_others_witness :
  getNode (removeNode ring_ab node_b) client = getNode ring_ab client.
Proof.
  apply (removeNode_keeps_others ring_ab node_b client 814881369).
  - apply ring_ab_wf.
  - split; [by_decide|left]. split; [by_decide|].
    by_forall.
  - eexists. vm_compute. reflexivity.
  - by_decide.
Defined.

Lemma removeNode_no_traffic_witness :
  getNode (removeNode ring_ab node_a) client ≠ Some (addrToString node_a).
Proof. apply (removeNode_no_traffic ring_ab node_a client), ring_ab_wf. Defined.

Lemma addNode_again_harmless_witness :
  getNode (ring_run (addNode (addNode ring_ab node_c) node_c) [OpRemove node_b]) client =
  getNode (ring_run (addNode ring_ab node_c) [OpRemove node_b]) client.
Proof. apply (addNode_again_harmless ring_ab node_c [OpRemove node_b] client), ring_ab_wf. Defined.

Lemma addNode_comm_witness :
  addNode (addNode ring_ab node_a) node_b = addNode (addNode ring_ab node_b) node_a.
Proof.
  apply (addNode_comm ring_ab node_a node_b). by_forall.
Defined.

Example add_remove_restores : removeNode (addNode ring_ab node_c) node_c = ring_ab.
Proof. vm_compute. reflexivity. Qed.

Lemma rebuild_order_irrelevant_witness :
  rebuild (reverse (map_to_list (nodes ring_ab)).*1) ring_ab =
  rebuild (map_to_list (nodes ring_ab)).*1 ring_ab.
Proof. apply (rebuild_order_irrelevant ring_ab). apply reverse_Permutation. Defined.

(** A ring with one node. *)
Definition ring_a : ring_t := ring_run (newRing Crc32Hasher 5) [OpRemove node_a; OpAdd node_a].

Lemma removeNode_last_panics_witness : getNode (removeNode ring_a node_a) client = None.
Proof.
  apply (removeNode_last_panics ring_a node_a client). intros p [m Hm].
  apply elem_of_map_to_list in Hm. revert m Hm.
  enough (Forall (λ kv, kv.1 ∈ vhashes ring_a node_a) (map_to_list (nodes ring_a))) as Hall.
  { rewrite Forall_forall in Hall. intros m Hm. by apply (Hall (p, m)). }
  by_decide.
Defined.

(** A key that hashes above every virtual node of [node_a]. *)
Definition client_high : list byte := bytes_of "3232235779:9091-3".

Lemma newRing_zero_point_witness :
  getNode (foldl addNode (newRing Crc32Hasher 5) [node_a]) client_high = Some "0:0".
Proof.
  apply (newRing_zero_point Crc32Hasher 5 [node_a] client_high); [|by_decide].
  intros node p ->%list_elem_of_singleton. revert p.
  by_forall.
Defined.

Lemma virtualNode_inj_witness : IP node_a = IP node_a ∧ Port node_a = Port node_a ∧ 4 = 4.
Proof.
  apply (virtualNode_inj node_a node_a 4 4); try lia; try done;
    (split; [|split]; by_decide).
Defined.

Lemma crc_vhashes_distinct_witness : NoDup (vhashes ring_ab node_b).
Proof. apply (crc_vhashes_distinct ring_ab node_b); vm_compute; [reflexivity|discriminate]. Defined.
