(* ===== verification/RingSpec.v ===== *)
(** * The ring against a reference, and its size
    ([pkg/routing/ring.go], [pkg/routing/hashing.go])

    A [circle] is a ring without the machinery: the nodes by point, no slice, no
    sorting, no binary search, and the bit-serial CRC-32 instead of the
    table-driven one.  [ring_implements_circle] shows that the router's ring
    answers every request as the circle does after every history.  The rest
    bounds what a history leaves in the slice and in the map. *)

From S2P Require Import Prelude GoSort GoFmt Crc32 Ring.

(** ** The reference *)
Record circle := mkCircle {
  points : gmap Z AddrKey;
  unpruned : bool;  (** no removal yet: the point 0 of a new ring is there *)
}.

Definition newCircle : circle := mkCircle ∅ true.

Definition point (node : AddrKey) (i : Z) : Z := crc32_serial (bytes_of (virtualNode node i)).

Definition points_of (n : Z) (node : AddrKey) : list Z := point node <$> go_range n.

Definition circle_step (n : Z) (c : circle) (op : ring_op) : circle :=
  match op with
  | OpAdd node => mkCircle (list_to_map ((λ p, (p, node)) <$> points_of n node) ∪ points c) (unpruned c)
  | OpRemove node => mkCircle (filter (λ e, e.1 ∉ points_of n node) (points c)) false
  end.

Definition circle_run (n : Z) (ops : list ring_op) : circle := foldl (circle_step n) newCircle ops.

Definition all_points (c : circle) : list Z :=
  (if unpruned c then [0] else []) ++ (map_to_list (points c)).*1.

Definition least (l : list Z) : option Z :=
  match l with [] => None | x :: l => Some (foldr Z.min x l) end.

(** The next point from [h] on, around the circle. *)
Definition next_point (l : list Z) (h : Z) : option Z :=
  match least (filter (λ p, h ≤ p) l) with Some p => Some p | None => least l end.

Definition circle_get (c : circle) (requestKey : list byte) : option string :=
  (λ p, addrToString (default zero_AddrKey (points c !! p))) <$>
    next_point (all_points c) (crc32_serial requestKey).

(** ** The next point is the owner *)
Lemma foldr_min_spec x l :
  foldr Z.min x l ∈ x :: l ∧ ∀ q, q ∈ x :: l → foldr Z.min x l ≤ q.
Proof.
  induction l as [|y l [IHin IHle]]; simpl.
  - split; [by left|]. intros q ->%list_elem_of_singleton. done.
  - split.
    + destruct (Z.min_spec y (foldr Z.min x l)) as [[_ ->]|[_ ->]]; set_solver.
    + intros q Hq. assert (q = y ∨ q ∈ x :: l) as [->|Hq'] by set_solver; [lia|].
      specialize (IHle q Hq'). lia.
Qed.

Lemma least_spec l p : least l = Some p → p ∈ l ∧ ∀ q, q ∈ l → p ≤ q.
Proof. destruct l as [|x l]; [done|]. intros [= <-]. apply foldr_min_spec. Qed.

Lemma least_None l : least l = None ↔ l = [].
Proof. by destruct l. Qed.

Lemma next_point_owns l h p : next_point l h = Some p → owns l h p.
Proof.
  unfold next_point. destruct (least (filter _ l)) as [q|] eqn:E.
  - intros [= <-]. apply least_spec in E as [Hin Hle]. apply list_elem_of_filter in Hin as [Hh Hin].
    split; [done|]. left. split; [done|]. intros q' Hq' Hh'. apply Hle. by apply list_elem_of_filter.
  - apply least_None in E. intros [Hin Hle]%least_spec. split; [done|]. right. split; [|done].
    intros q Hq. destruct (decide (h ≤ q)); [|lia].
    assert (q ∈ filter (λ p, h ≤ p) l) as Hf by (by apply list_elem_of_filter). rewrite E in Hf. set_solver.
Qed.

Lemma next_point_None l h : next_point l h = None → l = [].
Proof. unfold next_point. case_match; [done|]. apply least_None. Qed.

(** ** The simulation *)
Record implements (n : Z) (ch : ring_t) (c : circle) : Prop := {
  im_hasher : hasher ch = Crc32Hasher;
  im_num : numVirtualNodes ch = n;
  im_nodes : nodes ch = points c;
  im_ring : ∀ p, p ∈ ring ch ↔ p ∈ all_points c;
}.

Lemma implements_vhashes n ch c node : implements n ch c → vhashes ch node = points_of n node.
Proof.
  intros [Hh Hn _ _]. unfold vhashes, points_of. rewrite Hn. apply list_fmap_ext. intros i x _.
  unfold vhash, point. rewrite Hh. apply ChecksumIEEE_serial.
Qed.

Lemma list_to_map_const (node : AddrKey) (l : list Z) p :
  (list_to_map ((λ p, (p, node)) <$> l) : gmap Z AddrKey) !! p = if decide (p ∈ l) then Some node else None.
Proof.
  induction l as [|x l IH]; [by rewrite decide_False by set_solver|]. rewrite fmap_cons. cbn [list_to_map foldr].
  destruct (decide (p = x)) as [->|Hne].
  - rewrite lookup_insert_eq, decide_True by set_solver. done.
  - rewrite lookup_insert_ne by done. etrans; [apply IH|]. apply decide_ext. set_solver.
Qed.

Lemma elem_of_all_points c p :
  p ∈ all_points c ↔ (unpruned c = true ∧ p = 0) ∨ is_Some (points c !! p).
Proof.
  unfold all_points. rewrite elem_of_app, list_elem_of_fmap.
  assert ((∃ x, p = x.1 ∧ x ∈ map_to_list (points c)) ↔ is_Some (points c !! p)) as ->.
  { split; [intros ([k v] & -> & Hin%elem_of_map_to_list); by exists v|].
    intros [v Hv]. exists (p, v). by rewrite elem_of_map_to_list. }
  destruct (unpruned c); set_solver.
Qed.

Lemma newRing_implements n : implements n (newRing Crc32Hasher n) newCircle.
Proof.
  split; [done..|]. intros p. rewrite elem_of_all_points.
  cbn [ring newRing points unpruned newCircle]. rewrite elem_of_replicate, lookup_empty.
  split; [intros [-> _]; by left|]. intros [[_ ->]|[? [=]]]. by split.
Qed.

Lemma ring_step_implements n ch c op :
  implements n ch c → implements n (ring_step ch op) (circle_step n c op).
Proof.
  intros Hi. pose proof Hi as [Hh Hn Hno Hr].
  assert (nodes (ring_step ch op) = points (circle_step n c op)) as Hnodes.
  { apply map_eq. intros p. destruct op as [node|node]; cbn [ring_step circle_step points].
    - rewrite addNode_nodes, lookup_union, list_to_map_const, (implements_vhashes n ch c), Hno by done.
      case_decide; by destruct (points c !! p).
    - rewrite removeNode_nodes, (implements_vhashes n ch c), Hno by done.
      rewrite map_lookup_filter. destruct (points c !! p) as [v|] eqn:Ev; simpl; [|by case_decide].
      case_decide; case_guard; naive_solver. }
  split; [by rewrite (proj2 (ring_step_frame ch op))|by rewrite (proj1 (ring_step_frame ch op))|done|].
  intros p. rewrite elem_of_all_points, <- Hnodes. destruct op as [node|node]; cbn [ring_step circle_step unpruned].
  - rewrite elem_of_addNode, addNode_nodes, Hr, elem_of_all_points, <- Hno.
    case_decide; [|tauto]. split; [intros; right; by eexists|by right].
  - rewrite ring_exact_elem by apply removeNode_exact. split; [by right|by intros [[]|]].
Qed.

Lemma ring_run_implements n ops : implements n (ring_run (newRing Crc32Hasher n) ops) (circle_run n ops).
Proof.
  unfold ring_run, circle_run. generalize (newRing_implements n).
  generalize (newRing Crc32Hasher n) newCircle.
  induction ops as [|op ops IH]; intros ch c Hi; simpl; [done|]. by apply IH, ring_step_implements.
Qed.

(** C1: after every history of additions and removals, the router's ring, with
    its sorted slice, its binary search and its table-driven hash function,
    answers every request as the reference does, which looks through all points
    for the next one from the bit-serial CRC-32 of the key on; the two also agree
    on when there is no answer. *)
Theorem ring_implements_circle n ops key :
  getNode (ring_run (newRing Crc32Hasher n) ops) key = circle_get (circle_run n ops) key.
Proof.
  pose proof (ring_run_implements n ops) as [Hh _ Hno Hr].
  pose proof (ring_run_wf_from _ ops (newRing_wf Crc32Hasher n)) as Hwf.
  unfold circle_get. destruct (next_point _ _) as [p|] eqn:Ep; simpl.
  - rewrite (getNode_owns _ _ p); [|by apply wf_sorted|].
    + unfold node_at. by rewrite Hno.
    + apply next_point_owns in Ep. rewrite Hh. unfold Crc32Hasher. rewrite ChecksumIEEE_serial.
      eapply owns_ext; [|done]. intros q. by rewrite Hr.
  - apply next_point_None in Ep. apply getNode_empty.
    destruct (ring _) as [|x l] eqn:E; [done|]. specialize (Hr x). rewrite Ep in Hr. set_solver.
Qed.

(** ** Sizes *)
Definition is_add (op : ring_op) : bool := match op with OpAdd _ => true | OpRemove _ => false end.

Definition adds (ops : list ring_op) : nat := length (List.filter is_add ops).

(** The map fits into the slice: its keys are there, each at least once. *)
Lemma nodes_le_ring ch : ring_wf ch → (size (nodes ch) ≤ length (ring ch))%nat.
Proof.
  intros Hwf. rewrite <- length_map_to_list, <- (length_fmap fst). apply submseteq_length.
  apply NoDup_submseteq; [apply NoDup_fst_map_to_list|]. intros p Hp%list_elem_of_fmap.
  destruct Hp as ([k v] & -> & Hin%elem_of_map_to_list). apply (wf_covers _ Hwf). by exists v.
Qed.

Lemma addNode_length ch node :
  length (ring (addNode ch node)) = (length (ring ch) + Z.to_nat (numVirtualNodes ch))%nat.
Proof.
  rewrite addNode_ring, sort_slice_perm, length_app. unfold vhashes, go_range.
  by rewrite length_fmap, length_seqZ.
Qed.

Lemma removeNode_length ch node :
  length (ring (removeNode ch node)) = size (nodes (removeNode ch node)).
Proof.
  rewrite (removeNode_exact ch node), sort_slice_perm, length_fmap. by rewrite length_map_to_list.
Qed.

Lemma insert_list_size (f : Z → Z) (node : AddrKey) js (m : gmap Z AddrKey) :
  (size (foldl (λ m i, <[f i := node]> m) m js) ≤ size m + length js)%nat.
Proof.
  revert m. induction js as [|i js IH]; intros m; simpl; [lia|]. etrans; [apply IH|].
  destruct (m !! f i) eqn:E; [rewrite map_size_insert_Some by eauto|rewrite map_size_insert_None by done]; lia.
Qed.

Lemma addNode_size ch node :
  (size (nodes (addNode ch node)) ≤ size (nodes ch) + Z.to_nat (numVirtualNodes ch))%nat.
Proof.
  unfold addNode. rewrite addNode_loops. simpl. etrans; [apply insert_list_size|].
  unfold go_range. rewrite length_seqZ. lia.
Qed.

Lemma removeNode_size ch node : (size (nodes (removeNode ch node)) ≤ size (nodes ch))%nat.
Proof.
  apply map_subseteq_size. apply map_subseteq_spec. intros p v.
  rewrite removeNode_nodes. by case_decide.
Qed.

Lemma ring_step_size n ch op (a : nat) :
  ring_wf ch → numVirtualNodes ch = n →
  (size (nodes ch) ≤ Z.to_nat n * a)%nat → (length (ring ch) ≤ Z.to_nat MAX_NUMBER_VIRTUAL_NODE_ENTRIES + Z.to_nat n * a)%nat →
  (size (nodes (ring_step ch op)) ≤ Z.to_nat n * (a + adds [op]))%nat ∧
  (length (ring (ring_step ch op)) ≤ Z.to_nat MAX_NUMBER_VIRTUAL_NODE_ENTRIES + Z.to_nat n * (a + adds [op]))%nat.
Proof.
  intros Hwf Hn Hs Hl. destruct op as [node|node]; cbn [ring_step];
    [change (adds [OpAdd node]) with 1%nat|change (adds [OpRemove node]) with 0%nat].
  - pose proof (addNode_size ch node) as H1. pose proof (addNode_length ch node) as H2.
    rewrite Hn in *. generalize dependent (Z.to_nat n). intros m. split; lia.
  - pose proof (removeNode_size ch node) as H1. pose proof (removeNode_length ch node) as H2.
    generalize dependent (Z.to_nat n). intros m. split; lia.
Qed.

Lemma ring_run_size n ops ch (a : nat) :
  ring_wf ch → numVirtualNodes ch = n →
  (size (nodes ch) ≤ Z.to_nat n * a)%nat → (length (ring ch) ≤ Z.to_nat MAX_NUMBER_VIRTUAL_NODE_ENTRIES + Z.to_nat n * a)%nat →
  (size (nodes (ring_run ch ops)) ≤ Z.to_nat n * (a + adds ops))%nat ∧
  (length (ring (ring_run ch ops)) ≤ Z.to_nat MAX_NUMBER_VIRTUAL_NODE_ENTRIES + Z.to_nat n * (a + adds ops))%nat.
Proof.
  unfold ring_run. revert ch a. induction ops as [|op ops IH]; intros ch a Hwf Hn Hs Hl; simpl.
  - unfold adds. simpl. rewrite Nat.add_0_r. done.
  - destruct (ring_step_size n ch op a Hwf Hn Hs Hl) as [H1 H2].
    destruct (IH (ring_step ch op) (a + adds [op])%nat) as [H3 H4];
      [by apply ring_step_wf|by rewrite (proj1 (ring_step_frame ch op))|done|done|].
    assert (adds (op :: ops) = adds [op] + adds ops)%nat as E by (unfold adds; simpl; by destruct (is_add op)).
    rewrite E, Nat.add_assoc. by split.
Qed.

(** C15: how large a ring gets: after every history the map holds at most one
    entry per virtual node of each addition and never more than the slice; the
    slice holds at most the 8192 zeros of a new ring and one point per virtual
    node of each addition; and a removal leaves exactly one point for each entry
    of the map. *)
Theorem ring_run_bounds h n ops node :
  let ch := ring_run (newRing h n) ops in
  (size (nodes ch) ≤ Z.to_nat n * adds ops)%nat ∧
  (size (nodes ch) ≤ length (ring ch) ≤ Z.to_nat MAX_NUMBER_VIRTUAL_NODE_ENTRIES + Z.to_nat n * adds ops)%nat ∧
  length (ring (removeNode ch node)) = size (nodes (removeNode ch node)).
Proof.
  intros ch. assert (ring_wf ch) as Hwf by apply ring_run_wf_from, newRing_wf.
  destruct (ring_run_size n ops (newRing h n) 0) as [H1 H2].
  - apply newRing_wf.
  - done.
  - cbn [nodes newRing]. rewrite map_size_empty. lia.
  - cbn [ring newRing]. rewrite length_replicate. lia.
  - split_and!; [done|by apply nodes_le_ring|done|apply removeNode_length].
Qed.

(** The bounds are met: each further addition of the same node makes the
    slice longer, past the 8192 entries it was made with, and leaves the map as
    it is. *)
Theorem addNode_again_grows k ch node :
  length (ring (foldl addNode ch (replicate k node))) =
    (length (ring ch) + k * Z.to_nat (numVirtualNodes ch))%nat ∧
  nodes (foldl addNode (addNode ch node) (replicate k node)) = nodes (addNode ch node).
Proof.
  revert ch. induction k as [|k IH]; intros ch; cbn [replicate foldl]; [split; [lia|done]|].
  destruct (IH (addNode ch node)) as [Hl Hn]. split.
  - rewrite Hl, addNode_length, addNode_num. lia.
  - rewrite Hn. apply addNode_twice.
Qed.

(** ** A concrete history *)
Example circle_ab_routes :
  circle_get (circle_run 5 [OpRemove node_a; OpAdd node_a; OpAdd node_b]) client = Some "3232235778:9091".
Proof. vm_compute. reflexivity. Qed.
