(* ===== verification/Router.v ===== *)
(** * The router and its XDP programs ([pkg/routing/router.go], [xdp.go])

    [loadProgram] acquires kernel resources one after the other, returns early on
    the first failure, and has a deferred [Close] for each resource.  It is
    modelled as the list of what it does to the kernel together with its result;
    [defer] puts the deferred action behind everything the rest of the body does.
    The eBPF library and the kernel are parameters; [X] is the type of their
    errors. *)

From S2P Require Import Prelude Ring.

Definition DNATXDPProgName : string := "dnat_prog".

Definition SNATXDPProgName : string := "snat_prog".

Record xdp := mkXdp { pubNetInterface : string; privNetInterface : string; port : Z }.

Definition newXDP (pubNetInterface privNetInterface : string) (incomingReqPort : Z) : xdp :=
  mkXdp pubNetInterface privNetInterface incomingReqPort.

(** The library and the kernel. *)
Record XdpEnv (X : Type) := mkXdpEnv {
  prog_t : Type;
  RemoveMemlock : option X;
  LoadCollectionSpec : option X;
  NewCollection : result (string → option prog_t) X;  (** the programs by name *)
  NetInterfaceByName : string → result Z X;  (** the index of the interface *)
  AttachXDP : prog_t → Z → option X;
}.
Arguments mkXdpEnv {X}.
Arguments prog_t {X}.
Arguments RemoveMemlock {X}.
Arguments LoadCollectionSpec {X}.
Arguments NewCollection {X}.
Arguments NetInterfaceByName {X}.
Arguments AttachXDP {X}.

(** What the program does to the kernel: objects loaded and closed, links
    attached to an interface and closed. *)
Inductive xdp_event :=
| EvLoad
| EvUnload
| EvAttach (name : string) (ifindex : Z)
| EvDetach (name : string) (ifindex : Z).

#[global] Instance xdp_event_eq_dec : EqDecision xdp_event.
Proof. solve_decision. Defined.

Section Load.

Context {X : Type} (env : XdpEnv X).

Definition traced : Type := list xdp_event * result unit (error X).

Definition return_ (r : result unit (error X)) : traced := ([], r).

(** The event happens, then the body, then its deferred counterpart. *)
Definition acquire (ev deferred : xdp_event) (body : traced) : traced :=
  (ev :: fst body ++ [deferred], snd body).

Definition getInterfaceIndex (netInterface : string) : result Z (error X) :=
  match NetInterfaceByName env netInterface with
  | Err e => Err (Wrapf ("unable to find interface " +:+ netInterface +:+ ": ") (Foreign e))
  | Ok index => Ok index
  end.

Definition loadProgram (r : xdp) : traced :=
  match RemoveMemlock env with
  | Some e => return_ (Err (Wrapf "error removing memlock: " (Foreign e)))
  | None =>
  match LoadCollectionSpec env with
  | Some e => return_ (Err (Wrapf "failed to load XDP collection spec: " (Foreign e)))
  | None =>
  match NewCollection env with
  | Err e => return_ (Err (Wrapf "failed to create XDP collection: " (Foreign e)))
  | Ok programs =>
  acquire EvLoad EvUnload
  match programs DNATXDPProgName with
  | None => return_ (Err (Errorf ("failed to find XDP collection program: " +:+ DNATXDPProgName)))
  | Some progDNAT =>
  match programs SNATXDPProgName with
  | None => return_ (Err (Errorf ("failed to find XDP collection program: " +:+ SNATXDPProgName)))
  | Some progSNAT =>
  match getInterfaceIndex (pubNetInterface r) with
  | Err e => return_ (Err (Wrapf "failed to get index for public network card: " e))
  | Ok pubIdxInterface =>
  match getInterfaceIndex (privNetInterface r) with
  | Err e => return_ (Err (Wrapf "failed to get index for private network card: " e))
  | Ok privIdxInterface =>
  match AttachXDP env progDNAT pubIdxInterface with
  | Some e => return_ (Err (Wrapf "failed to attach XDP link: " (Foreign e)))
  | None =>
  acquire (EvAttach DNATXDPProgName pubIdxInterface) (EvDetach DNATXDPProgName pubIdxInterface)
  match AttachXDP env progSNAT privIdxInterface with
  | Some e => return_ (Err (Wrapf "failed to attach XDP link: " (Foreign e)))
  | None =>
  acquire (EvAttach SNATXDPProgName privIdxInterface) (EvDetach SNATXDPProgName privIdxInterface)
  (return_ (Ok tt))
  end end end end end end end end end.

(** ** [router.go] *)
Record Router := mkRouter { router_ring : ring_t; router_xdp : xdp }.

(** [New]; [public], [private] and [clientsPort] are the three fields it reads
    from the configuration. *)
Definition New (public private : string) (clientsPort numVirtualNodes : Z)
  : list xdp_event * result Router (error X) :=
  if numVirtualNodes <? 1
  then ([], Err (Errorf "number of virtual nodes cannot be less than 1"))
  else
    let routerProg := newXDP public private clientsPort in
    let '(tr, res) := loadProgram routerProg in
    match res with
    | Err e => (tr, Err (Wrapf "failed to load XDP program: " e))
    | Ok _ => (tr, Ok (mkRouter (newRing Crc32Hasher numVirtualNodes) routerProg))
    end.

End Load.

Definition AddNode (r : Router) (nodeKey : AddrKey) : Router :=
  mkRouter (addNode (router_ring r) nodeKey) (router_xdp r).

Definition RemoveNode (r : Router) (nodeKey : AddrKey) : Router :=
  mkRouter (removeNode (router_ring r) nodeKey) (router_xdp r).

(** A history of the exported operations. *)
Definition router_step (r : Router) (op : ring_op) : Router :=
  match op with OpAdd k => AddNode r k | OpRemove k => RemoveNode r k end.

(** ** What is held *)

(** The kernel objects held after an event, given those held before. *)
Definition hold (held : list xdp_event) (ev : xdp_event) : list xdp_event :=
  match ev with
  | EvLoad | EvAttach _ _ => ev :: held
  | EvUnload => filter (λ x, x ≠ EvLoad) held
  | EvDetach name i => filter (λ x, x ≠ EvAttach name i) held
  end.

Definition holds (tr : list xdp_event) : list xdp_event := foldl hold [] tr.

(** The whole of a successful load. *)
Definition load_trace (pub priv : Z) : list xdp_event :=
  [EvLoad; EvAttach DNATXDPProgName pub; EvAttach SNATXDPProgName priv;
   EvDetach SNATXDPProgName priv; EvDetach DNATXDPProgName pub; EvUnload].

Ltac load_cases := unfold loadProgram, acquire, return_; repeat (case_match; simplify_eq/=).

Lemma load_trace_cases {X} (env : XdpEnv X) r :
  let tr := fst (loadProgram env r) in
  tr = [] ∨ tr = [EvLoad; EvUnload] ∨
  (∃ i, tr = [EvLoad; EvAttach DNATXDPProgName i; EvDetach DNATXDPProgName i; EvUnload]) ∨
  (∃ i j, tr = load_trace i j ∧ snd (loadProgram env r) = Ok tt).
Proof. load_cases; eauto 10. Qed.

(** C35: [loadProgram] leaves nothing in the kernel, whichever step fails: every
    object it loads and every link it attaches is closed again by the time it
    returns.  That includes the return without error: the deferred calls detach
    both programs, so a router that was created filters no packet. *)
Theorem xdp_holds_nothing {X} (env : XdpEnv X) r : holds (fst (loadProgram env r)) = [].
Proof.
  destruct (load_trace_cases env r) as [->|[->|[[i ->]|(i & j & -> & _)]]]; unfold holds; simpl;
    repeat (rewrite filter_cons; case_decide as E; simpl; try (by destruct E); clear E); done.
Qed.

(** The router is created exactly when there is at least one virtual node and
    every step of the load succeeds, and then its ring is the empty one with the
    CRC-32 hash; on the way the DNAT program was attached to the public
    interface and the SNAT program to the private one, in this order. *)
Theorem New_spec {X} (env : XdpEnv X) public private clientsPort n :
  match New env public private clientsPort n with
  | (tr, Ok router) =>
      1 ≤ n ∧ router_ring router = newRing Crc32Hasher n ∧
      ∃ pub priv, NetInterfaceByName env public = Ok pub ∧ NetInterfaceByName env private = Ok priv ∧
        tr = load_trace pub priv
  | (tr, Err _) =>
      n < 1 ∧ tr = [] ∨ 1 ≤ n ∧ ∃ e, snd (loadProgram env (newXDP public private clientsPort)) = Err e
  end.
Proof.
  unfold New. destruct (Z.ltb_spec n 1); [by left|].
  destruct (loadProgram env (newXDP public private clientsPort)) as [tr [[]|e]] eqn:El; [|right; eauto].
  split; [lia|]. split; [done|]. revert El. load_cases; try done.
  unfold getInterfaceIndex in *. repeat case_match; simplify_eq. intros. simplify_eq. eauto 10.
Qed.

(** Nodes reach the ring of a router unchanged: a history of [AddNode] and
    [RemoveNode] leaves the ring that the same history of the ring leaves. *)
Theorem router_is_ring r ops :
  router_ring (foldl router_step r ops) = ring_run (router_ring r) ops.
Proof.
  revert r. induction ops as [|op ops IH]; intros r; [done|]. simpl. rewrite IH.
  unfold ring_run. by destruct op.
Qed.
