(* ===== verification/PacketProg.v ===== *)
(** * The packet programs ([pkg/routing/router.c])

    Two eBPF programs run on the packets of the load balancer: [dnat_prog] sends
    client packets on to the backend and remembers the connection, [snat_prog]
    restores an address in the replies.  A packet is the list of its bytes; a
    pointer into it is an offset, and an access outside of the packet is a fault
    ([None]).  A field in network byte order is the number it denotes, so that
    [__constant_htons] and [__constant_htonl] are the identity.

    The helpers of the kernel are parameters ([Bpf]): the connection-tracking
    map and the two checksum helpers, with what their documentation says of them
    as laws ([BpfLaws]). *)

From S2P Require Import Prelude.

(** ** Constants and structures *)
Definition BACKEND_IP : Z := 0xC0A80070.

Definition LB_IP : Z := 0xC0A800F2.

Definition IPPROTO_TCP : Z := 6.

Definition TARGET_PORT : Z := 8080.

Definition ETH_P_IP : Z := 0x0800.

Definition TC_ACT_OK : Z := 0.

Record conn_tuple := mkTuple {
  src_ip : Z;
  dst_ip : Z;
  src_port : Z;
  dst_port : Z;
  protocol : Z;
}.

#[global] Instance conn_tuple_eq_dec : EqDecision conn_tuple.
Proof. solve_decision. Defined.

Notation packet := (list byte).

(** Sizes of the three headers and offsets of their fields, as the structures of
    the kernel have them. *)
Definition sizeof_ethhdr : nat := 14.

Definition sizeof_iphdr : nat := 20.

Definition sizeof_tcphdr : nat := 20.

Definition eth_h_proto : nat := 12.

Definition ip_protocol : nat := 9.

Definition ip_check : nat := 10.

Definition ip_saddr : nat := 12.

Definition ip_daddr : nat := 16.

Definition tcp_source : nat := 0.

Definition tcp_dest : nat := 2.

Definition tcp_check : nat := 16.

(** ** Memory *)
Definition load8 (p : packet) (off : nat) : option Z := byte_to_Z <$> p !! off.

Definition load16 (p : packet) (off : nat) : option Z :=
  hi ← load8 p off; lo ← load8 p (off + 1); Some (hi * 256 + lo).

Definition load32 (p : packet) (off : nat) : option Z :=
  hi ← load16 p off; lo ← load16 p (off + 2); Some (hi * 65536 + lo).

Definition store8 (p : packet) (off : nat) (v : Z) : option packet :=
  if decide (off < length p)%nat then Some (<[off := byte_of_Z v]> p) else None.

Definition store16 (p : packet) (off : nat) (v : Z) : option packet :=
  p ← store8 p off (Z.shiftr v 8); store8 p (off + 1) v.

Definition store32 (p : packet) (off : nat) (v : Z) : option packet :=
  p ← store16 p off (Z.shiftr v 16); store16 p (off + 2) v.

(** ** The helpers of the kernel *)
Class Bpf := {
  ct_map : Type;
  ct_lookup : ct_map → conn_tuple → option Z;
  ct_update : ct_map → conn_tuple → Z → ct_map;
  (** [bpf_l3_csum_replace], [bpf_l4_csum_replace]: packet, offset of the
      checksum, old value, new value, flags *)
  l3_csum_replace : packet → nat → Z → Z → Z → packet;
  l4_csum_replace : packet → nat → Z → Z → Z → packet;
}.

(** The words of a 32-bit value, added as in a checksum. *)
Definition words32 (v : Z) : Z := Z.shiftr v 16 + Z.land v 65535.

(** What a checksum helper does to a packet that has the two bytes at the given
    offset: it changes these only, by the incremental update of the Internet
    checksum for a 32-bit field that went from one value to another. *)
Record csum_helper (f : packet → nat → Z → Z → Z → packet) : Prop := {
  csum_length p off a b fl : length (f p off a b fl) = length p;
  csum_frame p off a b fl i : i ≠ off → i ≠ (off + 1)%nat → f p off a b fl !! i = p !! i;
  csum_update p off a b v v' :
    load16 p off = Some v → load16 (f p off a b 4) off = Some v' →
    (v' + words32 b) mod 65535 = (v + words32 a) mod 65535;
}.

Class BpfLaws `{!Bpf} : Prop := {
  l3_law : csum_helper l3_csum_replace;
  l4_law : csum_helper l4_csum_replace;
  (** The map is an LRU cache: an update may evict other entries. *)
  ct_update_sound m k v k' v' :
    ct_lookup (ct_update m k v) k' = Some v' → (k' = k ∧ v' = v) ∨ ct_lookup m k' = Some v';
}.

(** ** The programs *)

(** [parse_headers]: the pointers are constant offsets; the result is whether the
    packet is an IPv4 TCP packet that is long enough. *)
Definition eth : nat := 0.

Definition ip : nat := eth + sizeof_ethhdr.

Definition tcp : nat := ip + sizeof_iphdr.

Definition parse_headers (p : packet) : option bool :=
  if decide (length p < eth + sizeof_ethhdr)%nat then Some false
  else
    h_proto ← load16 p (eth + eth_h_proto);
    if decide (h_proto ≠ ETH_P_IP) then Some false
    else if decide (length p < ip + sizeof_iphdr)%nat then Some false
    else
      proto ← load8 p (ip + ip_protocol);
      if decide (proto ≠ IPPROTO_TCP) then Some false
      else if decide (length p < tcp + sizeof_tcphdr)%nat then Some false
      else Some true.

Section Programs.

Context `{!Bpf}.

(** The result of a program: its action, the map and the packet. *)
Definition verdict : Type := Z * ct_map * packet.

(** [dnat_prog] from the test of the port on. *)
Definition dnat_rewrite (ct : ct_map) (p : packet) : option verdict :=
  saddr ← load32 p (ip + ip_saddr);
  daddr ← load32 p (ip + ip_daddr);
  source ← load16 p (tcp + tcp_source);
  dest ← load16 p (tcp + tcp_dest);
  proto ← load8 p (ip + ip_protocol);
  let tuple := mkTuple saddr daddr source dest proto in
  orig_ip ← load32 p (ip + ip_saddr);
  let ct := ct_update ct tuple orig_ip in
  old_daddr ← load32 p (ip + ip_daddr);
  old_saddr ← load32 p (ip + ip_saddr);
  p ← store32 p (ip + ip_daddr) BACKEND_IP;
  p ← store32 p (ip + ip_saddr) LB_IP;
  new_daddr ← load32 p (ip + ip_daddr);
  let p := l3_csum_replace p ip_check old_daddr new_daddr 4 in
  new_daddr ← load32 p (ip + ip_daddr);
  let p := l4_csum_replace p tcp_check old_daddr new_daddr 4 in
  new_saddr ← load32 p (ip + ip_saddr);
  let p := l3_csum_replace p ip_check old_saddr new_saddr 4 in
  new_saddr ← load32 p (ip + ip_saddr);
  let p := l4_csum_replace p tcp_check old_saddr new_saddr 4 in
  Some (TC_ACT_OK, ct, p).

Definition dnat_prog (ct : ct_map) (p : packet) : option verdict :=
  ok ← parse_headers p;
  if negb ok then Some (TC_ACT_OK, ct, p)
  else
    dest ← load16 p (tcp + tcp_dest);
    if decide (dest ≠ TARGET_PORT) then Some (TC_ACT_OK, ct, p) else dnat_rewrite ct p.

(** [snat_prog] from a hit in the map on. *)
Definition snat_rewrite (ct : ct_map) (p : packet) (orig_ip : Z) : option verdict :=
  old_saddr ← load32 p (ip + ip_saddr);
  p ← store32 p (ip + ip_saddr) orig_ip;
  new_saddr ← load32 p (ip + ip_saddr);
  let p := l3_csum_replace p ip_check old_saddr new_saddr 4 in
  new_saddr ← load32 p (ip + ip_saddr);
  let p := l4_csum_replace p tcp_check old_saddr new_saddr 4 in
  Some (TC_ACT_OK, ct, p).

(** The key of the connection a reply belongs to. *)
Definition rev_tuple (p : packet) : option conn_tuple :=
  daddr ← load32 p (ip + ip_daddr);
  saddr ← load32 p (ip + ip_saddr);
  dest ← load16 p (tcp + tcp_dest);
  source ← load16 p (tcp + tcp_source);
  proto ← load8 p (ip + ip_protocol);
  Some (mkTuple daddr saddr dest source proto).

Definition snat_prog (ct : ct_map) (p : packet) : option verdict :=
  ok ← parse_headers p;
  if negb ok then Some (TC_ACT_OK, ct, p)
  else
    key ← rev_tuple p;
    match ct_lookup ct key with
    | None => Some (TC_ACT_OK, ct, p)
    | Some orig_ip => snat_rewrite ct p orig_ip
    end.

(** The programs at work on a sequence of packets. *)
Inductive nat_event := Ingress (p : packet) | Egress (p : packet).

Definition nat_step (e : nat_event) (ct : ct_map) : option ct_map :=
  match e with
  | Ingress p => (λ '(_, ct, _), ct) <$> dnat_prog ct p
  | Egress p => (λ '(_, ct, _), ct) <$> snat_prog ct p
  end.

End Programs.

(** ** Loads and stores *)
Lemma load8_Some p off : (off < length p)%nat → ∃ v, load8 p off = Some v ∧ in_uint 8 v.
Proof.
  intros [b Hb]%lookup_lt_is_Some_2. exists (byte_to_Z b). unfold load8. rewrite Hb.
  split; [done|apply byte_to_Z_range].
Qed.

Lemma load16_Some p off : (off + 2 ≤ length p)%nat → ∃ v, load16 p off = Some v ∧ in_uint 16 v.
Proof.
  intros H. destruct (load8_Some p off) as (a & Ha & Ra); [lia|].
  destruct (load8_Some p (off + 1)) as (b & Hb & Rb); [lia|].
  exists (a * 256 + b). unfold load16. rewrite Ha. simpl. rewrite Hb. split; [done|].
  unfold in_uint in *. lia.
Qed.

Lemma load32_Some p off : (off + 4 ≤ length p)%nat → ∃ v, load32 p off = Some v ∧ in_uint 32 v.
Proof.
  intros H. destruct (load16_Some p off) as (a & Ha & Ra); [lia|].
  destruct (load16_Some p (off + 2)) as (b & Hb & Rb); [lia|].
  exists (a * 65536 + b). unfold load32. rewrite Ha. simpl. rewrite Hb. split; [done|].
  unfold in_uint in *. lia.
Qed.

(** The same bytes give the same number. *)
Definition same_at (p q : packet) (off n : nat) : Prop :=
  ∀ i, (off ≤ i < off + n)%nat → q !! i = p !! i.

Lemma load16_same p q off : same_at p q off 2 → load16 q off = load16 p off.
Proof. intros H. unfold load16, load8. rewrite !H by lia. done. Qed.

Lemma load32_same p q off : same_at p q off 4 → load32 q off = load32 p off.
Proof.
  intros H. unfold load32.
  rewrite (load16_same p q off), (load16_same p q (off + 2)); [done|intros i Hi; apply H; lia..].
Qed.

Lemma store8_Some p off v :
  (off < length p)%nat →
  ∃ q, store8 p off v = Some q ∧ length q = length p ∧ (∀ i, i ≠ off → q !! i = p !! i) ∧
    load8 q off = Some (u8 v).
Proof.
  intros H. unfold store8. rewrite decide_True by done. eexists. split; [done|].
  rewrite length_insert. split_and!; [done|intros i Hi; by rewrite list_lookup_insert_ne|].
  unfold load8. rewrite list_lookup_insert_eq by done. simpl. by rewrite byte_to_of_Z.
Qed.

Lemma store16_Some p off v :
  (off + 2 ≤ length p)%nat →
  ∃ q, store16 p off v = Some q ∧ length q = length p ∧
    (∀ i, (i < off ∨ off + 2 ≤ i)%nat → q !! i = p !! i) ∧ load16 q off = Some (u16 v).
Proof.
  intros H. destruct (store8_Some p off (Z.shiftr v 8)) as (q1 & E1 & L1 & F1 & V1); [lia|].
  destruct (store8_Some q1 (off + 1) v) as (q2 & E2 & L2 & F2 & V2); [lia|].
  exists q2. unfold store16. rewrite E1. simpl. split_and!; [done|congruence| |].
  - intros i Hi. by rewrite F2, F1 by lia.
  - unfold load16. rewrite V2.
    assert (load8 q2 off = load8 q1 off) as -> by (unfold load8; by rewrite F2 by lia).
    rewrite V1. simpl. f_equal. unfold u8, u16, uwrap. rewrite Z.shiftr_div_pow2 by lia.
    change (2 ^ 16) with (256 * 256). change (2 ^ 8) with 256.
    rewrite (Z.rem_mul_r v 256 256) by lia. lia.
Qed.

Lemma store32_Some p off v :
  (off + 4 ≤ length p)%nat → in_uint 32 v →
  ∃ q, store32 p off v = Some q ∧ length q = length p ∧
    (∀ i, (i < off ∨ off + 4 ≤ i)%nat → q !! i = p !! i) ∧ load32 q off = Some v.
Proof.
  intros H Hv. destruct (store16_Some p off (Z.shiftr v 16)) as (q1 & E1 & L1 & F1 & V1); [lia|].
  destruct (store16_Some q1 (off + 2) v) as (q2 & E2 & L2 & F2 & V2); [lia|].
  exists q2. unfold store32. rewrite E1. simpl. split_and!; [done|congruence| |].
  - intros i Hi. by rewrite F2, F1 by lia.
  - unfold load32. rewrite V2.
    rewrite (load16_same q1 q2 off) by (intros i Hi; apply F2; lia). rewrite V1. simpl. f_equal.
    unfold u16, uwrap, in_uint in *. rewrite Z.shiftr_div_pow2 by lia.
    change (2 ^ 16) with 65536. rewrite (Z.mod_small (v / 65536)).
    + pose proof (Z.div_mod v 65536 ltac:(lia)). lia.
    + split; [apply Z.div_pos; lia|]. apply Z.div_lt_upper_bound; lia.
Qed.

(** A checksum helper leaves other fields alone. *)
Lemma csum_load32 f p o a b fl off :
  csum_helper f → (off + 4 ≤ o ∨ o + 2 ≤ off)%nat → load32 (f p o a b fl) off = load32 p off.
Proof. intros Hf Ho. apply load32_same. intros i Hi. apply (csum_frame _ Hf); lia. Qed.

Lemma csum_load16 f p o a b fl off :
  csum_helper f → (off + 2 ≤ o ∨ o + 2 ≤ off)%nat → load16 (f p o a b fl) off = load16 p off.
Proof. intros Hf Ho. apply load16_same. intros i Hi. apply (csum_frame _ Hf); lia. Qed.

(** ** The programs *)
(** Computes a bind whose first part is known. *)
Ltac bind := cbn [mbind option_bind negb].

Ltac bind_in H := cbn [mbind option_bind negb] in H.

(** Arithmetic on the offsets of fields. *)
Ltac offsets :=
  unfold tcp, ip, eth, sizeof_tcphdr, sizeof_iphdr, sizeof_ethhdr, eth_h_proto, ip_protocol, ip_check,
    ip_saddr, ip_daddr, tcp_source, tcp_dest, tcp_check in *; lia.

Lemma parse_headers_total p :
  ∃ ok, parse_headers p = Some ok ∧
    (ok = true → (tcp + sizeof_tcphdr ≤ length p)%nat ∧ load16 p (eth + eth_h_proto) = Some ETH_P_IP ∧
      load8 p (ip + ip_protocol) = Some IPPROTO_TCP).
Proof.
  unfold parse_headers. case_decide as H1; [by exists false|].
  destruct (load16_Some p (eth + eth_h_proto)) as (v & Hv & _); [offsets|].
  rewrite Hv. bind. case_decide as H2; [by exists false|]. case_decide as H3; [by exists false|].
  destruct (load8_Some p (ip + ip_protocol)) as (w & Hw & _); [offsets|].
  rewrite Hw. bind. case_decide as H4; [by exists false|]. case_decide as H5; [by exists false|].
  exists true. split; [done|]. intros _. subst. split_and!; [lia|done..].
Qed.

(** The bytes that a rewrite of the packet may change: those of the two addresses
    and, because the offsets of the checksums are counted from the start of the
    frame, two bytes of the source MAC address and the total length. *)
Definition touched (i : nat) : bool :=
  ((10 <=? i) && (i <? 12) || (16 <=? i) && (i <? 18) || (26 <=? i) && (i <? 34))%nat.

Lemma untouched i : touched i = false → i ≠ 10%nat ∧ i ≠ 11%nat ∧ i ≠ 16%nat ∧ i ≠ 17%nat ∧ (i < 26 ∨ 34 ≤ i)%nat.
Proof.
  unfold touched. intros H. apply orb_false_iff in H as [H H3]. apply orb_false_iff in H as [H1 H2].
  apply andb_false_iff in H1, H2, H3. rewrite !Nat.leb_gt, !Nat.ltb_ge in *. lia.
Qed.

(** The total length of the IP header. *)
Definition ip_tot_len : nat := 2.

Section Proofs.

Context `{!Bpf, !BpfLaws}.

#[local] Notation l3 := l3_law.

#[local] Notation l4 := l4_law.

(** The pair of helper calls that should repair the checksums after an address
    went from [a] to [b]. *)
Definition fix_csums (p : packet) (a b : Z) : packet :=
  l4_csum_replace (l3_csum_replace p ip_check a b 4) tcp_check a b 4.

Lemma fix_csums_length p a b : length (fix_csums p a b) = length p.
Proof. unfold fix_csums. by rewrite (csum_length _ l4), (csum_length _ l3). Qed.

Lemma fix_csums_frame p a b i :
  i ≠ 10%nat → i ≠ 11%nat → i ≠ 16%nat → i ≠ 17%nat → fix_csums p a b !! i = p !! i.
Proof.
  intros. unfold fix_csums, ip_check, tcp_check.
  rewrite (csum_frame _ l4) by lia. by rewrite (csum_frame _ l3) by lia.
Qed.

Lemma fix_csums_load32 p a b off : (18 ≤ off)%nat → load32 (fix_csums p a b) off = load32 p off.
Proof. intros. apply load32_same. intros i Hi. apply fix_csums_frame; lia. Qed.

Lemma fix_csums_len p a b v v' :
  load16 p 16 = Some v → load16 (fix_csums p a b) 16 = Some v' →
  (v' + words32 b) mod 65535 = (v + words32 a) mod 65535.
Proof.
  intros Hv Hv'. unfold fix_csums in Hv'. eapply (csum_update _ l4); [|exact Hv'].
  by rewrite (csum_load16 _ _ _ _ _ _ _ l3) by offsets.
Qed.

Lemma dnat_rewrite_spec ct p :
  (tcp + sizeof_tcphdr ≤ length p)%nat →
  ∃ saddr daddr source dest proto q,
    load32 p (ip + ip_saddr) = Some saddr ∧ load32 p (ip + ip_daddr) = Some daddr ∧
    load16 p (tcp + tcp_source) = Some source ∧ load16 p (tcp + tcp_dest) = Some dest ∧
    load8 p (ip + ip_protocol) = Some proto ∧
    dnat_rewrite ct p =
      Some (TC_ACT_OK, ct_update ct (mkTuple saddr daddr source dest proto) saddr,
        fix_csums (fix_csums q daddr BACKEND_IP) saddr LB_IP) ∧
    length q = length p ∧ (∀ i, (i < 26 ∨ 34 ≤ i)%nat → q !! i = p !! i) ∧
    load32 q (ip + ip_daddr) = Some BACKEND_IP ∧ load32 q (ip + ip_saddr) = Some LB_IP.
Proof.
  intros Hl. destruct (load32_Some p (ip + ip_saddr)) as (saddr & Es & Rs); [offsets|].
  destruct (load32_Some p (ip + ip_daddr)) as (daddr & Ed & Rd); [offsets|].
  destruct (load16_Some p (tcp + tcp_source)) as (source & Eso & _); [offsets|].
  destruct (load16_Some p (tcp + tcp_dest)) as (dest & Ede & _); [offsets|].
  destruct (load8_Some p (ip + ip_protocol)) as (proto & Ep & _); [offsets|].
  destruct (store32_Some p (ip + ip_daddr) BACKEND_IP) as (p1 & E1 & L1 & F1 & V1);
    [offsets|split; vm_compute; done|].
  destruct (store32_Some p1 (ip + ip_saddr) LB_IP) as (q & E2 & L2 & F2 & V2);
    [rewrite L1; offsets|split; vm_compute; done|].
  assert (load32 q (ip + ip_daddr) = Some BACKEND_IP) as Vd.
  { rewrite (load32_same p1 q); [done|]. intros i Hi. apply F2. offsets. }
  exists saddr, daddr, source, dest, proto, q. split_and!; try done.
  - unfold dnat_rewrite. rewrite Es, Ed, Eso, Ede, Ep. bind. rewrite E1. bind. rewrite E2. bind.
    rewrite Vd. bind. rewrite (csum_load32 _ _ _ _ _ _ _ l3), Vd by offsets. bind.
    fold (fix_csums q daddr BACKEND_IP). rewrite fix_csums_load32, V2 by offsets. bind.
    rewrite (csum_load32 _ _ _ _ _ _ _ l3), fix_csums_load32, V2 by offsets. done.
  - congruence.
  - intros i Hi. rewrite F2, F1; [done|offsets..].
Qed.

Lemma snat_rewrite_spec ct p orig_ip :
  (tcp + sizeof_tcphdr ≤ length p)%nat → in_uint 32 orig_ip →
  ∃ saddr q, load32 p (ip + ip_saddr) = Some saddr ∧
    snat_rewrite ct p orig_ip = Some (TC_ACT_OK, ct, fix_csums q saddr orig_ip) ∧
    length q = length p ∧ (∀ i, (i < 26 ∨ 30 ≤ i)%nat → q !! i = p !! i) ∧
    load32 q (ip + ip_saddr) = Some orig_ip.
Proof.
  intros Hl Ho. destruct (load32_Some p (ip + ip_saddr)) as (saddr & Es & Rs); [offsets|].
  destruct (store32_Some p (ip + ip_saddr) orig_ip) as (q & E & L & F & V); [offsets|done|].
  exists saddr, q. split_and!; try done.
  unfold snat_rewrite. rewrite Es. bind. rewrite E. bind. rewrite V. bind.
  by rewrite (csum_load32 _ _ _ _ _ _ _ l3), V by offsets.
Qed.

Lemma rev_tuple_Some p :
  (tcp + sizeof_tcphdr ≤ length p)%nat →
  ∃ key, rev_tuple p = Some key ∧ load32 p (ip + ip_daddr) = Some (src_ip key) ∧
    load32 p (ip + ip_saddr) = Some (dst_ip key).
Proof.
  intros Hl. destruct (load32_Some p (ip + ip_saddr)) as (saddr & Es & _); [offsets|].
  destruct (load32_Some p (ip + ip_daddr)) as (daddr & Ed & _); [offsets|].
  destruct (load16_Some p (tcp + tcp_source)) as (source & Eso & _); [offsets|].
  destruct (load16_Some p (tcp + tcp_dest)) as (dest & Ede & _); [offsets|].
  destruct (load8_Some p (ip + ip_protocol)) as (proto & Ep & _); [offsets|].
  eexists. unfold rev_tuple. rewrite Ed, Es, Ede, Eso, Ep. bind. done.
Qed.

(** Every address in the map is one that a packet can carry. *)
Definition ct_typed (ct : ct_map) : Prop := ∀ k v, ct_lookup ct k = Some v → in_uint 32 v.

(** C14: neither program ever reads or writes outside of the packet, whatever the
    packet holds and however short it is; both let it pass, with its length
    unchanged and every byte outside of the two addresses, two bytes of the
    source MAC address and the total length unchanged. *)
Theorem nat_in_bounds ct p :
  ct_typed ct →
  ∃ ct1 p1 ct2 p2,
    dnat_prog ct p = Some (TC_ACT_OK, ct1, p1) ∧ snat_prog ct p = Some (TC_ACT_OK, ct2, p2) ∧
    length p1 = length p ∧ length p2 = length p ∧
    ∀ i, touched i = false → p1 !! i = p !! i ∧ p2 !! i = p !! i.
Proof.
  intros Ht. destruct (parse_headers_total p) as (ok & Eok & Hok).
  unfold dnat_prog, snat_prog. rewrite Eok. bind. destruct ok; [|by do 4 eexists; split_and!].
  destruct (Hok eq_refl) as (Hl & _ & _).
  destruct (dnat_rewrite_spec ct p Hl) as
    (saddr & daddr & source & dest & proto & q & Es & Ed & Eso & Ede & Ep & E & Lq & Fq & _).
  destruct (rev_tuple_Some p Hl) as (key & Ek & _). rewrite Ede, Ek. bind.
  assert (∃ ct1 p1, (if decide (dest ≠ TARGET_PORT) then Some (TC_ACT_OK, ct, p) else dnat_rewrite ct p) =
      Some (TC_ACT_OK, ct1, p1) ∧ length p1 = length p ∧ ∀ i, touched i = false → p1 !! i = p !! i)
    as (ct1 & p1 & E1 & L1 & F1).
  { case_decide; [by do 2 eexists|]. rewrite E. do 2 eexists. split; [done|].
    rewrite !fix_csums_length. split; [done|]. intros i (? & ? & ? & ? & ?)%untouched.
    by rewrite !fix_csums_frame, Fq. }
  assert (∃ ct2 p2, match ct_lookup ct key with
      | None => Some (TC_ACT_OK, ct, p) | Some orig_ip => snat_rewrite ct p orig_ip end =
      Some (TC_ACT_OK, ct2, p2) ∧ length p2 = length p ∧ ∀ i, touched i = false → p2 !! i = p !! i)
    as (ct2 & p2 & E2 & L2 & F2).
  { destruct (ct_lookup ct key) as [v|] eqn:Ev; [|by do 2 eexists].
    destruct (snat_rewrite_spec ct p v Hl (Ht _ _ Ev)) as (sa & q2 & _ & Er & Lq2 & Fq2 & _).
    rewrite Er. do 2 eexists. split; [done|]. rewrite fix_csums_length. split; [done|].
    intros i (? & ? & ? & ? & ?)%untouched. rewrite fix_csums_frame by done. apply Fq2. lia. }
  exists ct1, p1, ct2, p2. split_and!; [done..|]. auto.
Qed.

(** A client packet for the balanced port. *)
Definition balanced (p : packet) : Prop :=
  parse_headers p = Some true ∧ load16 p (tcp + tcp_dest) = Some TARGET_PORT.

(** C32: a client packet for the balanced port leaves with the backend as its
    destination and the load balancer as its source, and its connection is
    recorded under the addresses and ports it came with.  The checksums of the
    IP and TCP headers are left as they were; what changes instead is the total
    length of the IP header, by as much as the checksum should have. *)
Theorem dnat_effect ct p saddr daddr len :
  balanced p → load32 p (ip + ip_saddr) = Some saddr → load32 p (ip + ip_daddr) = Some daddr →
  load16 p (ip + ip_tot_len) = Some len →
  ∃ p' source len',
    load16 p (tcp + tcp_source) = Some source ∧
    dnat_prog ct p = Some (TC_ACT_OK, ct_update ct (mkTuple saddr daddr source TARGET_PORT IPPROTO_TCP) saddr, p') ∧
    load32 p' (ip + ip_saddr) = Some LB_IP ∧ load32 p' (ip + ip_daddr) = Some BACKEND_IP ∧
    load16 p' (ip + ip_check) = load16 p (ip + ip_check) ∧
    load16 p' (tcp + tcp_check) = load16 p (tcp + tcp_check) ∧
    load16 p' (ip + ip_tot_len) = Some len' ∧
    (len' + words32 LB_IP + words32 BACKEND_IP) mod 65535 = (len + words32 saddr + words32 daddr) mod 65535.
Proof.
  intros [Hp Hd] Es Ed El. destruct (parse_headers_total p) as (ok & Eok & Hok).
  rewrite Hp in Eok. injection Eok as <-. destruct (Hok eq_refl) as (Hl & _ & Hproto).
  destruct (dnat_rewrite_spec ct p Hl) as
    (s' & d' & source & dest & proto & q & Es' & Ed' & Eso & Ede & Ep & E & Lq & Fq & Vd & Vs).
  simplify_eq. assert (load16 q (ip + ip_tot_len) = Some len) as Elq.
  { rewrite (load16_same p q); [done|]. intros i Hi. apply Fq. unfold ip_tot_len in *. offsets. }
  set (q1 := fix_csums q daddr BACKEND_IP) in *.
  destruct (load16_Some q1 (ip + ip_tot_len)) as (len1 & El1 & _).
  { unfold q1. rewrite fix_csums_length, Lq. unfold ip_tot_len. offsets. }
  destruct (load16_Some (fix_csums q1 saddr LB_IP) (ip + ip_tot_len)) as (len2 & El2 & _).
  { unfold q1. rewrite !fix_csums_length, Lq. unfold ip_tot_len. offsets. }
  pose proof (fix_csums_len q daddr BACKEND_IP len len1 Elq El1) as H1.
  pose proof (fix_csums_len q1 saddr LB_IP len1 len2 El1 El2) as H2.
  exists (fix_csums q1 saddr LB_IP), source, len2. split_and!; try done.
  - unfold dnat_prog. rewrite Hp. bind. rewrite Hd. bind. rewrite decide_False by tauto. done.
  - unfold q1. rewrite !fix_csums_load32 by offsets. done.
  - unfold q1. rewrite !fix_csums_load32 by offsets. done.
  - apply load16_same. intros i Hi. unfold q1. rewrite !fix_csums_frame by offsets. apply Fq. offsets.
  - apply load16_same. intros i Hi. unfold q1. rewrite !fix_csums_frame by offsets. apply Fq. offsets.
  - rewrite <- (Zplus_mod_idemp_l (len2 + words32 LB_IP)), H2, Zplus_mod_idemp_l.
    replace (len1 + words32 saddr + words32 BACKEND_IP) with (len1 + words32 BACKEND_IP + words32 saddr) by lia.
    rewrite <- Zplus_mod_idemp_l, H1, Zplus_mod_idemp_l. f_equal. lia.
Qed.

(** ** Sequences of packets *)

(** Every entry of the map comes from a packet and holds its source address,
    which is also the source address of the key. *)
Definition ct_inv (tr : list nat_event) (ct : ct_map) : Prop :=
  ∀ k v, ct_lookup ct k = Some v →
    v = src_ip k ∧ in_uint 32 v ∧ ∃ p, Ingress p ∈ tr ∧ load32 p (ip + ip_saddr) = Some v.

Lemma ct_inv_mono tr e ct : ct_inv tr ct → ct_inv (tr ++ [e]) ct.
Proof.
  intros Hi k v Hk. destruct (Hi k v Hk) as (? & ? & p & Hp & ?). split_and!; [done|done|].
  exists p. rewrite elem_of_app. auto.
Qed.

Lemma dnat_ct_inv tr ct p act ct' p' :
  dnat_prog ct p = Some (act, ct', p') → ct_inv tr ct → ct_inv (tr ++ [Ingress p]) ct'.
Proof.
  intros Hs Hi. destruct (parse_headers_total p) as (ok & Eok & Hok).
  unfold dnat_prog in Hs. rewrite Eok in Hs. destruct ok; bind_in Hs; [|by simplify_eq; apply ct_inv_mono].
  destruct (Hok eq_refl) as (Hl & _ & _).
  destruct (dnat_rewrite_spec ct p Hl) as
    (saddr & daddr & source & dest & proto & q & Es & Ed & Eso & Ede & Ep & E & _).
  rewrite Ede in Hs. bind_in Hs. case_decide; [by simplify_eq; apply ct_inv_mono|].
  rewrite E in Hs. simplify_eq. intros k v [[-> ->]|Hk]%ct_update_sound; [|by apply (ct_inv_mono _ (Ingress p)) in Hi; apply Hi].
  split; [done|]. destruct (load32_Some p (ip + ip_saddr)) as (v & Ev & Rv); [offsets|]. simplify_eq.
  split; [done|]. exists p. split; [|done]. rewrite elem_of_app, list_elem_of_singleton. auto.
Qed.

(** [snat_prog] does not write to the map. *)
Lemma snat_ct ct p act ct' p' : ct_typed ct → snat_prog ct p = Some (act, ct', p') → ct' = ct.
Proof.
  intros Ht Hs. destruct (parse_headers_total p) as (ok & Eok & Hok).
  unfold snat_prog in Hs. rewrite Eok in Hs. destruct ok; bind_in Hs; [|by simplify_eq].
  destruct (Hok eq_refl) as (Hl & _ & _). destruct (rev_tuple_Some p Hl) as (key & Ek & _).
  rewrite Ek in Hs. bind_in Hs. destruct (ct_lookup ct key) as [v|] eqn:Ev; [|by simplify_eq].
  destruct (snat_rewrite_spec ct p v Hl (Ht _ _ Ev)) as (sa & q & _ & Er & _). rewrite Er in Hs. by simplify_eq.
Qed.

Lemma ct_inv_typed tr ct : ct_inv tr ct → ct_typed ct.
Proof. intros Hi k v Hk. by apply (Hi k v). Qed.

Lemma nat_step_inv tr e ct ct' : nat_step e ct = Some ct' → ct_inv tr ct → ct_inv (tr ++ [e]) ct'.
Proof.
  intros Hs Hi. destruct e as [p|p]; simpl in Hs.
  - destruct (dnat_prog ct p) as [[[act c] p']|] eqn:E; simplify_eq/=. by eapply dnat_ct_inv.
  - destruct (snat_prog ct p) as [[[act c] p']|] eqn:E; simplify_eq/=.
    rewrite (snat_ct ct p act ct' p' (ct_inv_typed _ _ Hi) E). by apply ct_inv_mono.
Qed.

Definition empty_ct (ct : ct_map) : Prop := ∀ k, ct_lookup ct k = None.

Lemma nat_run_inv tr ct0 ct : empty_ct ct0 → run_steps nat_step tr ct0 = Some ct → ct_inv tr ct.
Proof.
  intros He Hr. apply (run_steps_trace_inv nat_step ct_inv nat_step_inv tr [] ct0 ct Hr).
  intros k v Hk. by rewrite He in Hk.
Qed.

(** C33: after any sequence of packets from an empty map, a reply addressed to the
    load balancer passes [snat_prog] unchanged, unless some client packet
    carried the load balancer's own address as its source: the connection was
    recorded under the addresses from before the translation, and the reply
    comes with those from after it. *)
Theorem replies_not_translated ct0 tr ct p :
  empty_ct ct0 → run_steps nat_step tr ct0 = Some ct →
  (∀ q, Ingress q ∈ tr → load32 q (ip + ip_saddr) ≠ Some LB_IP) →
  load32 p (ip + ip_daddr) = Some LB_IP →
  snat_prog ct p = Some (TC_ACT_OK, ct, p).
Proof.
  intros He Hr Hq Hd. pose proof (nat_run_inv tr ct0 ct He Hr) as Hi.
  destruct (parse_headers_total p) as (ok & Eok & Hok). unfold snat_prog. rewrite Eok. bind.
  destruct ok; [|done]. destruct (Hok eq_refl) as (Hl & _ & _).
  destruct (rev_tuple_Some p Hl) as (key & Ek & Esrc & _). rewrite Ek. bind.
  destruct (ct_lookup ct key) as [v|] eqn:Ev; [|done].
  destruct (Hi key v Ev) as (-> & _ & q & Hin & Hs). exfalso. apply (Hq q Hin). congruence.
Qed.

(** C16: when [snat_prog] changes a packet, with a connection map that the two
    programs filled from an empty one, it makes the source address equal to the
    destination address: the value stored with a connection is the source address
    of its own key, which the reply has as its destination. *)
Theorem snat_source_is_destination ct0 tr ct p p' act ct' :
  empty_ct ct0 → run_steps nat_step tr ct0 = Some ct →
  snat_prog ct p = Some (act, ct', p') → p' ≠ p →
  load32 p' (ip + ip_saddr) = load32 p (ip + ip_daddr).
Proof.
  intros He Hr Hs Hne. pose proof (nat_run_inv tr ct0 ct He Hr) as Hi.
  destruct (parse_headers_total p) as (ok & Eok & Hok). unfold snat_prog in Hs. rewrite Eok in Hs.
  destruct ok; bind_in Hs; [|by simplify_eq]. destruct (Hok eq_refl) as (Hl & _ & _).
  destruct (rev_tuple_Some p Hl) as (key & Ek & Esrc & _). rewrite Ek in Hs. bind_in Hs.
  destruct (ct_lookup ct key) as [v|] eqn:Ev; [|by simplify_eq].
  destruct (Hi key v Ev) as (-> & Rv & _).
  destruct (snat_rewrite_spec ct p _ Hl Rv) as (sa & q & _ & Er & _ & _ & Vq).
  rewrite Er in Hs. simplify_eq. by rewrite fix_csums_load32, Vq by offsets.
Qed.

End Proofs.

(** ** A concrete kernel and concrete packets

    The map without eviction, and the incremental update of RFC 1624. *)
Definition csum_fix (p : packet) (off : nat) (a b : Z) (flags : Z) : packet :=
  match load16 p off with
  | None => p
  | Some v => default p (store16 p off ((v + words32 a - words32 b) mod 65535))
  end.

Fixpoint ct_assoc (m : list (conn_tuple * Z)) (k : conn_tuple) : option Z :=
  match m with
  | [] => None
  | (k', v) :: m => if decide (k' = k) then Some v else ct_assoc m k
  end.

#[local] Instance demo_bpf : Bpf := {|
  ct_map := list (conn_tuple * Z);
  ct_lookup := ct_assoc;
  ct_update m k v := (k, v) :: m;
  l3_csum_replace := csum_fix;
  l4_csum_replace := csum_fix;
|}.

Lemma csum_fix_law : csum_helper csum_fix.
Proof.
  assert (∀ p off v, load16 p off = Some v → (off + 2 ≤ length p)%nat) as Hlen.
  { intros p off v. unfold load16, load8. destruct (p !! off) eqn:E1; [|done].
    destruct (p !! (off + 1)%nat) eqn:E2; [|done]. apply lookup_lt_Some in E2. lia. }
  split.
  - intros p off a b fl. unfold csum_fix. destruct (load16 p off) as [v|] eqn:Ev; [|done].
    by destruct (store16_Some p off ((v + words32 a - words32 b) mod 65535) (Hlen _ _ _ Ev)) as (q & -> & L & _).
  - intros p off a b fl i H1 H2. unfold csum_fix. destruct (load16 p off) as [v|] eqn:Ev; [|done].
    destruct (store16_Some p off ((v + words32 a - words32 b) mod 65535) (Hlen _ _ _ Ev)) as (q & -> & _ & F & _).
    apply F. lia.
  - intros p off a b v v' Ev. unfold csum_fix. rewrite Ev.
    destruct (store16_Some p off ((v + words32 a - words32 b) mod 65535) (Hlen _ _ _ Ev)) as (q & -> & _ & _ & V).
    simpl. rewrite V. intros [= <-]. unfold u16. rewrite uwrap_small.
    + rewrite Zplus_mod_idemp_l. f_equal. lia.
    + pose proof (Z.mod_pos_bound (v + words32 a - words32 b) 65535 ltac:(lia)). unfold in_uint. lia.
Qed.

#[local] Instance demo_bpf_laws : BpfLaws.
Proof.
  split; [apply csum_fix_law..|]. intros m k v k' v' H. simpl in H.
  case_decide; simplify_eq; auto.
Qed.

(** A minimal TCP packet between two addresses and ports. *)
Definition be32 (v : Z) : list byte :=
  [byte_of_Z (Z.shiftr v 24); byte_of_Z (Z.shiftr v 16); byte_of_Z (Z.shiftr v 8); byte_of_Z v].

Definition be16 (v : Z) : list byte := [byte_of_Z (Z.shiftr v 8); byte_of_Z v].

Definition tcp_packet (saddr daddr source dest : Z) : packet :=
  replicate 12 x02 ++ be16 ETH_P_IP ++
  [x45; x00] ++ be16 40 ++ replicate 5 x00 ++ [x06; x00; x00] ++ be32 saddr ++ be32 daddr ++
  be16 source ++ be16 dest ++ replicate 16 x00.

Definition client_ip : Z := 0xCB007105.

(** A client connects, the backend replies to the load balancer. *)
Definition client_packet : packet := tcp_packet client_ip LB_IP 50000 TARGET_PORT.

Definition reply_packet : packet := tcp_packet BACKEND_IP LB_IP TARGET_PORT 50000.

Definition no_ct : ct_map := [].

Definition demo_ct : ct_map := [(mkTuple client_ip LB_IP 50000 TARGET_PORT IPPROTO_TCP, client_ip)].

Lemma nat_in_bounds_witness :
  ∃ ct1 p1 ct2 p2,
    dnat_prog demo_ct client_packet = Some (TC_ACT_OK, ct1, p1) ∧
    snat_prog demo_ct client_packet = Some (TC_ACT_OK, ct2, p2) ∧
    length p1 = length client_packet ∧ length p2 = length client_packet ∧
    ∀ i, touched i = false → p1 !! i = client_packet !! i ∧ p2 !! i = client_packet !! i.
Proof.
  apply nat_in_bounds. intros k v H. simpl in H. case_decide; simplify_eq. split; vm_compute; done.
Defined.

Lemma dnat_effect_witness :
  ∃ p' source len',
    load16 client_packet (tcp + tcp_source) = Some source ∧
    dnat_prog no_ct client_packet = Some (TC_ACT_OK,
      ct_update no_ct (mkTuple client_ip LB_IP source TARGET_PORT IPPROTO_TCP) client_ip, p') ∧
    load32 p' (ip + ip_saddr) = Some LB_IP ∧ load32 p' (ip + ip_daddr) = Some BACKEND_IP ∧
    load16 p' (ip + ip_check) = load16 client_packet (ip + ip_check) ∧
    load16 p' (tcp + tcp_check) = load16 client_packet (tcp + tcp_check) ∧
    load16 p' (ip + ip_tot_len) = Some len' ∧
    (len' + words32 LB_IP + words32 BACKEND_IP) mod 65535 =
      (40 + words32 client_ip + words32 LB_IP) mod 65535.
Proof.
  apply (dnat_effect no_ct client_packet client_ip LB_IP 40); [split|..]; vm_compute; reflexivity.
Defined.

Lemma replies_not_translated_witness :
  snat_prog demo_ct reply_packet = Some (TC_ACT_OK, demo_ct, reply_packet).
Proof.
  apply (replies_not_translated no_ct [Ingress client_packet] demo_ct reply_packet).
  - intros k. reflexivity.
  - vm_compute. reflexivity.
  - intros q Hq. apply list_elem_of_singleton in Hq as [= ->]. vm_compute. discriminate.
  - vm_compute. reflexivity.
Defined.

(** A packet that happens to be addressed to a recorded client from the address
    the client had written to. *)
Definition stray_packet : packet := tcp_packet LB_IP client_ip TARGET_PORT 50000.

Lemma snat_source_is_destination_witness :
  ∃ p', snat_prog demo_ct stray_packet = Some (TC_ACT_OK, demo_ct, p') ∧
    load32 p' (ip + ip_saddr) = load32 stray_packet (ip + ip_daddr).
Proof.
  eexists. split; [vm_compute; reflexivity|].
  eapply (snat_source_is_destination no_ct [Ingress client_packet] demo_ct stray_packet).
  - intros k. reflexivity.
  - vm_compute. reflexivity.
  - vm_compute. reflexivity.
  - vm_compute. discriminate.
Defined.
