(* ===== verification/Consensus.v ===== *)
(** * The messages between nodes and load balancers ([pkg/consensus/v1])

    The status codes of [const.go] and the two protobuf messages of
    [consensus.proto].  A message travels by pointer, so a received message is an
    [option]; the generated getters return the zero value on a nil pointer. *)

From S2P Require Import Prelude.

(** [type ServiceStatus uint32], its constants numbered by [iota]. *)
Definition Serving : Z := 0.

Definition NotServing : Z := 1.

Definition ShuttingDown : Z := 2.

Definition StatusString (s : Z) : string :=
  if decide (s = Serving) then "Serving"
  else if decide (s = NotServing) then "Not Serving"
  else if decide (s = ShuttingDown) then "Shutting Down"
  else "Unknown".

Record HealthStatus := mkHealthStatus {
  hs_Service : string;
  hs_Status : Z;
  hs_Message : string;
}.

#[global] Instance HealthStatus_eq_dec : EqDecision HealthStatus.
Proof. solve_decision. Defined.

Record ConfigResponse := mkConfigResponse {
  cr_ChecksBeforeRouting : Z;
  cr_HealthCheckTimeout : Z;
  cr_BlackListAfterFails : Z;
  cr_BlackListExpiry : Z;
}.

(** [HealthStatus.GetStatus] *)
Definition GetStatus (m : option HealthStatus) : Z :=
  match m with Some m => hs_Status m | None => 0 end.

(** [ConfigResponse.GetHealthCheckTimeout] *)
Definition GetHealthCheckTimeout (c : option ConfigResponse) : Z :=
  match c with Some c => cr_HealthCheckTimeout c | None => 0 end.

(** The statuses the protocol defines have pairwise different names, and every
    other value is named Unknown. *)
Lemma StatusString_known s :
  StatusString s ≠ "Unknown" ↔ s = Serving ∨ s = NotServing ∨ s = ShuttingDown.
Proof. unfold StatusString. repeat case_decide; naive_solver. Qed.
