(* ===== verification/Registry.v ===== *)
(** * The node registry of the load balancer ([pkg/registry/registry.go])

    [NodeRegistry] maps the key of a connected node to its health record.  The
    records are heap cells, but the registry holds the only pointer to each, so
    the map of pointers is a map of records here.  Every method holds the global
    lock throughout: concurrent callers see some sequence of whole calls, which
    is a list of [event]s.

    [node_log] specifies the record of a key from the history of events alone;
    [registry_refines_log] shows that the registry implements it, and
    [registry_interleaving] that callers working on different keys do not
    disturb each other, whatever the interleaving. *)

From S2P Require Import Prelude.

(** ** Data *)

(** [continuousHealthChecks] is a [uint]; [lastHealthCheck] counts nanoseconds
    from the zero [time.Time], so the zero record has the zero time. *)
Record node := mkNode {
  continuousHealthChecks : Z;
  lastHealthCheck : Z;
}.

#[global] Instance node_eq_dec : EqDecision node.
Proof. solve_decision. Defined.

Record NodeRegistry := mkRegistry {
  registry : gmap string node;
  blackList : gmap string Z;
}.

(** ** Operations *)
Definition New : NodeRegistry := mkRegistry ∅ ∅.

Definition RegisterNode (nodeKey : string) (n : NodeRegistry) : NodeRegistry :=
  match registry n !! nodeKey with
  | Some _ => n
  | None => mkRegistry (<[nodeKey := mkNode 0 0]> (registry n)) (blackList n)
  end.

(** [now] is what [time.Now()] returns. *)
Definition ReportNewHealthCheck (nodeKey : string) (now : Z) (n : NodeRegistry) : NodeRegistry :=
  match registry n !! nodeKey with
  | None => n
  | Some nodeInfo =>
      mkRegistry
        (<[nodeKey := mkNode (u64 (continuousHealthChecks nodeInfo + 1)) now]> (registry n))
        (blackList n)
  end.

Definition ReportNodeFailure (nodeKey : string) (n : NodeRegistry) : NodeRegistry :=
  match registry n !! nodeKey with
  | None => n
  | Some nodeInfo =>
      mkRegistry (<[nodeKey := mkNode 0 (lastHealthCheck nodeInfo)]> (registry n)) (blackList n)
  end.

(** ** Histories of calls *)
Inductive event :=
| EvRegister (k : string)
| EvCheck (k : string) (now : Z)
| EvFailure (k : string).

Definition ev_key (e : event) : string :=
  match e with EvRegister k | EvCheck k _ | EvFailure k => k end.

Definition apply_event (n : NodeRegistry) (e : event) : NodeRegistry :=
  match e with
  | EvRegister k => RegisterNode k n
  | EvCheck k now => ReportNewHealthCheck k now n
  | EvFailure k => ReportNodeFailure k n
  end.

Definition run_events (es : list event) : NodeRegistry := foldl apply_event New es.

(** ** Specification

    The history of one key, oldest call first: nothing is recorded before the
    first registration; from then on the streak counts the health checks since
    the last failure, and the time is that of the last health check. *)
Definition is_register (k : string) (e : event) : bool :=
  match e with EvRegister k' => bool_decide (k = k') | _ => false end.

Fixpoint since_registered (k : string) (es : list event) : option (list event) :=
  match es with
  | [] => None
  | e :: es => if is_register k e then Some es else since_registered k es
  end.

(** The number of health checks of [k] after its last failure. *)
Fixpoint streak (k : string) (es : list event) (acc : Z) : Z :=
  match es with
  | [] => acc
  | EvCheck k' _ :: es => streak k es (if decide (k = k') then acc + 1 else acc)
  | EvFailure k' :: es => streak k es (if decide (k = k') then 0 else acc)
  | EvRegister _ :: es => streak k es acc
  end.

Fixpoint last_check (k : string) (es : list event) (acc : Z) : Z :=
  match es with
  | [] => acc
  | EvCheck k' now :: es => last_check k es (if decide (k = k') then now else acc)
  | _ :: es => last_check k es acc
  end.

Definition node_log (k : string) (es : list event) : option node :=
  (λ es, mkNode (u64 (streak k es 0)) (last_check k es 0)) <$> since_registered k es.

(** The events that concern [k]. *)
Definition events_of (k : string) (es : list event) : list event :=
  filter (λ e, ev_key e = k) es.

(** ** Refinement *)
Definition upd_node (k : string) (e : event) (nd : node) : node :=
  match e with
  | EvCheck k' now =>
      if decide (k = k') then mkNode (u64 (continuousHealthChecks nd + 1)) now else nd
  | EvFailure k' => if decide (k = k') then mkNode 0 (lastHealthCheck nd) else nd
  | EvRegister _ => nd
  end.

(** What one call does to the record of one key. *)
Lemma apply_event_lookup n e k :
  registry (apply_event n e) !! k =
  match registry n !! k with
  | Some nd => Some (upd_node k e nd)
  | None => if is_register k e then Some (mkNode 0 0) else None
  end.
Proof.
  destruct e as [k'|k' now|k']; simpl;
    unfold RegisterNode, ReportNewHealthCheck, ReportNodeFailure;
    destruct (registry n !! k') as [nd'|] eqn:E'; simpl;
    (destruct (decide (k = k')) as [<-|Hne];
     [rewrite ?lookup_insert_eq, ?E', ?bool_decide_eq_true_2 by done
     |rewrite ?lookup_insert_ne, ?bool_decide_eq_false_2 by done]); simpl;
    by destruct (registry n !! k).
Qed.

Lemma apply_event_blackList n e : blackList (apply_event n e) = blackList n.
Proof.
  destruct e; simpl; unfold RegisterNode, ReportNewHealthCheck, ReportNodeFailure; by case_match.
Qed.

Lemma registered_run es n k nd :
  registry n !! k = Some nd →
  registry (foldl apply_event n es) !! k = Some (foldl (λ nd e, upd_node k e nd) nd es).
Proof.
  revert n nd. induction es as [|e es IH]; intros n nd Hk; simpl; [done|].
  apply IH. by rewrite apply_event_lookup, Hk.
Qed.

Lemma upd_node_log k es c t :
  foldl (λ nd e, upd_node k e nd) (mkNode (u64 c) t) es =
  mkNode (u64 (streak k es c)) (last_check k es t).
Proof.
  revert c t. induction es as [|e es IH]; intros c t; [done|]. simpl.
  destruct e as [k'|k' now|k']; simpl; [apply IH|..];
    destruct (decide (k = k')) as [Hk|Hk]; rewrite <- IH; try done.
  simpl. unfold u64. by rewrite uwrap_add_l.
Qed.

Lemma run_unregistered k es n :
  registry n !! k = None →
  registry (foldl apply_event n es) !! k =
  (λ es, mkNode (u64 (streak k es 0)) (last_check k es 0)) <$> since_registered k es.
Proof.
  revert n. induction es as [|e es IH]; intros n Hk; simpl; [done|].
  pose proof (apply_event_lookup n e k) as Hl. rewrite Hk in Hl.
  destruct (is_register k e); [|by apply IH].
  rewrite (registered_run es _ k _ Hl). simpl. f_equal. apply (upd_node_log k es 0 0).
Qed.

Lemma run_events_log es k : registry (run_events es) !! k = node_log k es.
Proof. by apply run_unregistered. Qed.

Lemma streak_events_of k es acc : streak k (events_of k es) acc = streak k es acc.
Proof.
  unfold events_of. revert acc. induction es as [|e es IH]; intros acc; [done|].
  rewrite filter_cons. destruct e as [k'|k' now|k']; simpl;
    destruct (decide (k' = k)) as [->|Hk]; simpl; rewrite ?IH, ?(decide_False (P:=k = k')) by done; done.
Qed.

Lemma last_check_events_of k es acc : last_check k (events_of k es) acc = last_check k es acc.
Proof.
  unfold events_of. revert acc. induction es as [|e es IH]; intros acc; [done|].
  rewrite filter_cons. destruct e as [k'|k' now|k']; simpl;
    destruct (decide (k' = k)) as [->|Hk]; simpl; rewrite ?IH, ?(decide_False (P:=k = k')) by done; done.
Qed.

Lemma since_registered_events_of k es :
  since_registered k (events_of k es) = events_of k <$> since_registered k es.
Proof.
  unfold events_of. induction es as [|e es IH]; [done|]. rewrite filter_cons.
  destruct e as [k'|k' now|k']; simpl; destruct (decide (k' = k)) as [->|Hk]; simpl; try done;
    [by rewrite bool_decide_eq_true_2|by rewrite bool_decide_eq_false_2].
Qed.

Lemma node_log_events_of k es : node_log k (events_of k es) = node_log k es.
Proof.
  unfold node_log. rewrite since_registered_events_of.
  destruct (since_registered k es); [|done]. simpl.
  by rewrite streak_events_of, last_check_events_of.
Qed.

Lemma run_events_blackList es : blackList (run_events es) = ∅.
Proof.
  unfold run_events. change (∅ : gmap string Z) with (blackList New). generalize New.
  induction es as [|e es IH]; intros n; simpl; [done|]. by rewrite IH, apply_event_blackList.
Qed.

(** C11: after any history of calls, the record of a key is the one its history
    prescribes: absent before the first registration, and afterwards the number
    of health checks since the last failure (as a 64-bit counter) with the time
    of the last health check.  The blacklist stays empty throughout. *)
Theorem registry_refines_log es k :
  registry (run_events es) !! k = node_log k es ∧ blackList (run_events es) = ∅.
Proof. split; [apply run_events_log|apply run_events_blackList]. Qed.

(** Two interleavings of the calls of concurrent connections that agree on
    the order of the calls of each key lead to the same registry. *)
Theorem registry_interleaving es es' :
  (∀ k, events_of k es = events_of k es') → run_events es = run_events es'.
Proof.
  intros Hk. destruct (run_events es) as [m b] eqn:E, (run_events es') as [m' b'] eqn:E'.
  pose proof (run_events_blackList es) as Hb. pose proof (run_events_blackList es') as Hb'.
  rewrite E in Hb. rewrite E' in Hb'. simpl in *. subst. f_equal. apply map_eq. intros k.
  pose proof (run_events_log es k) as H1. pose proof (run_events_log es' k) as H2.
  rewrite E in H1. rewrite E' in H2. simpl in *.
  by rewrite H1, H2, <- node_log_events_of, Hk, node_log_events_of.
Qed.

Lemma registry_interleaving_witness :
  run_events [EvRegister "a"; EvRegister "b"; EvCheck "a" 1; EvCheck "b" 2; EvFailure "a"] =
  run_events [EvRegister "b"; EvCheck "b" 2; EvRegister "a"; EvCheck "a" 1; EvFailure "a"].
Proof.
  apply registry_interleaving. intros k. unfold events_of.
  destruct (decide (k = "a")) as [->|]; [done|]. destruct (decide (k = "b")) as [->|]; [done|].
  by rewrite !filter_cons_False by (simpl; congruence).
Defined.

(** ** What connection handlers rely on

    A handler registers its node, reports health checks and failures, and the
    streak of healthy checks of a key follows these calls; calls for one key do
    not move the streak of another. *)
Class HealthRegistry (R : Type) := {
  reg_register : string → R → R;
  reg_check : string → Z → R → R;
  reg_failure : string → R → R;
  reg_streak : R → string → option Z;
}.

Class HealthRegistryLaws (R : Type) `{!HealthRegistry R} : Prop := {
  register_streak r k : reg_streak (reg_register k r) k = Some (default 0 (reg_streak r k));
  check_streak r k t c : reg_streak r k = Some c → reg_streak (reg_check k t r) k = Some (u64 (c + 1));
  failure_streak r k c : reg_streak r k = Some c → reg_streak (reg_failure k r) k = Some 0;
  register_other r k k' : k ≠ k' → reg_streak (reg_register k r) k' = reg_streak r k';
  check_other r k t k' : k ≠ k' → reg_streak (reg_check k t r) k' = reg_streak r k';
  failure_other r k k' : k ≠ k' → reg_streak (reg_failure k r) k' = reg_streak r k';
}.

#[global] Instance NodeRegistry_HealthRegistry : HealthRegistry NodeRegistry := {|
  reg_register := RegisterNode;
  reg_check := ReportNewHealthCheck;
  reg_failure := ReportNodeFailure;
  reg_streak := λ n k, continuousHealthChecks <$> registry n !! k;
|}.

Lemma RegisterNode_lookup n k k' :
  registry (RegisterNode k n) !! k' =
  if decide (k = k') then Some (default (mkNode 0 0) (registry n !! k')) else registry n !! k'.
Proof.
  pose proof (apply_event_lookup n (EvRegister k) k') as H. simpl in H. rewrite H.
  unfold bool_decide. destruct (registry n !! k'); repeat case_decide; by simplify_eq/=.
Qed.

Lemma ReportNewHealthCheck_lookup n k t k' :
  registry (ReportNewHealthCheck k t n) !! k' =
  (λ nd, if decide (k' = k) then mkNode (u64 (continuousHealthChecks nd + 1)) t else nd)
    <$> registry n !! k'.
Proof.
  pose proof (apply_event_lookup n (EvCheck k t) k') as H. simpl in H. rewrite H.
  by destruct (registry n !! k').
Qed.

Lemma ReportNodeFailure_lookup n k k' :
  registry (ReportNodeFailure k n) !! k' =
  (λ nd, if decide (k' = k) then mkNode 0 (lastHealthCheck nd) else nd) <$> registry n !! k'.
Proof.
  pose proof (apply_event_lookup n (EvFailure k) k') as H. simpl in H. rewrite H.
  by destruct (registry n !! k').
Qed.

#[global] Instance NodeRegistry_laws : HealthRegistryLaws NodeRegistry.
Proof.
  split; cbn [reg_register reg_check reg_failure reg_streak NodeRegistry_HealthRegistry].
  - intros r k. rewrite RegisterNode_lookup, decide_True by done. by destruct (registry r !! k).
  - intros r k t c Hc. rewrite ReportNewHealthCheck_lookup.
    destruct (registry r !! k); simplify_eq/=. by rewrite decide_True.
  - intros r k c Hc. rewrite ReportNodeFailure_lookup.
    destruct (registry r !! k); simplify_eq/=. by rewrite decide_True.
  - intros r k k' Hne. by rewrite RegisterNode_lookup, decide_False.
  - intros r k t k' Hne. rewrite ReportNewHealthCheck_lookup.
    destruct (registry r !! k'); [|done]. simpl. by rewrite decide_False.
  - intros r k k' Hne. rewrite ReportNodeFailure_lookup.
    destruct (registry r !! k'); [|done]. simpl. by rewrite decide_False.
Qed.
