(* ===== verification/Config.v ===== *)
(** * Configuration of the load balancer and of the node ([config/])

    The command line (cobra) and the configuration store (viper) are libraries:
    [Cli] lists what the program asks of them, and is a parameter of every
    definition.  Durations are in nanoseconds.  The logger that the structs also
    carry has no influence on the rest of the configuration and is left out. *)

From S2P Require Import Prelude GoFmt GoStrings.

(** What cobra and viper answer: which flags the user set, the values viper
    reports for a key, whether a file can be read ([None]: yes), and the
    decoding of that file over a given configuration. *)
Record Cli (C E : Type) := mkCli {
  Changed : string → bool;
  GetInt : string → Z;
  GetUint : string → Z;
  GetDuration : string → Z;
  GetString : string → string;
  GetStringSlice : string → list string;
  ReadInConfig : string → option E;
  Unmarshal : C → result C E;
}.
Arguments Changed {C E}.
Arguments GetInt {C E}.
Arguments GetUint {C E}.
Arguments GetDuration {C E}.
Arguments GetString {C E}.
Arguments GetStringSlice {C E}.
Arguments ReadInConfig {C E}.
Arguments Unmarshal {C E}.

(** ** [config/common.go] *)
Definition KeyConfigFile : string := "config".

Definition LoadConfig {V E} (cli : Cli V E) (path : string) (cfg : V) : result V (error E) :=
  if decide (path = EmptyString) then Err (Errorf "config path not specified")
  else
    match ReadInConfig cli path with
    | Some e => Err (Wrapf "failed to load config file: " (Foreign e))
    | None =>
        match Unmarshal cli cfg with
        | Err e => Err (Wrapf "failed to unmarshal config: " (Foreign e))
        | Ok cfg => Ok cfg
        end
    end.

Definition GetConfigFilePath {V E} (cli : Cli V E) : string :=
  if Changed cli KeyConfigFile then GetString cli KeyConfigFile else EmptyString.

(** The default value of a declared flag. *)
Inductive flag_default :=
| FInt (z : Z)
| FUint (z : Z)
| FDuration (z : Z)
| FString (s : string)
| FStringArray (l : list string).

(** The flags a command declares, and the keys bound to flags in viper. *)
Record FlagSet := mkFlagSet {
  flags : list (string * flag_default);
  bound : list string;
}.

Definition Second : Z := 1000000000.

(** ** [config/lb/config.go] *)
Module LB.

Definition KeyPrivateNodePort : string := "private_interface.node_port".

Definition KeyPrivateAPIPort : string := "private_interface.api_port".

Definition KeyPrivateNetIfacePrivate : string := "private_interface.net_interface_private".

Definition KeyPublicClientsPort : string := "public_interface.clients_port".

Definition KeyPublicNetIfacePublic : string := "public_interface.net_interface_public".

Definition KeyNodeHealthChecksBeforeRouting : string := "node_health.checks_before_routing".

Definition KeyNodeHealthChecksTimeout : string := "node_health.checks_timeout".

Definition KeyNodeHealthBlackListAfterFails : string := "node_health.black_list_after_fails".

Definition KeyNodeHealthBlackListExpiry : string := "node_health.black_list_expiry".

Definition DefaultPrivateNodePort : Z := 7070.

Definition DefaultPrivateAPIPort : Z := 5555.

Definition DefaultPrivateNetIfacePrivate : string := EmptyString.

Definition DefaultPublicClientsPort : Z := 8080.

Definition DefaultPublicNetIfacePublic : string := EmptyString.

Definition DefaultNodeHealthChecksBeforeRouting : Z := 3.

Definition DefaultNodeHealthChecksTimeout : Z := 10 * Second.

Definition DefaultNodeHealthBlackListAfterFails : Z := -1.

Definition DefaultNodeHealthBlackListExpiry : Z := 60 * Second.

Definition DefaultConfigFile : string := "lb.toml".

Record PrivateInterface := mkPrivateInterface {
  NodePort : Z;
  APIPort : Z;
  NetIfacePrivate : string;
}.

Record PublicInterface := mkPublicInterface {
  ClientsPort : Z;
  NetIfacePublic : string;
}.

Record NodeHealth := mkNodeHealth {
  ChecksBeforeRouting : Z;
  ChecksTimeout : Z;
  BlackListAfterFails : Z;
  BlackListExpiry : Z;
}.

Record Config := mkConfig {
  private_interface : PrivateInterface;
  public_interface : PublicInterface;
  node_health : NodeHealth;
}.

Definition New : Config :=
  mkConfig
    (mkPrivateInterface DefaultPrivateNodePort DefaultPrivateAPIPort DefaultPrivateNetIfacePrivate)
    (mkPublicInterface DefaultPublicClientsPort DefaultPublicNetIfacePublic)
    (mkNodeHealth DefaultNodeHealthChecksBeforeRouting DefaultNodeHealthChecksTimeout
       DefaultNodeHealthBlackListAfterFails DefaultNodeHealthBlackListExpiry).

(** Field updates, [cfg.PrivateInterface.NodePort = v] and the like. *)
Definition on_private (f : PrivateInterface → PrivateInterface) (c : Config) : Config :=
  mkConfig (f (private_interface c)) (public_interface c) (node_health c).

Definition on_public (f : PublicInterface → PublicInterface) (c : Config) : Config :=
  mkConfig (private_interface c) (f (public_interface c)) (node_health c).

Definition on_health (f : NodeHealth → NodeHealth) (c : Config) : Config :=
  mkConfig (private_interface c) (public_interface c) (f (node_health c)).

(** [if cmd.Flags().Changed(key) { upd }] *)
Definition when_changed {E} (cli : Cli Config E) (key : string) (upd : Config → Config) (c : Config)
  : Config := if Changed cli key then upd c else c.

Definition ApplyFlagsToConfig {E} (cli : Cli Config E) (cfg : Config) : Config :=
  let cfg := when_changed cli KeyPrivateNodePort (on_private (λ p,
    mkPrivateInterface (GetInt cli KeyPrivateNodePort) (APIPort p) (NetIfacePrivate p))) cfg in
  let cfg := when_changed cli KeyPrivateAPIPort (on_private (λ p,
    mkPrivateInterface (NodePort p) (GetInt cli KeyPrivateAPIPort) (NetIfacePrivate p))) cfg in
  let cfg := when_changed cli KeyPrivateNetIfacePrivate (on_private (λ p,
    mkPrivateInterface (NodePort p) (APIPort p) (GetString cli KeyPrivateNetIfacePrivate))) cfg in
  let cfg := when_changed cli KeyPublicClientsPort (on_public (λ p,
    mkPublicInterface (GetInt cli KeyPublicClientsPort) (NetIfacePublic p))) cfg in
  let cfg := when_changed cli KeyPublicNetIfacePublic (on_public (λ p,
    mkPublicInterface (ClientsPort p) (GetString cli KeyPublicNetIfacePublic))) cfg in
  let cfg := when_changed cli KeyNodeHealthChecksBeforeRouting (on_health (λ h,
    mkNodeHealth (GetUint cli KeyNodeHealthChecksBeforeRouting) (ChecksTimeout h)
      (BlackListAfterFails h) (BlackListExpiry h))) cfg in
  let cfg := when_changed cli KeyNodeHealthChecksTimeout (on_health (λ h,
    mkNodeHealth (ChecksBeforeRouting h) (GetDuration cli KeyNodeHealthChecksTimeout)
      (BlackListAfterFails h) (BlackListExpiry h))) cfg in
  let cfg := when_changed cli KeyNodeHealthBlackListAfterFails (on_health (λ h,
    mkNodeHealth (ChecksBeforeRouting h) (ChecksTimeout h)
      (GetInt cli KeyNodeHealthBlackListAfterFails) (BlackListExpiry h))) cfg in
  when_changed cli KeyNodeHealthBlackListExpiry (on_health (λ h,
    mkNodeHealth (ChecksBeforeRouting h) (ChecksTimeout h)
      (BlackListAfterFails h) (GetDuration cli KeyNodeHealthBlackListExpiry))) cfg.

Definition InitConfig {E} (cli : Cli Config E) : Config :=
  let cfg :=
    match LoadConfig cli (GetConfigFilePath cli) New with
    | Ok cfg => cfg
    | Err _ => New
    end in
  ApplyFlagsToConfig cli cfg.

Definition AddConfigFlags : FlagSet :=
  mkFlagSet
    [(KeyPrivateNodePort, FInt DefaultPrivateNodePort);
     (KeyPrivateAPIPort, FInt DefaultPrivateAPIPort);
     (KeyPublicClientsPort, FInt DefaultPublicClientsPort);
     (KeyPrivateNetIfacePrivate, FString DefaultPrivateNetIfacePrivate);
     (KeyPublicNetIfacePublic, FString DefaultPublicNetIfacePublic);
     (KeyNodeHealthChecksBeforeRouting, FUint DefaultNodeHealthChecksBeforeRouting);
     (KeyNodeHealthChecksTimeout, FDuration DefaultNodeHealthChecksTimeout);
     (KeyNodeHealthBlackListAfterFails, FInt DefaultNodeHealthBlackListAfterFails);
     (KeyNodeHealthBlackListExpiry, FDuration DefaultNodeHealthBlackListExpiry);
     (KeyConfigFile, FString DefaultConfigFile)]
    [KeyPrivateNodePort; KeyPrivateAPIPort; KeyPublicClientsPort; KeyPrivateNetIfacePrivate;
     KeyPublicNetIfacePublic; KeyNodeHealthChecksBeforeRouting; KeyNodeHealthChecksTimeout;
     KeyNodeHealthBlackListAfterFails; KeyNodeHealthBlackListExpiry; KeyConfigFile].







(** The command line of a user who typed every declared flag with its default
    value: viper reports the value of a bound flag that was set. *)
Definition flag_value (key : string) : option flag_default :=
  (λ ikd : nat * (string * flag_default), ikd.2.2) <$>
  list_find (λ kd : string * flag_default, kd.1 = key) (flags AddConfigFlags).

Definition defaults_cli : Cli Config unit :=
  mkCli Config unit
    (λ k, bool_decide (k ∈ bound AddConfigFlags) && bool_decide (k ≠ KeyConfigFile))
    (λ k, match flag_value k with Some (FInt z) => z | _ => 0 end)
    (λ k, match flag_value k with Some (FUint z) => z | _ => 0 end)
    (λ k, match flag_value k with Some (FDuration z) => z | _ => 0 end)
    (λ k, match flag_value k with Some (FString s) => s | _ => EmptyString end)
    (λ k, match flag_value k with Some (FStringArray l) => l | _ => [] end)
    (λ _, None) (λ c, Ok c).






(** The defaults that the flags advertise are the defaults of the
    configuration, for every setting, and every flag that is read is declared
    and bound: typing all the flags with their defaults changes nothing. *)
Theorem lb_flag_defaults_agree :
  ApplyFlagsToConfig defaults_cli New = New ∧
  (flags AddConfigFlags).*1 = bound AddConfigFlags.
Proof. split; vm_compute; reflexivity. Qed.

(** Without the config flag on the command line no file is read, not even
    the default one the flag's help text announces: the result is the defaults
    with the other flags applied, whatever the file system holds. *)
Theorem lb_no_config_flag_no_file {E} (cli : Cli Config E) :
  Changed cli KeyConfigFile = false → InitConfig cli = ApplyFlagsToConfig cli New.
Proof. intros H. unfold InitConfig, GetConfigFilePath. by rewrite H. Qed.

(** A user who sets the node port only, with a readable file at hand. *)
Definition port_cli : Cli Config unit :=
  mkCli Config unit (λ k, bool_decide (k = KeyPrivateNodePort)) (λ _, 7171) (λ _, 0) (λ _, 0)
    (λ _, DefaultConfigFile) (λ _, []) (λ _, None)
    (λ c, Ok (on_public (λ p, mkPublicInterface 80 (NetIfacePublic p)) c)).

Lemma lb_no_config_flag_no_file_witness :
  InitConfig port_cli = ApplyFlagsToConfig port_cli New ∧
  ClientsPort (public_interface (InitConfig port_cli)) = DefaultPublicClientsPort.
Proof.
  split; [|vm_compute; reflexivity].
  apply (lb_no_config_flag_no_file port_cli). vm_compute. reflexivity.
Defined.

End LB.

(** ** [config/node/config.go] *)
Module Node.

Definition KeyLoadBalancerAddresses : string := "load_balancer.addresses".

Definition DefaultConfigFile : string := "node.toml".

Definition LoadBalancerAddressArguments : nat := 3.

Record Address := mkAddress {
  Hostname : string;
  IP : string;
  Port : Z;
}.

#[global] Instance Address_eq_dec : EqDecision Address.
Proof. solve_decision. Defined.

(** [Config] with its one field [LoadBalancer.Addresses]. *)
Record Config := mkConfig { Addresses : list Address }.

Definition New : Config := mkConfig [].

(** The loop of [parseLBAddresses] from index [idx]; [addrs] is the result so
    far.  The port is looked up in viper under the text after the second colon. *)
Fixpoint parse_loop {C E} (cli : Cli C E) (idx : Z) (addrsStr : list string) (addrs : list Address)
  : result (list Address) (error E) :=
  match addrsStr with
  | [] => Ok addrs
  | addr :: rest =>
      match SplitN ":" LoadBalancerAddressArguments addr with
      | [hostname; ip; port] =>
          parse_loop cli (idx + 1) rest (addrs ++ [mkAddress hostname ip (GetInt cli port)])
      | _ => Err (Errorf ("invalid load balancer address at index " +:+ fmt_d idx +:+ ": " +:+ addr))
      end
  end.

Definition parseLBAddresses {C E} (cli : Cli C E) (addrsStr : list string)
  : result (list Address) (error E) := parse_loop cli 0 addrsStr [].

(** [Err] is the exit of the process by [Logger.Fatalf]. *)
Definition ApplyFlagsToConfig {E} (cli : Cli Config E) (cfg : Config) : result Config (error E) :=
  if Changed cli KeyLoadBalancerAddresses then
    match parseLBAddresses cli (GetStringSlice cli KeyLoadBalancerAddresses) with
    | Err e => Err (Wrapf "failed to parse load balancer addresses: " e)
    | Ok addrs => Ok (mkConfig addrs)
    end
  else Ok cfg.

Definition InitConfig {E} (cli : Cli Config E) : result Config (error E) :=
  let cfg :=
    match LoadConfig cli (GetConfigFilePath cli) New with
    | Ok cfg => cfg
    | Err _ => New
    end in
  ApplyFlagsToConfig cli cfg.

Definition AddConfigFlags : FlagSet :=
  mkFlagSet
    [(KeyConfigFile, FString DefaultConfigFile);
     (KeyLoadBalancerAddresses, FStringArray [])]
    [KeyConfigFile; KeyLoadBalancerAddresses].

(** An address flag as it should be written: host name, IP and port text. *)
Definition address_flag (hip : string * string * string) : string :=
  hip.1.1 +:+ ":" +:+ hip.1.2 +:+ ":" +:+ hip.2.

Definition well_formed_flag (hip : string * string * string) : Prop :=
  str_free ":" hip.1.1 = true ∧ str_free ":" hip.1.2 = true.

Lemma SplitN_address hip :
  well_formed_flag hip → SplitN ":" 3 (address_flag hip) = [hip.1.1; hip.1.2; hip.2].
Proof.
  destruct hip as [[h ip] port]. intros [Hh Hip]. cbn [fst snd] in *.
  change (address_flag (h, ip, port)) with (h +:+ String ":" (ip +:+ String ":" port)).
  cbn [SplitN]. by rewrite (cut_app ":" h _ Hh), (cut_app ":" ip port Hip).
Qed.

Lemma parse_loop_well_formed {C E} (cli : Cli C E) idx l acc :
  Forall well_formed_flag l →
  parse_loop cli idx (address_flag <$> l) acc =
  Ok (acc ++ ((λ hip, mkAddress hip.1.1 hip.1.2 (GetInt cli hip.2)) <$> l)).
Proof.
  intros Hl. revert idx acc. induction Hl as [|hip l Hhip _ IH]; intros idx acc.
  - simpl. by rewrite app_nil_r.
  - cbn [fmap list_fmap parse_loop]. unfold LoadBalancerAddressArguments.
    rewrite SplitN_address by done. rewrite IH, <- app_assoc. done.
Qed.

(** The addresses parsed so far stay in front. *)
Lemma parse_loop_prefix {C E} (cli : Cli C E) addrsStr : ∀ idx acc addrs,
  parse_loop cli idx addrsStr acc = Ok addrs → ∃ more, addrs = acc ++ more.
Proof.
  induction addrsStr as [|a l IH]; intros idx acc addrs; cbn [parse_loop].
  - intros [= <-]. exists []. by rewrite app_nil_r.
  - destruct (SplitN _ _ a) as [|h [|ip [|p [|]]]]; try done.
    intros [more ->]%IH. rewrite <- app_assoc. eauto.
Qed.

(** A list of address flags written as host, IP and port text between colons
    is parsed without error into one address per flag, in order, with the given
    host and IP; the port is the value viper holds under the port text as a key,
    not the number the text denotes. *)
Theorem parse_addresses {C E} (cli : Cli C E) l :
  Forall well_formed_flag l →
  parseLBAddresses cli (address_flag <$> l) =
  Ok ((λ hip, mkAddress hip.1.1 hip.1.2 (GetInt cli hip.2)) <$> l).
Proof. apply (parse_loop_well_formed cli 0 l []). Qed.

(** A store in which no key is set answers zero. *)
Definition empty_cli : Cli Config unit :=
  mkCli Config unit (λ k, bool_decide (k = KeyLoadBalancerAddresses)) (λ _, 0) (λ _, 0) (λ _, 0)
    (λ _, EmptyString) (λ _, ["lb-0.local::7070"]) (λ _, None) (λ c, Ok c).

Lemma parse_addresses_witness :
  parseLBAddresses empty_cli ["lb-0.local::7070"; ":192.168.1.2:7070"] =
  Ok [mkAddress "lb-0.local" EmptyString 0; mkAddress EmptyString "192.168.1.2" 0].
Proof.
  apply (parse_addresses empty_cli
    [("lb-0.local", EmptyString, "7070"); (EmptyString, "192.168.1.2", "7070")]).
  repeat constructor.
Defined.

End Node.
