(* ===== verification/HttpApi.v ===== *)
(** * The two HTTP APIs as servers
    ([pkg/lbnetwork/api/v1/server.go], [pkg/nodenetwork/api/v1/server.go])

    The node and the load balancer have a copy each of the same code: a module
    each here, over the parts of [net/http] that both use.  The routes and
    handlers are with the processes they belong to. *)

From S2P Require Import Prelude Config.

(** ** [net/http] *)

(** The fields of [http.Server] that are set. *)
Record http_server := mkHttpServer {
  hs_Addr : string;
  hs_ReadTimeout : Z;
  hs_WriteTimeout : Z;
  hs_IdleTimeout : Z;
  hs_MaxHeaderBytes : Z;
}.

Definition StatusOK : Z := 200.

(** What [ListenAndServe] returns when it does: [http.ErrServerClosed] or another
    error. *)
Inductive serve_error (X : Type) :=
| ErrServerClosed
| ServeFailed (e : X).
Arguments ErrServerClosed {X}.
Arguments ServeFailed {X}.

(** What [Shutdown] returns other than nil: the error of closing the listeners,
    or that the context is done. *)
Inductive shutdown_error (X : Type) :=
| CloseFailed (e : X)
| DeadlineExceeded.
Arguments CloseFailed {X}.
Arguments DeadlineExceeded {X}.

(** The loop of [Shutdown], under a context that is done after [timeout]: each
    round closes the idle connections and returns when no other is left, else it
    waits for the context or for the next round.  A round is the number of busy
    connections and the time at which its wait ends; [None]: still waiting. *)
Fixpoint Shutdown {X} (lnerr : option X) (timeout : Z) (rounds : list (nat * Z))
  : option (option (shutdown_error X)) :=
  match rounds with
  | [] => None
  | (busy, t) :: rounds =>
      if decide (busy = 0%nat) then Some (CloseFailed <$> lnerr)
      else if decide (timeout ≤ t) then Some (Some DeadlineExceeded)
      else Shutdown lnerr timeout rounds
  end.

(** ** The API of a node *)
Module NodeAPI.

Definition ServerReadTimeout : Z := 5 * Second.

Definition ServerWriteTimeout : Z := 5 * Second.

Definition ServerIdleTimeout : Z := 10 * Second.

Definition MaxHeaderBytes : Z := Z.shiftl 1 20.

Definition ServerShutdownTimeout : Z := 5 * Second.

Record NodeNetworkAPI := mkAPI { server : http_server; cfg : Node.Config }.

Definition New (cfg : Node.Config) : NodeNetworkAPI :=
  mkAPI (mkHttpServer ":5555" ServerReadTimeout ServerWriteTimeout ServerIdleTimeout MaxHeaderBytes) cfg.

(** [Start], once [ListenAndServe] has returned [err]. *)
Definition Start {X} (err : option (serve_error X)) : option (serve_error X) :=
  match err with
  | Some ErrServerClosed => None
  | Some (ServeFailed e) => Some (ServeFailed e)
  | None => None
  end.

Definition Stop {X} (lnerr : option X) (rounds : list (nat * Z)) : option (option (shutdown_error X)) :=
  Shutdown lnerr ServerShutdownTimeout rounds.

End NodeAPI.

(** ** The API of the load balancer *)
Module LbAPI.

Definition ServerReadTimeout : Z := 5 * Second.

Definition ServerWriteTimeout : Z := 5 * Second.

Definition ServerIdleTimeout : Z := 10 * Second.

Definition MaxHeaderBytes : Z := Z.shiftl 1 20.

Definition ServerShutdownTimeout : Z := 5 * Second.

Record LoadBalancerAPI := mkAPI { server : http_server; cfg : LB.Config }.

(** [New] from the address of the server on. *)
Definition New (addr : string) (cfg : LB.Config) : LoadBalancerAPI :=
  mkAPI (mkHttpServer addr ServerReadTimeout ServerWriteTimeout ServerIdleTimeout MaxHeaderBytes) cfg.

(** [Start], once [ListenAndServe] has returned [err]. *)
Definition Start {X} (err : option (serve_error X)) : option (serve_error X) :=
  match err with
  | Some ErrServerClosed => None
  | Some (ServeFailed e) => Some (ServeFailed e)
  | None => None
  end.

Definition Stop {X} (lnerr : option X) (rounds : list (nat * Z)) : option (option (shutdown_error X)) :=
  Shutdown lnerr ServerShutdownTimeout rounds.

End LbAPI.

(** ** The end of a server *)

(** A shutdown does not outlast its timeout. *)
Lemma Shutdown_returns {X} (lnerr : option X) timeout rounds :
  Exists (λ r, timeout ≤ r.2) rounds → is_Some (Shutdown lnerr timeout rounds).
Proof.
  induction rounds as [|[busy t] rounds IH]; [by rewrite Exists_nil|]. rewrite Exists_cons. simpl.
  intros Hr. destruct (decide (busy = 0%nat)); [done|]. destruct (decide (timeout ≤ t)); [done|].
  destruct Hr as [Hr|Hr]; [done|by apply IH].
Qed.

(** It is clean exactly when the listeners were closed without an error and a
    round before the timeout found no busy connection. *)
Lemma Shutdown_clean {X} (lnerr : option X) timeout rounds :
  Shutdown lnerr timeout rounds = Some None ↔
  lnerr = None ∧ ∃ before t after, rounds = before ++ (0%nat, t) :: after ∧
    Forall (λ r, r.1 ≠ 0%nat ∧ r.2 < timeout) before.
Proof.
  induction rounds as [|[busy t] rounds IH]; simpl.
  - split; [done|]. intros (_ & before & ? & ? & Hr & _). by destruct before.
  - destruct (decide (busy = 0%nat)) as [->|Hb].
    + destruct lnerr; simpl; [split; [done|by intros []]|]. split; [|done]. intros _.
      split; [done|]. exists [], t, rounds. by split.
    + destruct (decide (timeout ≤ t)) as [Ht|Ht].
      * split; [done|]. intros (_ & before & t0 & after & Hr & Hf).
        destruct before as [|x before]; simplify_eq/=. inversion Hf; simplify_eq/=. lia.
      * rewrite IH. split; intros (-> & before & t' & after & Hr & Hf); (split; [done|]).
        -- exists ((busy, t) :: before), t', after. rewrite Hr. split; [done|].
           constructor; [|done]. simpl. split; [done|lia].
        -- destruct before as [|x before]; simplify_eq/=.
           inversion_clear Hf. by exists before, t', after.
Qed.
