(* ===== verification/NodeManager.v ===== *)
(** * The gRPC service that nodes report their health to
    ([pkg/lbnetwork/nodemanager/node_manager.go])

    One connection is served by two goroutines: the listener, which moves what
    [stream.Recv] returns into two channels of capacity one, and the handler,
    which multiplexes the channels with the health-check timer and updates the
    registry.  A connection is a record of both program counters, the channels,
    the timer, the clock and the registry; [step] executes one atomic action of
    one of the goroutines, and a schedule is a list of actions.

    The gRPC library is a parameter ([Grpc]): its errors, its status codes, and
    the function from errors to codes.  The registry is used through the
    interface [HealthRegistry].  Channels and timers are those of the language
    (Go 1.24: a stopped or reset timer leaves no stale value in its channel). *)

From S2P Require Import Prelude GoFmt NetIP NetIP6 Arp Consensus Registry Config.

(** ** The gRPC library *)
Class Grpc := {
  gerror : Type;
  code : Type;
  code_eq_dec :: EqDecision code;
  Canceled : code;
  Unavailable : code;
  (** [status.Code]; [None] is the nil error. *)
  status_Code : option gerror → code;
}.

(** [status.Code(nil)] is [codes.OK], none of the two codes below. *)
Class GrpcLaws `{!Grpc} : Prop := {
  code_nil_Canceled : status_Code None ≠ Canceled;
  code_nil_Unavailable : status_Code None ≠ Unavailable;
}.

Definition ChannelBufferSize : nat := 1.

(** ** Unary calls and connection set-up *)

(** [GetConfig]: the conversions [uint32(uint)] and [int64(int)]; a duration is
    already a count of nanoseconds. *)
Definition GetConfig (cfg : LB.Config) : ConfigResponse :=
  let h := LB.node_health cfg in
  mkConfigResponse (u32 (LB.ChecksBeforeRouting h)) (LB.ChecksTimeout h)
    (i64 (LB.BlackListAfterFails h)) (LB.BlackListExpiry h).

(** The peer address of a stream: a [*net.TCPAddr], possibly nil, or another
    kind of address. *)
Record TCPAddr := mkTCPAddr { tcp_IP : IP; tcp_Port : Z; tcp_Zone : string }.

Inductive net_addr :=
| AddrTCP (addr : option TCPAddr)
| AddrOther.

(** [net.JoinHostPort] *)
Definition JoinHostPort (host port : string) : string :=
  if str_free ":" host then host +:+ ":" +:+ port else "[" +:+ host +:+ "]:" +:+ port.

(** [TCPAddr.String], with [ipEmptyString] *)
Definition ipEmptyString (ip : IP) : string :=
  if (length ip =? 0)%nat then EmptyString else IP_String ip.

Definition TCPAddr_String (a : TCPAddr) : string :=
  let ip := ipEmptyString (tcp_IP a) in
  if decide (tcp_Zone a = EmptyString) then JoinHostPort ip (fmt_d (tcp_Port a))
  else JoinHostPort (ip +:+ "%" +:+ tcp_Zone a) (fmt_d (tcp_Port a)).

Section NodeManager.

Context `{!Grpc}.

Context {R : Type} `{!HealthRegistry R}.

Definition gRPCErrUnrecoverable (err : option gerror) : bool :=
  bool_decide (status_Code err = Canceled) || bool_decide (status_Code err = Unavailable).

(** [p] is the result of [peer.FromContext]. *)
Definition extractTCPFromConn (p : option net_addr) : result TCPAddr (error gerror) :=
  match p with
  | Some (AddrTCP (Some addr)) => Ok addr
  | _ => Err (Errorf "failed to extract peer info from stream")
  end.

(** [ReportHealthStatus] up to the start of the listener.  [file] is the ARP
    cache and [net] the network that answers ARP calls. *)
Definition connect (cfg : LB.Config) (p : option net_addr) (file : result string gerror)
  (net : ArpNet gerror) (r : R)
  : result (string * R) (error gerror) :=
  match extractTCPFromConn p with
  | Err e => Err (Wrapf "failed to extract peer info from stream: " e)
  | Ok tcpAddr =>
      let iface := LB.NetIfacePrivate (LB.private_interface cfg) in
      let nodeKey := TCPAddr_String tcpAddr in
      match GetMACFromARPCache file (IP_String (tcp_IP tcpAddr)) iface with
      | Ok _ => Ok (nodeKey, reg_register nodeKey r)
      | Err _ =>
          match GetMACViaARPCall net (IP_String (tcp_IP tcpAddr)) iface with
          | Err e => Err (Wrapf "failed to get MAC address via ARP call: " e)
          | Ok _ => Ok (nodeKey, reg_register nodeKey r)
          end
      end
  end.

(** ** The two goroutines of a connection *)

(** Where [listenerReportHealthStatus] is: in [Recv], about to send on a
    channel, returned, or crashed by a send on a closed channel. *)
Inductive listener_pc :=
| LRecv
| LSendFatal (err : option gerror)
| LSendErr (err : option gerror) (req : option HealthStatus)
| LSendMsg (req : option HealthStatus)
| LDone
| LPanic.

(** Where [multiplexHealthStatus] is: in the select, waiting for ever to drain
    the timer, or returned with a nil or non-nil error. *)
Inductive handler_pc :=
| HSelect
| HBlocked
| HReturned (ret : option (error gerror)).

Record conn := mkConn {
  lst : listener_pc;
  hnd : handler_pc;
  msgChan : list (option HealthStatus);
  errChan : list (option gerror);
  closed : bool;
  timer : option Z;  (** when the timer fires; [None]: stopped or received *)
  now : Z;
  reg : R;
}.

(** One atomic action: [stream.Recv] returns, the listener completes a channel
    send, the handler takes one of the three select cases, time passes. *)
Inductive action :=
| Recv (req : option HealthStatus) (err : option gerror)
| Send
| TakeMsg
| TakeErr
| TakeTimer
| Tick (t : Z).

Definition with_lst (l : listener_pc) (s : conn) : conn :=
  mkConn l (hnd s) (msgChan s) (errChan s) (closed s) (timer s) (now s) (reg s).

Definition with_msgChan (c : list (option HealthStatus)) (s : conn) : conn :=
  mkConn (lst s) (hnd s) c (errChan s) (closed s) (timer s) (now s) (reg s).

Definition with_errChan (c : list (option gerror)) (s : conn) : conn :=
  mkConn (lst s) (hnd s) (msgChan s) c (closed s) (timer s) (now s) (reg s).

Definition with_reg (r : R) (s : conn) : conn :=
  mkConn (lst s) (hnd s) (msgChan s) (errChan s) (closed s) (timer s) (now s) r.

Definition with_timer (t : option Z) (s : conn) : conn :=
  mkConn (lst s) (hnd s) (msgChan s) (errChan s) (closed s) t (now s) (reg s).

Definition with_hnd (h : handler_pc) (s : conn) : conn :=
  mkConn (lst s) h (msgChan s) (errChan s) (closed s) (timer s) (now s) (reg s).

(** The return of the handler: the deferred [timer.Stop()], then the deferred
    [close(errChan)] and [close(msgChan)] of the caller, as one action: a send
    that finds its channel still open between them is as good as one before the
    return, since nobody receives any more. *)
Definition handler_return (ret : option (error gerror)) (s : conn) : conn :=
  mkConn (lst s) (HReturned ret) (msgChan s) (errChan s) true None (now s) (reg s).

(** A channel has room for [ChannelBufferSize] values. *)
Definition has_room {A} (c : list A) : bool := bool_decide (length c < ChannelBufferSize)%nat.

(** The listener, one action.  [Recv] returned [(req, err)]. *)
Definition listener_recv (req : option HealthStatus) (err : option gerror) : listener_pc :=
  if gRPCErrUnrecoverable err then LSendFatal err
  else match err with Some _ => LSendErr err req | None => LSendMsg req end.

(** A send on a closed channel panics; a send on a full channel waits. *)
Definition listener_send (s : conn) : option conn :=
  match lst s with
  | LSendFatal err =>
      if closed s then Some (with_lst LPanic s)
      else if has_room (errChan s) then Some (with_lst LDone (with_errChan (errChan s ++ [err]) s))
      else None
  | LSendErr err req =>
      if closed s then Some (with_lst LPanic s)
      else if has_room (errChan s)
      then Some (with_lst (LSendMsg req) (with_errChan (errChan s ++ [err]) s))
      else None
  | LSendMsg req =>
      if closed s then Some (with_lst LPanic s)
      else if has_room (msgChan s) then Some (with_lst LRecv (with_msgChan (msgChan s ++ [req]) s))
      else None
  | _ => None
  end.

Section Connection.

Context (nodeKey : string) (ChecksTimeout : Z).

(** [if !timer.Stop() { <-timer.C }; timer.Reset(ChecksTimeout)]: [Stop] reports
    false when the timer is not pending, and then the receive has no sender. *)
Definition drain_and_reset (s : conn) : conn :=
  match timer s with
  | Some _ => with_timer (Some (now s + ChecksTimeout)) s
  | None => with_hnd HBlocked s
  end.

(** The case [msg := <-msgChan] of the select. *)
Definition handle_msg (msg : option HealthStatus) (s : conn) : conn :=
  if decide (GetStatus msg = NotServing) then s
  else if decide (GetStatus msg = ShuttingDown) then handler_return None s
  else drain_and_reset (with_reg (reg_check nodeKey (now s) (reg s)) s).

(** The case [err := <-errChan]. *)
Definition handle_err (err : option gerror) (s : conn) : conn :=
  if gRPCErrUnrecoverable err then
    handler_return
      (Some (match err with
             | Some e => Wrapf "unrecoverable error receiving health status: " (Foreign e)
             | None => Errorf "unrecoverable error receiving health status: %!w(<nil>)"
             end))
      (with_reg (reg_failure nodeKey (reg s)) s)
  else s.

(** The case [<-timer.C]. *)
Definition handle_timeout (s : conn) : conn :=
  handler_return (Some (Errorf ("timed out waiting for health status from " +:+ nodeKey)))
    (with_reg (reg_failure nodeKey (reg s)) s).

Definition step (a : action) (s : conn) : option conn :=
  match a with
  | Recv req err =>
      match lst s with LRecv => Some (with_lst (listener_recv req err) s) | _ => None end
  | Send => listener_send s
  | TakeMsg =>
      match hnd s, msgChan s with
      | HSelect, msg :: c => Some (handle_msg msg (with_msgChan c s))
      | _, _ => None
      end
  | TakeErr =>
      match hnd s, errChan s with
      | HSelect, err :: c => Some (handle_err err (with_errChan c s))
      | _, _ => None
      end
  | TakeTimer =>
      match hnd s, timer s with
      | HSelect, Some d => if decide (d ≤ now s) then Some (handle_timeout s) else None
      | _, _ => None
      end
  | Tick t =>
      if decide (now s ≤ t) then
        Some (mkConn (lst s) (hnd s) (msgChan s) (errChan s) (closed s) (timer s) t (reg s))
      else None
  end.

(** The connection when both goroutines start, at time [t0]. *)
Definition start (t0 : Z) (r : R) : conn :=
  mkConn LRecv HSelect [] [] false (Some (t0 + ChecksTimeout)) t0 r.

Definition run : list action → conn → option conn := run_steps step.

End Connection.

End NodeManager.

(** ** Specification

    A message counts as a health check unless its status is one of the two that
    the handler singles out; unknown statuses and nil messages count. *)
Definition is_check (msg : option HealthStatus) : bool :=
  if decide (GetStatus msg = NotServing) then false
  else if decide (GetStatus msg = ShuttingDown) then false else true.

Section Properties.

Context `{!Grpc, !GrpcLaws}.

Context {R : Type} `{!HealthRegistry R, !HealthRegistryLaws R}.

Context (nodeKey : string) (ChecksTimeout : Z).

#[local] Notation step := (step nodeKey ChecksTimeout).

#[local] Notation run := (run nodeKey ChecksTimeout).

#[local] Notation start := (start ChecksTimeout).

(** The times at which an action accepts a health check: none or one. *)
Definition accept (a : action) (s : conn (R:=R)) : list Z :=
  match a, hnd s, msgChan s with
  | TakeMsg, HSelect, msg :: _ => if is_check msg then [now s] else []
  | _, _, _ => []
  end.

(** The times of the health checks accepted along a schedule. *)
Fixpoint accepted (as_ : list action) (s : conn (R:=R)) : list Z :=
  match as_ with
  | [] => []
  | a :: as_ =>
      match step a s with Some s' => accept a s ++ accepted as_ s' | None => [] end
  end.

(** The time of the last health check accepted, or of the start. *)
Definition last_accept (t0 : Z) (acc : list Z) : Z := default t0 (last acc).

(** The invariant of a connection that has accepted the checks at times [acc]. *)
Record conn_inv (t0 : Z) (acc : list Z) (s : conn (R:=R)) : Prop := {
  inv_select : hnd s = HSelect →
    closed s = false ∧ timer s = Some (last_accept t0 acc + ChecksTimeout);
  inv_blocked : hnd s ≠ HBlocked;
  inv_returned : ∀ ret, hnd s = HReturned ret → closed s = true ∧ timer s = None;
  inv_panic : lst s = LPanic → closed s = true;
  inv_room : (length (msgChan s) ≤ ChannelBufferSize ∧ length (errChan s) ≤ ChannelBufferSize)%nat;
}.

Lemma start_inv t0 r : conn_inv t0 [] (start t0 r).
Proof. split; simpl; try done; unfold ChannelBufferSize; lia. Qed.

Lemma has_room_lt {A} (c : list A) : has_room c = true → (length c < ChannelBufferSize)%nat.
Proof. apply bool_decide_eq_true. Qed.

Lemma last_accept_app t0 acc t : last_accept t0 (acc ++ [t]) = t.
Proof. unfold last_accept. by rewrite last_snoc. Qed.

Lemma inv_with_lst t0 acc l (s : conn (R:=R)) :
  conn_inv t0 acc s → (l = LPanic → closed s = true) → conn_inv t0 acc (with_lst l s).
Proof. intros [] ?. by split. Qed.

Lemma inv_with_msgChan t0 acc c (s : conn (R:=R)) :
  conn_inv t0 acc s → (length c ≤ ChannelBufferSize)%nat → conn_inv t0 acc (with_msgChan c s).
Proof. intros [? ? ? ? []] ?. by split. Qed.

Lemma inv_with_errChan t0 acc c (s : conn (R:=R)) :
  conn_inv t0 acc s → (length c ≤ ChannelBufferSize)%nat → conn_inv t0 acc (with_errChan c s).
Proof. intros [? ? ? ? []] ?. by split. Qed.

Lemma snoc_room {A} (c : list A) x : has_room c = true → (length (c ++ [x]) ≤ ChannelBufferSize)%nat.
Proof. intros Hc%has_room_lt. rewrite length_app. simpl. lia. Qed.

Lemma listener_send_inv t0 acc (s s' : conn (R:=R)) :
  listener_send s = Some s' → conn_inv t0 acc s → conn_inv t0 acc s'.
Proof.
  intros Hs Hi. unfold listener_send in Hs.
  destruct (lst s); try done; (destruct (closed s) eqn:Ec; simplify_eq; [by apply inv_with_lst|]);
    (destruct (has_room _) eqn:Er; simplify_eq; apply inv_with_lst; [|done]);
    auto using inv_with_errChan, inv_with_msgChan, snoc_room.
Qed.

Lemma handle_msg_inv t0 acc msg (s : conn (R:=R)) :
  hnd s = HSelect → conn_inv t0 acc s →
  conn_inv t0 (acc ++ if is_check msg then [now s] else []) (handle_msg nodeKey ChecksTimeout msg s).
Proof.
  intros Hh [Hsel Hb Hr Hp Hroom]. destruct (Hsel Hh) as [Hc Ht].
  unfold handle_msg, is_check.
  destruct (decide (GetStatus msg = NotServing)); [rewrite app_nil_r; by split|].
  destruct (decide (GetStatus msg = ShuttingDown)); [rewrite app_nil_r; by split|].
  unfold drain_and_reset. cbn [timer with_reg]. rewrite Ht. split; simpl; try done.
  - intros _. by rewrite last_accept_app.
  - by rewrite Hh.
Qed.

Lemma handle_err_inv t0 acc err (s : conn (R:=R)) :
  conn_inv t0 acc s → conn_inv t0 acc (handle_err nodeKey err s).
Proof. intros [Hsel Hb Hr Hp Hroom]. unfold handle_err. case_match; by split. Qed.

Lemma step_inv t0 acc a (s s' : conn (R:=R)) :
  step a s = Some s' → conn_inv t0 acc s → conn_inv t0 (acc ++ accept a s) s'.
Proof.
  intros Hs Hi. destruct a; simpl in Hs; unfold accept; rewrite ?app_nil_r.
  - destruct (lst s) eqn:El; simplify_eq. apply inv_with_lst; [done|].
    unfold listener_recv. by repeat case_match.
  - by eapply listener_send_inv.
  - destruct (hnd s) eqn:Eh; try done. destruct (msgChan s) as [|msg c] eqn:Em; simplify_eq.
    apply (handle_msg_inv t0 acc msg (with_msgChan c s)); [done|].
    apply inv_with_msgChan; [done|]. apply inv_room in Hi as [Hm _]. rewrite Em in Hm. simpl in Hm. lia.
  - destruct (hnd s) eqn:Eh; try done. destruct (errChan s) as [|err c] eqn:Em; simplify_eq.
    apply handle_err_inv, inv_with_errChan; [done|].
    apply inv_room in Hi as [_ He]. rewrite Em in He. simpl in He. lia.
  - destruct (hnd s) eqn:Eh; try done. destruct (timer s); try done. case_decide; simplify_eq.
    destruct Hi. by split.
  - case_decide; simplify_eq. destruct Hi. by split.
Qed.

Lemma run_inv as_ t0 acc (s s' : conn (R:=R)) :
  run as_ s = Some s' → conn_inv t0 acc s → conn_inv t0 (acc ++ accepted as_ s) s'.
Proof.
  unfold NodeManager.run. revert s acc. induction as_ as [|a as_ IH]; intros s acc Hr Hi; simpl in *.
  - simplify_eq. by rewrite app_nil_r.
  - destruct (step a s) as [s1|] eqn:Es; [|done]. rewrite app_assoc.
    apply IH; [done|]. by eapply step_inv.
Qed.

Lemma run_start_inv as_ t0 r s' :
  run as_ (start t0 r) = Some s' → conn_inv t0 (accepted as_ (start t0 r)) s'.
Proof. intros Hr. apply (run_inv as_ t0 [] _ _ Hr (start_inv t0 r)). Qed.

(** ** Timeouts *)

(** C17: the handler never waits for ever in the drain of the timer, and its
    channels never hold more than one value, under every schedule. *)
Theorem handler_never_blocks as_ t0 r s :
  run as_ (start t0 r) = Some s →
  hnd s ≠ HBlocked ∧ (length (msgChan s) ≤ 1 ∧ length (errChan s) ≤ 1)%nat.
Proof. intros Hi%run_start_inv. split; [by eapply inv_blocked|by eapply inv_room]. Qed.

Lemma timer_enabled as_ t0 r s :
  run as_ (start t0 r) = Some s →
  is_Some (step TakeTimer s) ↔
  hnd s = HSelect ∧ last_accept t0 (accepted as_ (start t0 r)) + ChecksTimeout ≤ now s.
Proof.
  intros Hi%run_start_inv. simpl. split.
  - destruct (hnd s) eqn:Eh; try by intros [].
    destruct (inv_select _ _ _ Hi Eh) as [_ ->]. case_decide; [done|by intros []].
  - intros [Eh Hle]. rewrite Eh. destruct (inv_select _ _ _ Hi Eh) as [_ ->].
    by rewrite decide_True.
Qed.

(** A node is timed out exactly when no health check has been accepted for
    the whole of [ChecksTimeout]: the timer case of the select is enabled if and
    only if the handler is still running and that much time has passed since the
    last accepted check (or the start of the connection). *)
Theorem timeout_iff_silent as_ t0 r s :
  run as_ (start t0 r) = Some s →
  is_Some (step TakeTimer s) ↔
  hnd s = HSelect ∧ last_accept t0 (accepted as_ (start t0 r)) + ChecksTimeout ≤ now s.
Proof. apply timer_enabled. Qed.

(** ** The registry along a connection *)

(** The registry after a schedule that accepted [n] checks, starting from the
    streak [c]: a returned non-nil error resets the streak. *)
Definition streak_after (c : Z) (n : nat) (s : conn (R:=R)) : Z :=
  match hnd s with HReturned (Some _) => 0 | _ => u64 (c + Z.of_nat n) end.

Lemma step_streak a (s s' : conn (R:=R)) t0 acc c n :
  conn_inv t0 acc s → step a s = Some s' →
  reg_streak (reg s) nodeKey = Some (streak_after c n s) →
  reg_streak (reg s') nodeKey = Some (streak_after c (n + length (accept a s)) s').
Proof.
  intros Hi Hs Hc. destruct a; simpl in *; unfold accept; simpl; rewrite ?Nat.add_0_r.
  - destruct (lst s); simplify_eq. done.
  - unfold listener_send in Hs. by repeat case_match; simplify_eq.
  - destruct (hnd s) eqn:Eh; try done. destruct (msgChan s) as [|msg ch]; simplify_eq.
    unfold streak_after in Hc. rewrite Eh in Hc.
    unfold handle_msg, is_check, streak_after.
    destruct (decide (GetStatus msg = NotServing)); [simpl; by rewrite Nat.add_0_r, Eh|].
    destruct (decide (GetStatus msg = ShuttingDown)); [simpl; by rewrite Nat.add_0_r|].
    unfold drain_and_reset. simpl. destruct (inv_select _ _ _ Hi Eh) as [_ ->]. simpl.
    rewrite Eh, (check_streak _ _ _ _ Hc). f_equal. unfold u64. rewrite uwrap_add_l. f_equal. lia.
  - destruct (hnd s) eqn:Eh; try done. destruct (errChan s) as [|err ch]; simplify_eq.
    unfold handle_err. destruct (gRPCErrUnrecoverable err); simpl; [by eapply failure_streak|done].
  - destruct (hnd s) eqn:Eh; try done. destruct (timer s); try done. case_decide; simplify_eq.
    simpl. by eapply failure_streak.
  - case_decide; simplify_eq. done.
Qed.

Lemma step_other a (s s' : conn (R:=R)) k :
  k ≠ nodeKey → step a s = Some s' → reg_streak (reg s') k = reg_streak (reg s) k.
Proof.
  intros Hk Hs. destruct a; simpl in Hs.
  - by destruct (lst s); simplify_eq.
  - unfold listener_send in Hs. by repeat case_match; simplify_eq.
  - destruct (hnd s); try done. destruct (msgChan s); simplify_eq.
    unfold handle_msg, drain_and_reset. repeat case_match; simpl; try done; by apply check_other.
  - destruct (hnd s); try done. destruct (errChan s); simplify_eq.
    unfold handle_err. case_match; simpl; [by apply failure_other|done].
  - destruct (hnd s); try done. destruct (timer s); try done. case_decide; simplify_eq.
    by apply failure_other.
  - by case_decide; simplify_eq.
Qed.

Lemma run_streak as_ (s s' : conn (R:=R)) t0 acc c n :
  conn_inv t0 acc s → run as_ s = Some s' →
  reg_streak (reg s) nodeKey = Some (streak_after c n s) →
  reg_streak (reg s') nodeKey = Some (streak_after c (n + length (accepted as_ s)) s').
Proof.
  unfold NodeManager.run. revert s acc n. induction as_ as [|a as_ IH]; intros s acc n Hi Hr Hc; simpl in *.
  - simplify_eq. by rewrite Nat.add_0_r.
  - destruct (step a s) as [s1|] eqn:Es; [|done]. rewrite length_app, Nat.add_assoc.
    eapply IH; [by eapply step_inv|done|by eapply step_streak].
Qed.

Lemma run_other as_ (s s' : conn (R:=R)) k :
  k ≠ nodeKey → run as_ s = Some s' → reg_streak (reg s') k = reg_streak (reg s) k.
Proof.
  intros Hk Hr. apply (run_steps_inv step (λ _, true) (λ x, reg_streak (reg x) k = reg_streak (reg s) k)) in Hr;
    [done| |apply forallb_true|done].
  intros a s1 s2 _ Hs <-. by apply (step_other a s1 s2).
Qed.

(** C9: along every schedule, the streak of the node in the registry is its
    streak at the start plus the number of health checks the handler accepted
    (as a 64-bit counter), and zero once the handler has returned an error; the
    streaks of all other nodes are untouched. *)
Theorem streak_counts_checks as_ t0 r s c :
  reg_streak r nodeKey = Some c → in_uint 64 c →
  run as_ (start t0 r) = Some s →
  reg_streak (reg s) nodeKey =
    Some (match hnd s with
          | HReturned (Some _) => 0
          | _ => u64 (c + Z.of_nat (length (accepted as_ (start t0 r))))
          end) ∧
  ∀ k, k ≠ nodeKey → reg_streak (reg s) k = reg_streak r k.
Proof.
  intros Hc Hrange Hr. split.
  - apply (run_streak as_ (start t0 r) s t0 [] c 0 (start_inv t0 r) Hr).
    unfold streak_after. simpl. by rewrite Z.add_0_r, (uwrap_small 64).
  - intros k Hk. by rewrite (run_other as_ (start t0 r) s).
Qed.

(** ** Sends on closed channels *)

Lemma nil_recoverable : gRPCErrUnrecoverable None = false.
Proof.
  unfold gRPCErrUnrecoverable.
  by rewrite !bool_decide_eq_false_2 by (apply code_nil_Canceled || apply code_nil_Unavailable).
Qed.

(** When the handler has returned while the listener waits in [Recv], the
    listener crashes the process whatever [Recv] returns next: it sends the
    result on a channel that the handler's caller has closed. *)
Theorem recv_after_return_panics as_ t0 r s ret req err :
  run as_ (start t0 r) = Some s → hnd s = HReturned ret → lst s = LRecv →
  ∃ s', run [Recv req err; Send] s = Some s' ∧ lst s' = LPanic.
Proof.
  intros Hi%run_start_inv Hh Hl. destruct (inv_returned _ _ _ Hi _ Hh) as [Hc _].
  unfold NodeManager.run. simpl. rewrite Hl. unfold listener_send. simpl. rewrite Hc.
  unfold listener_recv. destruct (gRPCErrUnrecoverable err); [by eexists|].
  destruct err; by eexists.
Qed.

(** How the handler's return, the error channel and the listener hang together:
    only the last value sent on the error channel is unrecoverable, and the
    listener has returned by then. *)
Record err_inv (s : conn (R:=R)) : Prop := {
  ei_chan : Exists (λ e, gRPCErrUnrecoverable e = true) (errChan s) → lst s = LDone;
  ei_lst : ∀ e req, lst s = LSendErr e req → gRPCErrUnrecoverable e = false;
  ei_ret : ∀ ret, hnd s = HReturned ret → lst s = LDone ∨ ret = None ∨
    ret = Some (Errorf ("timed out waiting for health status from " +:+ nodeKey));
}.

Lemma err_inv_frame (s s' : conn (R:=R)) :
  err_inv s → lst s' = lst s → errChan s' = errChan s →
  (∀ ret, hnd s' = HReturned ret → lst s = LDone ∨ ret = None ∨
    ret = Some (Errorf ("timed out waiting for health status from " +:+ nodeKey))) →
  err_inv s'.
Proof. intros [Hch Hl Hr] El Ee Hret. split; by rewrite ?El, ?Ee. Qed.

Lemma step_err_inv a (s s' : conn (R:=R)) : step a s = Some s' → err_inv s → err_inv s'.
Proof.
  intros Hs Hi. pose proof Hi as [Hch Hl Hr]. destruct a; simpl in Hs.
  - destruct (lst s) eqn:El; simplify_eq. split; simpl.
    + intros He. specialize (Hch He). congruence.
    + unfold listener_recv. intros e rq. by destruct (gRPCErrUnrecoverable err) eqn:E;
        [|destruct err]; intros; simplify_eq.
    + intros rt Hrt. destruct (Hr rt Hrt); [congruence|by right].
  - unfold listener_send in Hs. destruct (lst s) eqn:El; try done; destruct (closed s);
      try (simplify_eq; split; simpl; naive_solver);
      (destruct (has_room _); simplify_eq; split; simpl; try naive_solver).
    rewrite Exists_app, Exists_cons, Exists_nil. specialize (Hl err req eq_refl).
    intros [Hx|[Hx|[]]]; [by specialize (Hch Hx)|congruence].
  - destruct (hnd s) eqn:Eh; try done. destruct (msgChan s); simplify_eq.
    unfold handle_msg, drain_and_reset.
    repeat case_match; (apply (err_inv_frame s); [done|done|done|]); simpl; rewrite ?Eh;
      intros ret [=]; auto.
  - destruct (hnd s) eqn:Eh; try done. destruct (errChan s) as [|e c] eqn:Ee; simplify_eq.
    unfold handle_err. destruct (gRPCErrUnrecoverable e) eqn:Eu; split; simpl; rewrite ?Eh; try done.
    + intros _. apply Hch. by left.
    + intros ret _. left. apply Hch. by left.
    + intros Hx. apply Hch. by right.
  - destruct (hnd s) eqn:Eh; try done. destruct (timer s); try done. case_decide; simplify_eq.
    apply (err_inv_frame s); [done|done|done|]. simpl. intros ret [=]. auto.
  - case_decide; simplify_eq. by apply (err_inv_frame s).
Qed.

Lemma run_err_inv as_ (s s' : conn (R:=R)) : run as_ s = Some s' → err_inv s → err_inv s'.
Proof.
  apply (run_steps_inv step (λ _, true)); [|apply forallb_true]. intros a s1 s2 _. apply step_err_inv.
Qed.

(** C29: the crash happens only after the handler returned because the node
    announced its shutdown or was timed out; a connection that ends with an
    unrecoverable stream error ends cleanly. *)
Theorem panic_only_after_shutdown_or_timeout as_ t0 r s :
  run as_ (start t0 r) = Some s → lst s = LPanic →
  hnd s = HReturned None ∨
  hnd s = HReturned (Some (Errorf ("timed out waiting for health status from " +:+ nodeKey))).
Proof.
  intros Hr Hl. pose proof (run_start_inv _ _ _ _ Hr) as Hi.
  apply run_err_inv in Hr as [_ _ Hret].
  - pose proof (inv_panic _ _ _ Hi Hl) as Hc. destruct (hnd s) as [| |ret] eqn:Eh.
    + destruct (inv_select _ _ _ Hi Eh). congruence.
    + by destruct (inv_blocked _ _ _ Hi).
    + destruct (Hret ret eq_refl) as [|[->| ->]]; [congruence|by left|by right].
  - split; simpl; [|done|done]. by intros ?%Exists_nil.
Qed.

(** ** Errors that the listener survives *)

(** The stream gives nothing but errors that [gRPCErrUnrecoverable] lets pass,
    such as the end of the stream. *)
Definition only_recoverable (a : action) : bool :=
  match a with
  | Recv None (Some e) => negb (gRPCErrUnrecoverable (Some e))
  | Recv _ _ => false
  | _ => true
  end.

(** How often [Recv] returned along a schedule. *)
Definition is_recv (a : action) : nat := match a with Recv _ _ => 1 | _ => 0 end.

Definition received (as_ : list action) : nat := sum_list (is_recv <$> as_).

(** The nil messages between the listener and the handler. *)
Definition held (l : listener_pc) : nat := match l with LSendErr _ _ | LSendMsg _ => 1 | _ => 0 end.

Definition in_flight (s : conn (R:=R)) : nat := length (msgChan s) + held (lst s).

Definition timed_out_error : option (error gerror) :=
  Some (Errorf ("timed out waiting for health status from " +:+ nodeKey)).

(** [m] errors were received and not yet counted as health checks. *)
Record failing_inv (m : nat) (s : conn (R:=R)) : Prop := {
  fi_msgs : Forall (λ x, x = None) (msgChan s);
  fi_errs : Forall (λ e, gRPCErrUnrecoverable e = false) (errChan s);
  fi_lst : match lst s with
           | LRecv | LPanic => True
           | LSendErr e req => gRPCErrUnrecoverable e = false ∧ req = None
           | LSendMsg req => req = None
           | LSendFatal _ | LDone => False
           end;
  fi_hnd : ∀ ret, hnd s = HReturned ret → ret = timed_out_error;
  fi_count : hnd s = HSelect → closed s = false ∧ is_Some (timer s) ∧ m = in_flight s;
}.

Lemma failing_send m (s s' : conn (R:=R)) : listener_send s = Some s' → failing_inv m s → failing_inv m s'.
Proof.
  intros Hs [Hm He Hl Hr Hc]. unfold listener_send, in_flight in *.
  destruct (lst s) as [|e|e req|req| |]; try done.
  - destruct Hl as [Hle ->]. destruct (closed s) eqn:Ecl.
    + simplify_eq. split; simpl; try done. intros Hh. by destruct (Hc Hh).
    + destruct (has_room _); simplify_eq. split; simpl; try done; [|by intros Hh; destruct (Hc Hh)].
      apply Forall_app_2; [done|by constructor].
  - subst req. destruct (closed s) eqn:Ecl.
    + simplify_eq. split; simpl; try done. intros Hh. by destruct (Hc Hh).
    + destruct (has_room _); simplify_eq. split; simpl; try done.
      * apply Forall_app_2; [done|by constructor].
      * intros Hh. destruct (Hc Hh) as (? & ? & ->). split_and!; [done|done|]. unfold in_flight. simpl.
        rewrite length_app. simpl. lia.
Qed.

Lemma failing_step a m (s s' : conn (R:=R)) :
  only_recoverable a = true → step a s = Some s' → failing_inv m s →
  ∃ m', failing_inv m' s' ∧ (m' + length (accept a s) = m + is_recv a)%nat.
Proof.
  intros Ha Hs Hi. destruct a as [req err| | | | |t]; simpl in Hs; unfold accept; simpl is_recv; rewrite ?Nat.add_0_r.
  - destruct req as [|]; [done|]. destruct err as [e|]; [|done]. simpl in Ha. apply negb_true_iff in Ha.
    destruct (lst s) eqn:El; simplify_eq. exists (S m). split; [|simpl; lia].
    destruct Hi as [Hm He Hl Hr Hc]. split; simpl; unfold listener_recv; rewrite ?Ha; try done.
    intros Hh. destruct (Hc Hh) as (? & ? & ->). split_and!; [done|done|].
    unfold in_flight. simpl. rewrite El. simpl. lia.
  - exists m. split; [by eapply failing_send|simpl; lia].
  - destruct (hnd s) eqn:Eh; try done. destruct (msgChan s) as [|x ch] eqn:Em; simplify_eq.
    destruct Hi as [Hm He Hl Hr Hc]. rewrite Em in Hm. inversion_clear Hm as [|? ? -> Hch].
    destruct (Hc Eh) as (Hcl & [d Hd] & ->). unfold handle_msg, drain_and_reset, is_check, in_flight. simpl.
    rewrite Hd, Em. exists (length ch + held (lst s))%nat. split; [|simpl; lia].
    by split.
  - destruct (hnd s) eqn:Eh; try done. destruct (errChan s) as [|e ch] eqn:Ee; simplify_eq.
    destruct Hi as [Hm He Hl Hr Hc]. rewrite Ee in He. inversion_clear He as [|? ? Hrec Hch].
    unfold handle_err. rewrite Hrec. exists m. split; [|simpl; lia]. by split.
  - destruct (hnd s) eqn:Eh; try done. destruct (timer s); try done. case_decide; simplify_eq.
    exists m. split; [|simpl; lia]. destruct Hi as [Hm He Hl Hr Hc]. split; simpl; try done.
    by intros ret [= <-].
  - case_decide; simplify_eq. exists m. split; [|simpl; lia]. destruct Hi. by split.
Qed.

Lemma failing_run as_ m (s s' : conn (R:=R)) :
  forallb only_recoverable as_ = true → run as_ s = Some s' → failing_inv m s →
  ∃ m', failing_inv m' s' ∧ (m' + length (accepted as_ s) = m + received as_)%nat.
Proof.
  unfold NodeManager.run, received. revert s m. induction as_ as [|a as_ IH]; intros s m Ha Hr Hi; simpl in *.
  - simplify_eq. exists m. split; [done|lia].
  - apply andb_true_iff in Ha as [Ha Has]. destruct (step a s) as [s1|] eqn:Es; [|done].
    destruct (failing_step a m s s1 Ha Es Hi) as (m1 & Hi1 & E1).
    destruct (IH s1 m1 Has Hr Hi1) as (m' & Hi' & E'). exists m'. split; [done|]. rewrite length_app.
    change (list_fmap action nat is_recv as_) with (is_recv <$> as_). lia.
Qed.

(** C31: a stream that gives nothing but errors that [gRPCErrUnrecoverable] lets
    pass is a healthy one: the listener sends each error on together with the nil
    message that came with it, and the nil message counts as a health check.
    Under every schedule the handler returns by a timeout only, and as long as it
    runs the streak has grown by the number of errors received, less the at most
    two that are still in flight; it is timed out only when no such error was
    counted for the whole timeout, so one error per timeout keeps it going. *)
Theorem recoverable_errors_look_healthy as_ t0 r s c :
  forallb only_recoverable as_ = true → run as_ (start t0 r) = Some s →
  reg_streak r nodeKey = Some c → in_uint 64 c →
  (∀ ret, hnd s = HReturned ret → ret = timed_out_error) ∧
  (hnd s = HSelect →
   ∃ n, reg_streak (reg s) nodeKey = Some (u64 (c + Z.of_nat n)) ∧
     (n ≤ received as_ ≤ n + 2)%nat ∧ n = length (accepted as_ (start t0 r)) ∧
     (now s < last_accept t0 (accepted as_ (start t0 r)) + ChecksTimeout → step TakeTimer s = None)).
Proof.
  intros Ha Hr Hc Hu. pose proof (run_start_inv _ _ _ _ Hr) as Hi.
  destruct (failing_run as_ 0 (start t0 r) s Ha Hr) as (m & Hf & Hn); [by split|].
  split; [exact (fi_hnd _ _ Hf)|]. intros Hh. exists (length (accepted as_ (start t0 r))).
  split_and!.
  - rewrite (run_streak as_ (start t0 r) s t0 [] c 0 (start_inv t0 r) Hr);
      [unfold streak_after; by rewrite Hh|].
    unfold streak_after. simpl. by rewrite Z.add_0_r, (uwrap_small 64).
  - lia.
  - destruct (fi_count _ _ Hf Hh) as (_ & _ & ->). destruct (inv_room _ _ _ Hi) as [Hm _].
    unfold in_flight, ChannelBufferSize, held in *. destruct (lst s); lia.
  - done.
  - intros Hlt. destruct (step TakeTimer s) as [s'|] eqn:Es; [|done].
    destruct (proj1 (timer_enabled as_ t0 r s Hr)) as [_ Hle]; [by rewrite Es|]. lia.
Qed.

End Properties.

(** ** Set-up and configuration *)

(** An address as a TCP peer has it: an IP of 4 or 16 bytes, a zone, which is the
    name of an interface, without brackets, and a port that is not negative. *)
Definition peer_addr (a : TCPAddr) : Prop :=
  valid_ip (tcp_IP a) ∧ str_free "[" (tcp_Zone a) = true ∧ str_free "]" (tcp_Zone a) = true ∧ 0 ≤ tcp_Port a.

(** The host part of the key. *)
Definition addr_host (a : TCPAddr) : string :=
  let ip := IP_String (tcp_IP a) in
  if decide (tcp_Zone a = EmptyString) then ip else ip +:+ "%" +:+ tcp_Zone a.

Lemma TCPAddr_String_host a :
  valid_ip (tcp_IP a) → TCPAddr_String a = JoinHostPort (addr_host a) (fmt_d (tcp_Port a)).
Proof.
  intros Hv. unfold TCPAddr_String, addr_host, ipEmptyString. destruct Hv as [-> | ->]; simpl; by case_decide.
Qed.

Lemma str_free_head c s : str_free c (String c s) = false.
Proof. unfold str_free. simpl. by destruct (Ascii.eqb_spec c c). Qed.

Lemma JoinHostPort_plain_vs_bracket h p h' p' :
  str_free "[" h = true → str_free ":" h = true → str_free ":" h' = false →
  JoinHostPort h p ≠ JoinHostPort h' p'.
Proof.
  intros Hb Hh Hh'. unfold JoinHostPort. rewrite Hh, Hh'.
  destruct h as [|c h]; [done|]. rewrite string_app_cons. intros [= -> _].
  by rewrite str_free_head in Hb.
Qed.

Lemma JoinHostPort_inj h p h' p' :
  str_free "[" h = true → str_free "]" h = true → str_free "[" h' = true → str_free "]" h' = true →
  JoinHostPort h p = JoinHostPort h' p' → h = h' ∧ p = p'.
Proof.
  intros Hb Hc Hb' Hc' E.
  destruct (str_free ":" h) eqn:Hh, (str_free ":" h') eqn:Hh'.
  - unfold JoinHostPort in E. rewrite Hh, Hh' in E. by apply (sep_app_inj ":" h h' p p').
  - by apply JoinHostPort_plain_vs_bracket in E.
  - symmetry in E. by apply JoinHostPort_plain_vs_bracket in E.
  - unfold JoinHostPort in E. rewrite Hh, Hh' in E. injection E as E.
    apply (sep_app_inj "]" h h' (String ":" p) (String ":" p')) in E as [-> [= ->]]; done.
Qed.

Lemma addr_host_free a c :
  str_free c (IP_String (tcp_IP a)) = true → str_free c (tcp_Zone a) = true → c ≠ "%"%char →
  str_free c (addr_host a) = true.
Proof.
  intros Hi Hz Hc. unfold addr_host. case_decide; [done|].
  rewrite str_free_app, Hi, str_free_app, Hz.
  change (str_free c "%") with (negb (Ascii.eqb "%" c) && true).
  by destruct (Ascii.eqb_spec "%" c); [congruence|].
Qed.

Lemma percent_inside s z : str_free "%" (s +:+ "%" +:+ z) = false.
Proof.
  change ("%" +:+ z) with (String "%" z). by rewrite str_free_app, str_free_head, andb_false_r.
Qed.

Lemma addr_host_inj a b :
  str_free "%" (IP_String (tcp_IP a)) = true → str_free "%" (IP_String (tcp_IP b)) = true →
  addr_host a = addr_host b → IP_String (tcp_IP a) = IP_String (tcp_IP b) ∧ tcp_Zone a = tcp_Zone b.
Proof.
  intros Ha Hb. unfold addr_host. repeat case_decide; intros E.
  - split; congruence.
  - exfalso. by rewrite E, percent_inside in Ha.
  - exfalso. by rewrite <- E, percent_inside in Hb.
  - by apply (sep_app_inj "%" (IP_String (tcp_IP a)) (IP_String (tcp_IP b))) in E.
Qed.

(** The key that [connect] registers is the printed peer address. *)
Lemma connect_key `{!Grpc} {R} `{!HealthRegistry R} cfg p file net (r : R) k r' :
  connect cfg p file net r = Ok (k, r') → ∃ a, p = Some (AddrTCP (Some a)) ∧ k = TCPAddr_String a.
Proof.
  unfold connect, extractTCPFromConn. destruct p as [[[a|]|]|]; try done.
  intros Hc. exists a. split; [done|]. repeat case_match; by simplify_eq.
Qed.

(** C28: two connections are registered under the same key only if their peers
    have the same IP address, in one of its two forms, and the same zone and
    port, so peers that differ in one of these never share a record; the
    configurations, the ARP caches, the networks and the registries at the time
    do not matter. *)
Theorem nodeKey_inj `{!Grpc} {R} `{!HealthRegistry R} cfg cfg' a b file file' net net' (r r' : R) k r1 r2 :
  peer_addr a → peer_addr b →
  connect cfg (Some (AddrTCP (Some a))) file net r = Ok (k, r1) →
  connect cfg' (Some (AddrTCP (Some b))) file' net' r' = Ok (k, r2) →
  To16 (tcp_IP a) = To16 (tcp_IP b) ∧ tcp_Zone a = tcp_Zone b ∧ tcp_Port a = tcp_Port b.
Proof.
  intros (Ha & Ha1 & Ha2 & _) (Hb & Hb1 & Hb2 & _) Ca Cb.
  apply connect_key in Ca as (? & [= <-] & ->). apply connect_key in Cb as (? & [= <-] & E).
  rewrite !TCPAddr_String_host in E by done.
  apply JoinHostPort_inj in E as [Eh Ep]; try by apply addr_host_free; [apply IP_String_free|..].
  apply addr_host_inj in Eh as [Ei Ez]; [|by apply IP_String_free..]. apply fmt_d_inj in Ep.
  split; [by apply IP_String_inj|done].
Qed.

(** What a node learns from [GetConfig]: the two durations and the failure
    limit exactly as the load balancer is configured, and the number of checks
    before routing exactly when it fits the 32 bits of the wire format. *)
Theorem GetConfig_faithful cfg :
  in_uint 64 (LB.ChecksBeforeRouting (LB.node_health cfg)) →
  in_sint 64 (LB.BlackListAfterFails (LB.node_health cfg)) →
  cr_HealthCheckTimeout (GetConfig cfg) = LB.ChecksTimeout (LB.node_health cfg) ∧
  cr_BlackListExpiry (GetConfig cfg) = LB.BlackListExpiry (LB.node_health cfg) ∧
  cr_BlackListAfterFails (GetConfig cfg) = LB.BlackListAfterFails (LB.node_health cfg) ∧
  (cr_ChecksBeforeRouting (GetConfig cfg) = LB.ChecksBeforeRouting (LB.node_health cfg) ↔
   LB.ChecksBeforeRouting (LB.node_health cfg) < 2 ^ 32).
Proof.
  intros Hc Hb. split_and!; [done|done|by apply swrap_small|]. simpl. split.
  - intros <-. apply (uwrap_range 32). lia.
  - intros Hlt. apply uwrap_small. unfold in_uint in *. lia.
Qed.

(** C27: a connection is registered exactly when the stream has a TCP peer and one
    of the two ARP lookups finds its MAC address; the key is the printed peer
    address, an existing streak is kept, and no other node is affected. *)
Theorem connect_registers `{!Grpc} {R} `{!HealthRegistry R, !HealthRegistryLaws R} cfg p file net (r : R) :
  let iface := LB.NetIfacePrivate (LB.private_interface cfg) in
  match connect cfg p file net r with
  | Ok (k, r') =>
      (∃ a mac, p = Some (AddrTCP (Some a)) ∧ k = TCPAddr_String a ∧
        (GetMACFromARPCache file (IP_String (tcp_IP a)) iface = Ok mac ∨ GetMACViaARPCall net (IP_String (tcp_IP a)) iface = Ok mac)) ∧
      reg_streak r' k = Some (default 0 (reg_streak r k)) ∧
      ∀ k', k' ≠ k → reg_streak r' k' = reg_streak r k'
  | Err _ =>
      (∀ a, p ≠ Some (AddrTCP (Some a))) ∨
      ∃ a e1 e2, p = Some (AddrTCP (Some a)) ∧
        GetMACFromARPCache file (IP_String (tcp_IP a)) iface = Err e1 ∧ GetMACViaARPCall net (IP_String (tcp_IP a)) iface = Err e2
  end.
Proof.
  unfold connect, extractTCPFromConn.
  destruct p as [[[a|]|]|]; try (left; intros a' [=]).
  destruct (GetMACFromARPCache _ _ _) as [m|e1] eqn:E1;
    [|destruct (GetMACViaARPCall _ _ _) as [m|e2] eqn:E2; [|eauto 10]];
    (split; [by eauto 10|split; [apply register_streak|intros k' Hk; by apply register_other]]).
Qed.

(** ** A concrete connection

    Errors are their status codes, with the numbers gRPC gives them. *)
#[local] Instance demo_grpc : Grpc := {|
  gerror := Z;
  code := Z;
  Canceled := 1;
  Unavailable := 14;
  status_Code := default 0;
|}.

#[local] Instance demo_grpc_laws : GrpcLaws.
Proof. split; vm_compute; discriminate. Qed.

(** The error of a stream whose handler is gone, and one that carries no status,
    such as the end of a stream. *)
Definition err_Canceled : gerror := 1.

Definition err_Unknown : gerror := 2.

Definition demo_key : string := "10.0.0.7:41234".

Definition demo_registry : NodeRegistry := RegisterNode demo_key New.

Definition msg (status : Z) : option HealthStatus := Some (mkHealthStatus "gale-node" status "ok").

(** Two health checks, one with an unknown status, then silence. *)
Definition demo_schedule : list (action (H:=demo_grpc)) :=
  [Tick 3; Recv (msg Serving) None; Send; TakeMsg;
   Tick 6; Recv (msg 7) None; Send; TakeMsg; Tick 16].

Definition demo_state : conn (R:=NodeRegistry) :=
  mkConn LRecv HSelect [] [] false (Some 16) 16
    (mkRegistry {[demo_key := mkNode 2 6]} ∅).

Lemma demo_run :
  run demo_key 10 demo_schedule (start 10 0 demo_registry) = Some demo_state.
Proof. vm_compute. reflexivity. Qed.

Lemma handler_never_blocks_witness :
  hnd demo_state ≠ HBlocked ∧
  (length (msgChan demo_state) ≤ 1 ∧ length (errChan demo_state) ≤ 1)%nat.
Proof. apply (handler_never_blocks demo_key 10 demo_schedule 0 demo_registry), demo_run. Defined.

Lemma timeout_iff_silent_witness :
  is_Some (step demo_key 10 TakeTimer demo_state) ↔
  hnd demo_state = HSelect ∧
  last_accept 0 (accepted demo_key 10 demo_schedule (start 10 0 demo_registry)) + 10 ≤ now demo_state.
Proof. apply (timeout_iff_silent demo_key 10 demo_schedule 0 demo_registry), demo_run. Defined.

Lemma streak_counts_checks_witness :
  reg_streak (reg demo_state) demo_key = Some 2 ∧
  ∀ k, k ≠ demo_key → reg_streak (reg demo_state) k = reg_streak demo_registry k.
Proof.
  apply (streak_counts_checks demo_key 10 demo_schedule 0 demo_registry demo_state 0).
  - vm_compute. reflexivity.
  - by_decide.
  - apply demo_run.
Defined.

(** The node stays silent and is timed out; the listener still waits. *)
Definition timed_out : conn (R:=NodeRegistry) :=
  mkConn LRecv (HReturned (Some (Errorf ("timed out waiting for health status from " +:+ demo_key))))
    [] [] true None 16 (mkRegistry {[demo_key := mkNode 0 6]} ∅).

Lemma timed_out_run :
  run demo_key 10 (demo_schedule ++ [TakeTimer]) (start 10 0 demo_registry) = Some timed_out.
Proof. vm_compute. reflexivity. Qed.

Lemma recv_after_return_panics_witness :
  ∃ s', run demo_key 10 [Recv None (Some err_Canceled); Send] timed_out = Some s' ∧ lst s' = LPanic.
Proof.
  apply (recv_after_return_panics demo_key 10 (demo_schedule ++ [TakeTimer]) 0 demo_registry
    timed_out (Some (Errorf ("timed out waiting for health status from " +:+ demo_key)))).
  - apply timed_out_run.
  - reflexivity.
  - reflexivity.
Defined.

Definition crashed : conn (R:=NodeRegistry) := with_lst LPanic timed_out.

Lemma panic_only_after_shutdown_or_timeout_witness :
  hnd crashed = HReturned None ∨
  hnd crashed = HReturned (Some (Errorf ("timed out waiting for health status from " +:+ demo_key))).
Proof.
  apply (panic_only_after_shutdown_or_timeout demo_key 10
    (demo_schedule ++ [TakeTimer; Recv None (Some err_Canceled); Send]) 0 demo_registry);
    vm_compute; reflexivity.
Defined.

(** Three errors: two are counted, the third is in the channels. *)
Definition failing_schedule : list (action (H:=demo_grpc)) :=
  [Tick 5; Recv None (Some err_Unknown); Send; Send; TakeMsg; TakeErr;
   Tick 9; Recv None (Some err_Unknown); Send; TakeErr; Send; TakeMsg;
   Tick 17; Recv None (Some err_Unknown); Send; Send].

Definition failing_state : conn (R:=NodeRegistry) :=
  mkConn LRecv HSelect [None] [Some err_Unknown] false (Some 19) 17
    (mkRegistry {[demo_key := mkNode 2 9]} ∅).

Lemma recoverable_errors_look_healthy_witness :
  (∀ ret, hnd failing_state = HReturned ret → ret = timed_out_error demo_key) ∧
  (hnd failing_state = HSelect →
   ∃ n, reg_streak (reg failing_state) demo_key = Some (u64 (0 + Z.of_nat n)) ∧
     (n ≤ received failing_schedule ≤ n + 2)%nat ∧
     n = length (accepted demo_key 10 failing_schedule (start 10 0 demo_registry)) ∧
     (now failing_state < last_accept 0 (accepted demo_key 10 failing_schedule (start 10 0 demo_registry)) + 10 →
      step demo_key 10 TakeTimer failing_state = None)).
Proof.
  apply (recoverable_errors_look_healthy demo_key 10 failing_schedule 0 demo_registry failing_state 0).
  - vm_compute. reflexivity.
  - vm_compute. reflexivity.
  - vm_compute. reflexivity.
  - vm_compute. split; [discriminate|reflexivity].
Defined.

Lemma GetConfig_faithful_witness :
  cr_HealthCheckTimeout (GetConfig LB.New) = 10 * Second ∧
  cr_BlackListExpiry (GetConfig LB.New) = 60 * Second ∧
  cr_BlackListAfterFails (GetConfig LB.New) = -1 ∧
  (cr_ChecksBeforeRouting (GetConfig LB.New) = 3 ↔ 3 < 2 ^ 32).
Proof. apply (GetConfig_faithful LB.New); by_decide. Defined.

(** A peer that the ARP cache does not know and that answers an ARP call. *)
Definition demo_net : ArpNet gerror :=
  mkArpNet unit unit (λ _, Ok tt) (λ _, Ok tt) (λ _ _, Ok [x02; x42; xac; x11; x00; x02]).

Definition demo_peer : TCPAddr := mkTCPAddr (ParseIP "10.0.0.7") 41234 EmptyString.

(** The two forms of an IPv4 address have the same key. *)
Lemma nodeKey_inj_witness :
  To16 [x0a; x00; x00; x07] = To16 (ParseIP "10.0.0.7") ∧ EmptyString = EmptyString ∧ 41234 = 41234.
Proof.
  apply (nodeKey_inj LB.New LB.New (mkTCPAddr [x0a; x00; x00; x07] 41234 EmptyString) demo_peer
    (Ok EmptyString) (Ok EmptyString) demo_net demo_net New New demo_key demo_registry demo_registry).
  - split; [by left|]. split_and!; [done|done|simpl; lia].
  - split; [right; vm_compute; reflexivity|]. split_and!; [done|done|simpl; lia].
  - vm_compute. reflexivity.
  - vm_compute. reflexivity.
Defined.

Lemma connect_registers_witness :
  match connect LB.New (Some (AddrTCP (Some demo_peer))) (Ok EmptyString) demo_net New with
  | Ok (k, r') =>
      (∃ a mac, Some (AddrTCP (Some demo_peer)) = Some (AddrTCP (Some a)) ∧ k = TCPAddr_String a ∧
        (GetMACFromARPCache (Ok EmptyString : result string gerror) (IP_String (tcp_IP a)) EmptyString = Ok mac ∨
         GetMACViaARPCall demo_net (IP_String (tcp_IP a)) EmptyString = Ok mac)) ∧
      reg_streak r' k = Some (default 0 (reg_streak New k)) ∧
      ∀ k', k' ≠ k → reg_streak r' k' = reg_streak New k'
  | Err _ => False
  end.
Proof.
  apply (connect_registers LB.New (Some (AddrTCP (Some demo_peer))) (Ok EmptyString) demo_net New).
Defined.
