(* ===== verification/LbServer.v ===== *)
(** * All connections of a load balancer
    ([pkg/lbnetwork/nodemanager/node_manager.go], over one [NodeManager])

    [NodeManager] serves every node with a handler and a listener of its own
    (the connections of the file of that name); what the connections share is
    the registry, the clock and the process, which a panic in any goroutine
    ends.  [sstep] is one action: a stream is accepted, a goroutine of one
    connection moves, time passes for all.

    [stream_isolated] is a refinement: whatever the others do, a connection
    behaves as the single connection that the theorems of [NodeManager] are
    about, and the registry holds the streak that it holds there. *)

From S2P Require Import Prelude NetIP Arp Consensus Registry Config NodeManager.

Section LbServer.

Context `{!Grpc}.

Context {R : Type} `{!HealthRegistry R}.

(** The service object: its configuration and the registry. *)
Record NodeManager := mkNodeManager { nm_cfg : LB.Config; nm_registry : R }.

Definition NewNodeManager (cfg : LB.Config) (registry : R) : NodeManager := mkNodeManager cfg registry.

(** A stream that is being served.  The registry in the record of the connection
    is a copy that is filled in when the connection moves. *)
Record stream := mkStream { st_key : string; st_conn : conn (R:=R) }.

Record server := mkServer {
  srv_nm : NodeManager;
  srv_now : Z;
  srv_streams : list stream;
}.

Definition newNodeServer (cfg : LB.Config) (r : R) (t : Z) : server :=
  mkServer (NewNodeManager cfg r) t [].

Definition timeout_of (s : server) : Z := LB.ChecksTimeout (LB.node_health (nm_cfg (srv_nm s))).

Definition panicked (st : stream) : bool := match lst (st_conn st) with LPanic => true | _ => false end.

Definition crashed (s : server) : bool := existsb panicked (srv_streams s).

Inductive saction :=
| Accept (p : option net_addr) (file : result string gerror) (net : ArpNet gerror)
| Act (i : nat) (a : action)
| Time (t : Z).

Definition with_now (t : Z) (c : conn (R:=R)) : conn (R:=R) :=
  mkConn (lst c) (hnd c) (msgChan c) (errChan c) (closed c) (timer c) t (reg c).

(** [ReportHealthStatus] up to its two goroutines; an error ends the call. *)
Definition accept_stream (p : option net_addr) (file : result string gerror) (net : ArpNet gerror)
  (s : server) : server :=
  let cfg := nm_cfg (srv_nm s) in
  match connect cfg p file net (nm_registry (srv_nm s)) with
  | Err _ => s
  | Ok (key, r) =>
      mkServer (mkNodeManager cfg r) (srv_now s)
        (srv_streams s ++ [mkStream key (start (timeout_of s) (srv_now s) r)])
  end.

(** One action of connection [i], on the registry that all share. *)
Definition act_stream (i : nat) (a : action) (s : server) : option server :=
  match srv_streams s !! i with
  | None => None
  | Some st =>
      match step (st_key st) (timeout_of s) a (with_reg (nm_registry (srv_nm s)) (st_conn st)) with
      | None => None
      | Some c =>
          Some (mkServer (mkNodeManager (nm_cfg (srv_nm s)) (reg c)) (srv_now s)
            (<[i := mkStream (st_key st) c]> (srv_streams s)))
      end
  end.

Definition is_tick (a : action) : bool := match a with Tick _ => true | _ => false end.

Definition sstep (a : saction) (s : server) : option server :=
  if crashed s then None
  else
    match a with
    | Accept p file net => Some (accept_stream p file net s)
    | Act i a => if is_tick a then None else act_stream i a s
    | Time t =>
        if decide (srv_now s ≤ t) then
          Some (mkServer (srv_nm s) t
            ((λ st, mkStream (st_key st) (with_now t (st_conn st))) <$> srv_streams s))
        else None
    end.

Definition srun : list saction → server → option server := run_steps sstep.

(** What a schedule of the server is to connection [i]: its own actions and the
    clock. *)
Definition project_action (i : nat) (a : saction) : list action :=
  match a with
  | Act j a => if decide (j = i) then [a] else []
  | Time t => [Tick t]
  | Accept _ _ _ => []
  end.

Definition project (i : nat) (as_ : list saction) : list action := as_ ≫= project_action i.

Definition keys (s : server) : list string := st_key <$> srv_streams s.

(** No other connection has the key of connection [i]. *)
Definition own_key (i : nat) (key : string) (s : server) : Prop :=
  ∀ j, j ≠ i → keys s !! j ≠ Some key.

(** ** What one step does to the registry *)

(** An action of a connection is the same whatever the registry holds, and makes
    at most one call on it, for its own key. *)
Lemma step_reg key T a (c c' : conn (R:=R)) :
  step key T a c = Some c' →
  (is_tick a = false → now c' = now c) ∧
  ∃ f, (f = id ∨ f = reg_check key (now c) ∨ f = reg_failure key) ∧
    ∀ r, step key T a (with_reg r c) = Some (with_reg (f r) c').
Proof.
  intros Hs. destruct c as [l h m e cl tm n rg]. destruct a as [rq er| | | | |t]; simpl in Hs.
  - destruct l; simplify_eq. split; [done|]. exists id. by split; [left|].
  - unfold listener_send in *. simpl in Hs.
    destruct l; try done; destruct cl; simplify_eq;
      try (destruct (has_room _) eqn:Hroom; simplify_eq); (split; [done|]); exists id; (split; [by left|]);
      intros r; simpl; unfold listener_send; simpl; first [done|rewrite Hroom; done].
  - destruct h; try done. destruct m as [|msg m]; simplify_eq. unfold step, handle_msg. simpl.
    destruct (decide (GetStatus msg = NotServing)); [by split; [|exists id; split; [left|]]|].
    destruct (decide (GetStatus msg = ShuttingDown)); [by split; [|exists id; split; [left|]]|].
    unfold drain_and_reset. simpl.
    split; [by destruct tm|]. exists (reg_check key n). split; [by right; left|]. by destruct tm.
  - destruct h; try done. destruct e as [|er e]; simplify_eq. unfold step, handle_err. simpl.
    destruct (gRPCErrUnrecoverable er); (split; [done|]).
    + exists (reg_failure key). by split; [right; right|].
    + exists id. by split; [left|].
  - destruct h; try done. destruct tm as [d|]; [|done]. destruct (decide (d ≤ n)) eqn:Hd; simplify_eq.
    split; [done|]. exists (reg_failure key). split; [by right; right|]. intros r. simpl. by rewrite Hd.
  - destruct (decide (n ≤ t)) eqn:Hd; simplify_eq. split; [done|]. exists id. split; [by left|].
    intros r. simpl. by rewrite Hd.
Qed.

(** The same for a connection with the shared registry [r0] filled in. *)
Lemma step_shared key T a r0 (c c' : conn (R:=R)) :
  step key T a (with_reg r0 c) = Some c' →
  ∃ f, (f = id ∨ f = reg_check key (now c) ∨ f = reg_failure key) ∧ reg c' = f r0 ∧
    (is_tick a = false → now c' = now c) ∧
    ∀ r, step key T a (with_reg r c) = Some (with_reg (f r) c').
Proof.
  intros Hs. destruct (step_reg _ _ _ _ _ Hs) as [Hnow (f & Hf & Hall)]. exists f.
  split_and!; [done| |done|done]. pose proof (Hall r0) as Hr.
  change (with_reg r0 (with_reg r0 c)) with (with_reg r0 c) in Hr. rewrite Hs in Hr.
  injection Hr as Hr. by rewrite Hr.
Qed.

Lemma connect_Ok cfg p file net (r r' : R) key :
  connect cfg p file net r = Ok (key, r') → r' = reg_register key r.
Proof. unfold connect. intros Hc. repeat case_match; by simplify_eq. Qed.

Lemma accept_keys p file net s : keys s `prefix_of` keys (accept_stream p file net s).
Proof.
  unfold accept_stream, keys. destruct (connect _ _ _ _ _) as [[key r]|]; [|done]. simpl.
  rewrite fmap_app. by eexists.
Qed.

Lemma sstep_keys a s s' : sstep a s = Some s' → keys s `prefix_of` keys s'.
Proof.
  unfold sstep. destruct (crashed s); [done|]. destruct a as [p file net|i a|t].
  - intros [= <-]. apply accept_keys.
  - destruct (is_tick a); [done|]. unfold act_stream. destruct (srv_streams s !! i) as [st|] eqn:Ei; [|done].
    destruct (step _ _ _ _); intros; simplify_eq. unfold keys. simpl. rewrite list_fmap_insert. simpl.
    rewrite list_insert_id; [done|]. by rewrite list_lookup_fmap, Ei.
  - case_decide; intros; simplify_eq. unfold keys. simpl. by rewrite <- list_fmap_compose.
Qed.

Lemma srun_keys as_ s s' : srun as_ s = Some s' → keys s `prefix_of` keys s'.
Proof.
  unfold srun. revert s. induction as_ as [|a as_ IH]; intros s Hr; simpl in Hr; [by simplify_eq|].
  destruct (sstep a s) as [s1|] eqn:Es; [|done]. etrans; [by eapply sstep_keys|by apply IH].
Qed.

Lemma own_key_prefix i key s s' : keys s `prefix_of` keys s' → own_key i key s' → own_key i key s.
Proof. intros Hp Ho j Hj Hk. apply (Ho j Hj). by eapply prefix_lookup_Some. Qed.

(** ** Isolation *)
Section Isolation.

Context `{!HealthRegistryLaws R}.

Lemma effect_streak key t (f : R → R) (r1 r2 : R) c :
  f = id ∨ f = reg_check key t ∨ f = reg_failure key →
  reg_streak r1 key = Some c → reg_streak r2 key = Some c →
  ∃ c', reg_streak (f r1) key = Some c' ∧ reg_streak (f r2) key = Some c'.
Proof.
  intros [-> | [-> | ->]] H1 H2; [by exists c|..].
  - exists (u64 (c + 1)). by split; apply check_streak.
  - exists 0. by split; eapply failure_streak.
Qed.

Lemma effect_other key t (f : R → R) (r : R) k :
  f = id ∨ f = reg_check key t ∨ f = reg_failure key → key ≠ k →
  reg_streak (f r) k = reg_streak r k.
Proof. intros [-> | [-> | ->]] Hk; [done|by apply check_other|by apply failure_other]. Qed.

(** Connection [i] of the server and a connection of its own: the same, but for
    the registry, of which only the streak of the key is the same. *)
Record isolated (i : nat) (key : string) (T : Z) (s : server) (c : conn (R:=R)) : Prop := {
  iso_timeout : timeout_of s = T;
  iso_conn : ∃ st, srv_streams s !! i = Some st ∧ st_key st = key ∧ c = with_reg (reg c) (st_conn st);
  iso_now : now c = srv_now s;
  iso_streak : ∃ n, reg_streak (reg c) key = Some n ∧ reg_streak (nm_registry (srv_nm s)) key = Some n;
}.

Lemma accept_isolated i key T p file net s c :
  own_key i key (accept_stream p file net s) → isolated i key T s c →
  isolated i key T (accept_stream p file net s) c.
Proof.
  unfold accept_stream. destruct (connect _ _ _ _ _) as [[k r]|] eqn:Ec; [|done].
  intros Ho [HT (st & Hst & Hk & Hc) Hn (n & H1 & H2)]. split; simpl; [done| |done|].
  - exists st. split; [by apply lookup_app_l_Some|done].
  - exists n. split; [done|]. apply connect_Ok in Ec as ->. rewrite register_other; [done|].
    intros ->. apply (Ho (length (srv_streams s))).
    + intros <-. by rewrite lookup_ge_None_2 in Hst.
    + unfold keys. simpl. rewrite fmap_app, lookup_app_r by (by rewrite length_fmap).
      by rewrite length_fmap, Nat.sub_diag.
Qed.

Lemma act_isolated i j key T a s s' c :
  own_key i key s → is_tick a = false → act_stream j a s = Some s' → isolated i key T s c →
  ∃ c', run key T (project_action i (Act j a)) c = Some c' ∧ isolated i key T s' c'.
Proof.
  unfold act_stream. intros Ho Ha Hs [HT (st & Hst & Hk & Hc) Hn (n & H1 & H2)].
  destruct (srv_streams s !! j) as [st'|] eqn:Ej; [|done].
  destruct (step _ _ _ _) as [c1|] eqn:Es; simplify_eq.
  destruct (step_shared _ _ _ _ _ _ Es) as (f & Hf & Hreg & Hnow & Hall).
  unfold run. simpl. destruct (decide (j = i)) as [->|Hj].
  - simplify_eq. rewrite Hc. specialize (Hall (reg c)).
    simpl. rewrite Hall. eexists. split; [done|].
    destruct (effect_streak _ _ f _ _ n Hf H1 H2) as (n' & H1' & H2').
    split; simpl; [done| | |].
    + eexists. rewrite list_lookup_insert_eq; [done|]. by eapply lookup_lt_Some.
    + rewrite Hnow by done. simpl. by rewrite <- Hn, Hc.
    + exists n'. by rewrite Hreg.
  - exists c. split; [done|]. split; simpl; [done| |done|].
    + exists st. by rewrite list_lookup_insert_ne.
    + exists n. split; [done|]. rewrite Hreg, (effect_other _ _ f _ _ Hf); [done|].
      intros Heq. apply (Ho j Hj). unfold keys. rewrite list_lookup_fmap, Ej. simpl. by rewrite Heq.
Qed.

Lemma sstep_isolated i key T a s s' c :
  own_key i key s' → sstep a s = Some s' → isolated i key T s c →
  ∃ c', run key T (project_action i a) c = Some c' ∧ isolated i key T s' c'.
Proof.
  intros Ho Hs Hi. pose proof (own_key_prefix _ _ _ _ (sstep_keys _ _ _ Hs) Ho) as Ho1.
  unfold sstep in Hs. destruct (crashed s); [done|]. destruct a as [p file net|j a|t].
  - simplify_eq. exists c. split; [done|]. by apply accept_isolated.
  - destruct (is_tick a) eqn:Ha; [done|]. by eapply act_isolated.
  - destruct (decide (srv_now s ≤ t)) as [Ht|]; simplify_eq.
    destruct Hi as [HT (st & Hst & Hk & Hc) Hn Hr]. unfold run. simpl.
    rewrite decide_True by lia. eexists. split; [done|]. split; simpl; [done| |done|done].
    exists (mkStream (st_key st) (with_now t (st_conn st))). rewrite list_lookup_fmap, Hst.
    split; [done|]. split; [done|]. by rewrite Hc.
Qed.

Lemma srun_isolated as_ i key T s s' c :
  own_key i key s' → srun as_ s = Some s' → isolated i key T s c →
  ∃ c', run key T (project i as_) c = Some c' ∧ isolated i key T s' c'.
Proof.
  intros Ho. unfold srun. revert s c. induction as_ as [|a as_ IH]; intros s c Hr Hi; simpl in Hr.
  - simplify_eq. by exists c.
  - destruct (sstep a s) as [s1|] eqn:Es; [|done].
    destruct (sstep_isolated i key T a s s1 c) as (c1 & Hr1 & Hi1); [|done|done|].
    { eapply own_key_prefix; [by apply (srun_keys as_)|done]. }
    destruct (IH s1 c1 Hr Hi1) as (c' & Hr' & Hi'). exists c'. split; [|done].
    unfold project. rewrite bind_cons. unfold run in *. by rewrite run_steps_app, Hr1.
Qed.

(** From the moment it is accepted. *)
Lemma accepted_isolated p file net s0 key r0 as_ s :
  connect (nm_cfg (srv_nm s0)) p file net (nm_registry (srv_nm s0)) = Ok (key, r0) →
  srun (Accept p file net :: as_) s0 = Some s →
  own_key (length (srv_streams s0)) key s →
  ∃ c, run key (timeout_of s0) (project (length (srv_streams s0)) as_)
      (start (timeout_of s0) (srv_now s0) r0) = Some c ∧
    isolated (length (srv_streams s0)) key (timeout_of s0) s c.
Proof.
  intros Ek Hr Ho. unfold srun in Hr. simpl in Hr. unfold sstep in Hr at 1.
  destruct (crashed s0); [done|]. apply (srun_isolated as_ _ _ _ (accept_stream p file net s0)); [done|done|].
  unfold accept_stream. rewrite Ek. split; simpl; [done| |done|].
  - eexists. rewrite lookup_app_r, Nat.sub_diag by done. done.
  - apply connect_Ok in Ek as ->. eexists. by rewrite register_streak.
Qed.

(** C4: whatever the other nodes do and however their goroutines interleave, a
    connection accepted by the load balancer behaves exactly as a connection on
    its own that takes the same actions of its own at the same times, and the
    shared registry holds the same streak for it; so every property of a single
    connection holds for each of many.  The key of a connection is its address
    and port, which no other connection may have. *)
Theorem stream_isolated p file net s0 key r0 as_ s :
  connect (nm_cfg (srv_nm s0)) p file net (nm_registry (srv_nm s0)) = Ok (key, r0) →
  srun (Accept p file net :: as_) s0 = Some s →
  own_key (length (srv_streams s0)) key s →
  ∃ st r, srv_streams s !! length (srv_streams s0) = Some st ∧ st_key st = key ∧
    run key (timeout_of s0) (project (length (srv_streams s0)) as_)
      (start (timeout_of s0) (srv_now s0) r0) = Some (with_reg r (st_conn st)) ∧
    reg_streak r key = reg_streak (nm_registry (srv_nm s)) key.
Proof.
  intros Ek Hr Ho. destruct (accepted_isolated p file net s0 key r0 as_ s Ek Hr Ho) as (c & Hrun & Hi).
  destruct Hi as [_ (st & Hst & Hk & Heq) _ (n & H1 & H2)]. exists st, (reg c).
  split_and!; [done|done| |by rewrite H1, H2]. by rewrite <- Heq.
Qed.

(** C8: among any number of nodes, the load balancer times a node out exactly
    when its handler runs and no health check of that node has been accepted for
    the whole timeout, counted on the shared clock; what the other nodes send or
    fail to send does not matter. *)
Theorem server_timeout_iff_silent `{!GrpcLaws} p file net s0 key r0 as_ s :
  connect (nm_cfg (srv_nm s0)) p file net (nm_registry (srv_nm s0)) = Ok (key, r0) →
  srun (Accept p file net :: as_) s0 = Some s →
  own_key (length (srv_streams s0)) key s → crashed s = false →
  is_Some (sstep (Act (length (srv_streams s0)) TakeTimer) s) ↔
  (∃ st, srv_streams s !! length (srv_streams s0) = Some st ∧ hnd (st_conn st) = HSelect) ∧
  last_accept (srv_now s0) (accepted key (timeout_of s0) (project (length (srv_streams s0)) as_)
    (start (timeout_of s0) (srv_now s0) r0)) + timeout_of s0 ≤ srv_now s.
Proof.
  intros Ek Hr Ho Hc. destruct (accepted_isolated p file net s0 key r0 as_ s Ek Hr Ho) as (c & Hrun & Hi).
  destruct Hi as [HT (st & Hst & Hk & Heq) Hn _].
  assert (is_Some (sstep (Act (length (srv_streams s0)) TakeTimer) s) ↔
    is_Some (step key (timeout_of s0) TakeTimer c)) as ->.
  { unfold sstep, act_stream. rewrite Hc, Hst, Hk, HT, Heq. simpl.
    destruct (hnd (st_conn st)), (timer (st_conn st)); simpl; repeat case_decide; split; intros []; done. }
  rewrite (timer_enabled _ _ _ _ _ _ Hrun), Hn.
  assert (hnd c = HSelect ↔ ∃ st, srv_streams s !! length (srv_streams s0) = Some st ∧ hnd (st_conn st) = HSelect)
    as ->; [|done].
  rewrite Heq. simpl. split; [by exists st|]. intros (st' & Hst' & Hh). by simplify_eq.
Qed.

End Isolation.

(** ** One connection ends the process *)
Section Crash.

Context `{!GrpcLaws}.

Definition streams_inv (s : server) : Prop :=
  Forall (λ st, ∃ t0 acc, conn_inv (timeout_of s) t0 acc (st_conn st)) (srv_streams s).

Lemma sstep_streams_inv a s s' : sstep a s = Some s' → streams_inv s → streams_inv s'.
Proof.
  unfold sstep, streams_inv. destruct (crashed s); [done|]. intros Hs Hi. destruct a as [p file net|i a|t].
  - simplify_eq. unfold accept_stream. destruct (connect _ _ _ _ _) as [[key r]|]; [|done].
    apply Forall_app_2; [done|]. constructor; [|done]. eexists _, _. apply start_inv.
  - destruct (is_tick a); [done|]. unfold act_stream in Hs.
    destruct (srv_streams s !! i) as [st|] eqn:Ei; [|done].
    destruct (step _ _ _ _) as [c|] eqn:Es; simplify_eq. apply Forall_insert; [done|].
    destruct (Forall_lookup_1 _ _ _ _ Hi Ei) as (t0 & acc & Hc). eexists t0, _.
    eapply step_inv; [done|]. destruct Hc. by split.
  - case_decide; simplify_eq. simpl. apply Forall_fmap. eapply Forall_impl; [done|].
    intros st (t0 & acc & []). exists t0, acc. by split.
Qed.

(** One connection moves, the others stay. *)
Lemma act_one i a s st c :
  crashed s = false → is_tick a = false → srv_streams s !! i = Some st →
  step (st_key st) (timeout_of s) a (with_reg (nm_registry (srv_nm s)) (st_conn st)) = Some c →
  sstep (Act i a) s = Some (mkServer (mkNodeManager (nm_cfg (srv_nm s)) (reg c)) (srv_now s)
    (<[i := mkStream (st_key st) c]> (srv_streams s))).
Proof. intros Hc Ha Hi Hs. unfold sstep, act_stream. by rewrite Hc, Ha, Hi, Hs. Qed.

Lemma crashed_false s : crashed s = false ↔ Forall (λ st, panicked st = false) (srv_streams s).
Proof.
  unfold crashed. induction (srv_streams s) as [|st l IH]; simpl; [done|].
  by rewrite orb_false_iff, Forall_cons, IH.
Qed.

Lemma crashed_true s i st : srv_streams s !! i = Some st → panicked st = true → crashed s = true.
Proof.
  intros Hi Hp. destruct (crashed s) eqn:Hc; [done|]. rewrite crashed_false in Hc.
  pose proof (Forall_lookup_1 _ _ _ _ Hc Hi) as H1. simpl in H1. congruence.
Qed.

(** Whatever [Recv] returned, the listener of a returned handler panics. *)
Lemma listener_panics key T req err (c : conn (R:=R)) :
  closed c = true → step key T Send (with_lst (listener_recv req err) c) = Some (with_lst LPanic c).
Proof.
  intros Hc. simpl. unfold listener_send, listener_recv. simpl.
  destruct (gRPCErrUnrecoverable err); [by rewrite Hc|]. destruct err; by rewrite Hc.
Qed.

Lemma crashed_final a s : crashed s = true → sstep a s = None.
Proof. unfold sstep. by intros ->. Qed.

(** C30: one node ends the load balancer for all of them: once the handler of a
    connection has returned while its listener waits in [Recv], as it does after
    a timeout, the next thing [Recv] returns makes the listener send on a closed
    channel, and after that no goroutine of any connection moves again and no
    stream is accepted. *)
Theorem return_ends_process cfg r0 t0 as_ s i st ret req err :
  srun as_ (newNodeServer cfg r0 t0) = Some s → crashed s = false →
  srv_streams s !! i = Some st → hnd (st_conn st) = HReturned ret → lst (st_conn st) = LRecv →
  ∃ s', srun [Act i (Recv req err); Act i Send] s = Some s' ∧ ∀ a, sstep a s' = None.
Proof.
  intros Hr Hc Hi Hh Hl. assert (streams_inv s) as Hinv.
  { apply (run_steps_inv sstep (λ _, true) streams_inv) in Hr; [done| |apply forallb_true|by constructor].
    intros a s1 s2 _. apply sstep_streams_inv. }
  destruct (Forall_lookup_1 _ _ _ _ Hinv Hi) as (t & acc & Hci).
  destruct (inv_returned _ _ _ _ Hci _ Hh) as [Hcl _].
  set (c := with_reg (nm_registry (srv_nm s)) (st_conn st)).
  assert (i < length (srv_streams s))%nat as Hlt by (by eapply lookup_lt_Some).
  unfold srun. cbn [run_steps]. rewrite (act_one i (Recv req err) s st (with_lst (listener_recv req err) c));
    [|done|done|done|simpl; by rewrite Hl].
  erewrite act_one; [|apply crashed_false; apply Forall_insert; [by apply crashed_false|]
    |done|by apply list_lookup_insert_eq|by apply listener_panics].
  - eexists. split; [done|]. intros a. apply crashed_final.
    eapply (crashed_true _ i); [apply list_lookup_insert_eq; simpl; by rewrite length_insert|done].
  - unfold panicked, listener_recv. simpl. destruct (gRPCErrUnrecoverable err); [done|]. by destruct err.
Qed.

End Crash.

End LbServer.

(** ** Two nodes

    The first node reports after four seconds, the second one never does and is
    timed out after ten. *)
#[local] Existing Instance demo_grpc.

#[local] Existing Instance demo_grpc_laws.

Definition peer (ip : string) : option net_addr := Some (AddrTCP (Some (mkTCPAddr (ParseIP ip) 41234 EmptyString))).

Definition accept_node (ip : string) : saction := Accept (peer ip) (Ok EmptyString) demo_net.

Definition empty_server : server (R:=NodeRegistry) := newNodeServer LB.New New 0.

Definition two_nodes : list saction :=
  [accept_node "10.0.0.8"; Time (4 * Second);
   Act 0 (Recv (msg Serving) None); Act 0 Send; Act 0 TakeMsg; Time (10 * Second); Act 1 TakeTimer].

Definition second_key : string := "10.0.0.8:41234".

Definition both_registered : NodeRegistry := RegisterNode second_key (RegisterNode demo_key New).

Definition both : server (R:=NodeRegistry) :=
  mkServer (mkNodeManager LB.New
      (ReportNodeFailure second_key (ReportNewHealthCheck demo_key (4 * Second) both_registered)))
    (10 * Second)
    [mkStream demo_key (mkConn LRecv HSelect [] [] false (Some (14 * Second)) (10 * Second)
       (ReportNewHealthCheck demo_key (4 * Second) both_registered));
     mkStream second_key (mkConn LRecv
       (HReturned (Some (Errorf ("timed out waiting for health status from " +:+ second_key))))
       [] [] true None (10 * Second)
       (ReportNodeFailure second_key (ReportNewHealthCheck demo_key (4 * Second) both_registered)))].

Lemma stream_isolated_witness :
  ∃ st r, srv_streams both !! 0%nat = Some st ∧ st_key st = demo_key ∧
    run demo_key (10 * Second) [Tick (4 * Second); Recv (msg Serving) None; Send; TakeMsg; Tick (10 * Second)]
      (start (10 * Second) 0 (RegisterNode demo_key New)) = Some (with_reg r (st_conn st)) ∧
    reg_streak r demo_key = reg_streak (nm_registry (srv_nm both)) demo_key.
Proof.
  apply (stream_isolated (peer "10.0.0.7") (Ok EmptyString) demo_net empty_server demo_key
    (RegisterNode demo_key New) two_nodes both).
  - vm_compute. reflexivity.
  - vm_compute. reflexivity.
  - intros [|[|j]] Hj; vm_compute; [done|discriminate|by destruct j].
Defined.

Lemma return_ends_process_witness :
  ∃ s', srun [Act 1 (Recv None (Some err_Canceled)); Act 1 Send] both = Some s' ∧
    ∀ a, sstep a s' = None.
Proof.
  eapply (return_ends_process LB.New New 0 (accept_node "10.0.0.7" :: two_nodes) both 1);
    vm_compute; reflexivity.
Defined.

Lemma server_timeout_iff_silent_witness :
  is_Some (sstep (Act 0 TakeTimer) both) ↔
  (∃ st, srv_streams both !! 0%nat = Some st ∧ hnd (st_conn st) = HSelect) ∧
  last_accept 0 (accepted demo_key (10 * Second) (project 0 two_nodes)
    (start (10 * Second) 0 (RegisterNode demo_key New))) + 10 * Second ≤ 10 * Second.
Proof.
  apply (server_timeout_iff_silent (peer "10.0.0.7") (Ok EmptyString) demo_net empty_server demo_key
    (RegisterNode demo_key New) two_nodes both).
  - vm_compute. reflexivity.
  - vm_compute. reflexivity.
  - intros [|[|j]] Hj; vm_compute; [done|discriminate|by destruct j].
  - vm_compute. reflexivity.
Defined.
