(* ===== verification/Client.v ===== *)
(** * The gRPC client of a node ([pkg/nodenetwork/client.go])

    A [Client] is a connection to one load balancer with one open health
    stream.  Of the connection the dialled address is kept, of the stream what
    was given to its [Send] method and what the method returned.

    What the gRPC library returns is a parameter of each operation; [E] is the
    type of its errors. *)

From S2P Require Import Prelude GoFmt Consensus.

(** What the library returns while a client is set up and configured: the errors
    of [grpc.NewClient] and of opening the health stream, and the two results of
    the [GetConfig] call. *)
Record dial (E : Type) := mkDial {
  conn_err : option E;
  stream_err : option E;
  config_reply : option ConfigResponse;
  config_err : option E;
}.
Arguments mkDial {E}.
Arguments conn_err {E}.
Arguments stream_err {E}.
Arguments config_reply {E}.
Arguments config_err {E}.

Record Client (E : Type) := mkClient {
  remote : string;
  sends : list (HealthStatus * option E);
}.
Arguments mkClient {E}.
Arguments remote {E}.
Arguments sends {E}.

Section Client.

Context {E : Type}.

Definition NewClient (ip : string) (port : Z) (d : dial E) : result (Client E) (error E) :=
  let remoteServer := ip +:+ ":" +:+ fmt_d port in
  match conn_err d with
  | Some e => Err (Wrapf "could not connect to load balancer: " (Foreign e))
  | None =>
      match stream_err d with
      | Some e => Err (Wrapf "could not report health status: " (Foreign e))
      | None => Ok (mkClient remoteServer [])
      end
  end.

(** An error of the call is logged only: the reply decides. *)
Definition Client_GetConfig (d : dial E) : result ConfigResponse (error E) :=
  match config_reply d with
  | None => Err (Errorf "value retrieved in config is nil")
  | Some config => Ok config
  end.

(** [err] is what [Send] returns for the message. *)
Definition Client_ReportHealthStatus (healthStatus : HealthStatus) (err : option E) (c : Client E)
  : option E * Client E :=
  (err, mkClient (remote c) (sends c ++ [(healthStatus, err)])).

End Client.
