(* ===== verification/Dispatcher.v ===== *)
(** * The node's dispatcher ([pkg/nodenetwork/dispatcher.go])

    A [Dispatcher] is shared by every caller of [Start], [Stop] and [Status] and
    by the goroutines that report health to the load balancers.  The state below
    holds the fields of the struct, the contexts created so far, the calls of
    [Start] in progress and the reporting goroutines; [dstep] is one atomic
    action of one of them.  The sections under the mutex are atomic; the fields
    [generalCtx] and [generalCancel] are read and written outside it, as in the
    code.

    What the gRPC library returns is a parameter of each action: a [dial] for
    the set-up of a target, the result of [Send] for a report; [E] is the type of
    its errors. *)

From S2P Require Import Prelude GoFmt Consensus Client.

(** ** Data *)
Definition StatusRunning : string := "running".

Definition StatusStopped : string := "stopped".

Definition HealthCheckIntervalDivisor : Z := 2.

Record Target := mkTarget { target_IP : string; target_Port : Z }.

#[global] Instance Target_eq_dec : EqDecision Target.
Proof. solve_decision. Defined.

Definition Target_String (t : Target) : string :=
  target_IP t +:+ ":" +:+ fmt_d (target_Port t).

(** A [reportHealthLoop] goroutine: at the select, past it in the default case with
    the report not yet handed to the stream, in the sleep, returned. *)
Inductive loop_pc := LoopTop | LoopReport | LoopSleep | LoopDone.

#[global] Instance loop_pc_eq_dec : EqDecision loop_pc.
Proof. solve_decision. Defined.

Section Dispatcher.

Context {E : Type}.

Record loop := mkLoop {
  owner : nat;  (** the call of [Start] whose wait group it belongs to *)
  loop_client : Client E;
  loop_target : Target;
  loop_timeout : Z;
  loop_period : Z;
  loop_at : loop_pc;
}.

(** The health reports handed to the stream so far. *)
Definition reports (l : loop) : nat := length (sends (loop_client l)).

Definition fetchConfig (d : dial E) : result ConfigResponse (error E) := Client_GetConfig d.

(** ** [dispatcher.go] *)

(** A call of [Start]: before its first lock, after marking the dispatcher as
    running, in the loop of [startDispatchers] with the targets still to visit,
    in [wg.Wait], about to run the deferred function, returned. *)
Inductive start_pc :=
| SEntry
| SMarked
| SDispatch (rest : list Target)
| SWait
| SUnwind (ret : option (error E))
| SReturned (ret : option (error E)).

Record dispatcher := mkDispatcher {
  targets : gmap string Target;
  status : string;
  generalCtx : option nat;
  generalCancel : option nat;
  cancelled : list bool;  (** the contexts created so far *)
  starts : list start_pc;
  loops : list loop;
}.

Definition NewDispatcher (ts : gmap string Target) : dispatcher :=
  mkDispatcher ts StatusStopped None None [] [] [].

Definition with_status (st : string) (d : dispatcher) : dispatcher :=
  mkDispatcher (targets d) st (generalCtx d) (generalCancel d) (cancelled d) (starts d) (loops d).

Definition with_start (i : nat) (pc : start_pc) (d : dispatcher) : dispatcher :=
  mkDispatcher (targets d) (status d) (generalCtx d) (generalCancel d) (cancelled d)
    (<[i := pc]> (starts d)) (loops d).

Definition with_loops (ls : list loop) (d : dispatcher) : dispatcher :=
  mkDispatcher (targets d) (status d) (generalCtx d) (generalCancel d) (cancelled d) (starts d) ls.

(** [d.generalCtx, d.generalCancel = context.WithCancel(context.Background())] *)
Definition new_context (d : dispatcher) : dispatcher :=
  let c := length (cancelled d) in
  mkDispatcher (targets d) (status d) (Some c) (Some c) (cancelled d ++ [false]) (starts d) (loops d).

Definition cancel_context (c : nat) (d : dispatcher) : dispatcher :=
  mkDispatcher (targets d) (status d) (generalCtx d) (generalCancel d) (<[c := true]> (cancelled d))
    (starts d) (loops d).

Definition ctx_done (d : dispatcher) : bool :=
  match generalCtx d with Some c => default false (cancelled d !! c) | None => false end.

(** One round of the loop of [startDispatchers]: the client, the timeout and the
    period of the reports for the target. *)
Definition setup_target (t : Target) (r : dial E) : result (Client E * Z * Z) (error E) :=
  match NewClient (target_IP t) (target_Port t) r with
  | Err e => Err (Wrapf ("failed to create client for target " +:+ Target_String t +:+ ": ") e)
  | Ok client =>
      match fetchConfig r with
      | Err e => Err (Wrapf ("failed to fetch config for target " +:+ Target_String t +:+ ": ") e)
      | Ok executionCfg =>
          let normalizedTime := i64 (GetHealthCheckTimeout (Some executionCfg) * 1) in
          let healthPeriod := go_div normalizedTime HealthCheckIntervalDivisor in
          Ok (client, normalizedTime, healthPeriod)
      end
  end.

(** All goroutines of the wait group of call [i] are done. *)
Definition wait_over (i : nat) (d : dispatcher) : bool :=
  forallb (λ l, negb (bool_decide (owner l = i)) || bool_decide (loop_at l = LoopDone)) (loops d).

(** The call [i] creates its context and enters [startDispatchers]: the range
    over the map visits the targets in some order, a different one every time. *)
Definition start_range (i : nat) (order : list Target) (d : dispatcher) : option dispatcher :=
  match starts d !! i with
  | Some SMarked =>
      if decide (order ≡ₚ (map_to_list (targets d)).*2)
      then Some (with_start i (SDispatch order) (new_context d)) else None
  | _ => None
  end.

(** One atomic action of the call [i] of [Start], the one above apart; [r] is
    what the library returns when the action sets up a target. *)
Definition start_step (i : nat) (r : dial E) (d : dispatcher) : option dispatcher :=
  match starts d !! i with
  | Some SEntry =>
      if decide (status d = StatusRunning)
      then Some (with_start i (SReturned (Some (Errorf "dispatcher is already running"))) d)
      else Some (with_start i SMarked (with_status StatusRunning d))
  | Some (SDispatch []) => Some (with_start i SWait d)
  | Some (SDispatch (t :: rest)) =>
      match setup_target t r with
      | Err e => Some (with_start i (SUnwind (Some e)) d)
      | Ok (client, timeout, period) =>
          Some (with_start i (SDispatch rest)
            (with_loops (loops d ++ [mkLoop i client t timeout period LoopTop]) d))
      end
  | Some SWait => if wait_over i d then Some (with_start i (SUnwind None) d) else None
  | Some (SUnwind ret) => Some (with_start i (SReturned ret) (with_status StatusStopped d))
  | _ => None
  end.

(** The message of every report. *)
Definition serving_report : HealthStatus :=
  mkHealthStatus "gale-node" Serving "Serving requests goes brrrrr".

Definition with_at (pc : loop_pc) (l : loop) : loop :=
  mkLoop (owner l) (loop_client l) (loop_target l) (loop_timeout l) (loop_period l) pc.

(** One atomic action of a goroutine: the select, which looks at the context; the
    report, which returns [err]; the end of the sleep.  [Stop] may come between
    the select and the report.  An error of the report is logged, in two ways
    that depend on whether it is [io.EOF], and the loop goes on. *)
Definition loop_next (done : bool) (err : option E) (l : loop) : option loop :=
  match loop_at l with
  | LoopTop => Some (with_at (if done then LoopDone else LoopReport) l)
  | LoopReport =>
      let '(_, client) := Client_ReportHealthStatus serving_report err (loop_client l) in
      Some (mkLoop (owner l) client (loop_target l) (loop_timeout l) (loop_period l) LoopSleep)
  | LoopSleep => Some (with_at LoopTop l)
  | LoopDone => None
  end.

Definition loop_step (j : nat) (err : option E) (d : dispatcher) : option dispatcher :=
  match loops d !! j with
  | None => None
  | Some l => (λ l', with_loops (<[j := l']> (loops d)) d) <$> loop_next (ctx_done d) err l
  end.

(** [Stop], under the lock throughout.  [None] is the panic of calling a nil
    cancel function. *)
Definition Stop (d : dispatcher) : option (result unit (error E) * dispatcher) :=
  if decide (status d = StatusStopped) then Some (Err (Errorf "dispatcher is already stopped"), d)
  else
    match generalCancel d with
    | None => None
    | Some c => Some (Ok tt, with_status StatusStopped (cancel_context c d))
    end.

Definition Status (d : dispatcher) : string := status d.

(** ** Schedules *)
Inductive daction :=
| CallStart
| StartStep (i : nat) (r : dial E)
| StartRange (i : nat) (order : list Target)
| LoopStep (j : nat) (err : option E)
| CallStop.

Definition dstep (a : daction) (d : dispatcher) : option dispatcher :=
  match a with
  | CallStart =>
      Some (mkDispatcher (targets d) (status d) (generalCtx d) (generalCancel d) (cancelled d)
        (starts d ++ [SEntry]) (loops d))
  | StartStep i r => start_step i r d
  | StartRange i order => start_range i order d
  | LoopStep j err => loop_step j err d
  | CallStop => snd <$> Stop d
  end.

Definition drun : list daction → dispatcher → option dispatcher := run_steps dstep.

(** ** Specification *)

(** A call of [Start] that has marked the dispatcher and not yet unmarked it. *)
Definition active_count (pc : start_pc) : nat :=
  match pc with SMarked | SDispatch _ | SWait | SUnwind _ => 1 | _ => 0 end.

Definition active_starts (d : dispatcher) : nat := sum_list (active_count <$> starts d).

(** A call of [Start] that may still create a context. *)
Definition unborn (pc : start_pc) : bool :=
  match pc with SEntry | SMarked => true | _ => false end.

(** The reports a goroutine has sent, with the one it is past the select for. *)
Definition committed (l : loop) : nat :=
  reports l + (if decide (loop_at l = LoopReport) then 1 else 0).

(** The same for the goroutine number [j], none if it does not exist yet. *)
Definition committed_at (j : nat) (d : dispatcher) : nat := default 0%nat (committed <$> loops d !! j).

(** No call of [Start] is made along a schedule. *)
Definition no_start (a : daction) : bool := match a with CallStart => false | _ => true end.

Definition no_stop (a : daction) : bool := match a with CallStop => false | _ => true end.

(** Steps of goroutines and of calls already made. *)
Definition internal (a : daction) : bool :=
  match a with StartStep _ _ | StartRange _ _ | LoopStep _ _ => true | _ => false end.

(** The dispatcher is shutting down: it is marked as stopped, its current
    context is cancelled, and no call of [Start] will create another one. *)
Record winding_down (d : dispatcher) : Prop := {
  wd_status : status d = StatusStopped;
  wd_ctx : ctx_done d = true;
  wd_starts : Forall (λ pc, unborn pc = false) (starts d);
}.

(** ** The fields of the context *)
Definition ctx_inv (d : dispatcher) : Prop :=
  generalCtx d = generalCancel d ∧ ∀ c, generalCtx d = Some c → (c < length (cancelled d))%nat.

Lemma dstep_ctx_inv a d d' : dstep a d = Some d' → ctx_inv d → ctx_inv d'.
Proof.
  intros Hs [Heq Hlt]. destruct a as [|i r|i order|j err|]; simpl in Hs.
  - simplify_eq. by split.
  - unfold start_step in Hs. repeat case_match; simplify_eq; by split.
  - unfold start_range in Hs. repeat case_match; simplify_eq. split; simpl; [done|].
    intros c [= <-]. rewrite length_app. simpl. lia.
  - unfold loop_step in Hs. destruct (loops d !! j); [|done].
    destruct (loop_next _ _ _); simplify_eq/=. by split.
  - unfold Stop in Hs. repeat case_match; simplify_eq/=; [by split|].
    split; simpl; [congruence|]. intros c Hc. rewrite length_insert. auto.
Qed.

Lemma drun_ctx_inv as_ d d' : drun as_ d = Some d' → ctx_inv d → ctx_inv d'.
Proof.
  apply (run_steps_inv dstep (λ _, true)); [|apply forallb_true]. intros a d1 d2 _. apply dstep_ctx_inv.
Qed.

Lemma NewDispatcher_ctx_inv ts : ctx_inv (NewDispatcher ts).
Proof. by split. Qed.

Lemma Stop_winds_down d d' :
  ctx_inv d → Stop d = Some (Ok tt, d') → Forall (λ pc, unborn pc = false) (starts d) → winding_down d'.
Proof.
  intros [Heq Hlt] Hs Hu. unfold Stop in Hs. case_decide; [done|].
  destruct (generalCancel d) as [c|] eqn:Ec; simplify_eq. split; simpl; [done| |done].
  unfold ctx_done. simpl. rewrite Heq. simpl. rewrite list_lookup_insert_eq; [done|]. by apply Hlt.
Qed.

(** ** Winding down *)
Lemma ctx_done_cancel c d : ctx_done d = true → ctx_done (cancel_context c d) = true.
Proof.
  unfold ctx_done. simpl. destruct (generalCtx d) as [c'|]; [|done].
  destruct (cancelled d !! c') as [b|] eqn:Eb; [|done]. simpl. intros ->.
  destruct (decide (c = c')) as [->|].
  - rewrite list_lookup_insert_eq; [done|]. by eapply lookup_lt_Some.
  - by rewrite list_lookup_insert_ne, Eb.
Qed.

Lemma loop_next_done err l l' :
  loop_next true err l = Some l' → committed l' = committed l.
Proof.
  unfold loop_next, committed, reports. destruct (loop_at l); intros; simplify_eq/=; try lia.
  rewrite length_app. simpl. lia.
Qed.

(** A fresh client talks to the address of its target and has sent nothing. *)
Lemma setup_target_client t r client timeout period :
  setup_target t r = Ok (client, timeout, period) → client = mkClient (Target_String t) [].
Proof.
  unfold setup_target, NewClient. destruct (conn_err r), (stream_err r); try done.
  destruct (fetchConfig r); intros; by simplify_eq.
Qed.

Lemma setup_target_fresh t r client timeout period :
  setup_target t r = Ok (client, timeout, period) → sends client = [].
Proof. by intros ->%setup_target_client. Qed.

Lemma sum_list_insert (l : list nat) i x y :
  l !! i = Some x → (sum_list (<[i := y]> l) + x = sum_list l + y)%nat.
Proof.
  revert i. induction l as [|z l IH]; intros [|i] Hi; simplify_eq/=; [lia|].
  specialize (IH i Hi). lia.
Qed.

Lemma unborn_no_range i order d :
  Forall (λ pc, unborn pc = false) (starts d) → start_range i order d = None.
Proof.
  intros Hu. unfold start_range. destruct (starts d !! i) as [pc|] eqn:Ei; [|done].
  pose proof (Forall_lookup_1 _ _ _ _ Hu Ei). by destruct pc.
Qed.

Lemma dstep_winding_down a d d' :
  no_start a = true → dstep a d = Some d' → winding_down d →
  winding_down d' ∧ ∀ k, committed_at k d' = committed_at k d.
Proof.
  intros Ha Hs Hw. destruct Hw as [Hst Hc Hu]. destruct a as [|i r|i order|j err|]; simpl in Hs; [done|..].
  - unfold start_step in Hs. destruct (starts d !! i) as [pc|] eqn:Ei; [|done].
    pose proof (Forall_lookup_1 _ _ _ _ Hu Ei) as Hpc.
    destruct pc as [| |[|t rest]| |ret|ret]; try done.
    + simplify_eq. split; [|done]. split; simpl; [done|done|]. by apply Forall_insert.
    + destruct (setup_target t r) as [[[cl tm] pd]|e] eqn:Es; simplify_eq.
      * split; [split; simpl; [done|done|by apply Forall_insert]|].
        intros k. unfold committed_at. simpl. destruct (decide (k < length (loops d))%nat) as [Hk|Hk].
        { by rewrite lookup_app_l. }
        rewrite lookup_app_r, (lookup_ge_None_2 (loops d)) by lia.
        destruct (k - length (loops d))%nat; [|done]. simpl. unfold committed, reports. simpl.
        by rewrite (setup_target_fresh _ _ _ _ _ Es).
      * split; [|done]. split; simpl; [done|done|by apply Forall_insert].
    + case_match; simplify_eq. split; [|done]. split; simpl; [done|done|by apply Forall_insert].
    + simplify_eq. split; [|done]. split; simpl; [done|done|by apply Forall_insert].
  - by rewrite (unborn_no_range i order d Hu) in Hs.
  - unfold loop_step in Hs. destruct (loops d !! j) as [l|] eqn:El; [|done]. rewrite Hc in Hs.
    destruct (loop_next true err l) as [l'|] eqn:En; simplify_eq/=.
    split; [by split|]. intros k. unfold committed_at. simpl. destruct (decide (j = k)) as [<-|Hk].
    + rewrite list_lookup_insert_eq, El by (by eapply lookup_lt_Some). simpl. by eapply loop_next_done.
    + by rewrite list_lookup_insert_ne.
  - unfold Stop in Hs. rewrite decide_True in Hs by done. simplify_eq/=. split; [by split|done].
Qed.

Lemma drun_winding_down as_ d d' :
  forallb no_start as_ = true → drun as_ d = Some d' → winding_down d →
  winding_down d' ∧ ∀ k, committed_at k d' = committed_at k d.
Proof.
  intros Ha Hr Hw.
  apply (run_steps_inv dstep no_start
    (λ x, winding_down x ∧ ∀ k, committed_at k x = committed_at k d)) in Hr; [done| |done|done].
  intros a d1 d2 Hp Hs [Hw1 He]. destruct (dstep_winding_down a d1 d2 Hp Hs Hw1) as [Hw2 He2].
  split; [done|]. intros k. by rewrite He2.
Qed.

(** C10: after a successful [Stop] the reports come to an end at once: under every
    schedule without a further call of [Start], a goroutine sends one more report
    if it was already past its select when [Stop] was called, and none otherwise,
    one that is started later by a call of [Start] in progress included.  (No
    earlier call of [Start] may be before the creation of its context.) *)
Theorem no_reports_after_stop ts before d d1 after d2 :
  drun before (NewDispatcher ts) = Some d → Stop d = Some (Ok tt, d1) →
  Forall (λ pc, unborn pc = false) (starts d) →
  forallb no_start after = true → drun after d1 = Some d2 →
  Status d2 = StatusStopped ∧
  ∀ j l, loops d2 !! j = Some l →
    (reports l ≤ match loops d1 !! j with
                 | Some l1 => reports l1 + (if decide (loop_at l1 = LoopReport) then 1 else 0)
                 | None => 0
                 end)%nat.
Proof.
  intros Hr Hs Hu Ha Hr2.
  assert (winding_down d1) as Hw.
  { eapply Stop_winds_down; [|done|done]. eapply drun_ctx_inv; [done|apply NewDispatcher_ctx_inv]. }
  destruct (drun_winding_down after d1 d2 Ha Hr2 Hw) as [[Hst _ _] Hrep]. split; [done|].
  intros j l Hl. specialize (Hrep j). unfold committed_at in Hrep. rewrite Hl in Hrep. simpl in Hrep.
  unfold committed in Hrep at 1. destruct (loops d1 !! j) as [l1|]; simpl in Hrep; [|lia].
  unfold committed in Hrep. lia.
Qed.

(** ** Termination of the goroutines *)

(** How many atomic actions are left, at most, while winding down. *)
Definition loop_weight (l : loop) : nat :=
  match loop_at l with LoopTop => 1 | LoopSleep => 2 | LoopReport => 3 | LoopDone => 0 end.

Definition start_weight (pc : start_pc) : nat :=
  match pc with
  | SDispatch rest => 3 + 2 * length rest
  | SWait => 2
  | SUnwind _ => 1
  | _ => 0
  end.

Definition weight (d : dispatcher) : nat :=
  sum_list (loop_weight <$> loops d) + sum_list (start_weight <$> starts d).

Lemma weight_with_start i pc pc' d :
  starts d !! i = Some pc →
  (weight (with_start i pc' d) + start_weight pc = weight d + start_weight pc')%nat.
Proof.
  intros Hi. unfold weight. simpl. rewrite list_fmap_insert.
  pose proof (sum_list_insert (start_weight <$> starts d) i (start_weight pc) (start_weight pc')) as H.
  rewrite list_lookup_fmap, Hi in H. specialize (H eq_refl). lia.
Qed.

Lemma loop_next_weight err l l' : loop_next true err l = Some l' → (loop_weight l' < loop_weight l)%nat.
Proof.
  unfold loop_next, loop_weight. destruct (loop_at l); intros; simplify_eq/=; lia.
Qed.

Lemma dstep_weight a d d' :
  internal a = true → dstep a d = Some d' → winding_down d → (weight d' < weight d)%nat.
Proof.
  intros Ha Hs [Hst Hc Hu]. destruct a as [|i r|i order|j err|]; simpl in Hs; try done.
  - unfold start_step in Hs. destruct (starts d !! i) as [pc|] eqn:Ei; [|done].
    pose proof (Forall_lookup_1 _ _ _ _ Hu Ei) as Hpc.
    destruct pc as [| |[|t rest]| |ret|ret]; try done.
    + simplify_eq. pose proof (weight_with_start i _ SWait d Ei) as Hw. simpl in Hw. lia.
    + destruct (setup_target t r) as [[[cl tm] pd]|e]; simplify_eq.
      * set (d1 := with_loops _ d).
        pose proof (weight_with_start i _ (SDispatch rest) d1 Ei) as Hw. simpl in Hw.
        assert (weight d1 = S (weight d)) as Hd1.
        { unfold weight, d1. simpl. rewrite fmap_app, sum_list_with_app. simpl. lia. }
        lia.
      * pose proof (weight_with_start i _ (SUnwind (Some e)) d Ei) as Hw. simpl in Hw. lia.
    + case_match; simplify_eq.
      pose proof (weight_with_start i _ (SUnwind None) d Ei) as Hw. simpl in Hw. lia.
    + simplify_eq. pose proof (weight_with_start i _ (SReturned ret) (with_status StatusStopped d) Ei) as Hw.
      simpl in Hw. unfold weight in *. simpl in *. lia.
  - by rewrite (unborn_no_range i order d Hu) in Hs.
  - unfold loop_step in Hs. destruct (loops d !! j) as [l|] eqn:El; [|done]. rewrite Hc in Hs.
    destruct (loop_next true err l) as [l'|] eqn:En; simplify_eq/=.
    apply loop_next_weight in En. unfold weight. simpl. rewrite list_fmap_insert.
    pose proof (sum_list_insert (loop_weight <$> loops d) j (loop_weight l) (loop_weight l')) as Hsum.
    rewrite list_lookup_fmap, El in Hsum. specialize (Hsum eq_refl). lia.
Qed.

Lemma drun_weight as_ d d' :
  forallb internal as_ = true → drun as_ d = Some d' → winding_down d →
  winding_down d' ∧ (weight d' + length as_ ≤ weight d)%nat.
Proof.
  apply (run_steps_weight dstep internal winding_down weight). intros a d1 d2 Ha Hs Hw.
  split; [|by eapply dstep_weight]. eapply dstep_winding_down; [|done|done]. by destruct a.
Qed.

Lemma all_done_wait_over i d :
  Forall (λ l, loop_at l = LoopDone) (loops d) → wait_over i d = true.
Proof.
  unfold wait_over. induction 1 as [|l ls Hl _ IH]; simpl; [done|].
  by rewrite IH, (bool_decide_eq_true_2 _ Hl), orb_true_r.
Qed.

(** Something can still run unless everything has returned. *)
Lemma winding_down_progress d (r : dial E) :
  winding_down d →
  (∃ a, internal a = true ∧ is_Some (dstep a d)) ∨
  (Forall (λ l, loop_at l = LoopDone) (loops d) ∧
   Forall (λ pc, ∃ ret, pc = SReturned ret) (starts d)).
Proof.
  intros [Hst Hc Hu].
  destruct (decide (Forall (λ l, loop_at l = LoopDone) (loops d))) as [Hl|Hl].
  - destruct (decide (Forall (λ pc, start_weight pc = 0%nat) (starts d))) as [Hp|Hp].
    + right. split; [done|]. apply Forall_forall. intros pc Hin.
      rewrite Forall_forall in Hp, Hu. specialize (Hp pc Hin). specialize (Hu pc Hin).
      destruct pc; simplify_eq/=; eauto.
    + left. apply not_Forall_Exists in Hp; [|apply _].
      apply Exists_exists in Hp as (pc & (i & Hi)%list_elem_of_lookup & Hw).
      exists (StartStep i r). split; [done|]. simpl. unfold start_step. rewrite Hi.
      destruct pc as [| |[|t rest]| |ret|ret]; simpl in Hw; [done|done|by eexists| | |by eexists|done].
      * destruct (setup_target t r) as [[[]]|]; by eexists.
      * rewrite all_done_wait_over by done. by eexists.
  - left. apply not_Forall_Exists in Hl; [|apply _].
    apply Exists_exists in Hl as (l & (j & Hj)%list_elem_of_lookup & Hn).
    exists (LoopStep j None). split; [done|]. simpl. unfold loop_step. rewrite Hj, Hc.
    simpl in Hn. unfold loop_next. destruct (loop_at l); [by eexists..|done].
Qed.

(** C12: after a successful [Stop], when no call of [Start] is before the creation
    of its context and none is made any more, everything comes to an end: no
    schedule of the goroutines and of the calls in progress is longer than the
    weight of the state, and when none of them can move any more every reporting
    goroutine and every call of [Start] has returned. *)
Theorem stop_terminates ts before d d1 after d2 (r : dial E) :
  drun before (NewDispatcher ts) = Some d → Stop d = Some (Ok tt, d1) →
  Forall (λ pc, unborn pc = false) (starts d) →
  forallb internal after = true → drun after d1 = Some d2 →
  (length after ≤ weight d1)%nat ∧
  ((∃ a, internal a = true ∧ is_Some (dstep a d2)) ∨
   (Forall (λ l, loop_at l = LoopDone) (loops d2) ∧
    Forall (λ pc, ∃ ret, pc = SReturned ret) (starts d2))).
Proof.
  intros Hr Hs Hu Ha Hr2.
  assert (winding_down d1) as Hw.
  { eapply Stop_winds_down; [|done|done]. eapply drun_ctx_inv; [done|apply NewDispatcher_ctx_inv]. }
  destruct (drun_weight after d1 d2 Ha Hr2 Hw) as [Hw2 Hlen]. split; [lia|].
  by apply (winding_down_progress d2 r).
Qed.

(** ** The status without [Stop] *)
Lemma active_insert (l : list start_pc) i pc pc' :
  l !! i = Some pc →
  (sum_list (active_count <$> <[i := pc']> l) + active_count pc =
   sum_list (active_count <$> l) + active_count pc')%nat.
Proof.
  intros Hi. rewrite list_fmap_insert. apply sum_list_insert. by rewrite list_lookup_fmap, Hi.
Qed.

(** The number of active calls that the status announces. *)
Definition announced (d : dispatcher) : nat := if decide (status d = StatusRunning) then 1 else 0.

Definition status_inv (d : dispatcher) : Prop :=
  active_starts d = announced d ∧ (status d = StatusRunning ∨ status d = StatusStopped).

Lemma dstep_status_inv a d d' :
  no_stop a = true → dstep a d = Some d' → status_inv d → status_inv d'.
Proof.
  intros Ha Hs [Hn Hst]. destruct a as [|i r|i order|j err|]; simpl in Hs; [| | | |done].
  - simplify_eq. split; [|done]. unfold active_starts in *. simpl.
    rewrite fmap_app, sum_list_with_app. simpl. by rewrite Nat.add_0_r.
  - unfold start_step in Hs. destruct (starts d !! i) as [pc|] eqn:Ei; [|done].
    unfold status_inv, active_starts, announced in *.
    destruct pc as [| |[|t rest]| |ret|ret]; try done.
    + pose proof (active_insert _ i _ SMarked Ei) as H1.
      pose proof (active_insert _ i _ (SReturned (Some (Errorf "dispatcher is already running"))) Ei) as H2.
      simpl in H1, H2. destruct (decide (status d = StatusRunning)) as [Hd|Hd]; simplify_eq; simpl.
      * rewrite decide_True by done. split; [lia|done].
      * split; [lia|by left].
    + pose proof (active_insert _ i _ SWait Ei) as H1. simplify_eq/=. split; [etrans; [|exact Hn]; lia|done].
    + destruct (setup_target t r) as [[[cl tm] pd]|e]; simplify_eq/=.
      * pose proof (active_insert _ i _ (SDispatch rest) Ei) as H1. simpl in H1. split; [etrans; [|exact Hn]; lia|done].
      * pose proof (active_insert _ i _ (SUnwind (Some e)) Ei) as H1. simpl in H1. split; [etrans; [|exact Hn]; lia|done].
    + destruct (wait_over i d); simplify_eq/=.
      pose proof (active_insert _ i _ (SUnwind None) Ei) as H1. simpl in H1. split; [etrans; [|exact Hn]; lia|done].
    + pose proof (active_insert _ i _ (SReturned ret) Ei) as H1. simplify_eq/=.
      destruct (decide (status d = StatusRunning)); [|lia]. split; [lia|by right].
  - unfold start_range in Hs. destruct (starts d !! i) as [pc|] eqn:Ei; [|done].
    destruct pc; try done. destruct (decide _) as [_|]; simplify_eq.
    unfold status_inv, active_starts, announced in *.
    pose proof (active_insert _ i _ (SDispatch order) Ei) as H1. simpl in *.
    split; [etrans; [|exact Hn]; lia|done].
  - unfold loop_step in Hs. destruct (loops d !! j); [|done].
    destruct (loop_next _ _ _); simplify_eq/=. by split.
Qed.

Lemma drun_status_inv as_ d d' :
  forallb no_stop as_ = true → drun as_ d = Some d' → status_inv d → status_inv d'.
Proof. apply (run_steps_inv dstep no_stop status_inv dstep_status_inv). Qed.

(** C18: as long as [Stop] is not called, the dispatcher is reported as running
    exactly while one call of [Start] is in progress, and never are two calls in
    progress at once, however many are made concurrently. *)
Theorem status_accurate_without_stop ts as_ d :
  forallb no_stop as_ = true → drun as_ (NewDispatcher ts) = Some d →
  active_starts d = if decide (Status d = StatusRunning) then 1%nat else 0%nat.
Proof.
  intros Ha Hr. apply drun_status_inv in Hr as [Hn _]; [done|done|]. split; [done|by right].
Qed.

(** ** What is sent, and where to *)

(** The targets that a call of [Start] has still to visit. *)
Definition to_visit (pc : start_pc) : list Target :=
  match pc with SDispatch rest => rest | _ => [] end.

(** A loop sends the one report there is, to the address of its target, which is
    one of the targets of the dispatcher. *)
Record loop_ok (ts : gmap string Target) (l : loop) : Prop := {
  lo_target : ∃ k, ts !! k = Some (loop_target l);
  lo_remote : remote (loop_client l) = Target_String (loop_target l);
  lo_sends : Forall (λ m, m.1 = serving_report) (sends (loop_client l));
}.

Record sending_inv (ts : gmap string Target) (d : dispatcher) : Prop := {
  si_targets : targets d = ts;
  si_visit : Forall (λ pc, Forall (λ t, ∃ k, ts !! k = Some t) (to_visit pc)) (starts d);
  si_loops : Forall (loop_ok ts) (loops d);
}.

Lemma sending_with_start ts i pc d :
  Forall (λ t, ∃ k, ts !! k = Some t) (to_visit pc) → sending_inv ts d → sending_inv ts (with_start i pc d).
Proof. intros Hp [? Hv ?]. split; simpl; [done|by apply Forall_insert|done]. Qed.

Lemma map_values_elem (ts : gmap string Target) order :
  order ≡ₚ (map_to_list ts).*2 → Forall (λ t, ∃ k, ts !! k = Some t) order.
Proof.
  intros ->. apply Forall_forall. intros t ([k t'] & -> & Hin)%list_elem_of_fmap.
  exists k. by apply elem_of_map_to_list.
Qed.

Lemma loop_next_ok ts done err l l' : loop_next done err l = Some l' → loop_ok ts l → loop_ok ts l'.
Proof.
  intros Hn [Ht Hr Hs]. unfold loop_next in Hn. destruct (loop_at l); [destruct done|..]; simplify_eq/=;
    split; try done. simpl. by apply Forall_app_2; [|constructor].
Qed.

Lemma dstep_sending ts a d d' : dstep a d = Some d' → sending_inv ts d → sending_inv ts d'.
Proof.
  intros Hs Hi. destruct a as [|i r|i order|j err|]; simpl in Hs.
  - simplify_eq. destruct Hi as [? Hv ?]. split; simpl; [done| |done]. apply Forall_app_2; [done|by repeat constructor].
  - unfold start_step in Hs. destruct (starts d !! i) as [pc|] eqn:Ei; [|done].
    assert (Forall (λ t, ∃ k, ts !! k = Some t) (to_visit pc)) as Hv
      by (by eapply (Forall_lookup_1 _ _ _ _ (si_visit _ _ Hi))).
    destruct pc as [| |[|t rest]| |ret|ret]; simplify_eq; try by (apply sending_with_start; [constructor|destruct Hi; by split]).
    + case_decide; simplify_eq; (apply sending_with_start; [constructor|destruct Hi; by split]).
    + simpl in Hv. inversion_clear Hv as [|? ? Ht Hrest].
      destruct (setup_target t r) as [[[cl tm] pd]|e] eqn:Es; simplify_eq;
        [|by apply sending_with_start; [constructor|]].
      apply sending_with_start; [done|]. destruct Hi as [? ? Hl]. split; [done..|]. simpl.
      apply Forall_app_2; [done|]. apply setup_target_client in Es as ->. constructor; [|constructor]. by split.
    + case_match; simplify_eq. by apply sending_with_start; [constructor|].
  - unfold start_range in Hs. repeat case_match; simplify_eq. destruct Hi as [Et Hv Hl].
    apply sending_with_start; [|by split]. simpl. rewrite <- Et. by apply map_values_elem.
  - unfold loop_step in Hs. destruct (loops d !! j) as [l|] eqn:El; [|done].
    destruct (loop_next _ _ _) as [l'|] eqn:En; simplify_eq/=. destruct Hi as [? ? Hl].
    split; [done..|]. simpl. apply Forall_insert; [done|].
    eapply loop_next_ok; [done|]. by eapply (Forall_lookup_1 _ _ _ _ Hl).
  - destruct Hi. unfold Stop in Hs. repeat case_match; simplify_eq/=; by split.
Qed.

(** C13: under every schedule of calls of [Start] and [Stop], everything the node
    ever sends is the one report that it is serving, whatever the stream
    answered to earlier ones, and each reporting goroutine sends it to the
    address of a target that the dispatcher was created with. *)
Theorem reports_to_targets ts as_ d l :
  drun as_ (NewDispatcher ts) = Some d → l ∈ loops d →
  (∃ k t, ts !! k = Some t ∧ loop_target l = t ∧ remote (loop_client l) = Target_String t) ∧
  Forall (λ m, GetStatus (Some m.1) = Serving) (sends (loop_client l)).
Proof.
  intros Hr Hl. assert (sending_inv ts d) as [_ _ Hi].
  { apply (run_steps_inv dstep (λ _, true) (sending_inv ts)) in Hr; [done| |apply forallb_true|].
    - intros a d1 d2 _. apply dstep_sending.
    - by split; simpl; [|constructor..]. }
  rewrite Forall_forall in Hi. destruct (Hi l Hl) as [[k Hk] Hrem Hs]. split; [by exists k, (loop_target l)|].
  eapply Forall_impl; [done|]. by intros m ->.
Qed.

(** ** Races *)

#[local] Arguments setup_target : simpl never.

Lemma map_values_singleton (k : string) (t : Target) :
  [t] ≡ₚ (map_to_list ({[k := t]} : gmap string Target)).*2.
Proof. by rewrite map_to_list_singleton. Qed.

Lemma map_values_pair (k1 k2 : string) (t1 t2 : Target) :
  k1 ≠ k2 → [t1; t2] ≡ₚ (map_to_list ({[k1 := t1; k2 := t2]} : gmap string Target)).*2.
Proof.
  intros Hk. rewrite map_to_list_insert, map_to_list_singleton; [done|]. by rewrite lookup_singleton_ne.
Qed.

(** A [Stop] that arrives between the moment a first [Start] marks the
    dispatcher as running and the moment it creates the context calls a nil
    function, which is a run-time panic. *)
Theorem stop_before_context_panics ts (r : dial E) :
  ∃ d, drun [CallStart; StartStep 0 r] (NewDispatcher ts) = Some d ∧
    Status d = StatusRunning ∧ Stop d = None.
Proof. eexists. split; [reflexivity|]. split; reflexivity. Qed.

(** When a target after the first cannot be set up, [Start] returns the error
    and the dispatcher is reported as stopped while the goroutines already
    started keep running with a context that nobody will cancel: [Stop] refuses
    because the dispatcher is stopped. *)
Theorem failed_start_leaks k1 k2 t1 t2 (r1 r2 : dial E) client timeout period e :
  k1 ≠ k2 → setup_target t1 r1 = Ok (client, timeout, period) → setup_target t2 r2 = Err e →
  ∃ d, drun [CallStart; StartStep 0 r1; StartRange 0 [t1; t2]; StartStep 0 r1; StartStep 0 r2; StartStep 0 r2]
      (NewDispatcher {[k1 := t1; k2 := t2]}) = Some d ∧
    starts d = [SReturned (Some e)] ∧ Status d = StatusStopped ∧
    loops d = [mkLoop 0 client t1 timeout period LoopTop] ∧ ctx_done d = false ∧
    Stop d = Some (Err (Errorf "dispatcher is already stopped"), d).
Proof.
  intros Hk H1 H2. eexists. split.
  - unfold drun, run_steps, dstep, start_step, start_range. simpl.
    rewrite decide_True by (by apply map_values_pair). simpl. rewrite H1. simpl. rewrite H2. reflexivity.
  - split_and!; reflexivity.
Qed.

(** A load balancer that accepts the connection and answers with [cfg]. *)
Definition reachable_lb (cfg : ConfigResponse) : dial E := mkDial None None (Some cfg) None.

(** The actions of call [i] of [Start] from its entry to [wg.Wait], one target. *)
Definition start_one (i : nat) (t : Target) (r : dial E) : list daction :=
  [StartStep i r; StartRange i [t]; StartStep i r; StartStep i r].

(** C38: restarting the dispatcher right after [Stop] loses track of it: when the
    first call of [Start] gets around to its deferred function, it marks the
    dispatcher as stopped although the second call is running; the report loop
    of the second call goes on and [Stop] refuses to stop it. *)
Theorem restart_loses_status k t (r : dial E) client timeout period :
  setup_target t r = Ok (client, timeout, period) →
  ∃ d l, drun ([CallStart] ++ start_one 0 t r ++ [CallStop; LoopStep 0 None; CallStart] ++
        start_one 1 t r ++ [StartStep 0 r; StartStep 0 r]) (NewDispatcher {[k := t]}) = Some d ∧
    starts d = [SReturned None; SWait] ∧ Status d = StatusStopped ∧
    loops d !! 1%nat = Some l ∧ loop_at l = LoopTop ∧ ctx_done d = false ∧
    Stop d = Some (Err (Errorf "dispatcher is already stopped"), d).
Proof.
  intros H1. do 2 eexists. split.
  - unfold drun, run_steps, dstep, start_step, start_range. simpl.
    rewrite !decide_True by (by apply map_values_singleton). simpl. rewrite H1. simpl.
    rewrite !decide_True by (by apply map_values_singleton). simpl. rewrite H1. reflexivity.
  - split_and!; reflexivity.
Qed.

(** A report loop that sleeps while the dispatcher is stopped and started
    again reads the context of the new run when it wakes up: it never sees its
    own cancellation, and two loops report to the same load balancer. *)
Theorem restart_revives_loop k t (r : dial E) client timeout period :
  setup_target t r = Ok (client, timeout, period) →
  ∃ d l0 l1, drun ([CallStart] ++ start_one 0 t r ++ [LoopStep 0 None; LoopStep 0 None; CallStop; CallStart] ++
        start_one 1 t r ++
        [LoopStep 0 None; LoopStep 0 None; LoopStep 0 None; LoopStep 1 None; LoopStep 1 None]) (NewDispatcher {[k := t]}) = Some d ∧
    starts d = [SWait; SWait] ∧ loops d = [l0; l1] ∧
    loop_target l0 = t ∧ loop_target l1 = t ∧ reports l0 = 2%nat ∧ reports l1 = 1%nat ∧
    loop_at l0 = LoopSleep ∧ loop_at l1 = LoopSleep.
Proof.
  intros H1. pose proof (setup_target_client _ _ _ _ _ H1) as ->. do 3 eexists. split.
  - unfold drun, run_steps, dstep, start_step, start_range. simpl.
    rewrite !decide_True by (by apply map_values_singleton). simpl. rewrite H1. simpl.
    rewrite !decide_True by (by apply map_values_singleton). simpl. rewrite H1. reflexivity.
  - split_and!; reflexivity.
Qed.

(** The period of the reports is half of the timeout that the load balancer
    announced, rounded down, and the timeout is passed on unchanged. *)
Theorem report_period t (r : dial E) cfg :
  conn_err r = None → stream_err r = None → config_reply r = Some cfg →
  0 ≤ cr_HealthCheckTimeout cfg < 2 ^ 63 →
  ∃ period, setup_target t r = Ok (mkClient (Target_String t) [], cr_HealthCheckTimeout cfg, period) ∧
    0 ≤ period ∧ 2 * period ≤ cr_HealthCheckTimeout cfg < 2 * period + 2.
Proof.
  intros H1 H2 H3 Hr. exists (cr_HealthCheckTimeout cfg / 2).
  unfold setup_target, NewClient, fetchConfig, Client_GetConfig. rewrite H1, H2, H3. simpl.
  rewrite Z.mul_1_r. unfold i64. rewrite swrap_small; [|lia|unfold in_sint; lia].
  unfold go_div, HealthCheckIntervalDivisor. rewrite Z.quot_div_nonneg by lia.
  split; [done|]. pose proof (Z.div_mod (cr_HealthCheckTimeout cfg) 2 ltac:(lia)).
  pose proof (Z.mod_pos_bound (cr_HealthCheckTimeout cfg) 2 ltac:(lia)).
  split; [apply Z.div_pos; lia|lia].
Qed.

End Dispatcher.

(** ** Concrete runs *)
Definition demo_target : Target := mkTarget "192.168.1.2" 7070.

Definition demo_targets : gmap string Target := {["lb-1" := demo_target]}.

Definition demo_client (sent : nat) : Client string :=
  mkClient "192.168.1.2:7070" (replicate sent (serving_report, None)).

Definition demo_config : ConfigResponse := mkConfigResponse 3 10000000000 (-1) 60000000000.

(** One call of [Start] has reached [wg.Wait], its loop is about to send its first
    report, which it does although [Stop] comes in between. *)
Definition demo_before : list (daction (E:=string)) :=
  [CallStart] ++ start_one 0 demo_target (reachable_lb demo_config) ++ [LoopStep 0 None].

Definition demo_waiting : dispatcher (E:=string) :=
  mkDispatcher demo_targets StatusRunning (Some 0%nat) (Some 0%nat) [false] [SWait]
    [mkLoop 0 (demo_client 0) demo_target 10000000000 5000000000 LoopReport].

Definition demo_stopped : dispatcher (E:=string) :=
  mkDispatcher demo_targets StatusStopped (Some 0%nat) (Some 0%nat) [true] [SWait]
    [mkLoop 0 (demo_client 0) demo_target 10000000000 5000000000 LoopReport].

Definition demo_after : list (daction (E:=string)) :=
  [LoopStep 0 None; LoopStep 0 None; LoopStep 0 None; StartStep 0 (reachable_lb demo_config); StartStep 0 (reachable_lb demo_config)].

Definition demo_end : dispatcher (E:=string) :=
  mkDispatcher demo_targets StatusStopped (Some 0%nat) (Some 0%nat) [true] [SReturned None]
    [mkLoop 0 (demo_client 1) demo_target 10000000000 5000000000 LoopDone].

Lemma no_reports_after_stop_witness :
  Status demo_end = StatusStopped ∧
  ∀ j l, loops demo_end !! j = Some l →
    (reports l ≤ match loops demo_stopped !! j with
                 | Some l1 => reports l1 + (if decide (loop_at l1 = LoopReport) then 1 else 0)
                 | None => 0
                 end)%nat.
Proof.
  apply (no_reports_after_stop demo_targets demo_before demo_waiting demo_stopped demo_after demo_end).
  - vm_compute. reflexivity.
  - vm_compute. reflexivity.
  - repeat constructor.
  - reflexivity.
  - vm_compute. reflexivity.
Defined.

(** The bound is met. *)
Example report_after_stop :
  reports <$> loops demo_stopped = [0%nat] ∧ reports <$> loops demo_end = [1%nat].
Proof. split; reflexivity. Qed.

Lemma stop_terminates_witness :
  (length demo_after ≤ weight demo_stopped)%nat ∧
  ((∃ a, internal a = true ∧ is_Some (dstep a demo_end)) ∨
   (Forall (λ l, loop_at l = LoopDone) (loops demo_end) ∧
    Forall (λ pc, ∃ ret, pc = SReturned ret) (starts demo_end))).
Proof.
  apply (stop_terminates demo_targets demo_before demo_waiting demo_stopped demo_after demo_end
    (reachable_lb demo_config)).
  - vm_compute. reflexivity.
  - vm_compute. reflexivity.
  - repeat constructor.
  - reflexivity.
  - vm_compute. reflexivity.
Defined.

Lemma status_accurate_without_stop_witness :
  active_starts demo_waiting = if decide (Status demo_waiting = StatusRunning) then 1%nat else 0%nat.
Proof.
  apply (status_accurate_without_stop demo_targets demo_before); vm_compute; reflexivity.
Defined.

Lemma failed_start_leaks_witness :
  ∃ d, drun [CallStart; StartStep 0 (reachable_lb demo_config); StartRange 0 [demo_target; demo_target];
        StartStep 0 (reachable_lb demo_config); StartStep 0 (mkDial None None None (Some "deadline"));
        StartStep 0 (mkDial None None None (Some "deadline"))]
      (NewDispatcher {["lb-1" := demo_target; "lb-2" := demo_target]}) = Some d ∧
    starts d = [SReturned (Some
      (Wrapf "failed to fetch config for target 192.168.1.2:7070: "
        (Errorf "value retrieved in config is nil")))] ∧
    Status d = StatusStopped ∧
    loops d = [mkLoop 0 (demo_client 0) demo_target 10000000000 5000000000 LoopTop] ∧ ctx_done d = false ∧
    Stop d = Some (Err (Errorf "dispatcher is already stopped"), d).
Proof.
  apply (failed_start_leaks "lb-1" "lb-2" demo_target demo_target (reachable_lb demo_config)
    (mkDial None None None (Some "deadline")) (demo_client 0) 10000000000 5000000000); [done|vm_compute; reflexivity..].
Defined.

Lemma restart_loses_status_witness :
  setup_target (E:=string) demo_target (reachable_lb demo_config) = Ok (demo_client 0, 10000000000, 5000000000) ∧
  ∃ d l, drun ([CallStart] ++ start_one (E:=string) 0 demo_target (reachable_lb demo_config) ++
        [CallStop; LoopStep 0 None; CallStart] ++ start_one 1 demo_target (reachable_lb demo_config) ++
        [StartStep 0 (reachable_lb demo_config); StartStep 0 (reachable_lb demo_config)])
      (NewDispatcher {["lb-1" := demo_target]}) = Some d ∧
    starts d = [SReturned None; SWait] ∧ Status d = StatusStopped ∧
    loops d !! 1%nat = Some l ∧ loop_at l = LoopTop ∧ ctx_done d = false ∧
    Stop d = Some (Err (Errorf "dispatcher is already stopped"), d).
Proof.
  split; [vm_compute; reflexivity|].
  apply (restart_loses_status "lb-1" demo_target (reachable_lb demo_config) (demo_client 0) 10000000000 5000000000).
  vm_compute. reflexivity.
Defined.

Lemma restart_revives_loop_witness :
  setup_target (E:=string) demo_target (reachable_lb demo_config) = Ok (demo_client 0, 10000000000, 5000000000) ∧
  ∃ d l0 l1, drun ([CallStart] ++ start_one (E:=string) 0 demo_target (reachable_lb demo_config) ++
        [LoopStep 0 None; LoopStep 0 None; CallStop; CallStart] ++ start_one 1 demo_target (reachable_lb demo_config) ++
        [LoopStep 0 None; LoopStep 0 None; LoopStep 0 None; LoopStep 1 None; LoopStep 1 None]) (NewDispatcher {["lb-1" := demo_target]}) = Some d ∧
    starts d = [SWait; SWait] ∧ loops d = [l0; l1] ∧
    loop_target l0 = demo_target ∧ loop_target l1 = demo_target ∧ reports l0 = 2%nat ∧ reports l1 = 1%nat ∧
    loop_at l0 = LoopSleep ∧ loop_at l1 = LoopSleep.
Proof.
  split; [vm_compute; reflexivity|].
  apply (restart_revives_loop "lb-1" demo_target (reachable_lb demo_config) (demo_client 0) 10000000000 5000000000).
  vm_compute. reflexivity.
Defined.

Lemma report_period_witness :
  ∃ period, setup_target (E:=string) demo_target (reachable_lb demo_config) = Ok (demo_client 0, 10000000000, period) ∧
    0 ≤ period ∧ 2 * period ≤ 10000000000 < 2 * period + 2.
Proof.
  apply (report_period demo_target (reachable_lb (E:=string) demo_config) demo_config);
    [reflexivity..|simpl; lia].
Defined.

Lemma reports_to_targets_witness :
  (∃ k t, demo_targets !! k = Some t ∧ demo_target = t ∧ "192.168.1.2:7070" = Target_String t) ∧
  Forall (λ m, GetStatus (Some m.1) = Serving) (sends (demo_client 1)).
Proof.
  apply (reports_to_targets demo_targets (demo_before ++ [CallStop] ++ demo_after) demo_end
    (mkLoop 0 (demo_client 1) demo_target 10000000000 5000000000 LoopDone)).
  - vm_compute. reflexivity.
  - apply list_elem_of_singleton. reflexivity.
Defined.
