(* ===== verification/Targets.v ===== *)
(** * The targets of a node ([cmd/node/main.go])

    [retrieveIPAndPorts] turns the configured addresses into the map of targets
    for the dispatcher, resolving host names on the way.  The network is a
    parameter ([NameEnv]); a multicast resolution runs the exchange of [Dns]
    under the schedule that the parameter gives for the host, and the result is
    [None] while that schedule has not come to its end. *)

From S2P Require Import Prelude GoFmt GoStrings NetIP Dns Config Dispatcher.

Record NameEnv (X : Type) := mkNameEnv {
  ne_listen : option X;
  ne_udp : option X;
  ne_schedule : string → list (ex_action X);
  ne_dial : nat → string → option X;
  ne_lookup : nat → string → result (list string) X;
}.
Arguments mkNameEnv {X}.
Arguments ne_listen {X}.
Arguments ne_udp {X}.
Arguments ne_schedule {X}.
Arguments ne_dial {X}.
Arguments ne_lookup {X}.

Section Targets.

Context {X : Type} (env : NameEnv X).

Definition resolveHostname (host : string) : option (result (list IP) (error X)) :=
  if IsMultiCastDNS host then
    match ResolveMulticastDNS host (ne_listen env) (ne_udp env) (ne_schedule env host) with
    | None => None
    | Some (Err e) => Some (Err (Wrapf ("failed to resolve multicast DNS " +:+ host +:+ ": ") e))
    | Some (Ok ips) => Some (Ok ips)
    end
  else if negb (IsMultiCastDNS host) then
    match ResolveDNS (ne_dial env) (ne_lookup env) host ["127.0.0.1:53"] with
    | Err e => Some (Err (Wrapf ("failed to resolve hostname from configuration " +:+ host +:+ ": ") e))
    | Ok ips => Some (Ok ips)
    end
  else Some (Ok []).

(** One address: the target it stands for. *)
Definition address_target (idx : Z) (address : Node.Address) : option (result Target (error X)) :=
  if decide (Node.Port address = 0)
  then Some (Err (Errorf ("port at config index " +:+ fmt_d idx +:+ " is not set")))
  else if decide (Node.IP address = EmptyString ∧ Node.Hostname address = EmptyString)
  then Some (Err (Errorf ("invalid address configuration, IP nor hostname is defined for index " +:+ fmt_d idx)))
  else if decide (Node.IP address = EmptyString ∧ Node.Hostname address ≠ EmptyString) then
    match resolveHostname (Node.Hostname address) with
    | None => None
    | Some (Err e) => Some (Err (Wrapf ("failed to resolve hostname " +:+ Node.Hostname address +:+ ": ") e))
    | Some (Ok []) => Some (Err (Errorf ("no IP addresses found for hostname: " +:+ Node.Hostname address)))
    | Some (Ok (ip :: _)) => Some (Ok (mkTarget (IP_String ip) (Node.Port address)))
    end
  else Some (Ok (mkTarget (Node.IP address) (Node.Port address))).

Fixpoint retrieve_loop (idx : Z) (addresses : list Node.Address) (targets : gmap string Target)
  : option (result (gmap string Target) (error X)) :=
  match addresses with
  | [] => Some (Ok targets)
  | address :: addresses =>
      match address_target idx address with
      | None => None
      | Some (Err e) => Some (Err e)
      | Some (Ok target) => retrieve_loop (idx + 1) addresses (<[Target_String target := target]> targets)
      end
  end.

Definition retrieveIPAndPorts (cfg : Node.Config) : option (result (gmap string Target) (error X)) :=
  retrieve_loop 0 (Node.Addresses cfg) ∅.

End Targets.

(** ** Keys of targets *)

(** Cutting a string at the last occurrence of a separator. *)
Lemma sep_last_inj c a a' b b' :
  str_free c b = true → str_free c b' = true →
  a +:+ String c b = a' +:+ String c b' → a = a' ∧ b = b'.
Proof.
  unfold str_free. revert a'.
  assert (∀ s t, str_all (λ x, negb (Ascii.eqb x c)) (s +:+ String c t) = false) as Hno.
  { intros s t. rewrite str_all_app. simpl. destruct (Ascii.eqb_spec c c); [|done]. apply andb_false_r. }
  induction a as [|x a IH]; intros [|y a'] Hb Hb' E;
    rewrite ?string_app_cons, ?string_app_nil_l in E; simpl in *; injection E; intros; subst.
  - done.
  - by rewrite Hno in Hb.
  - by rewrite Hno in Hb'.
  - by destruct (IH a') as [-> ->].
Qed.

Lemma fmt_d_free_colon n : str_free ":" (fmt_d n) = true.
Proof.
  destruct (decide (0 ≤ n)); [by apply fmt_d_free|].
  unfold fmt_d, pretty, pretty_Z. destruct n as [|p|p]; [lia|lia|].
  change (str_free ":" ("-" +:+ fmt_d (Zpos p)) = true). rewrite str_free_app.
  by rewrite fmt_d_free by (done || lia).
Qed.

Lemma Target_String_inj t t' : Target_String t = Target_String t' → t = t'.
Proof.
  unfold Target_String. change (":" +:+ fmt_d (target_Port t)) with (String ":" (fmt_d (target_Port t))).
  change (":" +:+ fmt_d (target_Port t')) with (String ":" (fmt_d (target_Port t'))).
  intros E. apply sep_last_inj in E as [E1 E2]; [|apply fmt_d_free_colon..].
  apply fmt_d_inj in E2. destruct t, t'; simpl in *; congruence.
Qed.

(** ** What [retrieveIPAndPorts] returns *)
Section Retrieve.

Context {X : Type} (env : NameEnv X).

(** The target an address stands for, wherever it is in the list. *)
Definition stands_for (a : Node.Address) (t : Target) : Prop := ∀ idx, address_target env idx a = Some (Ok t).

Lemma address_target_idx idx idx' a t :
  address_target env idx a = Some (Ok t) → address_target env idx' a = Some (Ok t).
Proof. unfold address_target. repeat case_match; intros; simplify_eq; done. Qed.

(** A map from the keys of the targets of [ts] to those targets. *)
Definition target_map (ts : list Target) (m : gmap string Target) : Prop :=
  ∀ k t, m !! k = Some t ↔ t ∈ ts ∧ k = Target_String t.

Lemma target_map_insert ts m t :
  target_map ts m → target_map (ts ++ [t]) (<[Target_String t := t]> m).
Proof.
  intros Hm k t'. rewrite lookup_insert_Some, elem_of_app, list_elem_of_singleton, (Hm k t').
  split.
  - intros [[<- <-]|[Hk [Hin ->]]]; naive_solver.
  - intros [[Hin| ->] ->]; [|by left]. destruct (decide (t = t')) as [<-|Hne]; [by left|].
    right. split; [|done]. intros E. by apply Target_String_inj in E.
Qed.

Lemma retrieve_loop_spec addresses : ∀ idx ts m,
  target_map ts m →
  match retrieve_loop env idx addresses m with
  | Some (Ok m') => ∃ ts', Forall2 stands_for addresses ts' ∧ target_map (ts ++ ts') m'
  | other => ∃ pre a post, addresses = pre ++ a :: post ∧
      (∀ b, b ∈ pre → ∃ t, stands_for b t) ∧
      match other with
      | Some (Err e) => address_target env (idx + Z.of_nat (length pre)) a = Some (Err e)
      | _ => address_target env (idx + Z.of_nat (length pre)) a = None
      end
  end.
Proof.
  induction addresses as [|a addresses IH]; intros idx ts m Hm; simpl.
  { exists []. split; [constructor|]. by rewrite app_nil_r. }
  destruct (address_target env idx a) as [[t|e]|] eqn:Ea.
  2, 3: exists [], a, addresses; simpl; rewrite Z.add_0_r; set_solver.
  assert (stands_for a t) as Hst by (intros idx'; by eapply address_target_idx).
  specialize (IH (idx + 1) (ts ++ [t]) _ (target_map_insert ts m t Hm)).
  destruct (retrieve_loop env (idx + 1) addresses _) as [[m'|e]|].
  - destruct IH as (ts' & H2 & Hm'). exists (t :: ts'). split; [by constructor|].
    by rewrite <- app_assoc in Hm'.
  - destruct IH as (pre & b & post & -> & Hpre & Hb). exists (a :: pre), b, post.
    split_and!; [done| |simpl; by replace (idx + Z.of_nat (S (length pre)))
      with (idx + 1 + Z.of_nat (length pre)) by lia].
    intros c [->|Hc]%elem_of_cons; eauto.
  - destruct IH as (pre & b & post & -> & Hpre & Hb). exists (a :: pre), b, post.
    split_and!; [done| |simpl; by replace (idx + Z.of_nat (S (length pre)))
      with (idx + 1 + Z.of_nat (length pre)) by lia].
    intros c [->|Hc]%elem_of_cons; eauto.
Qed.

(** C19: [retrieveIPAndPorts] returns a map exactly when every address stands for a
    target, and then the map holds each of these targets under its printed form
    and nothing else (two addresses for one target give one entry); otherwise it
    returns the error of the first address that has one. *)
Theorem retrieve_correct cfg :
  match retrieveIPAndPorts env cfg with
  | Some (Ok m) => ∃ ts, Forall2 stands_for (Node.Addresses cfg) ts ∧
      ∀ k t, m !! k = Some t ↔ t ∈ ts ∧ k = Target_String t
  | other => ∃ pre a post, Node.Addresses cfg = pre ++ a :: post ∧
      (∀ b, b ∈ pre → ∃ t, stands_for b t) ∧
      match other with
      | Some (Err e) => address_target env (Z.of_nat (length pre)) a = Some (Err e)
      | _ => address_target env (Z.of_nat (length pre)) a = None
      end
  end.
Proof.
  unfold retrieveIPAndPorts.
  assert (target_map [] ∅) as H0 by (intros k t; rewrite lookup_empty; set_solver).
  pose proof (retrieve_loop_spec (Node.Addresses cfg) 0 [] ∅ H0) as H. exact H.
Qed.

(** C37: an address list given on the command line can never be used: the port of
    each entry is read from viper under the text of the port as a key, which is
    zero unless such a key was set, and an address with port zero is an error. *)
Theorem flag_addresses_rejected {E} (cli : Cli Node.Config E) flag rest cfg :
  Changed cli Node.KeyLoadBalancerAddresses = true →
  GetStringSlice cli Node.KeyLoadBalancerAddresses = Node.address_flag flag :: rest →
  Node.well_formed_flag flag → GetInt cli (snd flag) = 0 → Node.InitConfig cli = Ok cfg →
  retrieveIPAndPorts env cfg = Some (Err (Errorf "port at config index 0 is not set")).
Proof.
  intros Hch Hsl Hf Hp. unfold Node.InitConfig, Node.ApplyFlagsToConfig, Node.parseLBAddresses.
  rewrite Hch, Hsl. cbn [Node.parse_loop]. unfold Node.LoadBalancerAddressArguments.
  rewrite Node.SplitN_address, Hp by done.
  destruct (Node.parse_loop _ _ rest _) as [addrs|e] eqn:Epl; [|done].
  intros [= <-]. apply Node.parse_loop_prefix in Epl as [more ->]. reflexivity.
Qed.

End Retrieve.

(** ** A concrete configuration *)
Definition offline : NameEnv string :=
  mkNameEnv None None (λ _, []) (λ _ _, Some "unreachable") (λ _ _, Err "no such host").

Lemma flag_addresses_rejected_witness :
  retrieveIPAndPorts offline (Node.mkConfig [Node.mkAddress "lb-0.local" EmptyString 0]) =
  Some (Err (Errorf "port at config index 0 is not set")).
Proof.
  apply (flag_addresses_rejected offline Node.empty_cli ("lb-0.local", EmptyString, "7070") []);
    try reflexivity. by split.
Defined.

(** A multicast response and a literal address for the same load balancer. *)
Definition online : NameEnv string :=
  mkNameEnv None None (λ _, demo_exchange) (λ _ _, None) (λ _ _, Ok ["10.0.0.7"]).

Example retrieve_example :
  retrieveIPAndPorts online (Node.mkConfig
    [Node.mkAddress "gale-lb.local" EmptyString 7070; Node.mkAddress EmptyString "10.0.0.7" 7070;
     Node.mkAddress "lb.example.org" EmptyString 7071]) =
  Some (Ok {["10.0.0.7:7070" := mkTarget "10.0.0.7" 7070; "10.0.0.7:7071" := mkTarget "10.0.0.7" 7071]}).
Proof. vm_compute. reflexivity. Qed.

(** Host and port are joined without brackets: with an IPv6 address, which the
    system resolver may return, the text of the target is itself an address. *)
Example ipv6_target_reads_as_address :
  Target_String (mkTarget (IP_String (ParseIP "2001:db8::1")) 7070) = "2001:db8::1:7070" ∧
  IP_String (ParseIP "2001:db8::1:7070") = "2001:db8::1:7070".
Proof. vm_compute. split; reflexivity. Qed.
