(* ===== verification/NodeApp.v ===== *)
(** * The node process ([cmd/node/main.go], [cmd/node/cmd.go],
    [pkg/nodenetwork/api/v1])

    The process is the dispatcher, the HTTP API that controls it and the main
    goroutine.  [nstep] is one action: of the main goroutine, of the dispatcher's
    own goroutines, of the HTTP server, or a request.  The HTTP library is a
    parameter: what [ListenAndServe] returns comes with the action. *)

From S2P Require Import Prelude GoFmt Consensus Config HttpApi Client Dispatcher Targets.

(** ** [server.go], [handlers.go], [types.go] *)
Record StatusResponse := mkStatusResponse { response_Status : string }.

(** The routes of [setupRouter]. *)
Inductive route := GET_status | POST_start | POST_stop.

Definition setupRouter (method path : string) : option route :=
  if decide (method = "GET" ∧ path = "/status") then Some GET_status
  else if decide (method = "POST" ∧ path = "/start") then Some POST_start
  else if decide (method = "POST" ∧ path = "/stop") then Some POST_stop
  else None.

Section NodeApp.

Context {E : Type}.

(** [GetStatus] *)
Definition GetStatusHandler (d : dispatcher (E:=E)) : Z * StatusResponse :=
  (StatusOK, mkStatusResponse (Status d)).

(** [PostStart] runs [Start] to its end before it answers: the handler waits for
    the call [i], whatever it returns. *)
Definition PostStart_answer (i : nat) (d : dispatcher (E:=E)) : option Z :=
  match starts d !! i with Some (SReturned _) => Some StatusOK | _ => None end.


(** ** [main] *)

(** The main goroutine: about to call [dispatcher.Start()], inside call [i] of
    it, in the deferred calls [dispatcher.Stop()] and [nodeAPI.Stop()], gone. *)
Inductive main_at := NMCall | NMInStart (i : nat) | NMDeferStop | NMDeferAPI | NMExit.

(** The API server: started in its goroutine, serving, ended with what [Start]
    returned. *)
Inductive api_at := ApiStarting | ApiServing | ApiEnded (err : option (serve_error E)).

Record node_proc := mkNode {
  n_disp : dispatcher (E:=E);
  n_main : main_at;
  n_api : api_at;
  n_waiting : list nat;  (** the calls of [Start] made by requests *)
}.

(** [main] from the targets on. *)
Definition node_start (ts : gmap string Target) : node_proc :=
  mkNode (NewDispatcher ts) NMCall ApiStarting [].

(** How [main] gets there.  [executed] is what [rootCmd.Execute()] did: an error,
    or whether it ran the command ([--help] prints the usage and does not, which
    leaves [cfg] nil). *)
Inductive boot_outcome :=
| BootWaiting  (** inside a name resolution *)
| BootFatal (e : error E)
| BootPanic  (** [cfg.Logger] of a nil [cfg] *)
| Booted (n : node_proc).

Definition boot (executed : result bool E) (cli : Cli Node.Config E) (env : NameEnv E) : boot_outcome :=
  match executed with
  | Err e => BootFatal (Wrapf "error executing command: " (Foreign e))
  | Ok false => BootPanic
  | Ok true =>
      match Node.InitConfig cli with
      | Err e => BootFatal e
      | Ok cfg =>
          match retrieveIPAndPorts env cfg with
          | None => BootWaiting
          | Some (Err e) => BootFatal (Wrapf "failed to retrieve IP and ports: " e)
          | Some (Ok targets) => Booted (node_start targets)
          end
      end
  end.







(** ** The process after [POST /stop] *)


















End NodeApp.

(** A configuration file with one literal address: the process boots with one
    target, from which the run below starts. *)
Definition file_cli : Cli Node.Config string :=
  mkCli Node.Config string (λ k, bool_decide (k = KeyConfigFile)) (λ _, 0) (λ _, 0) (λ _, 0)
    (λ _, "node.toml") (λ _, []) (λ _, None)
    (λ _, Ok (Node.mkConfig [Node.mkAddress EmptyString "192.168.1.2" 7070])).

Example boot_example :
  boot (Ok true) file_cli offline =
    Booted (node_start {["192.168.1.2:7070" := mkTarget "192.168.1.2" 7070]}).
Proof. vm_compute. reflexivity. Qed.




