(* ===== verification/LbApp.v ===== *)
(** * The load-balancer process ([cmd/lb/main.go],
    [pkg/lbnetwork/nodemanager/node_manager_server.go],
    [pkg/lbnetwork/api/v1])

    [lb_main] is the list of what the main goroutine sets up, in order, and how
    it ends: still inside a blocking call, stopped by a fatal error, or returned.
    The operating system and the gRPC and HTTP servers are parameters ([LbEnv]);
    [X] is the type of their errors. *)

From S2P Require Import Prelude GoFmt NetIP Arp Registry Config HttpApi.

(** ** [node_manager_server.go]: the options of the gRPC server *)
Definition MaxRecvMsgSize : Z := 4 * 1024 * 1024.

Definition MaxSendMsgSize : Z := 4 * 1024 * 1024.

Definition gRPCInfinity : Z := 2 ^ 63 - 1.

Definition KeepAliveProbeFrequency : Z := 10 * Second.

Definition KeepAliveProbeTimeout : Z := 15 * Second.

Record server_options := mkServerOptions {
  opt_MaxRecvMsgSize : Z;
  opt_MaxSendMsgSize : Z;
  opt_MaxConnectionIdle : Z;
  opt_MaxConnectionAge : Z;
  opt_MaxConnectionAgeGrace : Z;
  opt_Time : Z;
  opt_Timeout : Z;
}.

Record Server := mkServer { grpcNodesServer : server_options; server_cfg : LB.Config }.

(** [nodemanager.New] *)
Definition newServer (cfg : LB.Config) : Server :=
  mkServer (mkServerOptions MaxRecvMsgSize MaxSendMsgSize gRPCInfinity gRPCInfinity gRPCInfinity
    KeepAliveProbeFrequency KeepAliveProbeTimeout) cfg.

(** ** The API: the routes, and handlers that do not look at the registry yet *)
Inductive lb_route := GET_nodes | GET_node (id : string).

(** [setupRouter]: the path as its segments. *)
Definition lb_setupRouter (method : string) (segments : list string) : option lb_route :=
  if decide (method = "GET") then
    match segments with
    | ["nodes"] => Some GET_nodes
    | ["nodes"; id] => if decide (id = EmptyString) then None else Some (GET_node id)
    | _ => None
    end
  else None.

Record handler := mkHandler { handler_registry : NodeRegistry }.

Definition newHandler (registry : NodeRegistry) : handler := mkHandler registry.

Definition GetNodesStatus (h : handler) : Z := StatusOK.

Definition GetNode (h : handler) (id : string) : Z := StatusOK.

(** ** The process

    The operating system and the servers: the addresses of an interface, the
    outcome of listening on an address, and what [Serve] returned, if it has. *)
Record LbEnv (X : Type) := mkLbEnv {
  le_iface : string → result (result (list iface_addr) X) X;
  le_listen : string → option X;
  le_serve : option (option X);
}.
Arguments mkLbEnv {X}.
Arguments le_iface {X}.
Arguments le_listen {X}.
Arguments le_serve {X}.

(** How far a goroutine came. *)
Inductive outcome (X : Type) :=
| Running  (** inside a blocking call *)
| Fatal (msg : string) (cause : error X)  (** [log.Fatalf] *)
| Panicked
| Returned.
Arguments Running {X}.
Arguments Fatal {X}.
Arguments Panicked {X}.
Arguments Returned {X}.

(** What was set up. *)
Inductive lb_event :=
| EvRegistry (r : NodeRegistry)
| EvAPI (api : LbAPI.LoadBalancerAPI)  (** the HTTP server is configured *)
| EvListen (addr : string)  (** the gRPC socket is open *)
| EvServe (opts : server_options)
| EvAPIStart  (** the goroutine of the HTTP server is started *)
| EvAPIStop.

Section LbApp.

Context {X : Type} (env : LbEnv X).

Definition host_port (ip : string) (p : Z) : string := ip +:+ ":" +:+ fmt_d p.

(** [Server.Start] *)
Definition Server_Start (s : Server) : list lb_event * outcome X :=
  let priv := LB.private_interface (server_cfg s) in
  match GetIPv4FromInterface (le_iface env (LB.NetIfacePrivate priv)) with
  | Err e => ([], Fatal "Failed to get IPv4 from docker network interface: " e)
  | Ok ip =>
      let addr := host_port ip (LB.NodePort priv) in
      match le_listen env addr with
      | Some e => ([], Fatal "Failed to listen: " (Foreign e))
      | None =>
          ([EvListen addr; EvServe (grpcNodesServer s)],
           match le_serve env with
           | None => Running
           | Some (Some errServe) => Fatal "Failed to serve: " (Foreign errServe)
           | Some None => Returned
           end)
      end
  end.

(** [v1.New] of the API *)
Definition newAPI (cfg : LB.Config) : list lb_event * outcome X :=
  let priv := LB.private_interface cfg in
  match GetIPv4FromInterface (le_iface env (LB.NetIfacePrivate priv)) with
  | Err e => ([], Fatal ("failed to get IPv4 address from interface " +:+ LB.NetIfacePrivate priv +:+ ": ") e)
  | Ok ip => ([EvAPI (LbAPI.New (host_port ip (LB.APIPort priv)) cfg)], Returned)
  end.

(** Sequencing: the second part runs only if the first one returned. *)
Definition andThen (a b : list lb_event * outcome X) : list lb_event * outcome X :=
  match snd a with
  | Returned => (fst a ++ fst b, snd b)
  | other => (fst a, other)
  end.

(** [main], from the configuration on. *)
Definition lb_main (cfg : LB.Config) : list lb_event * outcome X :=
  andThen ([EvRegistry New], Returned)
    (andThen (newAPI cfg)
       (andThen (Server_Start (newServer cfg)) ([EvAPIStart; EvAPIStop], Returned))).

(** The process: the command, then [main].  [executed] is what [rootCmd.Execute()]
    did: an error, or whether it ran the command; [--help] does not run it, and
    the configuration stays nil. *)
Definition lb_process (executed : result bool X) (cli : Cli LB.Config X) : list lb_event * outcome X :=
  match executed with
  | Err e => ([], Fatal "error executing command: " (Foreign e))
  | Ok false => ([], Panicked)
  | Ok true => lb_main (LB.InitConfig cli)
  end.

(** ** Properties *)

(** The address of the private interface. *)
Definition private_ip (cfg : LB.Config) : result string (error X) :=
  GetIPv4FromInterface (le_iface env (LB.NetIfacePrivate (LB.private_interface cfg))).

(** The HTTP API of the load balancer is never started: the call that serves
    gRPC comes first and blocks, and [Serve] returns nil only after a stop that
    nothing in the program asks for.  Whatever the command line and the rest of
    the environment are, the API goroutine is not among the things set up. *)
Theorem lb_api_never_started executed cli :
  le_serve env ≠ Some None → EvAPIStart ∉ fst (lb_process executed cli).
Proof.
  intros Hs. destruct executed as [[]|e]; simpl; [|set_solver..].
  unfold lb_main, newAPI, Server_Start, andThen. simpl.
  destruct (GetIPv4FromInterface _) as [ip|e]; simpl; [|set_solver].
  destruct (le_listen env _); simpl; [set_solver|].
  destruct (le_serve env) as [[e|]|]; [set_solver|done|set_solver].
Qed.

(** The process serves exactly when the private interface has an IPv4 address
    and its node port is free; it then listens for nodes on that address and
    port with connections that never expire and a keep-alive probe every ten
    seconds, and the API is configured for the same address. *)
Theorem lb_serves_iff cfg :
  le_serve env = None →
  match private_ip cfg with
  | Ok ip =>
      let node_addr := host_port ip (LB.NodePort (LB.private_interface cfg)) in
      (le_listen env node_addr = None ∧
       lb_main cfg = ([EvRegistry New; EvAPI (LbAPI.New (host_port ip (LB.APIPort (LB.private_interface cfg))) cfg);
         EvListen node_addr; EvServe (grpcNodesServer (newServer cfg))], Running)) ∨
      (∃ e, le_listen env node_addr = Some e ∧ snd (lb_main cfg) = Fatal "Failed to listen: " (Foreign e))
  | Err e => ∃ msg, lb_main cfg = ([EvRegistry New], Fatal msg e)
  end.
Proof.
  intros Hs. unfold private_ip, lb_main, newAPI, Server_Start, andThen. simpl.
  destruct (GetIPv4FromInterface _) as [ip|e] eqn:Eg; simpl; [|eauto].
  destruct (le_listen env _) as [e|] eqn:El; simpl; [right; eauto|left].
  rewrite Hs. done.
Qed.

End LbApp.

(** ** A concrete start *)
Definition demo_env : LbEnv string :=
  mkLbEnv (λ _, Ok (Ok [IPNet (ParseIP "fe80::1"); IPNet [x0a; x00; x00; x01]])) (λ _, None) None.

(** No flag is set: the configuration is the default one. *)
Definition bare_cli : Cli LB.Config string :=
  mkCli LB.Config string (λ _, false) (λ _, 0) (λ _, 0) (λ _, 0) (λ _, EmptyString) (λ _, []) (λ _, None)
    (λ c, Ok c).

Lemma lb_api_never_started_witness :
  EvAPIStart ∉ fst (lb_process demo_env (Ok true) bare_cli) ∧ LB.InitConfig bare_cli = LB.New.
Proof. split; [apply lb_api_never_started; discriminate|reflexivity]. Defined.

Lemma lb_serves_iff_witness :
  (le_listen demo_env "10.0.0.1:7070" = None ∧
   lb_main demo_env LB.New = ([EvRegistry New; EvAPI (LbAPI.New "10.0.0.1:5555" LB.New); EvListen "10.0.0.1:7070";
     EvServe (grpcNodesServer (newServer LB.New))], Running)) ∨
  (∃ e, le_listen demo_env "10.0.0.1:7070" = Some e ∧
    snd (lb_main demo_env LB.New) = Fatal "Failed to listen: " (Foreign e)).
Proof. exact (lb_serves_iff demo_env LB.New eq_refl). Defined.
