(* ===== verification/System.v ===== *)
(** * The two programs together

    The load balancer announces its health-check timeout to a node
    ([NodeManager.GetConfig]), the node derives its reporting period from it
    ([Dispatcher.setup_target]), and the load balancer times the node out by its
    own configuration.  The theorem here is about that loop. *)

From S2P Require Import Prelude Consensus Registry Config NodeManager Client Dispatcher.

Section System.

Context `{!Grpc, !GrpcLaws}.

Context {R : Type} `{!HealthRegistry R, !HealthRegistryLaws R}.

Lemma setup_target_period t (r : dial gerror) cfg client timeout period :
  config_reply r = Some cfg → setup_target t r = Ok (client, timeout, period) →
  0 ≤ cr_HealthCheckTimeout cfg < 2 ^ 63 →
  timeout = cr_HealthCheckTimeout cfg ∧ 0 ≤ 2 * period ≤ cr_HealthCheckTimeout cfg.
Proof.
  intros Hc Hs HT. unfold setup_target, fetchConfig, Client_GetConfig in Hs. rewrite Hc in Hs.
  destruct (NewClient _ _ r); [|done]. simpl in Hs. rewrite Z.mul_1_r in Hs.
  unfold i64 in Hs. rewrite swrap_small in Hs by (unfold in_sint; lia). injection Hs as _ <- <-.
  split; [done|]. unfold go_div, HealthCheckIntervalDivisor. rewrite Z.quot_div_nonneg by lia.
  pose proof (Z.mul_div_le (cr_HealthCheckTimeout cfg) 2 ltac:(lia)).
  pose proof (Z.div_pos (cr_HealthCheckTimeout cfg) 2 ltac:(lia) ltac:(lia)). lia.
Qed.

(** A node that is set up by a load balancer reports often enough for it: as
    long as the next report is accepted within one period and a delay of less
    than half of the timeout after the previous one, the load balancer never
    finds the node silent, under every schedule of its goroutines. *)
Theorem reports_in_time cfg t (r : dial gerror) client timeout period key as_ t0 (reg0 : R) s delay :
  config_reply r = Some (GetConfig cfg) → setup_target t r = Ok (client, timeout, period) →
  0 ≤ LB.ChecksTimeout (LB.node_health cfg) < 2 ^ 63 →
  run key (LB.ChecksTimeout (LB.node_health cfg)) as_
    (start (LB.ChecksTimeout (LB.node_health cfg)) t0 reg0) = Some s →
  now s ≤ last_accept t0 (accepted key (LB.ChecksTimeout (LB.node_health cfg)) as_
    (start (LB.ChecksTimeout (LB.node_health cfg)) t0 reg0)) + period + delay →
  2 * delay < timeout →
  step key (LB.ChecksTimeout (LB.node_health cfg)) TakeTimer s = None.
Proof.
  intros Hc Hs HT Hr Hnow Hd.
  destruct (setup_target_period t r _ _ _ _ Hc Hs HT) as [Et Hp]. simpl in Et, Hp.
  destruct (step key _ TakeTimer s) as [s'|] eqn:Es; [|done].
  pose proof (proj1 (timer_enabled key _ as_ t0 reg0 s Hr)) as Hen.
  destruct Hen as [_ Hen]; [by rewrite Es|]. lia.
Qed.

(** ** The two programs in time

    One reporting goroutine of the node, the messages on their way, and the
    connection at the load balancer.  Of the environment two things are assumed:
    the goroutine runs at most [jitter] after it is due, and a report is
    accepted at most [delay] after it was sent.  Time does not pass beyond what
    these allow, which is the guard of [Pass]. *)
Record link := mkLink {
  node_loop : loop (E:=gerror);
  due : Z;  (** since when the goroutine may run, or until when it sleeps *)
  wire : list HealthStatus;  (** sent and not yet received *)
  unaccepted : list Z;  (** when the reports not yet accepted were sent *)
  lb : conn (R:=R);
}.

Inductive laction :=
| NodeRun  (** the goroutine passes the select, sends a report, or wakes up *)
| Deliver  (** the listener receives the next report *)
| LbSend
| LbTake
| LbTimeout
| Pass (t : Z).

Section Timed.

Context (key : string) (T jitter delay : Z).

Definition with_lb (c : conn (R:=R)) (s : link) : link :=
  mkLink (node_loop s) (due s) (wire s) (unaccepted s) c.

(** The goroutine of [reportHealthLoop] under a context that is not cancelled: it
    passes the select, sends a report and sleeps for the period, or wakes up. *)
Definition node_run (s : link) : option link :=
  match loop_next false None (node_loop s) with
  | None => None
  | Some l =>
      match loop_at (node_loop s) with
      | LoopTop => Some (mkLink l (due s) (wire s) (unaccepted s) (lb s))
      | LoopReport =>
          Some (mkLink l (now (lb s) + loop_period l) (wire s ++ [serving_report])
            (unaccepted s ++ [now (lb s)]) (lb s))
      | _ =>
          if decide (due s ≤ now (lb s))
          then Some (mkLink l (due s) (wire s) (unaccepted s) (lb s)) else None
      end
  end.

Definition in_time (t : Z) (s : link) : Prop :=
  t ≤ due s + jitter ∧ Forall (λ sent, t ≤ sent + delay) (unaccepted s).

#[global] Instance in_time_dec t s : Decision (in_time t s).
Proof. apply and_dec; [apply Z.le_dec|apply Forall_dec; intros; apply Z.le_dec]. Defined.

Definition lstep (a : laction) (s : link) : option link :=
  match a with
  | NodeRun => node_run s
  | Deliver =>
      match wire s with
      | [] => None
      | m :: w =>
          (λ c, mkLink (node_loop s) (due s) w (unaccepted s) c) <$> step key T (Recv (Some m) None) (lb s)
      end
  | LbSend => (λ c, with_lb c s) <$> step key T Send (lb s)
  | LbTake =>
      (λ c, mkLink (node_loop s) (due s) (wire s) (tail (unaccepted s)) c) <$> step key T TakeMsg (lb s)
  | LbTimeout => (λ c, with_lb c s) <$> step key T TakeTimer (lb s)
  | Pass t =>
      if decide (in_time t s) then (λ c, with_lb c s) <$> step key T (Tick t) (lb s) else None
  end.

Definition lrun : list laction → link → option link := run_steps lstep.

(** The reports between the goroutine and the handler, oldest first. *)
Definition in_listener (l : listener_pc) : list (option HealthStatus) :=
  match l with LSendMsg m => [m] | _ => [] end.

Definition pending (s : link) : list (option HealthStatus) :=
  msgChan (lb s) ++ in_listener (lst (lb s)) ++ (Some <$> wire s).

(** Sent one after the other, at most a period and the jitter apart. *)
Fixpoint spaced (P : Z) (from : Z) (ts : list Z) : Prop :=
  match ts with
  | [] => True
  | t :: ts => from ≤ t ≤ from + P + jitter ∧ spaced P t ts
  end.

Fixpoint latest (from : Z) (ts : list Z) : Z :=
  match ts with [] => from | t :: ts => latest t ts end.

Lemma latest_snoc from ts t : latest from (ts ++ [t]) = t.
Proof. revert from. by induction ts; simpl. Qed.

Lemma spaced_snoc P from ts t :
  spaced P from ts → latest from ts ≤ t ≤ latest from ts + P + jitter → spaced P from (ts ++ [t]).
Proof.
  revert from. induction ts as [|t1 ts IH]; intros from Hs Ht; simpl in *; [done|].
  destruct Hs as [H1 Hs]. split; [done|]. by apply IH.
Qed.

(** The invariant: the handler is in its select, its timer was reset when the
    report of time [from] or a later one was accepted, and every report sent
    since is on its way. *)
Record link_inv (c0 : Z) (P : Z) (s : link) : Prop := {
  li_period : loop_period (node_loop s) = P;
  li_lb : hnd (lb s) = HSelect ∧ closed (lb s) = false ∧ errChan (lb s) = [];
  li_lst : lst (lb s) = LRecv ∨ lst (lb s) = LSendMsg (Some serving_report);
  li_pending : pending s = replicate (length (unaccepted s)) (Some serving_report);
  li_times : ∃ from accepted, timer (lb s) = Some (accepted + T) ∧ from ≤ accepted ∧
    spaced P from (unaccepted s) ∧ due s ≤ latest from (unaccepted s) + P ∧
    latest from (unaccepted s) ≤ now (lb s);
  li_in_time : in_time (now (lb s)) s;
  li_streak : ∃ n, reports (node_loop s) = (n + length (unaccepted s))%nat ∧
    reg_streak (reg (lb s)) key = Some (u64 (c0 + Z.of_nat n));
}.

(** A goroutine that is set up at time [t0], when the connection starts. *)
Definition link_start (l : loop (E:=gerror)) (t0 : Z) (r : R) : link :=
  mkLink l t0 [] [] (start T t0 r).

Lemma link_start_inv l t0 r c0 :
  0 ≤ loop_period l → 0 ≤ jitter → reports l = 0%nat → reg_streak r key = Some c0 → in_uint 64 c0 →
  link_inv c0 (loop_period l) (link_start l t0 r).
Proof.
  intros HP Hj Hl Hc Hu. split; simpl; try done.
  - by left.
  - exists t0, t0. split_and!; [done|lia|done|lia|lia].
  - split; simpl; [lia|constructor].
  - exists 0%nat. split; [done|]. by rewrite Z.add_0_r, (uwrap_small 64).
Qed.

Section Steps.

Context (c0 P : Z) (HP : 0 ≤ P) (Hj : 0 ≤ jitter) (Hd : 0 ≤ delay).

Lemma node_run_inv s s' : node_run s = Some s' → link_inv c0 P s → link_inv c0 P s'.
Proof.
  intros Hs [HPl Hlb Hl Hp (from & acc & Htm & Hle & Hsp & Hdue & Hlast) [Ht1 Ht2] (n & Hn & Hst)].
  unfold node_run, loop_next in Hs. destruct (loop_at (node_loop s)) eqn:El; simpl in Hs; [| | |done].
  - simplify_eq. split; simpl; try done.
    + by exists from, acc.
    + by exists n.
  - simplify_eq. split; simpl; try done.
    + unfold pending in *. simpl. rewrite fmap_app, !app_assoc, length_app.
      rewrite !app_assoc in Hp. by rewrite Hp, replicate_add.
    + exists from, acc. rewrite latest_snoc.
      split_and!; [done|done| |lia|lia]. apply spaced_snoc; [done|lia].
    + split; simpl; [lia|]. apply Forall_app_2; [done|]. constructor; [simpl; lia|done].
    + exists n. unfold reports in *. simpl. rewrite !length_app. simpl. split; [lia|done].
  - case_decide; simplify_eq. split; simpl; try done.
    + by exists from, acc.
    + by exists n.
Qed.

Lemma deliver_inv s s' : lstep Deliver s = Some s' → link_inv c0 P s → link_inv c0 P s'.
Proof.
  intros Hs [HPl Hlb Hl Hp Htimes Ht Hst]. simpl in Hs. destruct (wire s) as [|m w] eqn:Ew; [|].
  { done. }
  destruct (lst (lb s)) eqn:Els; simplify_eq/=. unfold pending in Hp. rewrite Els, Ew in Hp.
  assert (m = serving_report) as ->.
  { simpl in Hp. assert (Some m ∈ replicate (length (unaccepted s)) (Some serving_report)) as Hin.
    { rewrite <- Hp. apply elem_of_app. right. left. }
    apply elem_of_replicate in Hin as [[= ->] _]. done. }
  split; simpl; try done.
  - right. unfold listener_recv. by rewrite nil_recoverable.
  - unfold pending. simpl. unfold listener_recv. rewrite nil_recoverable. done.
Qed.

Lemma lb_send_inv s s' : lstep LbSend s = Some s' → link_inv c0 P s → link_inv c0 P s'.
Proof.
  intros Hs [HPl (Hh & Hc & He) Hl Hp Htimes Ht Hst]. simpl in Hs. unfold listener_send in Hs.
  destruct Hl as [Hl|Hl]; rewrite Hl in Hs; [done|]. rewrite Hc in Hs.
  destruct (has_room _); simplify_eq/=. split; simpl; try done.
  - by left.
  - rewrite <- Hp. unfold pending. rewrite Hl. simpl. by rewrite <- app_assoc.
Qed.

(** The oldest report is accepted: the timer starts anew. *)
Lemma lb_take_inv s s' : lstep LbTake s = Some s' → link_inv c0 P s → link_inv c0 P s'.
Proof.
  intros Hs [HPl (Hh & Hc & He) Hl Hp (from & acc & Htm & Hle & Hsp & Hdue & Hlast) [Ht1 Ht2] (n & Hn & Hst)].
  simpl in Hs. rewrite Hh in Hs. destruct (msgChan (lb s)) as [|m ch] eqn:Em; [done|].
  unfold pending in Hp. rewrite Em in Hp.
  destruct (unaccepted s) as [|sent rest] eqn:Eu; [done|]. simpl in Hp, Hsp, Hlast, Hdue, Hn.
  injection Hp as -> Hp. unfold handle_msg, drain_and_reset in Hs. simpl in Hs. rewrite Htm in Hs. simplify_eq/=.
  destruct Hsp as [Hsent Hsp]. inversion_clear Ht2 as [|? ? Hsd Hrest].
  split; simpl; rewrite ?Eu; try done.
  - exists sent, (now (lb s)). split_and!; [done| |done..].
    clear - Hsp Hlast Hj. revert sent Hsp Hlast. induction rest as [|t rest IH]; intros sent Hsp Hlast; [done|].
    simpl in *. destruct Hsp as [H1 Hsp]. specialize (IH t Hsp Hlast). lia.
  - exists (S n). split; [lia|]. rewrite (check_streak _ _ _ _ Hst). f_equal. unfold u64.
    rewrite uwrap_add_l. f_equal. lia.
Qed.

Lemma pass_inv t s s' : lstep (Pass t) s = Some s' → link_inv c0 P s → link_inv c0 P s'.
Proof.
  intros Hs [HPl Hlb Hl Hp (from & acc & Htm & Hle & Hsp & Hdue & Hlast) Ht Hst]. simpl in Hs.
  destruct (decide (in_time t s)) as [Hin|]; [|done]. destruct (decide (now (lb s) ≤ t)); simplify_eq/=.
  split; simpl; try done. exists from, acc. split_and!; try done. lia.
Qed.

(** The timer is never due. *)
Lemma link_no_timeout s : P + jitter + delay < T → link_inv c0 P s → step key T TakeTimer (lb s) = None.
Proof.
  intros HT [_ (Hh & _ & _) _ _ (from & acc & Htm & Hle & Hsp & Hdue & _) [Ht1 Ht2] _].
  simpl. rewrite Hh, Htm. apply decide_False. intros Hle'.
  destruct (unaccepted s) as [|sent rest]; simpl in *; [lia|]. inversion_clear Ht2. lia.
Qed.

Lemma lstep_inv a s s' :
  P + jitter + delay < T → lstep a s = Some s' → link_inv c0 P s → link_inv c0 P s'.
Proof.
  intros HT Hs Hi. destruct a; [by eapply node_run_inv|by eapply deliver_inv|by eapply lb_send_inv
    |by eapply lb_take_inv| |by eapply pass_inv].
  simpl in Hs. pose proof (link_no_timeout s HT Hi) as Hn. simpl in Hn. by rewrite Hn in Hs.
Qed.

End Steps.

End Timed.

(** C5: a node that runs is never taken for a dead one: set up with the
    configuration that the load balancer announces, with its goroutine late by at
    most [jitter] and its reports accepted within [delay] of being sent, the two
    together less than half of the health-check timeout, the node is not timed
    out in any schedule, the handler stays in its loop, and the streak in the
    registry counts exactly the reports that are not on their way any more. *)
Theorem healthy_node_stays cfg t (r : dial gerror) client timeout period i key t0 (reg0 : R) c0
  jitter delay as_ s :
  config_reply r = Some (GetConfig cfg) → setup_target t r = Ok (client, timeout, period) →
  0 ≤ LB.ChecksTimeout (LB.node_health cfg) < 2 ^ 63 →
  0 ≤ jitter → 0 ≤ delay → 2 * (jitter + delay) < LB.ChecksTimeout (LB.node_health cfg) →
  reg_streak reg0 key = Some c0 → in_uint 64 c0 →
  lrun key (LB.ChecksTimeout (LB.node_health cfg)) jitter delay as_
    (link_start (LB.ChecksTimeout (LB.node_health cfg))
      (mkLoop i client t timeout period LoopTop) t0 reg0) = Some s →
  step key (LB.ChecksTimeout (LB.node_health cfg)) TakeTimer (lb s) = None ∧
  hnd (lb s) = HSelect ∧
  ∃ n, reports (node_loop s) = (n + length (unaccepted s))%nat ∧
    reg_streak (reg (lb s)) key = Some (u64 (c0 + Z.of_nat n)).
Proof.
  intros Hc Hs HT Hj Hd Hlt Hreg Hu Hr. set (T := LB.ChecksTimeout (LB.node_health cfg)) in *.
  destruct (setup_target_period t r _ _ _ _ Hc Hs HT) as [Et Hp]. change (cr_HealthCheckTimeout _) with T in Et, Hp.
  assert (0 ≤ period) as HP by lia.
  pose proof (setup_target_fresh _ _ _ _ _ Hs) as Hfresh.
  assert (link_inv key T jitter delay c0 period s) as Hi.
  { apply (run_steps_inv (lstep key T jitter delay) (λ _, true) (link_inv key T jitter delay c0 period)) in Hr;
      [done| |apply forallb_true|].
    - intros a s1 s2 _. apply lstep_inv; try done. lia.
    - apply (link_start_inv key T jitter delay (mkLoop i client t timeout period LoopTop)); try done.
      unfold reports. simpl. by rewrite Hfresh. }
  split; [eapply (link_no_timeout key T jitter delay c0 period); [done..|lia|done]|].
  destruct Hi as [_ [Hh _] _ _ _ _ Hst]. by split.
Qed.

End System.

(** ** The default configuration

    A node set up by a load balancer with the default timeout of ten seconds
    reports every five; its report of second 5 is accepted, and at second 14 it
    is not timed out. *)
#[local] Instance demo_codes : Grpc := {|
  gerror := Z;
  code := Z;
  Canceled := 1;
  Unavailable := 14;
  status_Code := default 0;
|}.

#[local] Instance demo_codes_laws : GrpcLaws.
Proof. split; vm_compute; discriminate. Qed.

Definition five_seconds : list action :=
  [Tick (5 * Second); Recv (Some (mkHealthStatus "gale-node" Serving EmptyString)) None; Send; TakeMsg;
   Tick (14 * Second)].

Definition after_five : conn (R:=NodeRegistry) :=
  mkConn LRecv HSelect [] [] false (Some (15 * Second)) (14 * Second)
    (ReportNewHealthCheck "10.0.0.7:41234" (5 * Second) (RegisterNode "10.0.0.7:41234" New)).

Lemma reports_in_time_witness :
  step "10.0.0.7:41234" (10 * Second) TakeTimer after_five = None.
Proof.
  apply (reports_in_time LB.New (mkTarget "10.0.0.1" 7070) (mkDial None None (Some (GetConfig LB.New)) None)
    (mkClient "10.0.0.1:7070" []) (10 * Second) (5 * Second) "10.0.0.7:41234" five_seconds 0 (RegisterNode "10.0.0.7:41234" New)
    after_five (4 * Second)).
  - reflexivity.
  - vm_compute. reflexivity.
  - vm_compute. split; [discriminate|reflexivity].
  - vm_compute. reflexivity.
  - vm_compute. discriminate.
  - vm_compute. reflexivity.
Defined.

(** Two reports of a node with the default timeout: the goroutine is late by one
    second, the first report takes three seconds to be accepted. *)
Definition two_reports : list laction :=
  [NodeRun; NodeRun; Pass (2 * Second); Deliver; LbSend; Pass (3 * Second); LbTake; Pass (6 * Second);
   NodeRun; NodeRun; NodeRun; Pass (9 * Second)].

Definition demo_client_loop (pc : loop_pc) (sent : nat) : loop (E:=gerror) :=
  mkLoop 0 (mkClient "10.0.0.1:7070" (replicate sent (serving_report, None))) (mkTarget "10.0.0.1" 7070)
    (10 * Second) (5 * Second) pc.

Definition after_two : link (R:=NodeRegistry) :=
  mkLink (demo_client_loop LoopSleep 2) (11 * Second) [serving_report] [6 * Second]
    (mkConn LRecv HSelect [] [] false (Some (13 * Second)) (9 * Second)
      (ReportNewHealthCheck "10.0.0.7:41234" (3 * Second) (RegisterNode "10.0.0.7:41234" New))).

Lemma healthy_node_stays_witness :
  step "10.0.0.7:41234" (10 * Second) TakeTimer (lb after_two) = None ∧ hnd (lb after_two) = HSelect ∧
  ∃ n, 2%nat = (n + 1)%nat ∧ reg_streak (reg (lb after_two)) "10.0.0.7:41234" = Some (u64 (0 + Z.of_nat n)).
Proof.
  apply (healthy_node_stays LB.New (mkTarget "10.0.0.1" 7070) (mkDial None None (Some (GetConfig LB.New)) None)
    (mkClient "10.0.0.1:7070" []) (10 * Second) (5 * Second) 0 "10.0.0.7:41234" 0
    (RegisterNode "10.0.0.7:41234" New) 0 Second (3 * Second) two_reports after_two);
    first [vm_compute; reflexivity|vm_compute; discriminate|vm_compute; split; [discriminate|reflexivity]].
Defined.
